(** * The Hungry Games day simulator of SpikeyBot (js/hungryGames.js)

    A shallow embedding of the day-simulation engine: the entity model
    (Player, Team, Day, the per-guild game record), the event selector and
    applier of [nextDay], the bleed-resolution pass, the reveal step
    [printEvent]/[printDay], the option setter [toggleOpt], and the commands
    that create, configure, start and end a game.

    - JavaScript objects are mutated in place; here the mutable store of one
      guild is threaded explicitly through a small state/exception monad
      that keeps the store at every exit, also when a TypeError propagates.
    - [userPool] and [effectedUsers] hold references to the Player objects
      of [includedUsers]; a reference is the position of the object in that
      array, which [nextDay] never reorders.
    - [Math.random] is an injected tape of draws, each in [0, 1). Draws and
      the weights of [multiEventUserDistribution] are exact rationals.
    - The loops of [nextDay] need not terminate in the source; here they run
      on fuel, one unit per draw on the tape and one more, which is never
      what runs out ([nextDay_fuel]).
    - Replies, channel messages, logs and timers are recorded in an outbox;
      the text and image rendering is left to a [Presenter]. *)

From Stdlib Require Import List ZArith QArith Qround String Bool Lia Permutation
  Ascii DecimalString.
Import ListNotations.
Local Open Scope string_scope.
Local Open Scope list_scope.
Local Open Scope Z_scope.

Set Implicit Arguments.

(** ** Numbers as JavaScript has them, as far as the engine reads them *)

(** A numeric option is whatever [Number(...)] produced: a number or NaN. *)
Inductive jsnum : Type :=
| Num (q : Q)
| NaN.

(** [x < n] for a finite [x]; every comparison with NaN is false. *)
Definition lt_num (x : Q) (n : jsnum) : bool :=
  match n with
  | Num q => negb (Qle_bool q x)
  | NaN => false
  end.

(** [n > 0]. *)
Definition gt_zero (n : jsnum) : bool := lt_num 0%Q n.

Definition len {A : Type} (l : list A) : Z := Z.of_nat (List.length l).

(** ** Entity model *)

Definition UserId := N.

(** [function Player(id, username, avatarURL)]. *)
Record Player : Type := mkPlayer {
  id : UserId;
  name : string;
  avatarURL : string;
  living : bool;
  bleeding : bool;
  rank : Z;
  state : string;
  kills : Z
}.

Definition newPlayer (i : UserId) (username url : string) : Player :=
  mkPlayer i username url true false 1 "normal" 0.

(** [function Team(id, name, players)]; [numPool] is the property the event
    loop attaches to a team ([team.numPool = numPool]), absent until then. *)
Record Team : Type := mkTeam {
  team_id : Z;
  team_name : string;
  players : list UserId;
  team_rank : Z;
  team_numAlive : Z;
  numPool : option Z
}.

(** One side (victim or attacker) of an event template. *)
Record Side : Type := mkSide {
  count : Z;
  outcome : string;
  killer : bool
}.

Record Event : Type := mkEvent {
  message : string;
  victim : Side;
  attacker : Side
}.

(** An arena event: a headline and its own outcome templates. *)
Record ArenaEvent : Type := mkArena {
  arena_message : string;
  outcomes : list (option Event)
}.

(** What [makeSingleEvent] returns. *)
Record FinalEvent : Type := mkFinal {
  final_message : string;
  icons : list string
}.

(** [currentGame.day]. *)
Record Day : Type := mkDay {
  num : Z;
  day_state : Z;
  events : list FinalEvent
}.

Record Options : Type := mkOptions {
  arenaEvents : bool;
  resurrection : bool;
  includeBots : bool;
  allowNoVictors : bool;
  teamSize : jsnum;
  teammatesCollaborate : bool;
  mentionVictor : bool;
  mentionAll : bool;
  mentionEveryoneAtStart : bool;
  delayEvents : jsnum;
  delayDays : jsnum;
  probabilityOfResurrect : jsnum;
  probabilityOfArenaEvent : jsnum;
  probabilityOfBleedToDeath : jsnum
}.

Definition defaultOptions : Options :=
  mkOptions true false false true (Num 0) true true false false
            (Num 3500) (Num 7000) (Num (1 # 10)) (Num (1 # 4)) (Num (1 # 2)).

Record CustomEvents : Type := mkCustom {
  custom_bloodbath : list (option Event);
  custom_player : list (option Event);
  custom_arena : list (option ArenaEvent)
}.

(** [games[id].currentGame]. *)
Record Game : Type := mkGame {
  game_name : string;
  inProgress : bool;
  includedUsers : list Player;
  teams : list Team;
  ended : bool;
  day : Day;
  numAlive : Z
}.

(** [games[id]]. *)
Record Guild : Type := mkGuild {
  excludedUsers : list UserId;
  options : Options;
  customEvents : CustomEvents;
  currentGame : option Game;
  autoPlay : bool
}.

(** The module-level template arrays read from the event file. *)
Record Templates : Type := mkTemplates {
  defaultBloodbathEvents : list (option Event);
  defaultPlayerEvents : list (option Event);
  defaultArenaEvents : list (option ArenaEvent)
}.

(** What the host sees: replies, channel messages, logs and timers. *)
Inductive Output : Type :=
| ReplyMustStart            (* You must start a game first! ... *)
| ReplyAlreadySimulating    (* Already simulating day. *)
| ReplyThinkSimulating      (* I think I'm already simulating... *)
| ReplyStupidError          (* A stupid error happened :( *)
| LogNoSuitableEvent        (* console.log: Failed to find suitable event ... *)
| ErrorOutOfRange           (* common.ERROR: Attempted to select event out of range! *)
| ErrorInvalidEvent         (* common.ERROR: Event at index ... is invalid! *)
| LogNoTeam                 (* console.log: FAILED TO FIND ADEQUATE TEAM FOR USER *)
| LogUsersRemain            (* console.log: Effected users remain! *)
| SendDayBegun (n : Z)      (* embed: Day n has begun! *)
| SendEvent (text : string) (withIcons : bool)
| ErrorAliveCount           (* common.ERROR: Realtime alive count is incorrect! *)
| SendDayEnded (n alive : Z)
| SendStatus (ended : bool)
| ScheduleNextDay           (* client.setTimeout(nextDay, delayDays) *)
| ReplyCreateFirst
| ReplyListOptions
| ReplyEndFirst
| ReplyNotAnOption
| ReplyNeedsNumber (option_name : string)
| ReplyNeedsBoolean (option_name : string)
| ReplySet (option_name : string)
| ReplyTeamsHint
| ReplyNotAddedYet.

(** ** The injected random source *)

Definition Tape := list Q.

(** [Math.random()] returns a number in [0, 1). *)
Definition in_unit (r : Q) : bool := Qle_bool 0 r && negb (Qle_bool 1 r).

(** [Math.floor(r * n)]. *)
Definition floor_mul (r : Q) (n : Z) : Z := Qfloor (r * inject_Z n).

(** ** The store monad

    [Val] is a normal completion, [Exn] a TypeError that propagates out of
    the function (the store keeps every mutation made before it), [Starved]
    the point where the random source has no further draw. *)

Inductive Outcome (S A : Type) : Type :=
| Val (a : A) (s : S) (t : Tape)
| Exn (s : S) (t : Tape)
| Starved (s : S).

Arguments Val {S A} a s t.
Arguments Exn {S A} s t.
Arguments Starved {S A} s.

Definition M (S A : Type) : Type := S -> Tape -> Outcome S A.

Definition ret {S A} (a : A) : M S A := fun s t => Val a s t.

Definition bind {S A B} (m : M S A) (k : A -> M S B) : M S B :=
  fun s t =>
    match m s t with
    | Val a s' t' => k a s' t'
    | Exn s' t' => Exn s' t'
    | Starved s' => Starved s'
    end.

Notation "x <- m ;; k" := (bind m (fun x => k))
  (at level 61, m at next level, right associativity).
Notation "m ;;; k" := (bind m (fun _ => k))
  (at level 61, right associativity).

Definition get {S} : M S S := fun s t => Val s s t.
Definition modify {S} (f : S -> S) : M S unit := fun s t => Val tt (f s) t.
Definition throw {S A} : M S A := fun s t => Exn s t.
Definition starve {S A} : M S A := fun s _ => Starved s.

Definition random {S} : M S Q :=
  fun s t =>
    match t with
    | r :: t' => if in_unit r then Val r s t' else Starved s
    | [] => Starved s
    end.

(** The store an outcome ends in. *)
Definition final {S A} (o : Outcome S A) : S :=
  match o with
  | Val _ s _ => s
  | Exn s _ => s
  | Starved s => s
  end.

(** [for (i = 0; i < n; i++) body(i)] over a list of indices. *)
Fixpoint forEach {S A} (l : list A) (body : A -> M S unit) : M S unit :=
  match l with
  | [] => ret tt
  | x :: l' => body x ;;; forEach l' body
  end.

(** ** weightedRand *)

(** Must total to 1.0 *)
Definition multiEventUserDistribution : list (Z * Q) :=
  [ (1, 66 # 100); (2, 27 # 100); (3, 3 # 100);
    (4, 2 # 100); (6, 15 # 1000); (7, 5 # 1000) ]%Z%Q.

(** The [for (i in ...)] walk of [weightedRand] (lines 963-969):
    [undefined] (here [None]) when [r] exceeds the total. *)
Fixpoint weightedWalk (dist : list (Z * Q)) (sum r : Q) : option Z :=
  match dist with
  | [] => None
  | (i, w) :: rest =>
      let sum' := (sum + w)%Q in
      if Qle_bool r sum' then Some i else weightedWalk rest sum' r
  end.

Definition weightedRandOf (r : Q) : option Z :=
  weightedWalk multiEventUserDistribution 0%Q r.

(** For a draw in [0, 1) the walk always returns (see
    [weightedRandOf_total]); the fall-through is kept as the absence of a
    usable draw. *)
Definition weightedRand {S} : M S Z :=
  r <- random ;;
  match weightedRandOf r with
  | Some i => ret i
  | None => starve
  end.

(** ** The store of one guild during a command *)

Record Sim : Type := mkSim {
  game : Game;
  auto : bool;          (* games[id].autoPlay *)
  sent : list Output
}.

Definition emit (o : Output) : M Sim unit :=
  modify (fun s => mkSim (game s) (auto s) (sent s ++ [o])).

Definition getGame : M Sim Game := fun s t => Val (game s) s t.

Definition modifyGame (f : Game -> Game) : M Sim unit :=
  modify (fun s => mkSim (f (game s)) (auto s) (sent s)).

(** *** Field assignments *)

Definition set_includedUsers (us : list Player) (g : Game) : Game :=
  mkGame (game_name g) (inProgress g) us (teams g) (ended g) (day g) (numAlive g).

Definition set_teams (ts : list Team) (g : Game) : Game :=
  mkGame (game_name g) (inProgress g) (includedUsers g) ts (ended g) (day g)
         (numAlive g).

Definition set_day (d : Day) (g : Game) : Game :=
  mkGame (game_name g) (inProgress g) (includedUsers g) (teams g) (ended g) d
         (numAlive g).

Definition set_numAlive (n : Z) (g : Game) : Game :=
  mkGame (game_name g) (inProgress g) (includedUsers g) (teams g) (ended g)
         (day g) n.

Definition set_over (g : Game) : Game :=
  mkGame (game_name g) false (includedUsers g) (teams g) true (day g)
         (numAlive g).

Definition set_day_state (n : Z) (g : Game) : Game :=
  set_day (mkDay (num (day g)) n (events (day g))) g.

Definition push_event (e : FinalEvent) (g : Game) : Game :=
  set_day (mkDay (num (day g)) (day_state (day g)) (events (day g) ++ [e])) g.

Definition set_living (b : bool) (p : Player) : Player :=
  mkPlayer (id p) (name p) (avatarURL p) b (bleeding p) (rank p) (state p) (kills p).

Definition set_bleeding (b : bool) (p : Player) : Player :=
  mkPlayer (id p) (name p) (avatarURL p) (living p) b (rank p) (state p) (kills p).

Definition set_rank (r : Z) (p : Player) : Player :=
  mkPlayer (id p) (name p) (avatarURL p) (living p) (bleeding p) r (state p) (kills p).

Definition set_state (s : string) (p : Player) : Player :=
  mkPlayer (id p) (name p) (avatarURL p) (living p) (bleeding p) (rank p) s (kills p).

Definition set_kills (k : Z) (p : Player) : Player :=
  mkPlayer (id p) (name p) (avatarURL p) (living p) (bleeding p) (rank p) (state p) k.

Definition set_team_numAlive (n : Z) (t : Team) : Team :=
  mkTeam (team_id t) (team_name t) (players t) (team_rank t) n (numPool t).

Definition set_team_rank (r : Z) (t : Team) : Team :=
  mkTeam (team_id t) (team_name t) (players t) r (team_numAlive t) (numPool t).

Definition set_numPool (n : Z) (t : Team) : Team :=
  mkTeam (team_id t) (team_name t) (players t) (team_rank t) (team_numAlive t)
         (Some n).

(** *** Arrays *)

(** [l[i] = f(l[i])] for an index inside the array. *)
Fixpoint update {A} (i : nat) (f : A -> A) (l : list A) : list A :=
  match l, i with
  | [], _ => []
  | x :: l', O => f x :: l'
  | x :: l', S i' => x :: update i' f l'
  end.

(** [l.findIndex(p)]; [None] stands for -1. *)
Fixpoint findIndex {A} (p : A -> bool) (l : list A) : option nat :=
  match l with
  | [] => None
  | x :: l' => if p x then Some O else option_map S (findIndex p l')
  end.

Definition has {A} (p : A -> bool) (l : list A) : bool :=
  match findIndex p l with Some _ => true | None => false end.

(** [l.splice(start, 1)[0]] and the array left behind. A negative [start]
    counts from the end; nothing is removed at or past the end. *)
Definition splice1 {A} (start : Z) (l : list A) : option A * list A :=
  let n := len l in
  let s := if start <? 0 then Z.max (n + start) 0 else Z.min start n in
  let i := Z.to_nat s in
  (nth_error l i, firstn i l ++ skipn (S i) l).

(** Positions of the elements that satisfy [p], in order: the references
    that [l.filter(p)] holds. *)
Fixpoint positions {A} (p : A -> bool) (i : nat) (l : list A) : list nat :=
  match l with
  | [] => []
  | x :: l' => if p x then i :: positions p (S i) l' else positions p (S i) l'
  end.

(** [haystack.indexOf(needle) > -1]. *)
Fixpoint contains (needle haystack : string) : bool :=
  String.prefix needle haystack ||
  match haystack with
  | EmptyString => false
  | String _ rest => contains needle rest
  end.

(** The first team that lists the user, [teams.find(...)] by position. *)
Definition onTeam (uid : UserId) (t : Team) : bool :=
  has (fun p => N.eqb uid p) (players t).

Definition findTeam (uid : UserId) (ts : list Team) : option nat :=
  findIndex (onTeam uid) ts.

(** [team.numAlive--] and, when that empties the team, its rank. *)
Definition teamLosesMember (i : nat) (ts : list Team) : list Team :=
  let ts1 := update i (fun t => set_team_numAlive (team_numAlive t - 1) t) ts in
  match nth_error ts1 i with
  | Some t =>
      if team_numAlive t =? 0 then
        let teamsLeft := len (filter (fun o => team_numAlive o >? 0) ts1) in
        update i (set_team_rank (teamsLeft + 1)) ts1
      else ts1
  | None => ts1
  end.

(** ** The outcome recorder *)

(** The text and icon rendering of [makeSingleEvent] is the presentation
    layer's: the plural markers and the {victim}/{attacker} substitution,
    the {dead} substitution, and the icon URL rewriting of [getMiniIcons]. *)
Record Presenter : Type := mkPresenter {
  renderNames : string -> list Player -> list Player -> bool -> string;
  renderDead : string -> list Player -> string;
  miniIcon : string -> string
}.

(** A reference held in [userPool] or [effectedUsers]: the position of the
    shared Player object in [includedUsers]; [None] is [undefined]. *)
Definition Ref := option nat.

Definition deref (us : list Player) (r : Ref) : option Player :=
  match r with
  | Some i => nth_error us i
  | None => None
  end.

Fixpoint derefAll (us : list Player) (rs : list Ref) : option (list Player) :=
  match rs with
  | [] => Some []
  | r :: rs' =>
      match deref us r, derefAll us rs' with
      | Some p, Some ps => Some (p :: ps)
      | _, _ => None
      end
  end.

Section Engine.

Variable pres : Presenter.

(** [makeSingleEvent] (lines 984-1019): also returns what is left of the
    [effectedUsers] array, which the two [splice] calls shorten in place. *)
Definition makeSingleEvent (msg : string) (effectedUsers : list Ref)
    (numVictim numAttacker : Z) (mention : bool)
  : M Sim (FinalEvent * list Ref) :=
  let effectedVictims := firstn (Z.to_nat numVictim) effectedUsers in
  let rest := skipn (Z.to_nat numVictim) effectedUsers in
  let effectedAttackers := firstn (Z.to_nat numAttacker) rest in
  let remaining := skipn (Z.to_nat numAttacker) rest in
  g <- getGame ;;
  match derefAll (includedUsers g) effectedVictims,
        derefAll (includedUsers g) effectedAttackers with
  | Some vs, Some ats =>
      let finalMessage := renderNames pres msg vs ats mention in
      finalMessage' <-
        (if contains "{dead}" finalMessage then
           n <- weightedRand ;;
           let deadUsers :=
             firstn (Z.to_nat n)
                    (filter (fun obj => negb (living obj)) (includedUsers g)) in
           ret (renderDead pres finalMessage deadUsers)
         else ret finalMessage) ;;
      ret (mkFinal finalMessage' (map (fun o => miniIcon pres (avatarURL o)) (ats ++ vs)),
           remaining)
  | _, _ => throw
  end.

(** ** Effects on players: the closures rebuilt for each event *)

(** What [effectUser] does to [includedUsers[index]]: a wounded player
    starts bleeding, and the kills are credited. *)
Definition touch (k : Z) (u : Player) : Player :=
  let u' := if String.eqb (state u) "wounded" then set_bleeding true u else u in
  set_kills (kills u' + k) u'.

(** The four assignments that make a player dead, with [rank] the global
    alive counter before its decrement. *)
Definition slay (alive : Z) (u : Player) : Player :=
  set_rank alive (set_state "dead" (set_bleeding false (set_living false u))).

(** [g.includedUsers = f(g.includedUsers)]. *)
Definition on_users (f : list Player -> list Player) (g : Game) : Game :=
  set_includedUsers (f (includedUsers g)) g.

(** [effectUser] (lines 812-821). *)
Definition effectUser (effectedUsers : list Ref) (i : nat) (k : Z) : M Sim nat :=
  g <- getGame ;;
  match nth_error effectedUsers i with
  | Some r =>
      match deref (includedUsers g) r with
      | Some eu =>
          match findIndex (fun obj => N.eqb (id obj) (id eu)) (includedUsers g) with
          | Some index =>
              modifyGame (on_users (update index (touch k))) ;;;
              ret index
          | None => throw
          end
      | None => throw
      end
  | None => throw
  end.

(** [killUser] (lines 823-851). *)
Definition killUser (opts : Options) (effectedUsers : list Ref) (i : nat) (k : Z)
  : M Sim unit :=
  index <- effectUser effectedUsers i k ;;
  modifyGame (fun g =>
    set_numAlive (numAlive g - 1) (on_users (update index (slay (numAlive g))) g)) ;;;
  if gt_zero (teamSize opts) then
    g <- getGame ;;
    match nth_error (includedUsers g) index with
    | Some u =>
        match findTeam (id u) (teams g) with
        | None => emit LogNoTeam
        | Some ti => modifyGame (fun g => set_teams (teamLosesMember ti (teams g)) g)
        end
    | None => throw
    end
  else ret tt.

(** [woundUser] (lines 853-856). *)
Definition woundUser (effectedUsers : list Ref) (i : nat) (k : Z) : M Sim unit :=
  index <- effectUser effectedUsers i k ;;
  modifyGame (on_users (update index (set_state "wounded"))).

(** [restoreUser] (lines 857-860). *)
Definition restoreUser (effectedUsers : list Ref) (i : nat) (k : Z) : M Sim unit :=
  index <- effectUser effectedUsers i k ;;
  modifyGame (on_users (update index (set_state "normal"))).

(** The [switch] on an outcome string. *)
Definition applyOutcome (opts : Options) (effectedUsers : list Ref)
    (what : string) (i : nat) (numKills : Z) : M Sim unit :=
  if String.eqb what "dies" then killUser opts effectedUsers i numKills
  else if String.eqb what "wounded" then woundUser effectedUsers i numKills
  else if String.eqb what "thrives" then restoreUser effectedUsers i numKills
  else (_ <- effectUser effectedUsers i numKills ;; ret tt).

(** The two [for] loops over the victims and then the attackers
    (lines 862-897). *)
Definition applyEffects (opts : Options) (eventTry : Event)
    (effectedUsers : list Ref) (numVictim numAttacker : Z) : M Sim unit :=
  forEach (seq 0 (Z.to_nat numVictim))
    (fun i =>
       let numKills := if killer (victim eventTry) then numAttacker else 0 in
       applyOutcome opts effectedUsers (outcome (victim eventTry)) i numKills) ;;;
  forEach (seq (Z.to_nat numVictim) (Z.to_nat numAttacker))
    (fun i =>
       let numKills := if killer (attacker eventTry) then numVictim else 0 in
       applyOutcome opts effectedUsers (outcome (attacker eventTry)) i numKills).

(** ** The event selector *)

(** The [do ... while] that resolves the "at least N" counts
    (lines 719-722). *)
Fixpoint resolveCounts (fuel : nat) (multiAttacker multiVictim : bool)
    (attackerMin victimMin numAttacker numVictim poolSize : Z)
  : M Sim (Z * Z) :=
  match fuel with
  | O => starve
  | S fuel' =>
      na <- (if multiAttacker
             then w <- weightedRand ;; ret (w + (attackerMin - 1))
             else ret numAttacker) ;;
      nv <- (if multiVictim
             then w <- weightedRand ;; ret (w + (victimMin - 1))
             else ret numVictim) ;;
      if na + nv >? poolSize
      then resolveCounts fuel' multiAttacker multiVictim attackerMin victimMin
                         na nv poolSize
      else ret (na, nv)
  end.

(** [userPool.findIndex(pool => pool.id == player && pool.living) > -1]. *)
Definition inPool (us : list Player) (userPool : list nat) (player : UserId) : bool :=
  has (fun r => match nth_error us r with
                | Some pool => N.eqb (id pool) player && living pool
                | None => false
                end) userPool.

Definition numPoolOf (us : list Player) (userPool : list nat) (t : Team) : Z :=
  len (filter (inPool us userPool) (players t)).

(** The [for] loop over the teams (lines 729-746): stores [numPool] on
    every team and tracks the largest team and the number of teams still in
    the pool. *)
Fixpoint scanTeams (us : list Player) (userPool : list nat) (i : nat)
    (ts : list Team) (largestTeam : nat * Z) (numTeams : Z)
  : list Team * (nat * Z) * Z :=
  match ts with
  | [] => ([], largestTeam, numTeams)
  | t :: ts' =>
      let np := numPoolOf us userPool t in
      let largestTeam' := if np >? snd largestTeam then (i, np) else largestTeam in
      let numTeams' := if np >? 0 then numTeams + 1 else numTeams in
      let '(ts'', l, n) := scanTeams us userPool (S i) ts' largestTeam' numTeams' in
      (set_numPool np t :: ts'', l, n)
  end.

(** [a <= team.numPool]; false while [numPool] is undefined. *)
Definition le_numPool (a : Z) (t : Team) : bool :=
  match numPool t with Some n => a <=? n | None => false end.

Definition rest_fits (a poolSize : Z) (t : Team) : bool :=
  match numPool t with Some n => a <=? poolSize - n | None => false end.

(** The team checks of one draw (lines 725-759); [false] is the
    [continue]. *)
Definition teamCheck (eventTry : Event) (numAttacker numVictim : Z)
    (userPool : list nat) : M Sim bool :=
  g <- getGame ;;
  let '(ts, largestTeam, numTeams) :=
    scanTeams (includedUsers g) userPool 0 (teams g) (O, 0) 0 in
  modifyGame (set_teams ts) ;;;
  if (numTeams <? 2) &&
     (String.eqb (outcome (attacker eventTry)) "dies" ||
      String.eqb (outcome (victim eventTry)) "dies")
  then ret false
  else if negb (((numAttacker <=? snd largestTeam) &&
                 (numVictim <=? len userPool - snd largestTeam)) ||
                ((numVictim <=? snd largestTeam) &&
                 (numAttacker <=? len userPool - snd largestTeam)))
  then ret false
  else ret true.

(** [validTeam] and the [isAttacker] flag its predicate leaves behind. *)
Fixpoint findValidTeam (numAttacker numVictim poolSize : Z) (i : nat)
    (ts : list Team) : option nat * bool :=
  match ts with
  | [] => (None, false)
  | t :: ts' =>
      if le_numPool numAttacker t && rest_fits numVictim poolSize t then (Some i, true)
      else if le_numPool numVictim t && rest_fits numAttacker poolSize t
      then (Some i, false)
      else findValidTeam numAttacker numVictim poolSize (S i) ts'
  end.

Definition findMatching (g : Game) (validTeam : option nat) (userPool : list nat)
    (matching : bool) : Z :=
  match findIndex
          (fun r =>
             let teamId :=
               match nth_error (includedUsers g) r with
               | Some pool => findTeam (id pool) (teams g)
               | None => None
               end in
             let same :=
               match teamId, validTeam with
               | Some a, Some b => Nat.eqb a b
               | None, None => true
               | _, _ => false
               end in
             if matching then same else negb same)
          userPool with
  | Some i => Z.of_nat i
  | None => -1
  end.

(** Participant selection with collaborating teams. *)
Fixpoint selectByTeam (g : Game) (validTeam : option nat) (isAttacker : bool)
    (numVictim : Z) (idxs : list nat) (userPool : list nat)
    (effectedUsers : list Ref) : list nat * list Ref :=
  match idxs with
  | [] => (userPool, effectedUsers)
  | i :: idxs' =>
      let iz := Z.of_nat i in
      let userIndex :=
        findMatching g validTeam userPool
          (((iz <? numVictim) && negb isAttacker) ||
           ((iz >=? numVictim) && isAttacker)) in
      let '(u, userPool') := splice1 userIndex userPool in
      selectByTeam g validTeam isAttacker numVictim idxs' userPool'
                   (effectedUsers ++ [u])
  end.

(** Participant selection without team awareness: one draw per participant. *)
Fixpoint selectRandom (n : nat) (userPool : list nat) (effectedUsers : list Ref)
  : M Sim (list nat * list Ref) :=
  match n with
  | O => ret (userPool, effectedUsers)
  | S n' =>
      r <- random ;;
      let userIndex := floor_mul r (len userPool) in
      let '(u, userPool') := splice1 userIndex userPool in
      selectRandom n' userPool' (effectedUsers ++ [u])
  end.

(** How one pass of the [while] body ends. *)
Inductive Ctl : Type :=
| Next (loop : Z) (userPool : list nat)
| Stop.

Definition teamMode (opts : Options) : bool :=
  teammatesCollaborate opts && gt_zero (teamSize opts).

(** What the selector decides about one drawn template. *)
Inductive Verdict : Type :=
| Abort                                   (* loop > 100: the function returns *)
| Rejected                                (* continue *)
| Accepted (numAttacker numVictim : Z).

(** The loop body from the point where [eventTry] is known up to the
    comment "We found a valid event" (lines 692-767). *)
Definition selectEvent (fuel : nat) (opts : Options) (eventTry : Event)
    (loop : Z) (userPool : list nat) : M Sim Verdict :=
  let numAttacker := count (attacker eventTry) in
  let numVictim := count (victim eventTry) in
  let eventEffectsNumMin := 0 in
  let eventEffectsNumMin :=
    if numVictim <? 0 then eventEffectsNumMin - numVictim
    else eventEffectsNumMin + numVictim in
  let eventEffectsNumMin :=
    if numAttacker <? 0 then eventEffectsNumMin - numAttacker
    else eventEffectsNumMin + numAttacker in
  if loop >? 100 then
    emit LogNoSuitableEvent ;;;
    emit ReplyStupidError ;;;
    modifyGame (set_day_state 0) ;;;
    ret Abort
  else if eventEffectsNumMin >? len userPool then ret Rejected
  else
    let multiAttacker := numAttacker <? 0 in
    let multiVictim := numVictim <? 0 in
    let attackerMin := - numAttacker in
    let victimMin := - numVictim in
    counts <- (if multiAttacker || multiVictim
               then resolveCounts fuel multiAttacker multiVictim attackerMin
                                  victimMin numAttacker numVictim (len userPool)
               else ret (numAttacker, numVictim)) ;;
    let '(numAttacker, numVictim) := counts in
    fits <- (if teamMode opts
             then teamCheck eventTry numAttacker numVictim userPool
             else ret true) ;;
    if negb fits then ret Rejected
    else
      g <- getGame ;;
      let numRemaining := numAlive g in
      let numRemaining :=
        if String.eqb (outcome (victim eventTry)) "dies"
        then numRemaining - numVictim else numRemaining in
      let numRemaining :=
        if String.eqb (outcome (attacker eventTry)) "dies"
        then numRemaining - numAttacker else numRemaining in
      if negb (allowNoVictors opts) && (numRemaining <? 1)
      then ret Rejected
      else ret (Accepted numAttacker numVictim).

(** The rest of the loop body (lines 769-904): the participants are taken
    out of the pool, the outcomes applied and the Final Event recorded.
    Returns the pool. *)
Definition applyEvent (opts : Options) (eventTry : Event)
    (numAttacker numVictim : Z) (userPool : list nat) : M Sim (list nat) :=
  g <- getGame ;;
  chosen <- (if teamMode opts
             then
               let '(validTeam, isAttacker) :=
                 findValidTeam numAttacker numVictim (len userPool) 0 (teams g) in
               ret (selectByTeam g validTeam isAttacker numVictim
                      (seq 0 (Z.to_nat (numAttacker + numVictim))) userPool [])
             else selectRandom (Z.to_nat (numAttacker + numVictim)) userPool []) ;;
  let '(userPool', effectedUsers) := chosen in
  applyEffects opts eventTry effectedUsers numVictim numAttacker ;;;
  made <- makeSingleEvent (message eventTry) effectedUsers numVictim
                          numAttacker (mentionAll opts) ;;
  modifyGame (push_event (fst made)) ;;;
  (if negb (len (snd made) =? 0) then emit LogUsersRemain else ret tt) ;;;
  ret userPool'.

Definition tryEvent (fuel : nat) (opts : Options) (eventTry : Event)
    (loop : Z) (userPool : list nat) : M Sim Ctl :=
  v <- selectEvent fuel opts eventTry loop userPool ;;
  match v with
  | Abort => ret Stop
  | Rejected => ret (Next loop userPool)
  | Accepted numAttacker numVictim =>
      userPool' <- applyEvent opts eventTry numAttacker numVictim userPool ;;
      ret (Next 0 userPool')    (* loop = 0 *)
  end.

(** One pass of the [while (userPool.length > 0)] body (lines 677-904). *)
Definition loopBody (fuel : nat) (opts : Options)
    (userEventPool : list (option Event)) (loop0 : Z) (userPool : list nat)
  : M Sim Ctl :=
  let loop := loop0 + 1 in
  r <- random ;;
  let eventIndex := floor_mul r (len userEventPool) in
  if (eventIndex <? 0) || (eventIndex >=? len userEventPool) then
    emit ErrorOutOfRange ;;; ret (Next loop userPool)
  else
    match nth_error userEventPool (Z.to_nat eventIndex) with
    | Some (Some eventTry) => tryEvent fuel opts eventTry loop userPool
    | _ => emit ErrorInvalidEvent ;;; ret (Next loop userPool)
    end.

(** The [while] loop; [true] when the pool was exhausted, [false] when the
    function returned from inside the loop. *)
Fixpoint eventLoop (fuel : nat) (opts : Options)
    (userEventPool : list (option Event)) (loop : Z) (userPool : list nat)
  : M Sim bool :=
  match fuel with
  | O => starve
  | S fuel' =>
      if len userPool >? 0 then
        c <- loopBody fuel' opts userEventPool loop userPool ;;
        match c with
        | Next loop' userPool' => eventLoop fuel' opts userEventPool loop' userPool'
        | Stop => ret false
        end
      else ret true
  end.

(** ** The day simulator *)

(** The resurrection pass at the start of a day (lines 622-650). *)
Definition resurrect (opts : Options) : M Sim unit :=
  if resurrection opts then
    r <- random ;;
    if lt_num r (probabilityOfResurrect opts) then
      g <- getGame ;;
      let deadPool := positions (fun obj => negb (living obj)) 0 (includedUsers g) in
      if len deadPool >? 0 then
        r' <- random ;;
        match nth_error deadPool (Z.to_nat (floor_mul r' (len deadPool))) with
        | Some resurrected =>
            match nth_error (includedUsers g) resurrected with
            | Some res =>
                modifyGame (on_users
                  (update resurrected
                     (fun u => set_state "zombie" (set_living true u)))) ;;;
                modifyGame (on_users
                  (map (fun obj =>
                          if negb (living obj) && (rank obj <? rank res)
                          then set_rank (rank obj + 1) obj else obj))) ;;;
                modifyGame (fun g =>
                  set_numAlive (numAlive g + 1)
                    (on_users (update resurrected (set_rank 1)) g)) ;;;
                made <- makeSingleEvent
                          "{victim} has returned from the dead and was put back into the arena!"
                          [Some resurrected] 1 0 (mentionAll opts) ;;
                modifyGame (push_event (fst made)) ;;;
                g <- getGame ;;
                match findTeam (id res) (teams g) with
                | Some ti =>
                    modifyGame (fun g =>
                      set_teams
                        (update ti (fun t => set_team_numAlive (team_numAlive t + 1) t)
                                (teams g)) g) ;;;
                    g <- getGame ;;
                    match nth_error (teams g) ti with
                    | Some team =>
                        modifyGame (fun g =>
                          set_teams
                            (map (fun obj =>
                                    if (team_numAlive obj =? 0) &&
                                       (team_rank obj <? team_rank team)
                                    then set_team_rank (team_rank obj + 1) obj
                                    else obj)
                                 (teams g)) g)
                    | None => throw
                    end
                | None => throw      (* team.numAlive++ on undefined *)
                end
            | None => throw
            end
        | None => throw            (* resurrected.living on undefined *)
        end
      else ret tt
    else ret tt
  else ret tt.

(** The template set of the day (lines 655-674). *)
Definition chooseEventPool (tpl : Templates) (custom : CustomEvents)
    (opts : Options) : M Sim (list (option Event)) :=
  g <- getGame ;;
  if num (day g) =? 1 then
    ret (defaultBloodbathEvents tpl ++ custom_bloodbath custom)
  else
    doArenaEvent <- (if arenaEvents opts
                     then r <- random ;; ret (lt_num r (probabilityOfArenaEvent opts))
                     else ret false) ;;
    if doArenaEvent then
      let arenaEventPool := defaultArenaEvents tpl ++ custom_arena custom in
      r <- random ;;
      let index := floor_mul r (len arenaEventPool) in
      match nth_error arenaEventPool (Z.to_nat index) with
      | Some (Some arenaEvent) =>
          made <- makeSingleEvent ("**___" ++ arena_message arenaEvent ++ "___**")
                                  [] 0 0 false ;;
          modifyGame (push_event (fst made)) ;;;
          ret (outcomes arenaEvent)
      | _ => throw
      end
    else ret (defaultPlayerEvents tpl ++ custom_player custom).

(** The bleed-resolution pass: the [forEach] over [includedUsers]. *)
Fixpoint bleedPass (opts : Options) (js : list nat)
    (usersBleeding usersRecovered : list Ref) : M Sim (list Ref * list Ref) :=
  match js with
  | [] => ret (usersBleeding, usersRecovered)
  | j :: js' =>
      g <- getGame ;;
      match nth_error (includedUsers g) j with
      | Some obj =>
          if bleeding obj && living obj then
            r <- random ;;
            if lt_num r (probabilityOfBleedToDeath opts) &&
               (allowNoVictors opts || (numAlive g >? 1))
            then
              modifyGame (fun g =>
                set_numAlive (numAlive g - 1)
                  (on_users (update j (slay (numAlive g))) g)) ;;;
              match findTeam (id obj) (teams g) with
              | Some ti =>
                  modifyGame (fun g => set_teams (teamLosesMember ti (teams g)) g) ;;;
                  bleedPass opts js' (usersBleeding ++ [Some j]) usersRecovered
              | None => throw      (* team.numAlive-- on undefined *)
              end
            else
              modifyGame (on_users
                (update j (fun u => set_state "normal" (set_bleeding false u)))) ;;;
              bleedPass opts js' usersBleeding (usersRecovered ++ [Some j])
          else bleedPass opts js' usersBleeding usersRecovered
      | None => bleedPass opts js' usersBleeding usersRecovered
      end
  end.

(** How [nextDay] returns. *)
Inductive Exit : Type :=
| MustStart
| AlreadySimulating
| ThinkSimulating
| RevealResumed
| NoValidEvent
| DayReady.

(** [nextDay] from [day.state = 1] up to the event loop (lines 618-675):
    the day record, the resurrection pass, the pool of the living and the
    template set. *)
Definition dayStart (tpl : Templates) (custom : CustomEvents) (opts : Options)
  : M Sim (list nat * list (option Event)) :=
  modifyGame (fun g => set_day (mkDay (num (day g) + 1) 1 []) g) ;;;
  resurrect opts ;;;
  g <- getGame ;;
  let userPool := positions living 0 (includedUsers g) in
  userEventPool <- chooseEventPool tpl custom opts ;;
  ret (userPool, userEventPool).

(** [nextDay] after the event loop (lines 906-961): the bleed pass, its
    two Final Events, and the signal that the day is ready to be revealed. *)
Definition dayEnd (opts : Options) : M Sim Exit :=
  g <- getGame ;;
  lists <- bleedPass opts (seq 0 (List.length (includedUsers g))) [] [] ;;
  let '(usersBleeding, usersRecovered) := lists in
  (if len usersRecovered >? 0 then
     made <- makeSingleEvent "{victim} manage[Vs|] to patch their wounds."
                             usersRecovered (len usersRecovered) 0
                             (mentionAll opts) ;;
     modifyGame (push_event (fst made))
   else ret tt) ;;;
  (if len usersBleeding >? 0 then
     made <- makeSingleEvent
               "{victim} fail[Vs|] to tend to their wounds and die[Vs|]."
               usersBleeding (len usersBleeding) 0 (mentionAll opts) ;;
     modifyGame (push_event (fst made))
   else ret tt) ;;;
  modifyGame (set_day_state 2) ;;;
  g <- getGame ;;
  emit (SendDayBegun (num (day g))) ;;;
  ret DayReady.

(** [nextDay] from [day.state = 1] on. *)
Definition simulateDay (fuel : nat) (tpl : Templates) (custom : CustomEvents)
    (opts : Options) : M Sim Exit :=
  start <- dayStart tpl custom opts ;;
  finished <- eventLoop fuel opts (snd start) 0 (fst start) ;;
  if finished then dayEnd opts else ret NoValidEvent.

(** ** The host's view: one guild slot, its reveal timer and the outbox *)

Record World : Type := mkWorld {
  games_id : option Guild;        (* games[id] *)
  intervals_id : bool;            (* whether intervals[id] is set *)
  store : Templates;
  outbox : list Output
}.

Definition say (o : Output) (w : World) : World :=
  mkWorld (games_id w) (intervals_id w) (store w) (outbox w ++ [o]).

Definition set_interval (b : bool) (w : World) : World :=
  mkWorld (games_id w) b (store w) (outbox w).

(** Writes the store of a finished command back into the guild slot. *)
Definition install (w : World) (gd : Guild) (iv : bool) (s : Sim) : World :=
  mkWorld (Some (mkGuild (excludedUsers gd) (options gd) (customEvents gd)
                         (Some (game s)) (auto s)))
          iv (store w) (outbox w ++ sent s).

Definition lift {A} (w : World) (gd : Guild) (iv : A -> bool) (o : Outcome Sim A)
  : Outcome World A :=
  match o with
  | Val a s t => Val a (install w gd (iv a) s) t
  | Exn s t => Exn (install w gd (intervals_id w) s) t
  | Starved s => Starved (install w gd (intervals_id w) s)
  end.

(** [nextDay(msg, id)] (lines 597-962) with a given amount of loop fuel. *)
Definition nextDayWith (fuel : nat) : M World Exit :=
  fun w t =>
    match games_id w with
    | None => Val MustStart (say ReplyMustStart w) t
    | Some gd =>
        match currentGame gd with
        | None => Exn w t
        | Some g =>
            if negb (inProgress g) then Val MustStart (say ReplyMustStart w) t
            else if negb (day_state (day g) =? 0) then
              if intervals_id w
              then Val AlreadySimulating (say ReplyAlreadySimulating w) t
              else if day_state (day g) =? 1
              then Val ThinkSimulating (say ReplyThinkSimulating w) t
              else Val RevealResumed (set_interval true w) t
            else
              lift w gd
                   (fun e => match e with
                             | DayReady => true
                             | _ => intervals_id w
                             end)
                   (simulateDay fuel (store w) (customEvents gd) (options gd)
                                (mkSim g (autoPlay gd) []) t)
        end
    end.

(** [nextDay(msg, id)]: every pass of a loop takes at least one draw, so
    one unit of fuel per draw on the tape, and one more, is never used up
    before the tape is (lemma [nextDay_fuel]). *)
Definition nextDay : M World Exit :=
  fun w t => nextDayWith (S (List.length t)) w t.

(** ** The reveal step *)

Variable sortBy : forall A : Type, (A -> A -> Z) -> list A -> list A.

(** [teams.findIndex(...)] as a number: -1 when the user is on no team. *)
Definition teamIndex (g : Game) (uid : UserId) : Z :=
  match findTeam uid (teams g) with
  | Some i => Z.of_nat i
  | None => -1
  end.

(** The walk over the sorted players that builds the status list: it reads
    [teams[myTeam].name] whenever the team changes. [false] when that read
    hits [undefined]. *)
Fixpoint statusWalk (teamsOn : bool) (g : Game) (prevTeam : Z) (us : list Player)
  : bool :=
  match us with
  | [] => true
  | obj :: us' =>
      let myTeam := if teamsOn then teamIndex g (id obj) else -1 in
      if negb (myTeam =? prevTeam) then
        if (myTeam <? 0) || (myTeam >=? len (teams g)) then false
        else statusWalk teamsOn g myTeam us'
      else statusWalk teamsOn g prevTeam us'
  end.

(** [lastIndex] of the [forEach] that counts the living. *)
Definition lastLiving (us : list Player) : nat :=
  last (positions living 0 us) O.

Definition lastTeamAlive (ts : list Team) : nat :=
  last (positions (fun t => team_numAlive t >? 0) 0 ts) O.

(** [printDay] (lines 1061-1273). *)
Definition printDay (opts : Options) : M Sim unit :=
  g <- getGame ;;
  let teamsOn := gt_zero (teamSize opts) in
  let numAliveNow := len (filter living (includedUsers g)) in
  let numTeams :=
    if teamsOn then len (filter (fun t => team_numAlive t >? 0) (teams g)) else 0 in
  let lastTeam := if teamsOn then lastTeamAlive (teams g) else O in
  (if negb (numAlive g =? numAliveNow) then emit ErrorAliveCount else ret tt) ;;;
  (if numTeams =? 1 then
     match nth_error (teams g) lastTeam with
     | Some team =>
         if forallb (fun player =>
                       has (fun user => N.eqb (id user) player) (includedUsers g))
                    (players team)
         then modify (fun s => mkSim (set_over (game s)) false (sent s))
         else throw
     | None => throw
     end
   else if numAliveNow =? 1 then
     match nth_error (includedUsers g) (lastLiving (includedUsers g)) with
     | Some _ =>
         match (if teamsOn then nth_error (teams g) lastTeam
                else Some (mkTeam 0 EmptyString [] 1 0 None)) with
         | Some _ => modify (fun s => mkSim (set_over (game s)) false (sent s))
         | None => throw     (* teams[lastTeam].name on undefined *)
         end
     | None => throw
     end
   else if numAliveNow <? 1 then
     modify (fun s => mkSim (set_over (game s)) false (sent s))
   else
     (if teamsOn then
        modifyGame (fun g =>
          set_includedUsers
            (sortBy (fun a b =>
                       let aTeam := teamIndex g (id a) in
                       let bTeam := teamIndex g (id b) in
                       if aTeam =? bTeam then Z.of_N (id a) - Z.of_N (id b)
                       else aTeam - bTeam)
                    (includedUsers g)) g)
      else ret tt) ;;;
     g <- getGame ;;
     if statusWalk teamsOn g (-1) (includedUsers g) then ret tt else throw) ;;;
  g <- getGame ;;
  emit (SendDayEnded (num (day g)) numAliveNow) ;;;
  emit (SendStatus (ended g)) ;;;
  (if ended g then
     modifyGame (fun g =>
       set_includedUsers
         (sortBy (fun a b => rank a - rank b) (includedUsers g)) g) ;;;
     if teamsOn then
       modifyGame (fun g =>
         set_teams
           (sortBy (fun a b => team_id a - team_id b)
                   (sortBy (fun a b => team_rank a - team_rank b) (teams g))) g)
     else ret tt
   else ret tt) ;;;
  modifyGame (set_day_state 0) ;;;
  s <- get ;;
  if auto s then emit ScheduleNextDay else ret tt.

(** How [printEvent] returns. *)
Inductive Reveal : Type :=
| Revealed        (* one buffered event was sent, day.state advanced *)
| DayOver.        (* the interval was cleared and printDay ran *)

(** [printEvent] (lines 1025-1060). *)
Definition printEvent : M World Reveal :=
  fun w t =>
    match games_id w with
    | None => Exn w t
    | Some gd =>
        match currentGame gd with
        | None => Exn w t
        | Some g =>
            let index := day_state (day g) - 2 in
            let evs := events (day g) in
            if index =? len evs then
              lift (set_interval false w) gd (fun _ => false)
                   (bind (printDay (options gd)) (fun _ => ret DayOver)
                         (mkSim g (autoPlay gd) []) t)
            else
              match (if index <? 0 then None else nth_error evs (Z.to_nat index)) with
              | Some ev =>
                  lift w gd (fun _ => intervals_id w)
                       ((emit (SendEvent (final_message ev)
                                         (negb (len (icons ev) =? 0))) ;;;
                         modifyGame (fun g => set_day_state (day_state (day g) + 1) g) ;;;
                         ret Revealed)
                          (mkSim g (autoPlay gd) []) t)
              | None => Exn w t     (* events[index].icons on undefined *)
              end
        end
    end.

(** ** The option setter *)

(** The values [toggleOpt] handles, and [typeof] on them. *)
Inductive jsval : Type :=
| VUndefined
| VString (s : string)
| VNumber (n : jsnum)
| VBoolean (b : bool).

Definition typeOf (v : jsval) : string :=
  match v with
  | VUndefined => "undefined"
  | VString _ => "string"
  | VNumber _ => "number"
  | VBoolean _ => "boolean"
  end.

(** [Number(value)] on a string or [undefined]: the language's conversion. *)
Variable Number : option string -> jsnum.

(** [typeof defaultOptions[option]]; the names every object inherits are
    functions (or an object), neither number nor boolean. *)
Definition optionType (opt : string) : string :=
  if existsb (String.eqb opt)
       ["teamSize"; "delayEvents"; "delayDays"; "probabilityOfResurrect";
        "probabilityOfArenaEvent"; "probabilityOfBleedToDeath"]
  then "number"
  else if existsb (String.eqb opt)
       ["arenaEvents"; "resurrection"; "includeBots"; "allowNoVictors";
        "teammatesCollaborate"; "mentionVictor"; "mentionAll";
        "mentionEveryoneAtStart"]
  then "boolean"
  else if existsb (String.eqb opt)
       ["constructor"; "toString"; "toLocaleString"; "valueOf"; "hasOwnProperty";
        "isPrototypeOf"; "propertyIsEnumerable"; "__defineGetter__";
        "__defineSetter__"; "__lookupGetter__"; "__lookupSetter__"]
  then "function"
  else if String.eqb opt "__proto__" then "object"
  else "undefined".

(** [games[id].options[option] = value] for a numeric opt. *)
Definition setNumber (opt : string) (v : jsnum) (o : Options) : Options :=
  mkOptions (arenaEvents o) (resurrection o) (includeBots o) (allowNoVictors o)
    (if String.eqb opt "teamSize" then v else teamSize o)
    (teammatesCollaborate o) (mentionVictor o) (mentionAll o)
    (mentionEveryoneAtStart o)
    (if String.eqb opt "delayEvents" then v else delayEvents o)
    (if String.eqb opt "delayDays" then v else delayDays o)
    (if String.eqb opt "probabilityOfResurrect" then v
     else probabilityOfResurrect o)
    (if String.eqb opt "probabilityOfArenaEvent" then v
     else probabilityOfArenaEvent o)
    (if String.eqb opt "probabilityOfBleedToDeath" then v
     else probabilityOfBleedToDeath o).

(** [games[id].options[option] = value] for a boolean opt. *)
Definition setBoolean (opt : string) (v : bool) (o : Options) : Options :=
  mkOptions
    (if String.eqb opt "arenaEvents" then v else arenaEvents o)
    (if String.eqb opt "resurrection" then v else resurrection o)
    (if String.eqb opt "includeBots" then v else includeBots o)
    (if String.eqb opt "allowNoVictors" then v else allowNoVictors o)
    (teamSize o)
    (if String.eqb opt "teammatesCollaborate" then v else teammatesCollaborate o)
    (if String.eqb opt "mentionVictor" then v else mentionVictor o)
    (if String.eqb opt "mentionAll" then v else mentionAll o)
    (if String.eqb opt "mentionEveryoneAtStart" then v
     else mentionEveryoneAtStart o)
    (delayEvents o) (delayDays o) (probabilityOfResurrect o)
    (probabilityOfArenaEvent o) (probabilityOfBleedToDeath o).

Definition set_options (o : Options) (gd : Guild) : Guild :=
  mkGuild (excludedUsers gd) o (customEvents gd) (currentGame gd) (autoPlay gd).

Definition set_guild (gd : Guild) (w : World) : World :=
  mkWorld (Some gd) (intervals_id w) (store w) (outbox w).

(** [toggleOpt(msg, id)] (lines 1428-1489) with [option] and [value] the
    first two words of the message text ([value] is [undefined] when there is one word). *)
Definition toggleOpt (opt : string) (value : option string) (w : World) : World :=
  match games_id w with
  | None => say ReplyCreateFirst w
  | Some gd =>
      match currentGame gd with
      | None => say ReplyCreateFirst w
      | Some g =>
          if Nat.eqb (String.length opt) 0 then say ReplyListOptions w
          else if inProgress g then say ReplyEndFirst w
          else if String.eqb (optionType opt) "undefined"
          then say ReplyNotAnOption w
          else
            let type := optionType opt in
            if String.eqb type "number" then
              let value := VNumber (Number value) in
              if negb (String.eqb (typeOf value) "number")
              then say (ReplyNeedsNumber opt) w
              else
                match value with
                | VNumber n =>
                    let w1 := say (ReplySet opt)
                                  (set_guild (set_options (setNumber opt n (options gd)) gd) w) in
                    if String.eqb opt "teamSize" then say ReplyTeamsHint w1 else w1
                | _ => w
                end
            else if String.eqb type "boolean" then
              let value :=
                match value with
                | Some s =>
                    if String.eqb s "true" || String.eqb s "false"
                    then VBoolean (String.eqb s "true") else VString s
                | None => VUndefined
                end in
              match value with
              | VBoolean b =>
                  say (ReplySet opt)
                      (set_guild (set_options (setBoolean opt b (options gd)) gd) w)
              | _ => say (ReplyNeedsBoolean opt) w
              end
            else say ReplyNotAddedYet w
      end
  end.

End Engine.

(** * The commands around the simulator

    The functions of js/hungryGames.js that create, configure, start and end
    a game. They work on the same guild record as the simulator; what they
    add to the store is the [defaultOptions] object itself, which
    [createGame] and [resetGame] hand out by reference, and the replies of
    their own. *)

(** ** Text *)

(** The decimal text of an integer, as string concatenation prints it. *)
Definition showZ (z : Z) : string := NilZero.string_of_int (Z.to_int z).

(** The text of a user id (a decimal snowflake). *)
Definition showId (i : UserId) : string := showZ (Z.of_N i).

(** [s.split(' ')]: never empty. *)
Fixpoint split_space (s : string) : list string :=
  match s with
  | EmptyString => [EmptyString]
  | String c rest =>
      if Ascii.eqb c " "%char then EmptyString :: split_space rest
      else match split_space rest with
           | w :: ws => String c w :: ws
           | [] => [String c EmptyString]
           end
  end.

(** [words.join(' ')]. *)
Definition join_space (words : list string) : string := String.concat " " words.

(** One name of [formatMultiNames]: a mention or the quoted name. *)
Definition formatName (mention : bool) (p : Player) : string :=
  if mention then String.append "<@" (String.append (showId (id p)) ">")
  else String.append "`" (String.append (name p) "`").

(** The [for] loop of [formatMultiNames] from index [i] on, [n] being
    [names.length]. *)
Fixpoint formatLoop (mention : bool) (n i : Z) (names : list Player)
    (output : string) : string :=
  match names with
  | [] => output
  | p :: names' =>
      let output := String.append output (formatName mention p) in
      let output :=
        if i =? n - 2 then String.append output ", and "
        else if negb (i =? n - 1) then String.append output ", "
        else output in
      formatLoop mention n (i + 1) names' output
  end.

(** [formatMultiNames] (lines 970-983). *)
Definition formatMultiNames (names : list Player) (mention : bool) : string :=
  formatLoop mention (len names) 0 names "".

(** ** Players and teams *)

(** A guild member as [getAllPlayers] reads it. *)
Record Member : Type := mkMember {
  member_id : UserId;             (* obj.id *)
  user_id : UserId;               (* obj.user.id *)
  username : string;              (* obj.user.username *)
  bot : bool;                     (* obj.user.bot *)
  displayAvatarURL : string       (* obj.user.displayAvatarURL *)
}.

(** [getAllPlayers] (lines 364-377). [members] is read through the array
    interface the function uses ([filter], [length], [slice], [map]);
    [excluded] is [None] when it is not an array. *)
Definition getAllPlayers (members : list Member) (excluded : option (list UserId))
    (bots : bool) : list Player :=
  let finalMembers :=
    if negb bots || (match excluded with Some _ => true | None => false end) then
      filter (fun obj =>
                negb ((negb bots && bot obj) ||
                      match excluded with
                      | Some ex => existsb (N.eqb (user_id obj)) ex
                      | None => false
                      end))
             members
    else [] in
  let finalMembers := if len finalMembers =? 0 then members else finalMembers in
  map (fun obj => newPlayer (member_id obj) (username obj) (displayAvatarURL obj))
      finalMembers.

(** [new Team(id, name, players)] (lines 298-309). *)
Definition newTeam (i : Z) (nm : string) (ps : list UserId) : Team :=
  mkTeam i nm ps 1 (len ps) None.

Definition set_players (ps : list UserId) (t : Team) : Team :=
  mkTeam (team_id t) (team_name t) ps (team_rank t) (team_numAlive t) (numPool t).

Definition set_team_name (nm : string) (t : Team) : Team :=
  mkTeam (team_id t) nm (players t) (team_rank t) (team_numAlive t) (numPool t).

(** [n < 0] and [n == 0]; false for NaN. *)
Definition lt_zero (n : jsnum) : bool :=
  match n with
  | Num q => negb (Qle_bool 0 q)
  | NaN => false
  end.

Definition is_zero (n : jsnum) : bool :=
  match n with
  | Num q => Qeq_bool q 0
  | NaN => false
  end.

(** [l.slice(a, b)] for [0 <= a]. *)
Definition slice {A} (a b : Z) (l : list A) : list A :=
  firstn (Z.to_nat (b - a)) (skipn (Z.to_nat a) l).

(** "Create all teams for players" (lines 426-434), for a team size that is
    neither zero nor negative. [slice] truncates its bounds. *)
Definition freshTeams (teamSize : jsnum) (us : list Player) : list Team :=
  match teamSize with
  | NaN => []                     (* i < NaN is false *)
  | Num q =>
      let numTeams := Qceiling (inject_Z (len us) / q) in
      map (fun i : nat =>
             let iz := Z.of_nat i in
             newTeam iz (String.append "Team " (showZ (iz + 1)))
                     (map id (slice (Qfloor (inject_Z iz * q))
                                    (Qfloor (inject_Z iz * q + q)) us)))
          (seq 0 (Z.to_nat numTeams))
  end.

(** [l.findIndex(p)] as the number [splice] receives. *)
Definition indexOrMinus {A} (p : A -> bool) (l : list A) : Z :=
  match findIndex p l with
  | Some k => Z.of_nat k
  | None => -1
  end.

(** The inner loop over [team.players] (lines 393-406): a player who is no
    longer included is spliced out of the team; an included one is spliced
    out of [notIncluded], at whatever index [findIndex] returned. *)
Fixpoint pruneTeam (included : list Player) (ps : list UserId)
    (notIncluded : list Player) : list UserId * list Player :=
  match ps with
  | [] => ([], notIncluded)
  | p :: ps' =>
      match findIndex (fun obj => N.eqb (id obj) p) included with
      | None => pruneTeam included ps' notIncluded
      | Some _ =>
          let notIncluded' :=
            snd (splice1 (indexOrMinus (fun obj => N.eqb (id obj) p) notIncluded)
                         notIncluded) in
          let '(kept, others) := pruneTeam included ps' notIncluded' in
          (p :: kept, others)
      end
  end.

(** The outer loop over the teams (lines 391-407). *)
Fixpoint pruneTeams (included : list Player) (ts : list Team)
    (notIncluded : list Player) : list Team * list Player :=
  match ts with
  | [] => ([], notIncluded)
  | t :: ts' =>
      let '(kept, others) := pruneTeam included (players t) notIncluded in
      let '(ts'', others') := pruneTeams included ts' others in
      (set_players kept t :: ts'', others')
  end.

(** The first team with room takes the player (lines 411-418). *)
Fixpoint seat (teamSize : jsnum) (p : UserId) (ts : list Team) : option (list Team) :=
  match ts with
  | [] => None
  | t :: ts' =>
      if lt_num (inject_Z (len (players t))) teamSize
      then Some (set_players (players t ++ [p]) t :: ts')
      else option_map (cons t) (seat teamSize p ts')
  end.

(** "Add players who are not on a team, to a team" (lines 409-424). *)
Fixpoint seatAll (teamSize : jsnum) (notIncluded : list Player) (ts : list Team)
  : list Team :=
  match notIncluded with
  | [] => ts
  | u :: rest =>
      match seat teamSize (id u) ts with
      | Some ts' => seatAll teamSize rest ts'
      | None =>
          seatAll teamSize rest
                  (ts ++ [newTeam (len ts) (String.append "Team " (showZ (len ts)))
                                  [id u]])
      end
  end.

(** The closing [forEach] (lines 436-439). *)
Definition recount (obj : Team) : Team :=
  set_team_rank 1 (set_team_numAlive (len (players obj)) obj).

(** The teams [formTeams] leaves, for a team size that is neither zero nor
    negative (lines 386-439). *)
Definition formedTeams (teamSize : jsnum) (g : Game) : list Team :=
  map recount
      (if len (teams g) >? 0 then
         let '(pruned, notIncluded) :=
           pruneTeams (includedUsers g) (teams g) (includedUsers g) in
         seatAll teamSize notIncluded pruned
       else freshTeams teamSize (includedUsers g)).

(** ** Messages and the host's store *)

(** A mentioned user as [excludeUser] and [includeUser] read it;
    [mention_user] is [obj.user], [None] when the object has none. *)
Record UserInfo : Type := mkUserInfo {
  info_bot : bool;                (* obj.user.bot *)
  info_avatar : string            (* obj.user.displayAvatarURL *)
}.

Record Mention : Type := mkMention {
  mention_id : UserId;            (* obj.id *)
  mention_username : string;      (* obj.username *)
  mention_user : option UserInfo  (* obj.user *)
}.

Record Msg : Type := mkMsg {
  msg_text : string;              (* msg.text *)
  guild_members : list Member;    (* msg.guild.members *)
  guild_name : string;            (* msg.guild.name *)
  mentioned : list Mention        (* msg.mentions.users *)
}.

(** One line of the response [excludeUser] and [includeUser] build. *)
Inductive Line : Type :=
| AlreadyExcluded (u : string)
| AddedToBlacklist (u : string)
| RemovedFromIncluded (u : string)
| IsABot (u : string)
| RemovedFromBlacklist (u : string)
| Skipped (u : string)
| AddedToIncluded (u : string)
| SkippedInProgress.

Inductive Notice : Type :=
| FromEngine (o : Output)       (* sent by nextDay, printEvent or toggleOpt *)
| ReplyHasGameInProgress        (* This server already has a Hungry Games in progress. ... *)
| ReplyCreatingFromLast         (* Creating a new game with settings from the last game. *)
| ReplyCreatingDefault          (* Creating a new game with default settings. *)
| ReplyCreatedDefault           (* Created a Hungry Games with default settings and all members included. *)
| ReplyResettingAll             (* Resetting ALL Hungry Games data for this server! *)
| ReplyResettingEvents          (* Resetting ALL Hungry Games events for this server! *)
| ReplyResettingCurrent         (* Resetting ALL data for current game! *)
| ReplyResettingOptions         (* Resetting ALL options! *)
| ReplyResettingTeams           (* Resetting ALL teams! *)
| ReplySpecifyReset             (* Please specify what data to reset. ... *)
| ReplyNoDataToReset            (* There is no data to reset. ... *)
| ReplyAlreadyInProgress        (* A game is already in progress! *)
| ErrorFailedToFindPlayer (player : UserId)
| ReplyLetTheGamesBegin (numUsers numExcluded : Z)
| ReplyCreateBeforeAutoplay     (* You must create a game first before using autoplay. ... *)
| SendAutoplayWillStop          (* Autoplay will stop at the end of the current day. *)
| ReplyNotAutoplaying           (* Not autoplaying. ... *)
| ReplyAlreadyAutoplaying       (* Already autoplaying. ... *)
| SendAutoplayNextDay           (* Enabling Autoplay! Starting the next day! *)
| SendAutoplayStarting          (* Autoplay is enabled, Starting the games! *)
| SendAutoplayEnabled           (* Enabling autoplay! *)
| ReplyNoGameInProgress         (* There isn't a game in progress. *)
| ReplyGameEnded                (* The game has ended! *)
| ReplyMustMentionExclude
| ReplyMustMentionInclude
| ReplyLines (response : list Line)
| SendEndBeforeTeams            (* You must end the current game before editing teams. *)
| ReplySwapNeedsTwo             (* Swapping requires mentioning 2 users ... *)
| ReplyBothOnTeam               (* Please ensure both users are on a team. *)
| ReplySwapped                  (* Swapped players! *)
| ReplySpecifyTeam              (* Please specify a team id, or mention someone ... *)
| ReplyValidTeamId (last : Z)   (* Please specify a valid team id. (0-last) *)
| ReplyRenaming (old new : string)
| ReplyNoPlayers                (* There don't appear to be any included players. ... *)
| ReplyPlayerList (leftOut : bool).

(** The module's state as one guild sees it. [defaultsNow] is the content
    of the [defaultOptions] object and [sharesDefaults] tells whether
    [games[id].options] is that very object: [createGame] (line 343) and
    [resetGame] (line 455) assign the object, not a copy, and every later
    write to [games[id].options] then lands in both. *)
Record Host : Type := mkHost {
  slot : option Guild;            (* games[id] *)
  ticking : bool;                 (* whether intervals[id] is set *)
  eventFile : Templates;
  defaultsNow : Options;
  sharesDefaults : bool;
  notices : list Notice
}.

Definition notify (n : Notice) : M Host unit :=
  modify (fun h => mkHost (slot h) (ticking h) (eventFile h) (defaultsNow h)
                          (sharesDefaults h) (notices h ++ [n])).

Definition set_slot (gd : option Guild) (h : Host) : Host :=
  mkHost gd (ticking h) (eventFile h) (defaultsNow h) (sharesDefaults h) (notices h).

Definition set_currentGame (g : option Game) (gd : Guild) : Guild :=
  mkGuild (excludedUsers gd) (options gd) (customEvents gd) g (autoPlay gd).

Definition set_excludedUsers (ex : list UserId) (gd : Guild) : Guild :=
  mkGuild ex (options gd) (customEvents gd) (currentGame gd) (autoPlay gd).

Definition set_customEvents (c : CustomEvents) (gd : Guild) : Guild :=
  mkGuild (excludedUsers gd) (options gd) c (currentGame gd) (autoPlay gd).

Definition set_autoPlay (b : bool) (gd : Guild) : Guild :=
  mkGuild (excludedUsers gd) (options gd) (customEvents gd) (currentGame gd) b.

Definition set_inProgress (b : bool) (g : Game) : Game :=
  mkGame (game_name g) b (includedUsers g) (teams g) (ended g) (day g) (numAlive g).

Definition set_ended (b : bool) (g : Game) : Game :=
  mkGame (game_name g) (inProgress g) (includedUsers g) (teams g) b (day g)
         (numAlive g).

(** [games[id]], a TypeError when a property of [undefined] is read. *)
Definition guildNow : M Host Guild :=
  fun h t =>
    match slot h with
    | Some gd => Val gd h t
    | None => Exn h t
    end.

(** [games[id].currentGame] likewise. *)
Definition gameNow : M Host Game :=
  gd <- guildNow ;;
  match currentGame gd with
  | Some g => ret g
  | None => throw
  end.

Definition changeGuild (f : Guild -> Guild) : M Host unit :=
  modify (fun h => set_slot (option_map f (slot h)) h).

Definition changeGame (f : Game -> Game) : M Host unit :=
  changeGuild (fun gd => set_currentGame (option_map f (currentGame gd)) gd).

(** [games[id].options = o'], written through to the shared object. *)
Definition assignOptions (o : Options) : M Host unit :=
  modify (fun h =>
    mkHost (option_map (set_options o) (slot h)) (ticking h) (eventFile h)
           (if sharesDefaults h then o else defaultsNow h)
           (sharesDefaults h) (notices h)).

(** The simulator's view of the host, and the host after the simulator
    has run. *)
Definition view (h : Host) : World :=
  mkWorld (slot h) (ticking h) (eventFile h) [].

Definition absorb (h : Host) (w : World) : Host :=
  mkHost (games_id w) (intervals_id w) (eventFile h) (defaultsNow h)
         (sharesDefaults h) (notices h ++ map FromEngine (outbox w)).

Definition engine {A} (m : M World A) : M Host A :=
  fun h t =>
    match m (view h) t with
    | Val a w t' => Val a (absorb h w) t'
    | Exn w t' => Exn (absorb h w) t'
    | Starved w => Starved (absorb h w)
    end.

(** [formTeams] (lines 378-440). *)
Definition formTeams : M Host unit :=
  gd <- guildNow ;;
  (if lt_zero (teamSize (options gd))
   then assignOptions (setNumber "teamSize" (Num 0) (options gd))
   else ret tt) ;;;
  gd <- guildNow ;;
  g <- gameNow ;;
  if is_zero (teamSize (options gd)) then changeGame (set_teams [])
  else changeGame (set_teams (formedTeams (teamSize (options gd)) g)).

(** [createGame] (lines 312-363). *)
Definition createGame (msg : Msg) (silent : bool) : M Host unit :=
  h <- get ;;
  let fresh (us : list Player) : Game :=
    mkGame (String.append (guild_name msg) "'s Hungry Games") false us []
           false (mkDay 0 0 []) (len us) in
  match slot h with
  | Some gd =>
      match currentGame gd with
      | Some g =>
          if inProgress g then
            if silent then ret tt else notify ReplyHasGameInProgress
          else
            (if silent then ret tt else notify ReplyCreatingFromLast) ;;;
            let us := getAllPlayers (guild_members msg) (Some (excludedUsers gd))
                                    (includeBots (options gd)) in
            changeGame (fun g =>
              set_numAlive (len us)
                (set_includedUsers us (set_day (mkDay 0 0 []) (set_ended false g)))) ;;;
            formTeams
      | None =>
          (if silent then ret tt else notify ReplyCreatingDefault) ;;;
          let us := getAllPlayers (guild_members msg) (Some (excludedUsers gd))
                                  (includeBots (options gd)) in
          changeGuild (set_currentGame (Some (fresh us))) ;;;
          formTeams
      end
  | None =>
      let us := getAllPlayers (guild_members msg) (Some []) false in
      modify (fun h =>
        mkHost (Some (mkGuild [] (defaultsNow h) (mkCustom [] [] [])
                              (Some (fresh us)) false))
               (ticking h) (eventFile h) (defaultsNow h) true (notices h)) ;;;
      (if silent then ret tt else notify ReplyCreatedDefault) ;;;
      formTeams
  end.

(** [resetGame] (lines 441-467). The custom events left by "events" have
    no [bloodbath] array; its only reader here, [concat] in [nextDay],
    appends [undefined] as one element, which is what [[None]] gives. *)
Definition resetGame (msg : Msg) : M Host unit :=
  let command := hd EmptyString (split_space (msg_text msg)) in
  h <- get ;;
  match slot h with
  | Some gd =>
      if String.eqb command "all" then
        notify ReplyResettingAll ;;;
        modify (set_slot None)
      else if String.eqb command "events" then
        notify ReplyResettingEvents ;;;
        changeGuild (set_customEvents (mkCustom [None] [] []))
      else if String.eqb command "current" then
        notify ReplyResettingCurrent ;;;
        changeGuild (set_currentGame None)
      else if String.eqb command "options" then
        notify ReplyResettingOptions ;;;
        modify (fun h =>
          mkHost (option_map (set_options (defaultsNow h)) (slot h)) (ticking h)
                 (eventFile h) (defaultsNow h) true (notices h))
      else if String.eqb command "teams" then
        notify ReplyResettingTeams ;;;
        _ <- gameNow ;;
        changeGame (set_teams []) ;;;
        formTeams
      else notify ReplySpecifyReset
  | None => notify ReplyNoDataToReset
  end.

(** The first team member, in the order [teams.map] and [players.map]
    visit them, that [includedUsers.find] does not find. *)
Definition missingPlayer (g : Game) : option UserId :=
  find (fun player => negb (has (fun obj => N.eqb (id obj) player) (includedUsers g)))
       (List.concat (map players (teams g))).

Section Commands.

Variable pres : Presenter.
Variable sortBy : forall A : Type, (A -> A -> Z) -> list A -> list A.
Variable Number : option string -> jsnum.

(** [startGame] (lines 492-550). *)
Definition startGame (msg : Msg) : M Host unit :=
  h <- get ;;
  if match slot h with
     | Some gd => match currentGame gd with
                  | Some g => inProgress g
                  | None => false
                  end
     | None => false
     end
  then notify ReplyAlreadyInProgress
  else
    createGame msg true ;;;
    gd <- guildNow ;;
    g <- gameNow ;;
    (if gt_zero (teamSize (options gd)) then
       match missingPlayer g with
       | Some player => notify (ErrorFailedToFindPlayer player) ;;; throw
       | None => ret tt
       end
     else ret tt) ;;;
    notify (ReplyLetTheGamesBegin (len (includedUsers g)) (len (excludedUsers gd))) ;;;
    changeGame (set_inProgress true) ;;;
    if autoPlay gd then (_ <- engine (nextDay pres) ;; ret tt) else ret tt.

(** [pauseAutoplay] (lines 551-566). *)
Definition pauseAutoplay : M Host unit :=
  h <- get ;;
  match slot h with
  | None => notify ReplyCreateBeforeAutoplay
  | Some gd =>
      if autoPlay gd then
        notify SendAutoplayWillStop ;;;
        changeGuild (set_autoPlay false)
      else notify ReplyNotAutoplaying
  end.

(** [startAutoplay] (lines 567-595). *)
Definition startAutoplay (msg : Msg) : M Host unit :=
  h <- get ;;
  match slot h with
  | None => notify ReplyCreateBeforeAutoplay
  | Some gd =>
      if autoPlay gd then notify ReplyAlreadyAutoplaying
      else
        changeGuild (set_autoPlay true) ;;;
        g <- gameNow ;;
        if inProgress g && (day_state (day g) =? 0) then
          notify SendAutoplayNextDay ;;;
          (_ <- engine (nextDay pres) ;; ret tt)
        else if negb (inProgress g) then
          notify SendAutoplayStarting ;;;
          startGame msg
        else notify SendAutoplayEnabled
  end.

(** [endGame] (lines 1274-1284). *)
Definition endGame : M Host unit :=
  h <- get ;;
  match slot h with
  | None => notify ReplyNoGameInProgress
  | Some gd =>
      g <- gameNow ;;
      if negb (inProgress g) then notify ReplyNoGameInProgress
      else
        notify ReplyGameEnded ;;;
        changeGame (fun g => set_ended true (set_inProgress false g)) ;;;
        modify (fun h => mkHost (slot h) false (eventFile h) (defaultsNow h)
                                (sharesDefaults h) (notices h))
  end.

(** One pass of the [forEach] of [excludeUser] (lines 1294-1312). *)
Definition excludeOne (obj : Mention) (response : list Line) : M Host (list Line) :=
  gd <- guildNow ;;
  if existsb (N.eqb (mention_id obj)) (excludedUsers gd) then
    ret (response ++ [AlreadyExcluded (mention_username obj)])
  else
    changeGuild (fun gd => set_excludedUsers (excludedUsers gd ++ [mention_id obj]) gd) ;;;
    let response := response ++ [AddedToBlacklist (mention_username obj)] in
    g <- gameNow ;;
    if negb (inProgress g) && negb (ended g) then
      match findIndex (fun el => N.eqb (id el) (mention_id obj)) (includedUsers g) with
      | Some index =>
          changeGame (fun g =>
            set_includedUsers (snd (splice1 (Z.of_nat index) (includedUsers g))) g) ;;;
          formTeams ;;;
          ret (response ++ [RemovedFromIncluded (mention_username obj)])
      | None => ret response
      end
    else ret response.

Fixpoint forEachLine {A} (l : list A) (body : A -> list Line -> M Host (list Line))
    (response : list Line) : M Host (list Line) :=
  match l with
  | [] => ret response
  | x :: l' => r <- body x response ;; forEachLine l' body r
  end.

(** [excludeUser] (lines 1287-1315). *)
Definition excludeUser (msg : Msg) : M Host unit :=
  if len (mentioned msg) =? 0 then notify ReplyMustMentionExclude
  else
    response <- forEachLine (mentioned msg) excludeOne [] ;;
    notify (ReplyLines response).

(** [excludedUsers.indexOf(x)]. *)
Definition indexOfId (x : UserId) (l : list UserId) : option nat :=
  findIndex (N.eqb x) l.

(** One pass of the [forEach] of [includeUser] (lines 1324-1345). *)
Definition includeOne (obj : Mention) (response : list Line) : M Host (list Line) :=
  gd <- guildNow ;;
  isBot <- (if includeBots (options gd) then ret false
            else match mention_user obj with
                 | Some u => ret (info_bot u)
                 | None => throw
                 end) ;;
  if isBot then ret (response ++ [IsABot (mention_username obj)])
  else
    response <-
      match indexOfId (mention_id obj) (excludedUsers gd) with
      | Some excludeIndex =>
          changeGuild (fun gd =>
            set_excludedUsers (snd (splice1 (Z.of_nat excludeIndex) (excludedUsers gd)))
                              gd) ;;;
          ret (response ++ [RemovedFromBlacklist (mention_username obj)])
      | None => ret response
      end ;;
    g <- gameNow ;;
    if inProgress g then ret (response ++ [Skipped (mention_username obj)])
    else if is_zero (teamSize (options gd)) then
      match mention_user obj with
      | Some u =>
          changeGame (fun g =>
            set_includedUsers
              (includedUsers g ++
               [newPlayer (mention_id obj) (mention_username obj) (info_avatar u)]) g) ;;;
          ret (response ++ [AddedToIncluded (mention_username obj)])
      | None => throw
      end
    else formTeams ;;; ret response.

(** [includeUser] (lines 1317-1352). *)
Definition includeUser (msg : Msg) : M Host unit :=
  if len (mentioned msg) =? 0 then notify ReplyMustMentionInclude
  else
    response <- forEachLine (mentioned msg) includeOne [] ;;
    g <- gameNow ;;
    notify (ReplyLines (if inProgress g then response ++ [SkippedInProgress]
                        else response)).

(** [listPlayers] (lines 1354-1416), as far as it can fail: the names it
    prints are the presentation's. *)
Definition listPlayers : M Host unit :=
  h <- get ;;
  match slot h with
  | Some gd =>
      match currentGame gd with
      | Some g =>
          if is_zero (teamSize (options gd)) then notify (ReplyPlayerList false)
          else
            match missingPlayer g with
            | Some player => notify (ErrorFailedToFindPlayer player) ;;; throw
            | None =>
                notify (ReplyPlayerList
                          (negb (len (List.concat (map players (teams g)))
                                 =? len (includedUsers g))))
            end
      | None => notify ReplyNoPlayers
      end
  | None => notify ReplyNoPlayers
  end.

(** Where [swapTeamUsers] finds a user: the first team that lists the
    user, and the position in that team. *)
Fixpoint locate (user : UserId) (ts : list Team) : option (nat * nat) :=
  match ts with
  | [] => None
  | t :: ts' =>
      match findIndex (fun player => N.eqb player user) (players t) with
      | Some index => Some (O, index)
      | None => option_map (fun ij => (S (fst ij), snd ij)) (locate user ts')
      end
  end.

(** [teams[t].players[p] = v]. *)
Definition set_member (t p : nat) (v : UserId) (ts : list Team) : list Team :=
  update t (fun team => set_players (update p (fun _ => v) (players team)) team) ts.

Definition member_at (t p : nat) (ts : list Team) : option UserId :=
  match nth_error ts t with
  | Some team => nth_error (players team) p
  | None => None
  end.

(** The three assignments of the swap (lines 1548-1552). *)
Definition swapped (t1 p1 t2 p2 : nat) (ts : list Team) : option (list Team) :=
  match member_at t1 p1 ts, member_at t2 p2 ts with
  | Some intVal, Some other =>
      Some (set_member t2 p2 intVal (set_member t1 p1 other ts))
  | _, _ => None
  end.

(** [swapTeamUsers] (lines 1521-1555). *)
Definition swapTeamUsers (msg : Msg) : M Host unit :=
  match mentioned msg with
  | [first; second] =>
      g <- gameNow ;;
      match locate (mention_id first) (teams g), locate (mention_id second) (teams g) with
      | Some (teamId1, playerId1), Some (teamId2, playerId2) =>
          match swapped teamId1 playerId1 teamId2 playerId2 (teams g) with
          | Some ts => changeGame (set_teams ts) ;;; notify ReplySwapped
          | None => throw
          end
      | _, _ => notify ReplyBothOnTeam
      end
  | _ => notify ReplySwapNeedsTwo
  end.

(** [isNaN(search)]. *)
Definition isNaN (n : jsnum) : bool :=
  match n with
  | NaN => true
  | Num _ => false
  end.

(** [teams[teamId]] for a number: [undefined] unless it is a whole index. *)
Definition at_number {A} (l : list A) (x : Q) : option A :=
  if Qeq_bool (inject_Z (Qfloor x)) x && (0 <=? Qfloor x)
  then nth_error l (Z.to_nat (Qfloor x)) else None.

(** [renameTeam] (lines 1556-1582). *)
Definition renameTeam (msg : Msg) : M Host unit :=
  let split := tl (split_space (msg_text msg)) in
  let message := join_space (tl split) in
  let search := Number (hd_error split) in
  if isNaN search && (len (mentioned msg) =? 0) then notify ReplySpecifyTeam
  else
    g <- gameNow ;;
    let teamId : Q :=
      match search with
      | Num q => (q - 1)%Q
      | NaN =>
          match mentioned msg with
          | first :: _ =>
              inject_Z (indexOrMinus
                          (fun team => has (fun player => N.eqb player (mention_id first))
                                           (players team))
                          (teams g))
          | [] => (-1)%Q
          end
      end in
    if negb (Qle_bool 0 teamId) || Qle_bool (inject_Z (len (teams g))) teamId then
      notify (ReplyValidTeamId (len (teams g) - 1))
    else
      match at_number (teams g) teamId with
      | Some team =>
          notify (ReplyRenaming (team_name team) message) ;;;
          changeGame (fun g =>
            set_teams (update (Z.to_nat (Qfloor teamId)) (set_team_name message)
                              (teams g)) g)
      | None => throw
      end.

(** [editTeam] (lines 1492-1520). *)
Definition editTeam (msg : Msg) : M Host unit :=
  let split0 := hd EmptyString (split_space (msg_text msg)) in
  g <- gameNow ;;
  if inProgress g && (String.eqb split0 "swap" || String.eqb split0 "reset") then
    notify SendEndBeforeTeams
  else if String.eqb split0 "swap" then swapTeamUsers msg
  else if String.eqb split0 "rename" then renameTeam msg
  else if String.eqb split0 "reset" then
    notify ReplyResettingTeams ;;;
    changeGame (set_teams []) ;;;
    formTeams
  else listPlayers.

(** [toggleOpt] on the host: [option] and [value] are the first two words
    of [msg.text], and the assignment lands in the shared object too. *)
Definition toggleOptShared (msg : Msg) : M Host unit :=
  fun h t =>
    let words := split_space (msg_text msg) in
    let w := toggleOpt Number (hd EmptyString words) (nth_error words 1) (view h) in
    Val tt
        (mkHost (games_id w) (intervals_id w) (eventFile h)
                (match games_id w with
                 | Some gd => if sharesDefaults h then options gd else defaultsNow h
                 | None => defaultsNow h
                 end)
                (sharesDefaults h) (notices h ++ map FromEngine (outbox w)))
        t.

End Commands.

(** * Specification vocabulary and sample instances *)

Unset Implicit Arguments.

(** [triple P m Q E]: from a store satisfying [P], a normal completion of
    [m] ends in a store satisfying [Q] at the returned value, and every
    other exit (a propagating error, an exhausted random source) ends in a
    store satisfying [E]. *)
Definition triple {S A} (P : S -> Prop) (m : M S A) (Q : A -> S -> Prop)
    (E : S -> Prop) : Prop :=
  forall s t, P s ->
    match m s t with
    | Val a s' _ => Q a s'
    | Exn s' _ => E s'
    | Starved s' => E s'
    end.

(** The number of players whose [living] flag is set. *)
Definition countLiving (us : list Player) : Z := len (filter living us).

Definition b2z (b : bool) : Z := if b then 1 else 0.

Definition users (s : Sim) : list Player := includedUsers (game s).

Definition alive (s : Sim) : Z := numAlive (game s).

Definition keeps {A} (m : M Sim A) : Prop :=
  forall s t, users (final (m s t)) = users s /\ alive (final (m s t)) = alive s.

(** A predicate on the players and the counter, read off a store. *)
Definition on_core (I : list Player -> Z -> Prop) : Sim -> Prop :=
  fun s => I (users s) (alive s).

(** [us[r]] is a living player. *)
Definition Live (us : list Player) (r : nat) : Prop :=
  exists p, nth_error us r = Some p /\ living p = true.

(** The references of a pool are distinct and point at living players. *)
Definition PoolOk (us : list Player) (pool : list nat) : Prop :=
  NoDup pool /\ Forall (Live us) pool.

(** No dead player carries the bleeding flag. *)
Definition DeadClean (us : list Player) : Prop :=
  forall p, In p us -> living p = false -> bleeding p = false.

(** Ids are distinct; with [C] set the counter counts the living; with [B]
    set no dead player bleeds. *)
Definition Base (C B : bool) (us : list Player) (n : Z) : Prop :=
  NoDup (map id us) /\ (C = true -> n = countLiving us) /\
  (B = true -> DeadClean us).

(** The defined references of an [effectedUsers] array. *)
Fixpoint refs (E : list Ref) : list nat :=
  match E with
  | [] => []
  | Some r :: E' => r :: refs E'
  | None :: E' => refs E'
  end.

Definition with_game (g : Game) (s : Sim) : Sim := mkSim g (auto s) (sent s).

(** Between two effects: the invariant, the references still to be
    affected, and room for the kills still to come. *)
Definition Mid (C B : bool) (lo : Z) (pending : list nat) (us : list Player) (n : Z) : Prop :=
  Base C B us n /\ PoolOk us pending /\ lo <= n.

(** At every exit. *)
Definition Out (C B : bool) (lo : Z) (us : list Player) (n : Z) : Prop :=
  Base C B us n /\ lo <= n.

(** The room an outcome needs in the alive counter. *)
Definition dies (what : string) : Z := if String.eqb what "dies" then 1 else 0.

(** The deaths an accepted event brings. *)
Definition deaths (ev : Event) (na nv : Z) : Z :=
  nv * dies (outcome (victim ev)) + na * dies (outcome (attacker ev)).

(** The invariant of the event loop: with "allow no victors" off the
    counter never falls below [lo], for any [lo <= 1]. *)
Definition Inv (C B : bool) (opts : Options) (lo : Z) (pool : list nat) (us : list Player) (n : Z) : Prop :=
  Base C B us n /\ PoolOk us pool /\ (allowNoVictors opts = false -> lo <= n).

Definition InvOut (C B : bool) (opts : Options) (lo : Z) (us : list Player) (n : Z) : Prop :=
  Base C B us n /\ (allowNoVictors opts = false -> lo <= n).

(** The living players below [k] do not bleed. *)
Definition CalmBelow (k : nat) (us : list Player) : Prop :=
  forall j p, (j < k)%nat -> nth_error us j = Some p ->
              living p = true -> bleeding p = false.

Definition BleedInv (C B : bool) (opts : Options) (lo : Z) (L k : nat) (us : list Player) (n : Z) : Prop :=
  (InvOut C B opts lo us n /\ CalmBelow k us) /\ List.length us = L.

(** No living player bleeds. *)
Definition Calm (us : list Player) : Prop :=
  forall p, In p us -> living p = true -> bleeding p = false.

(** Ids distinct, the counter exact: what a permutation cannot break. *)
Definition Sound (us : list Player) (n : Z) : Prop :=
  NoDup (map id us) /\ n = countLiving us.

(** The current game of the guild, when there is one. *)
Definition theGame (w : World) : option Game :=
  match games_id w with
  | Some gd => currentGame gd
  | None => None
  end.

(** No two included players share an id. *)
Definition distinctIds (w : World) : Prop :=
  forall g, theGame w = Some g -> NoDup (map id (includedUsers g)).

(** The global alive counter equals the number of living players. *)
Definition aliveCounted (w : World) : Prop :=
  forall g, theGame w = Some g -> numAlive g = countLiving (includedUsers g).

(** A presenter that leaves the template text as it is. *)
Definition plainPresenter : Presenter :=
  mkPresenter (fun m _ _ _ => m) (fun m _ => m) (fun u => u).

(** Insertion sort by a comparator, as one lawful [Array.prototype.sort]. *)
Fixpoint insertBy {A} (cmp : A -> A -> Z) (x : A) (l : list A) : list A :=
  match l with
  | [] => [x]
  | y :: l' => if cmp x y <? 0 then x :: y :: l' else y :: insertBy cmp x l'
  end.

Definition insertionSort (A : Type) (cmp : A -> A -> Z) (l : list A) : list A :=
  fold_right (insertBy cmp) [] l.

(** A decimal reading of [Number]: digits only, anything else is NaN. *)
Fixpoint digitsValue (s : string) (acc : Z) : option Z :=
  match s with
  | EmptyString => Some acc
  | String c rest =>
      let n := Z.of_nat (Ascii.nat_of_ascii c) - 48 in
      if (0 <=? n) && (n <=? 9) then digitsValue rest (10 * acc + n) else None
  end.

Definition decimalNumber (v : option string) : jsnum :=
  match v with
  | Some (String c rest) =>
      match digitsValue (String c rest) 0 with
      | Some z => Num (inject_Z z)
      | None => NaN
      end
  | Some EmptyString => Num 0
  | None => NaN
  end.

(** Four players, no teams, the first day still to come. *)
Definition fourPlayers : list Player :=
  [newPlayer 1%N "ann" "a"; newPlayer 2%N "bob" "b";
   newPlayer 3%N "cat" "c"; newPlayer 4%N "dan" "d"].

Definition oneDies : Event :=
  mkEvent "{victim} dies" (mkSide 1 "dies" false) (mkSide 0 "nothing" false).

Definition freshGame : Game :=
  mkGame "Games" true fourPlayers [] false (mkDay 0 0 []) 4.

Definition freshGuild (o : Options) : Guild :=
  mkGuild [] o (mkCustom [] [] []) (Some freshGame) false.

Definition freshWorld (o : Options) : World :=
  mkWorld (Some (freshGuild o)) false (mkTemplates [Some oneDies] [Some oneDies] []) [].

Definition zeros (n : nat) : Tape := repeat 0%Q n.

Definition noVictorsOff : Options :=
  mkOptions true false false false (Num 0) true true false false
            (Num 3500) (Num 7000) (Num (1 # 10)) (Num (1 # 4)) (Num (1 # 2)).

(** One of four players starts the day wounded; every event wounds. *)
Definition woundedGame : Game :=
  mkGame "Games" true
         (set_state "wounded" (newPlayer 1%N "ann" "a") :: tl fourPlayers)
         [] false (mkDay 0 0 []) 4.

Definition oneWounded : Event :=
  mkEvent "{victim} is hurt" (mkSide 1 "wounded" false) (mkSide 0 "nothing" false).

Definition woundedGuild : Guild :=
  mkGuild [] defaultOptions (mkCustom [] [] []) (Some woundedGame) false.

Definition woundedWorld : World :=
  mkWorld (Some woundedGuild) false
          (mkTemplates [Some oneWounded] [Some oneWounded] []) [].

Definition woundedTape : Tape := zeros 8 ++ [3 # 4]%Q.

(** The tape an outcome leaves. *)
Definition rest {S A} (o : Outcome S A) : Tape :=
  match o with
  | Val _ _ t => t
  | Exn _ t => t
  | Starved _ => []
  end.

(** At least one victim, one attacker. *)
Definition ambush : Event :=
  mkEvent "{attacker} ambushes {victim}" (mkSide (-1) "dies" true)
          (mkSide 1 "nothing" false).

(** What the NoValidEvent return leaves: the day's state at 0, the log line
    and the reply, everything else as it was. *)
Definition abort (s : Sim) : Sim :=
  mkSim (set_day_state 0 (game s)) (auto s)
        (sent s ++ [LogNoSuitableEvent; ReplyStupidError]).

(** Passes of the [while] body that continue the loop, from one loop state
    (fuel, counter, pool, store, tape) to another. *)
Inductive passes (pres : Presenter) (opts : Options) (pool : list (option Event))
  : nat -> Z -> list nat -> Sim -> Tape ->
    nat -> Z -> list nat -> Sim -> Tape -> Prop :=
| passes_none f loop up s t : passes pres opts pool f loop up s t f loop up s t
| passes_next f loop up s t loop1 up1 s1 t1 f' loop' up' s' t' :
    0 < len up ->
    loopBody pres f opts pool loop up s t = Val (Next loop1 up1) s1 t1 ->
    passes pres opts pool f loop1 up1 s1 t1 f' loop' up' s' t' ->
    passes pres opts pool (S f) loop up s t f' loop' up' s' t'.

(** [n] passes in a row that reject their draw: each one only counts. *)
Inductive rejections (pres : Presenter) (opts : Options) (pool : list (option Event))
  : nat -> nat -> Z -> list nat -> Sim -> Tape -> nat -> Sim -> Tape -> Prop :=
| rejections_none f loop up s t : rejections pres opts pool 0 f loop up s t f s t
| rejections_next n f loop up s t s1 t1 f' s' t' :
    0 < len up ->
    loopBody pres f opts pool loop up s t = Val (Next (loop + 1) up) s1 t1 ->
    rejections pres opts pool n f (loop + 1) up s1 t1 f' s' t' ->
    rejections pres opts pool (S n) (S f) loop up s t f' s' t'.

(** Steps that leave one projection of the game alone. *)
Definition keepsG {X A} (p : Game -> X) (m : M Sim A) : Prop :=
  forall s t, p (game (final (m s t))) = p (game s).

(** The fields of a game other than its teams. *)
Definition apartFromTeams (g : Game)
  : string * bool * list Player * bool * Day * Z :=
  (game_name g, inProgress g, includedUsers g, ended g, day g, numAlive g).

(** The replies [nextDay] gives when it does not start a day. *)
Definition errorReply (o : Output) : Prop :=
  o = ReplyMustStart \/ o = ReplyAlreadySimulating \/ o = ReplyThinkSimulating.

(** A game in progress whose day waits to be revealed, no timer running. *)
Definition revealingGame : Game :=
  mkGame "Games" true fourPlayers [] false
         (mkDay 1 2 [mkFinal "{victim} is hurt" ["a"]]) 4.

Definition revealingWorld : World :=
  mkWorld (Some (mkGuild [] defaultOptions (mkCustom [] [] []) (Some revealingGame) false))
          false (mkTemplates [Some oneDies] [Some oneDies] []) [].

Definition dayNum (g : Game) : Z := num (day g).

(** Bloodbath and ordinary templates that can be told apart. *)
Definition bloodbathOnly : Event :=
  mkEvent "{victim} runs from the cornucopia" (mkSide 1 "nothing" false)
          (mkSide 0 "nothing" false).

Definition ordinaryOnly : Event :=
  mkEvent "{victim} goes hunting" (mkSide 1 "nothing" false)
          (mkSide 0 "nothing" false).

Definition twoSets : Templates :=
  mkTemplates [Some bloodbathOnly] [Some ordinaryOnly] [].

Definition firstDayWorld : World :=
  mkWorld (Some (freshGuild defaultOptions)) false twoSets [].

Definition noArena : Options :=
  mkOptions false false false true (Num 0) true true false false
            (Num 3500) (Num 7000) (Num (1 # 10)) (Num (1 # 4)) (Num (1 # 2)).

Definition atDay (n : Z) : Sim :=
  mkSim (set_day (mkDay n 1 []) freshGame) false [].

(** A created game that has not been started. *)
Definition idleGame : Game :=
  mkGame "Games" false fourPlayers [] false (mkDay 0 0 []) 4.

Definition idleWorld : World :=
  mkWorld (Some (mkGuild [] defaultOptions (mkCustom [] [] []) (Some idleGame) false))
          false twoSets [].

(** A day fully revealed: the state points just past the last event. *)
Definition exhaustedGame : Game :=
  mkGame "Games" true fourPlayers [] false
         (mkDay 1 3 [mkFinal "{victim} is hurt" ["a"]]) 4.

Definition exhaustedWorld : World :=
  mkWorld (Some (mkGuild [] defaultOptions (mkCustom [] [] []) (Some exhaustedGame) false))
          true twoSets [].

(** A step never gives draws back: the tape it leaves is no longer than
    the tape it found. *)
Definition tapeMono {A} (m : M Sim A) : Prop :=
  forall s t a s' t', m s t = Val a s' t' -> (List.length t' <= List.length t)%nat.

(** ** Vocabulary of the commands *)

(** The player [getAllPlayers] makes of a member. *)
Definition playerOf (m : Member) : Player :=
  newPlayer (member_id m) (username m) (displayAvatarURL m).

(** All the ids the teams list, team after team. *)
Definition rosters (ts : list Team) : list UserId := List.concat (map players ts).

(** [t'] is the team [t] with its id and name, its members in their order,
    and possibly more members after them. *)
Definition grownFrom (t t' : Team) : Prop :=
  team_id t' = team_id t /\ team_name t' = team_name t /\
  exists added, players t' = players t ++ added.

(** The members of a team who are among the included players. *)
Definition stillIncluded (us : list Player) (t : Team) : Team :=
  set_players (filter (fun p => has (fun obj => N.eqb (id obj) p) us) (players t)) t.

(** The host with the teams of its current game replaced. *)
Definition with_teams (ts : list Team) (h : Host) : Host :=
  set_slot (option_map (fun gd =>
              set_currentGame (option_map (set_teams ts) (currentGame gd)) gd)
              (slot h)) h.

(** The current game of the host, when there is one. *)
Definition current (h : Host) : option Game :=
  match slot h with
  | Some gd => currentGame gd
  | None => None
  end.

(** The options of the guild, when it has a record. *)
Definition optionsOf (h : Host) : option Options := option_map options (slot h).

(** A game in progress has distinct player ids and an exact alive
    counter. *)
Definition Steady (h : Host) : Prop :=
  forall g, current h = Some g -> inProgress g = true ->
            Sound (includedUsers g) (numAlive g).

(** The members of the guild have distinct ids. *)
Definition membersDistinct (msg : Msg) : Prop :=
  NoDup (map member_id (guild_members msg)).

(** The calls that write the guild's record: the command functions, and
    the two timer callbacks ([printEvent] on the reveal interval, [nextDay]
    on the autoplay timeout or the "next" command). *)
Inductive Call : Type :=
| CallCreate (msg : Msg)
| CallReset (msg : Msg)
| CallExclude (msg : Msg)
| CallInclude (msg : Msg)
| CallOption (msg : Msg)
| CallStart (msg : Msg)
| CallPause
| CallAutoplay (msg : Msg)
| CallNext
| CallReveal
| CallEnd
| CallTeams (msg : Msg).

Definition perform (pres : Presenter)
    (sortBy : forall A : Type, (A -> A -> Z) -> list A -> list A)
    (Number : option string -> jsnum) (c : Call) : M Host unit :=
  match c with
  | CallCreate msg => createGame msg false
  | CallReset msg => resetGame msg
  | CallExclude msg => excludeUser msg
  | CallInclude msg => includeUser msg
  | CallOption msg => toggleOptShared Number msg
  | CallStart msg => startGame pres msg
  | CallPause => pauseAutoplay
  | CallAutoplay msg => startAutoplay pres msg
  | CallNext => _ <- engine (nextDay pres) ;; ret tt
  | CallReveal => _ <- engine (printEvent sortBy) ;; ret tt
  | CallEnd => endGame
  | CallTeams msg => editTeam Number msg
  end.

(** Calls one after the other; an error ends the call it occurs in, not
    the run. *)
Fixpoint performAll (pres : Presenter)
    (sortBy : forall A : Type, (A -> A -> Z) -> list A -> list A)
    (Number : option string -> jsnum) (cs : list Call) : M Host unit :=
  match cs with
  | [] => ret tt
  | c :: cs' =>
      fun h t =>
        match perform pres sortBy Number c h t with
        | Val _ h' t' => performAll pres sortBy Number cs' h' t'
        | Exn h' t' => performAll pres sortBy Number cs' h' t'
        | Starved h' => Starved h'
        end
  end.

(** The members a call that starts a game reads have distinct ids. *)
Definition callOk (c : Call) : Prop :=
  match c with
  | CallStart msg => membersDistinct msg
  | CallAutoplay msg => membersDistinct msg
  | _ => True
  end.

(** What the simulator's invariants read of the host: the current game
    apart from its teams. *)
Definition core (h : Host) : option (string * bool * list Player * bool * Day * Z) :=
  option_map apartFromTeams (current h).

(** Steps that leave the core of the host alone, at every exit. *)
Definition keepsCore {A} (m : M Host A) : Prop :=
  forall h t, core (final (m h t)) = core h.

(** No game is in progress. *)
Definition Idle (h : Host) : Prop :=
  forall g, current h = Some g -> inProgress g = false.

(** A player as [new Player(...)] leaves it. *)
Definition unharmed (p : Player) : Prop :=
  living p = true /\ bleeding p = false /\ rank p = 1 /\
  state p = "normal" /\ kills p = 0.

(** A team that counts all its members alive, at rank 1. *)
Definition fullyAlive (t : Team) : Prop :=
  team_numAlive t = len (players t) /\ team_rank t = 1.

(** The host a module that has just been loaded shows a guild without a
    record. *)
Definition emptyHost (tpl : Templates) : Host :=
  mkHost None false tpl defaultOptions false [].

(** Three members, one of them a bot. *)
Definition threeMembers : list Member :=
  [mkMember 1%N 1%N "ann" false "a"; mkMember 2%N 2%N "bob" false "b";
   mkMember 3%N 3%N "cog" true "c"].

Definition plainMsg (text : string) : Msg := mkMsg text threeMembers "Arena" [].

(** The guild's options are the [defaultOptions] object. *)
Definition Shared (h : Host) : Prop :=
  sharesDefaults h = true /\ optionsOf h = Some (defaultsNow h).

(** Two teams of two that list a player who has left, and one player who
    is on no team. *)
Definition staleTeams : list Team :=
  [mkTeam 0 "Reds" [1%N; 9%N] 1 2 None; mkTeam 1 "Blues" [3%N; 2%N] 1 2 None].

Definition teamOptions (n : jsnum) : Options :=
  mkOptions true false false true n true true false false
            (Num 3500) (Num 7000) (Num (1 # 10)) (Num (1 # 4)) (Num (1 # 2)).

Definition hostWith (o : Options) (g : Game) : Host :=
  mkHost (Some (mkGuild [] o (mkCustom [] [] []) (Some g) false)) false twoSets
         defaultOptions false [].

Definition staleGame : Game :=
  mkGame "Games" false fourPlayers staleTeams false (mkDay 0 0 []) 4.

(** The players of the current game, when there is one. *)
Definition playersNow (h : Host) : option (list Player) :=
  option_map includedUsers (current h).

(** The guild's team size is [sz], and the core of the host is [c]. *)
Definition TeamsAt (sz : jsnum)
    (c : option (string * bool * list Player * bool * Day * Z)) (h : Host) : Prop :=
  option_map teamSize (optionsOf h) = Some sz /\ core h = c.



(** A list of texts as [formatMultiNames] punctuates it. *)
Fixpoint listing (items : list string) : string :=
  match items with
  | [] => EmptyString
  | [a] => a
  | [a; b] => String.append a (String.append ", and " b)
  | a :: rest => String.append a (String.append ", " (listing rest))
  end.

(** A day with three events waiting to be revealed. *)
Definition threeEvents : list FinalEvent :=
  [mkFinal "one" []; mkFinal "two" ["a"]; mkFinal "three" []].


(** The same place in the teams. *)
Definition samePlace (i j t p : nat) : bool := Nat.eqb i t && Nat.eqb j p.

(** A game in progress with two teams of two. *)
Definition teamGame : Game :=
  mkGame "Games" true fourPlayers
         [mkTeam 0 "Team 1" [1%N; 2%N] 1 2 None; mkTeam 1 "Team 2" [3%N; 4%N] 1 2 None]
         false (mkDay 1 0 []) 4.

(** The teams that still have a member counted alive, as [printDay] counts
    them: none when teams are off. *)
Definition teamsAlive (opts : Options) (g : Game) : Z :=
  if gt_zero (teamSize opts)
  then len (filter (fun t => team_numAlive t >? 0) (teams g)) else 0.

(** When [printDay] declares the game over: one team left, or at most one
    player. *)
Definition decided (opts : Options) (g : Game) : bool :=
  (teamsAlive opts g =? 1) || (countLiving (includedUsers g) <=? 1).

(** The teams list the players and nobody else. *)
Definition Covered (g : Game) : Prop :=
  (forall u, In u (includedUsers g) -> In (id u) (rosters (teams g))) /\
  (forall p, In p (rosters (teams g)) -> In p (map id (includedUsers g))).

(** Two players of one team are alive, the other team is dead. *)
Definition lastTeamStanding : Game :=
  mkGame "Games" true
         [newPlayer 1%N "ann" "a"; newPlayer 2%N "bob" "b";
          slay 4 (newPlayer 3%N "cat" "c"); slay 3 (newPlayer 4%N "dan" "d")]
         [mkTeam 0 "Team 1" [1%N; 2%N] 1 2 None; mkTeam 1 "Team 2" [3%N; 4%N] 2 0 None]
         false (mkDay 1 4 []) 2.

(** What identifies a player, and a team, whatever happens to them. *)
Definition persona (u : Player) : UserId * string * string :=
  (id u, name u, avatarURL u).

Definition lineup (t : Team) : Z * string * list UserId :=
  (team_id t, team_name t, players t).

(** Who plays and on which team, and whether the game runs. *)
Definition cast (g : Game)
  : string * bool * bool * list (UserId * string * string) *
    list (Z * string * list UserId) :=
  (game_name g, inProgress g, ended g, map persona (includedUsers g),
   map lineup (teams g)).

(** The cast together with the day's number and state. *)
Definition outline (g : Game) :=
  (cast g, num (day g), day_state (day g)).

(** The wounded player of [woundedWorld] bleeds to death on the last draw,
    on no team. *)
Definition crashedDay : Outcome World Exit :=
  nextDay plainPresenter woundedWorld (zeros 9).

(** The last event of the day has been revealed, with autoplay on. *)
Definition dayEndHost : Host :=
  mkHost (Some (mkGuild [] defaultOptions (mkCustom [] [] [])
                        (Some (mkGame "Games" true fourPlayers [] false
                                      (mkDay 1 5 threeEvents) 4)) true))
         true twoSets defaultOptions false [].

(** Some living player has the id [p]. *)
Definition livingId (us : list Player) (p : UserId) : bool :=
  existsb (fun u => N.eqb (id u) p && living u) us.

(** The members of a team who are living players. *)
Definition livingMembers (us : list Player) (t : Team) : Z :=
  len (filter (livingId us) (players t)).

(** No id is on the teams twice, and every team's alive counter is the
    number of its living members. *)
Definition TeamsExact (us : list Player) (ts : list Team) : Prop :=
  NoDup (rosters ts) /\
  Forall (fun t => team_numAlive t = livingMembers us t) ts.

(** What the simulator keeps of the teams while it works through the
    references [pend]: distinct ids, the references distinct and pointing at
    living players, and exact team counters. *)
Definition Tallied (pend : list nat) (s : Sim) : Prop :=
  NoDup (map id (users s)) /\ PoolOk (users s) pend /\
  TeamsExact (users s) (teams (game s)).

(** The players of a game, and the counters and members of its teams. *)
Definition field (g : Game) : list Player * list (Z * list UserId) :=
  (includedUsers g, map (fun t => (team_numAlive t, players t)) (teams g)).

(** [arrives P m Q E]: as [triple], but saying nothing of a run the random
    source cuts short, which no execution of the program corresponds to. *)
Definition arrives {S A} (P : S -> Prop) (m : M S A) (Q : A -> S -> Prop)
    (E : S -> Prop) : Prop :=
  forall s t, P s ->
    match m s t with
    | Val a s' _ => Q a s'
    | Exn s' _ => E s'
    | Starved _ => True
    end.

(** The current game has distinct player ids and exact team counters, at
    every exit an execution of the program can take. *)
Definition exactAfter {A} (o : Outcome World A) : Prop :=
  match o with
  | Starved _ => True
  | _ => forall g', theGame (final o) = Some g' ->
           NoDup (map id (includedUsers g')) /\
           TeamsExact (includedUsers g') (teams g')
  end.

(** A game in progress with two teams of two, all alive, and events that
    kill one player each. *)
Definition teamedWorld : World :=
  mkWorld (Some (mkGuild []
             (mkOptions false false false true (Num 2) false true false false
                        (Num 3500) (Num 7000) (Num (1 # 10)) (Num (1 # 4))
                        (Num (1 # 2)))
             (mkCustom [] [] []) (Some teamGame) false))
          false (mkTemplates [Some oneDies] [Some oneDies] []) [].

(** * Verification *)

(** ** Program logic of the store monad *)

Lemma triple_ret {S A} (P : S -> Prop) (a : A) (Q : A -> S -> Prop) E :
  (forall s, P s -> Q a s) -> triple P (ret a) Q E.
Proof. intros H s t Hs. simpl. auto. Qed.

Lemma triple_bind {S A B} (P : S -> Prop) (m : M S A) (k : A -> M S B)
    (R : A -> S -> Prop) (Q : B -> S -> Prop) E :
  triple P m R E -> (forall a, triple (R a) (k a) Q E) -> triple P (bind m k) Q E.
Proof.
  intros Hm Hk s t Hs. unfold bind. specialize (Hm s t Hs).
  destruct (m s t) as [a s' t'| |]; auto. apply Hk; auto.
Qed.

Lemma triple_conseq {S A} (P P' : S -> Prop) (m : M S A) (Q Q' : A -> S -> Prop)
    (E E' : S -> Prop) :
  triple P' m Q' E' ->
  (forall s, P s -> P' s) -> (forall a s, Q' a s -> Q a s) ->
  (forall s, E' s -> E s) -> triple P m Q E.
Proof.
  intros H HP HQ HE s t Hs. specialize (H s t (HP s Hs)).
  destruct (m s t); auto.
Qed.

Lemma triple_throw {S A} (P : S -> Prop) (Q : A -> S -> Prop) E :
  (forall s, P s -> E s) -> triple P throw Q E.
Proof. intros H s t Hs. simpl. auto. Qed.

Lemma triple_starve {S A} (P : S -> Prop) (Q : A -> S -> Prop) E :
  (forall s, P s -> E s) -> triple P starve Q E.
Proof. intros H s t Hs. simpl. auto. Qed.

Lemma triple_modify {S} (P : S -> Prop) (f : S -> S) (Q : unit -> S -> Prop) E :
  (forall s, P s -> Q tt (f s)) -> triple P (modify f) Q E.
Proof. intros H s t Hs. simpl. auto. Qed.

Lemma triple_random {S} (P : S -> Prop) :
  triple P random (fun r s => P s /\ in_unit r = true) P.
Proof.
  intros s t Hs. unfold random. destruct t as [|r t']; auto.
  destruct (in_unit r) eqn:Hr; auto.
Qed.

(** A precondition that does not mention the store can be assumed. *)
Lemma triple_assume {S A} (F : Prop) (P : S -> Prop) (m : M S A) Q E :
  (F -> triple P m Q E) -> triple (fun s => F /\ P s) m Q E.
Proof. intros H s t [HF Hs]. apply H; auto. Qed.

Lemma triple_forEach {S A} (I : list A -> S -> Prop) (E : S -> Prop)
    (body : A -> M S unit) :
  (forall x rest, triple (I (x :: rest)) (body x) (fun _ => I rest) E) ->
  forall l, triple (I l) (forEach l body) (fun _ => I []) E.
Proof.
  intros Hbody l. induction l as [|x l IH].
  - apply triple_ret. auto.
  - simpl. eapply triple_bind; [apply Hbody|]. intros u. apply IH.
Qed.

(** ** Arrays *)

Lemma update_length {A} (f : A -> A) l : forall i, List.length (update i f l) = List.length l.
Proof. induction l; intros [|i]; simpl; auto. Qed.

Lemma nth_error_update_eq {A} (f : A -> A) l : forall i x,
  nth_error l i = Some x -> nth_error (update i f l) i = Some (f x).
Proof.
  induction l; intros [|i] x H; simpl in *; try discriminate.
  - now inversion H.
  - auto.
Qed.

Lemma nth_error_update_neq {A} (f : A -> A) l : forall i j,
  i <> j -> nth_error (update i f l) j = nth_error l j.
Proof.
  induction l; intros [|i] [|j] H; simpl; auto; try congruence.
Qed.

Lemma update_none {A} (f : A -> A) l : forall i,
  nth_error l i = None -> update i f l = l.
Proof.
  induction l; intros [|i] H; simpl in *; auto; try discriminate.
  f_equal. auto.
Qed.

Lemma map_update {A B} (g : A -> B) (f : A -> A) l :
  (forall x, g (f x) = g x) -> forall i, map g (update i f l) = map g l.
Proof.
  intros H. induction l; intros [|i]; simpl; auto; f_equal; auto.
Qed.

Lemma In_update {A} (f : A -> A) l : forall i q,
  In q (update i f l) ->
  (exists j, j <> i /\ nth_error l j = Some q) \/
  (exists x, nth_error l i = Some x /\ q = f x).
Proof.
  induction l as [|y l IH]; intros [|i] q H; simpl in *; try contradiction.
  - destruct H as [H|H].
    + right. eauto.
    + left. apply In_nth_error in H. destruct H as [j Hj].
      exists (S j). split; auto.
  - destruct H as [H|H].
    + left. exists O. subst. split; auto.
    + apply IH in H. destruct H as [[j [Hj1 Hj2]]|[x [Hx1 Hx2]]].
      * left. exists (S j). split; auto.
      * right. eauto.
Qed.

Lemma countLiving_cons p us : countLiving (p :: us) = b2z (living p) + countLiving us.
Proof.
  unfold countLiving, len. cbn [filter].
  destruct (living p); cbn [List.length b2z]; lia.
Qed.

Lemma countLiving_update f us : forall i p,
  nth_error us i = Some p ->
  countLiving (update i f us) = countLiving us - b2z (living p) + b2z (living (f p)).
Proof.
  induction us as [|q us IH]; intros [|i] p H; simpl in *; try discriminate.
  - inversion H; subst. rewrite !countLiving_cons. lia.
  - rewrite !countLiving_cons. rewrite (IH i p H). lia.
Qed.

Lemma countLiving_nonneg us : 0 <= countLiving us.
Proof. unfold countLiving, len. lia. Qed.

Lemma findIndex_some {A} (p : A -> bool) l : forall i,
  findIndex p l = Some i -> exists x, nth_error l i = Some x /\ p x = true.
Proof.
  induction l as [|y l IH]; intros i H; simpl in *; try discriminate.
  destruct (p y) eqn:Hy.
  - inversion H; subst. simpl. eauto.
  - destruct (findIndex p l) as [j|] eqn:Hj; simpl in H; try discriminate.
    inversion H; subst. simpl. apply IH. reflexivity.
Qed.

(** With distinct ids the lookup by id finds the object itself. *)
Lemma findIndex_by_id us : forall r p,
  NoDup (map id us) -> nth_error us r = Some p ->
  findIndex (fun obj => N.eqb (id obj) (id p)) us = Some r.
Proof.
  induction us as [|q us IH]; intros [|r] p Hnd H; simpl in *; try discriminate.
  - inversion H; subst. rewrite N.eqb_refl. reflexivity.
  - inversion Hnd as [|? ? Hnotin Hnd']; subst.
    destruct (N.eqb (id q) (id p)) eqn:Heq.
    + apply N.eqb_eq in Heq. exfalso. apply Hnotin. rewrite Heq.
      apply in_map. eapply nth_error_In; eauto.
    + rewrite (IH r p Hnd' H). reflexivity.
Qed.

Lemma positions_spec {A} (p : A -> bool) l : forall k r,
  In r (positions p k l) <->
  exists x, (k <= r)%nat /\ nth_error l (r - k) = Some x /\ p x = true.
Proof.
  induction l as [|y l IH]; intros k r; simpl.
  - split; [contradiction|]. intros [x [_ [H _]]]. destruct (r - k)%nat; discriminate.
  - assert (Hrec : In r (positions p (S k) l) <->
                   exists x, (k <= r)%nat /\ r <> k /\
                             nth_error (y :: l) (r - k) = Some x /\ p x = true).
    { rewrite IH. split.
      - intros [x [H1 [H2 H3]]]. exists x. repeat split; try lia; auto.
        replace (r - k)%nat with (S (r - S k)) by lia. exact H2.
      - intros [x [H1 [H2 [H3 H4]]]]. exists x. repeat split; try lia; auto.
        replace (r - k)%nat with (S (r - S k)) in H3 by lia. exact H3. }
    destruct (p y) eqn:Hy.
    + simpl. rewrite Hrec. split.
      * intros [<-|[x [H1 [H2 [H3 H4]]]]].
        -- exists y. rewrite Nat.sub_diag. auto.
        -- eauto.
      * intros [x [H1 [H2 H3]]].
        destruct (Nat.eq_dec k r) as [->|Hne]; auto.
        right. exists x. repeat split; auto.
    + rewrite Hrec. split.
      * intros [x [H1 [H2 [H3 H4]]]]. eauto.
      * intros [x [H1 [H2 H3]]]. exists x. repeat split; auto.
        intros ->. rewrite Nat.sub_diag in H2. simpl in H2. congruence.
Qed.

Lemma positions_NoDup {A} (p : A -> bool) l : forall k, NoDup (positions p k l).
Proof.
  induction l as [|y l IH]; intros k; simpl; [constructor|].
  destruct (p y); auto. constructor; auto.
  rewrite positions_spec. intros [x [H _]]. lia.
Qed.

Lemma remove_nth_perm {A} (l : list A) : forall i x,
  nth_error l i = Some x -> Permutation (x :: firstn i l ++ skipn (S i) l) l.
Proof.
  induction l as [|y l IH]; intros [|i] x H; simpl in *; try discriminate.
  - inversion H; subst. reflexivity.
  - specialize (IH i x H). etransitivity; [apply perm_swap|].
    constructor. exact IH.
Qed.

(** What [splice1] removes is what the array loses. *)
Lemma splice1_perm {A} (start : Z) (l : list A) :
  match fst (splice1 start l) with
  | Some x => Permutation (x :: snd (splice1 start l)) l
  | None => snd (splice1 start l) = l
  end.
Proof.
  unfold splice1. cbn [fst snd].
  set (i := Z.to_nat _). clearbody i.
  destruct (nth_error l i) as [x|] eqn:Hx.
  - apply remove_nth_perm. exact Hx.
  - apply nth_error_None in Hx.
    rewrite firstn_all2 by lia. rewrite skipn_all2 by lia. apply app_nil_r.
Qed.

(** ** Frame: the steps that leave the players and the alive counter alone *)

Lemma keeps_ret {A} (a : A) : keeps (ret a).
Proof. intros s t. auto. Qed.

Lemma keeps_throw {A} : keeps (@throw Sim A).
Proof. intros s t. auto. Qed.

Lemma keeps_starve {A} : keeps (@starve Sim A).
Proof. intros s t. auto. Qed.

Lemma keeps_random : keeps (@random Sim).
Proof.
  intros s t. unfold random. destruct t as [|r t']; auto.
  destruct (in_unit r); auto.
Qed.

Lemma keeps_get : keeps (@get Sim).
Proof. intros s t. auto. Qed.

Lemma keeps_getGame : keeps getGame.
Proof. intros s t. auto. Qed.

Lemma keeps_emit o : keeps (emit o).
Proof. intros s t. auto. Qed.

Lemma keeps_modifyGame (f : Game -> Game) :
  (forall g, includedUsers (f g) = includedUsers g /\ numAlive (f g) = numAlive g) ->
  keeps (modifyGame f).
Proof. intros H s t. apply H. Qed.

Lemma keeps_bind {A B} (m : M Sim A) (k : A -> M Sim B) :
  keeps m -> (forall a, keeps (k a)) -> keeps (bind m k).
Proof.
  intros Hm Hk s t. unfold bind. specialize (Hm s t).
  destruct (m s t) as [a s' t'| |]; simpl in *; auto.
  destruct (Hk a s' t') as [H1 H2]. destruct Hm as [H3 H4].
  split; congruence.
Qed.

Create HintDb keeps.

Ltac keeps_step :=
  match goal with
  | |- keeps (bind _ _) => apply keeps_bind; [|intro]
  | |- keeps (ret _) => apply keeps_ret
  | |- keeps throw => apply keeps_throw
  | |- keeps starve => apply keeps_starve
  | |- keeps random => apply keeps_random
  | |- keeps get => apply keeps_get
  | |- keeps getGame => apply keeps_getGame
  | |- keeps (emit _) => apply keeps_emit
  | |- keeps (modifyGame _) => apply keeps_modifyGame; intro; split; reflexivity
  | |- keeps (if ?b then _ else _) => destruct b
  | |- keeps (match ?x with _ => _ end) => destruct x
  end.

Ltac keeps_tac := repeat keeps_step; auto.

Lemma keeps_weightedRand : keeps (@weightedRand Sim).
Proof. unfold weightedRand. keeps_tac. Qed.

#[local] Hint Resolve keeps_weightedRand : keeps.

Lemma keeps_makeSingleEvent pres msg E nv na mention :
  keeps (makeSingleEvent pres msg E nv na mention).
Proof. unfold makeSingleEvent. keeps_tac; auto with keeps. Qed.

Lemma keeps_resolveCounts fuel : forall ma mv amin vmin na nv size,
  keeps (resolveCounts fuel ma mv amin vmin na nv size).
Proof.
  induction fuel as [|fuel IH]; intros; simpl; keeps_tac; auto with keeps.
Qed.

Lemma keeps_teamCheck ev na nv pool : keeps (teamCheck ev na nv pool).
Proof.
  unfold teamCheck. apply keeps_bind; [apply keeps_getGame|]. intros g.
  destruct (scanTeams _ _ _ _ _ _) as [[ts l] n]. keeps_tac.
Qed.

Lemma keeps_selectRandom n : forall pool E, keeps (selectRandom n pool E).
Proof.
  induction n as [|n IH]; intros; simpl; keeps_tac.
Qed.

#[local] Hint Resolve keeps_makeSingleEvent keeps_resolveCounts keeps_teamCheck
  keeps_selectRandom : keeps.

Lemma keeps_selectEvent fuel opts ev loop pool :
  keeps (selectEvent fuel opts ev loop pool).
Proof.
  unfold selectEvent. keeps_tac; auto with keeps.
Qed.

Lemma keeps_chooseEventPool pres tpl custom opts :
  keeps (chooseEventPool pres tpl custom opts).
Proof. unfold chooseEventPool. keeps_tac; auto with keeps. Qed.

#[local] Hint Resolve keeps_selectEvent keeps_chooseEventPool : keeps.

Lemma triple_keeps {A} (I : list Player -> Z -> Prop) (m : M Sim A) :
  keeps m -> triple (on_core I) m (fun _ => on_core I) (on_core I).
Proof.
  intros Hk s t Hs. destruct (Hk s t) as [H1 H2]. unfold on_core in *.
  destruct (m s t); simpl in *; rewrite H1, H2; exact Hs.
Qed.

(** The same with what is known of the returned value. *)
Lemma triple_keeps_val {A} (I : list Player -> Z -> Prop) (R : A -> Prop)
    (m : M Sim A) :
  keeps m -> (forall s t a s' t', m s t = Val a s' t' -> R a) ->
  triple (on_core I) m (fun a s => on_core I s /\ R a) (on_core I).
Proof.
  intros Hk HR s t Hs. destruct (Hk s t) as [H1 H2]. unfold on_core in *.
  destruct (m s t) eqn:Hm; simpl in *; rewrite H1, H2; auto.
  split; auto. eapply HR; eauto.
Qed.

Lemma triple_getGame (P : Sim -> Prop) E :
  triple P getGame (fun g s => P s /\ g = game s) E.
Proof. intros s t Hs. simpl. auto. Qed.

(** ** Invariants of a day *)

Lemma refs_app E1 E2 : refs (E1 ++ E2) = refs E1 ++ refs E2.
Proof.
  induction E1 as [|[r|] E1 IH]; simpl; auto. now rewrite IH.
Qed.

Lemma skipn_nth_error {A} (l : list A) : forall i x,
  nth_error l i = Some x -> skipn i l = x :: skipn (S i) l.
Proof.
  induction l as [|y l IH]; intros [|i] x H; simpl in *; try discriminate.
  - now inversion H.
  - apply IH. exact H.
Qed.

Lemma Live_update_other us r r' f :
  r <> r' -> Live us r' -> Live (update r f us) r'.
Proof.
  intros Hne [p [H1 H2]]. exists p. split; auto.
  rewrite nth_error_update_neq; auto.
Qed.

Lemma Live_update_same us r p f :
  nth_error us r = Some p -> living (f p) = true -> Live (update r f us) r.
Proof.
  intros H1 H2. exists (f p). split; auto. apply nth_error_update_eq; auto.
Qed.

Lemma Forall_Live_update us r f rest :
  ~ In r rest -> Forall (Live us) rest -> Forall (Live (update r f us)) rest.
Proof.
  intros Hnin H. rewrite Forall_forall in *. intros x Hx.
  apply Live_update_other; auto. intros ->. contradiction.
Qed.

(** An update that keeps the player alive keeps the whole pool. *)
Lemma PoolOk_update_keep us r p f pool :
  nth_error us r = Some p -> living (f p) = true ->
  PoolOk us pool -> PoolOk (update r f us) pool.
Proof.
  intros Hr Hf [Hnd Hall]. split; auto.
  rewrite Forall_forall in *. intros x Hx.
  destruct (Nat.eq_dec r x) as [<-|Hne].
  - eapply Live_update_same; eauto.
  - apply Live_update_other; auto.
Qed.

(** An update of the head reference keeps the rest of the pool. *)
Lemma PoolOk_update_drop us r f rest :
  PoolOk us (r :: rest) -> PoolOk (update r f us) rest.
Proof.
  intros [Hnd Hall]. inversion Hnd; subst. inversion Hall; subst.
  split; auto. apply Forall_Live_update; auto.
Qed.

Lemma PoolOk_head us r rest : PoolOk us (r :: rest) -> Live us r.
Proof. intros [_ Hall]. now inversion Hall. Qed.

Lemma PoolOk_perm us p1 p2 : Permutation p1 p2 -> PoolOk us p1 -> PoolOk us p2.
Proof.
  intros Hp [Hnd Hall]. split.
  - eapply Permutation_NoDup; eauto.
  - eapply Permutation_Forall; eauto.
Qed.

Lemma DeadClean_update us r p f :
  nth_error us r = Some p ->
  (living (f p) = false -> bleeding (f p) = false) ->
  DeadClean us -> DeadClean (update r f us).
Proof.
  intros Hr Hf Hdc q Hq Hdead.
  apply In_update in Hq. destruct Hq as [[j [_ Hj]]|[x [Hx ->]]].
  - apply Hdc; auto. eapply nth_error_In; eauto.
  - rewrite Hr in Hx. inversion Hx; subst. auto.
Qed.

(** One update at a reference: how [Base] moves. *)
Lemma Base_update C B us n r p f :
  (forall q, id (f q) = id q) ->
  nth_error us r = Some p ->
  (living (f p) = false -> bleeding (f p) = false) ->
  Base C B us n ->
  Base C B (update r f us) (n - b2z (living p) + b2z (living (f p))).
Proof.
  intros Hid Hr Hf [Hnd [Hn Hdc]]. split; [|split].
  - rewrite map_update; auto.
  - intros HC. rewrite (countLiving_update f us r p Hr), (Hn HC). lia.
  - intros HB. eapply DeadClean_update; eauto.
Qed.

Lemma touch_id k q : id (touch k q) = id q.
Proof. unfold touch. destruct (String.eqb (state q) "wounded"); reflexivity. Qed.

Lemma touch_living k q : living (touch k q) = living q.
Proof. unfold touch. destruct (String.eqb (state q) "wounded"); reflexivity. Qed.

Lemma slay_id n q : id (slay n q) = id q.
Proof. reflexivity. Qed.

Lemma effectUser_cases (E : list Ref) i k s t :
  NoDup (map id (users s)) ->
  (exists r p, nth_error E i = Some (Some r) /\ nth_error (users s) r = Some p /\
     effectUser E i k s t
     = Val r (with_game (on_users (update r (touch k)) (game s)) s) t)
  \/ ((forall r, nth_error E i = Some (Some r) -> nth_error (users s) r = None) /\
      effectUser E i k s t = Exn s t).
Proof.
  intros Hnd. unfold users in *. unfold effectUser, bind, getGame, deref.
  destruct (nth_error E i) as [[r|]|] eqn:HE; simpl.
  - destruct (nth_error (includedUsers (game s)) r) as [p|] eqn:Hp.
    + left. exists r, p. repeat split; auto.
      rewrite (findIndex_by_id _ r p Hnd Hp). reflexivity.
    + right. split; auto. intros r' Hr'. inversion Hr'; subst. exact Hp.
  - right. split; auto. intros r' Hr'. discriminate.
  - right. split; auto. intros r' Hr'. discriminate.
Qed.

Lemma update_update {A} (f g : A -> A) l : forall i,
  update i g (update i f l) = update i (fun x => g (f x)) l.
Proof. induction l; intros [|i]; simpl; auto. f_equal. auto. Qed.

(** An effect on the player at the head of the pending references. *)
Lemma effect_at_head C B us n r rest h p :
  (forall q, id (h q) = id q) ->
  nth_error us r = Some p ->
  (living (h p) = false -> bleeding (h p) = false) ->
  Base C B us n -> PoolOk us (r :: rest) ->
  Base C B (update r h us) (n - 1 + b2z (living (h p))) /\
  PoolOk (update r h us) rest.
Proof.
  intros Hid Hr Hh HB HP. split.
  - destruct (PoolOk_head _ _ _ HP) as [p' [Hp' Hl]].
    rewrite Hr in Hp'. inversion Hp'; subst p'.
    pose proof (Base_update C B us n r p h Hid Hr Hh HB) as H.
    rewrite Hl in H. exact H.
  - apply PoolOk_update_drop. exact HP.
Qed.

Section Effects.

Variable C B : bool.
Variable opts : Options.

Lemma killUser_spec lo (E : list Ref) i k pend :
  triple (on_core (Mid C B (lo + 1) (refs (skipn i E) ++ pend)))
         (killUser opts E i k)
         (fun _ => on_core (Mid C B lo (refs (skipn (S i) E) ++ pend)))
         (on_core (Out C B lo)).
Proof.
  intros s t [HB [HP Hlo]].
  destruct (effectUser_cases E i k s t (proj1 HB))
    as [(r & p & HE & Hp & Heq) | [_ Heq]];
    unfold killUser, bind at 1; rewrite Heq.
  - rewrite (skipn_nth_error _ _ _ HE) in HP. cbn [refs app] in HP.
    unfold bind at 1. cbn [modifyGame modify].
    match goal with |- match ?m ?s1 t with _ => _ end =>
      assert (Hk : keeps m) by keeps_tac;
      pose proof (triple_keeps (Mid C B lo (refs (skipn (S i) E) ++ pend)) m Hk s1 t) as Ht
    end.
    match type of Ht with ?P -> _ => assert (Hpre : P) end.
    { unfold on_core, users, alive, with_game, on_users. simpl.
      rewrite update_update.
      destruct (effect_at_head C B _ _ r _
                  (fun x => slay (numAlive (game s)) (touch k x)) p
                  (fun q => touch_id k q) Hp (fun _ => eq_refl) HB HP) as [H1 H2].
      split; [|split]; auto.
      - simpl in H1. replace (numAlive (game s) - 1)
          with (alive s - 1 + 0) by (unfold alive; lia). exact H1.
      - unfold alive in *. lia. }
    specialize (Ht Hpre).
    match goal with |- match ?m ?s1 t with _ => _ end => destruct (m s1 t) end; auto.
    all: destruct Ht as [H1 [H2 H3]]; split; auto.
  - split; auto. lia.
Qed.

(** [effectUser] followed by one more assignment that leaves [living] and
    [id] alone: the shape of [woundUser] and [restoreUser]. *)
Lemma touchThen_spec lo (E : list Ref) i k pend (h2 : Player -> Player) :
  (forall q, id (h2 q) = id q) -> (forall q, living (h2 q) = living q) ->
  triple (on_core (Mid C B lo (refs (skipn i E) ++ pend)))
         (index <- effectUser E i k ;; modifyGame (on_users (update index h2)))
         (fun _ => on_core (Mid C B lo (refs (skipn (S i) E) ++ pend)))
         (on_core (Out C B lo)).
Proof.
  intros Hid Hliv s t [HB [HP Hlo]].
  destruct (effectUser_cases E i k s t (proj1 HB))
    as [(r & p & HE & Hp & Heq) | [_ Heq]];
    unfold bind; rewrite Heq.
  - rewrite (skipn_nth_error _ _ _ HE) in HP. cbn [refs app] in HP.
    cbn [modifyGame modify].
    unfold on_core, users, alive, with_game, on_users. simpl.
    rewrite update_update.
    destruct (PoolOk_head _ _ _ HP) as [p' [Hp' Hl]].
    unfold users in *. rewrite Hp in Hp'. inversion Hp'; subst p'.
    destruct (effect_at_head C B (includedUsers (game s)) (alive s) r
                (refs (skipn (S i) E) ++ pend)
                (fun x => h2 (touch k x)) p
                (fun q => eq_trans (Hid _) (touch_id k q)) Hp) as [H1 H2]; auto.
    + rewrite Hliv, touch_living, Hl. discriminate.
    + split; [|split]; auto.
      rewrite Hliv, touch_living, Hl in H1. simpl in H1.
      replace (numAlive (game s)) with (alive s - 1 + 1) by (unfold alive; lia).
      exact H1.
  - split; auto.
Qed.

Lemma effectOnly_spec lo (E : list Ref) i k pend :
  triple (on_core (Mid C B lo (refs (skipn i E) ++ pend)))
         (_ <- effectUser E i k ;; ret tt)
         (fun _ => on_core (Mid C B lo (refs (skipn (S i) E) ++ pend)))
         (on_core (Out C B lo)).
Proof.
  intros s t [HB [HP Hlo]].
  destruct (effectUser_cases E i k s t (proj1 HB))
    as [(r & p & HE & Hp & Heq) | [_ Heq]];
    unfold bind; rewrite Heq.
  - rewrite (skipn_nth_error _ _ _ HE) in HP. cbn [refs app] in HP.
    unfold ret, on_core, users, alive, with_game, on_users. simpl.
    destruct (PoolOk_head _ _ _ HP) as [p' [Hp' Hl]].
    unfold users in *. rewrite Hp in Hp'. inversion Hp'; subst p'.
    destruct (effect_at_head C B (includedUsers (game s)) (alive s) r
                (refs (skipn (S i) E) ++ pend)
                (touch k) p (touch_id k) Hp) as [H1 H2]; auto.
    + rewrite touch_living, Hl. discriminate.
    + split; [|split]; auto.
      rewrite touch_living, Hl in H1. simpl in H1.
      replace (numAlive (game s)) with (alive s - 1 + 1) by (unfold alive; lia).
      exact H1.
  - split; auto.
Qed.

Lemma applyOutcome_spec lo (E : list Ref) what i k pend :
  triple (on_core (Mid C B (lo + dies what) (refs (skipn i E) ++ pend)))
         (applyOutcome opts E what i k)
         (fun _ => on_core (Mid C B lo (refs (skipn (S i) E) ++ pend)))
         (on_core (Out C B lo)).
Proof.
  unfold applyOutcome, dies. destruct (String.eqb what "dies").
  - apply killUser_spec.
  - replace (lo + 0) with lo by lia.
    destruct (String.eqb what "wounded"); [|destruct (String.eqb what "thrives")].
    + apply touchThen_spec; reflexivity.
    + apply touchThen_spec; reflexivity.
    + apply effectOnly_spec.
Qed.

(** A [for] loop of [n] outcomes from index [a] on. *)
Lemma applyLoop_spec (E : list Ref) what (kf : Z) pend : forall n a lo,
  triple (on_core (Mid C B (lo + Z.of_nat n * dies what) (refs (skipn a E) ++ pend)))
         (forEach (seq a n) (fun i => applyOutcome opts E what i kf))
         (fun _ => on_core (Mid C B lo (refs (skipn (a + n) E) ++ pend)))
         (on_core (Out C B lo)).
Proof.
  induction n as [|n IH]; intros a lo.
  - cbn [seq forEach]. apply triple_ret. intros s H. rewrite Nat.add_0_r.
    replace (lo + Z.of_nat 0 * dies what) with lo in H by lia. exact H.
  - cbn [seq forEach]. eapply triple_bind.
    + eapply triple_conseq; [apply (applyOutcome_spec (lo + Z.of_nat n * dies what))| | |].
      * intros s H. replace (lo + Z.of_nat n * dies what + dies what)
          with (lo + Z.of_nat (S n) * dies what) by lia. exact H.
      * intros u s H. exact H.
      * intros s [H1 H2]. split; auto.
        assert (0 <= dies what) by (unfold dies; destruct (String.eqb _ _); lia).
        nia.
    + intros u. replace (a + S n)%nat with (S a + n)%nat by lia. apply IH.
Qed.

Lemma applyEffects_spec lo ev (E : list Ref) nv na pend :
  0 <= nv -> 0 <= na ->
  triple (on_core (Mid C B (lo + nv * dies (outcome (victim ev))
                           + na * dies (outcome (attacker ev)))
                       (refs E ++ pend)))
         (applyEffects opts ev E nv na)
         (fun _ => on_core (Mid C B lo (refs (skipn (Z.to_nat nv + Z.to_nat na) E) ++ pend)))
         (on_core (Out C B lo)).
Proof.
  intros Hnv Hna. unfold applyEffects. eapply triple_bind.
  - eapply triple_conseq;
      [apply (applyLoop_spec E (outcome (victim ev)) _ pend (Z.to_nat nv) 0%nat
                (lo + na * dies (outcome (attacker ev))))| | |].
    + intros s H. simpl. rewrite Z2Nat.id by lia.
      replace (lo + na * dies (outcome (attacker ev)) + nv * dies (outcome (victim ev)))
        with (lo + nv * dies (outcome (victim ev)) + na * dies (outcome (attacker ev)))
        by lia. exact H.
    + intros u s H. exact H.
    + intros s [H1 H2]. split; auto.
      assert (0 <= dies (outcome (attacker ev)))
        by (unfold dies; destruct (String.eqb _ _); lia). nia.
  - intros u. simpl.
    eapply triple_conseq;
      [apply (applyLoop_spec E (outcome (attacker ev)) _ pend (Z.to_nat na)
                (Z.to_nat nv) lo)| | |]; auto.
    intros s H. rewrite Z2Nat.id by lia. exact H.
Qed.

End Effects.

(** ** The selector's verdict *)

Lemma weightedWalk_range dist : forall sum r i,
  weightedWalk dist sum r = Some i -> In i (map fst dist).
Proof.
  induction dist as [|[j w] dist IH]; intros sum r i H; simpl in *; try discriminate.
  destruct (Qle_bool r (sum + w)).
  - inversion H. auto.
  - right. eapply IH; eauto.
Qed.

Lemma weightedRandOf_range r i : weightedRandOf r = Some i -> 1 <= i <= 7.
Proof.
  intros H. apply weightedWalk_range in H. simpl in H.
  repeat (destruct H as [<-|H]; [lia|]). contradiction.
Qed.

(** For a draw below 1 the walk returns: the weights total 1. *)
Lemma weightedRandOf_total r : in_unit r = true -> weightedRandOf r <> None.
Proof.
  unfold in_unit. intros H. apply andb_true_iff in H. destruct H as [_ H].
  apply negb_true_iff in H.
  assert (Hlt : (r < 1)%Q).
  { destruct (Qlt_le_dec r 1) as [Hl|Hl]; auto.
    apply Qle_bool_iff in Hl. congruence. }
  unfold weightedRandOf, multiEventUserDistribution, weightedWalk.
  repeat match goal with
         | |- context [Qle_bool r ?q] => destruct (Qle_bool r q) eqn:?; [discriminate|]
         end.
  exfalso.
  match goal with
  | H0 : Qle_bool r ?q = false |- _ =>
      assert (Hq : (q == 1)%Q) by reflexivity;
      assert (Hle : (r <= q)%Q) by (rewrite Hq; apply Qlt_le_weak; exact Hlt);
      apply Qle_bool_iff in Hle; congruence
  end.
Qed.

Lemma weightedRand_val (s : Sim) t i s' t' :
  weightedRand s t = Val i s' t' -> 1 <= i <= 7.
Proof.
  unfold weightedRand, bind, random. destruct t as [|r t0]; try discriminate.
  destruct (in_unit r); try discriminate.
  destruct (weightedRandOf r) as [j|] eqn:Hj; simpl; try discriminate.
  intros H. inversion H; subst. eapply weightedRandOf_range; eauto.
Qed.

Lemma resolveCounts_val fuel : forall ma mv amin vmin na nv size s t a v s' t',
  resolveCounts fuel ma mv amin vmin na nv size s t = Val (a, v) s' t' ->
  a + v <= size /\
  (if ma then amin <= a else a = na) /\ (if mv then vmin <= v else v = nv).
Proof.
  induction fuel as [|fuel IH]; intros ma mv amin vmin na nv size s t a v s' t' H;
    simpl in H; try discriminate.
  unfold bind at 1 in H.
  destruct ((if ma then w <- weightedRand;; ret (w + (amin - 1)) else ret na) s t)
    as [a1 s1 t1| |] eqn:Ha; try discriminate.
  unfold bind at 1 in H.
  destruct ((if mv then w <- weightedRand;; ret (w + (vmin - 1)) else ret nv) s1 t1)
    as [v1 s2 t2| |] eqn:Hv; try discriminate.
  assert (Ha1 : if ma then amin <= a1 else a1 = na).
  { destruct ma.
    - unfold bind in Ha. destruct (weightedRand s t) as [w ? ?| |] eqn:Hw; try discriminate.
      apply weightedRand_val in Hw. inversion Ha; subst. lia.
    - inversion Ha; subst. reflexivity. }
  assert (Hv1 : if mv then vmin <= v1 else v1 = nv).
  { destruct mv.
    - unfold bind in Hv. destruct (weightedRand s1 t1) as [w ? ?| |] eqn:Hw; try discriminate.
      apply weightedRand_val in Hw. inversion Hv; subst. lia.
    - inversion Hv; subst. reflexivity. }
  destruct (a1 + v1 >? size) eqn:Hgt.
  - apply IH in H. destruct H as [H1 [H2 H3]]. split; auto.
    split; [destruct ma|destruct mv]; auto; congruence.
  - inversion H; subst. split; [lia|]. auto.
Qed.

(** What holds of an accepted event. *)
Lemma selectEvent_accept fuel opts ev loop pool s t na nv s' t' :
  selectEvent fuel opts ev loop pool s t = Val (Accepted na nv) s' t' ->
  0 <= na /\ 0 <= nv /\ na + nv <= len pool /\
  (allowNoVictors opts = false -> 1 <= alive s' - deaths ev na nv).
Proof.
  unfold selectEvent. intros H.
  destruct (loop >? 100); [discriminate|].
  set (cA := count (attacker ev)) in *. set (cV := count (victim ev)) in *.
  match type of H with
  | (if ?c then _ else _) _ _ = _ => destruct c eqn:Hmin; [discriminate|]
  end.
  unfold bind at 1 in H.
  match type of H with
  | match ?m with _ => _ end = _ => destruct m as [[a v] s1 t1| |] eqn:Hc; try discriminate
  end.
  assert (Hcounts : 0 <= a /\ 0 <= v /\ a + v <= len pool).
  { destruct ((cA <? 0) || (cV <? 0)) eqn:Hmulti.
    - apply resolveCounts_val in Hc. destruct Hc as [H1 [H2 H3]].
      destruct (cA <? 0) eqn:HA; destruct (cV <? 0) eqn:HV; lia.
    - inversion Hc; subst. apply orb_false_iff in Hmulti. destruct Hmulti as [HA HV].
      rewrite HA, HV in Hmin. lia. }
  unfold bind at 1 in H.
  match type of H with
  | match ?m with _ => _ end = _ => destruct m as [fits s2 t2| |] eqn:Hf; try discriminate
  end.
  destruct fits; simpl in H; [|discriminate].
  unfold bind, getGame in H.
  match type of H with
  | (if ?c then _ else _) _ _ = _ => destruct c eqn:Hnv; [discriminate|]
  end.
  inversion H; subst. clear H.
  destruct Hcounts as [H1 [H2 H3]]. repeat split; auto.
  intros Hno. rewrite Hno in Hnv. simpl in Hnv.
  unfold deaths, dies, alive.
  destruct (String.eqb (outcome (victim ev)) "dies");
    destruct (String.eqb (outcome (attacker ev)) "dies"); lia.
Qed.

(** A verdict leaves the players and the counter as they were. *)
Lemma selectEvent_core fuel opts ev loop pool s t :
  users (final (selectEvent fuel opts ev loop pool s t)) = users s /\
  alive (final (selectEvent fuel opts ev loop pool s t)) = alive s.
Proof. apply keeps_selectEvent. Qed.

(** ** Participant selection *)

Arguments splice1 : simpl never.
Arguments floor_mul : simpl never.

Lemma splice1_refs (start : Z) (pool : list nat) (E : list Ref) :
  Permutation (refs (E ++ [fst (splice1 start pool)]) ++ snd (splice1 start pool))
              (refs E ++ pool).
Proof.
  pose proof (splice1_perm start pool) as H.
  rewrite refs_app.
  destruct (fst (splice1 start pool)) as [x|]; cbn [refs].
  - rewrite <- app_assoc. cbn [app]. apply Permutation_app_head. exact H.
  - rewrite H, app_nil_r. reflexivity.
Qed.

Lemma selectRandom_perm n : forall pool (E : list Ref) (s : Sim) t pool' E' s' t',
  selectRandom n pool E s t = Val (pool', E') s' t' ->
  Permutation (refs E' ++ pool') (refs E ++ pool).
Proof.
  induction n as [|n IH]; intros pool E s t pool' E' s' t' H;
    cbn [selectRandom] in H.
  - inversion H; subst. reflexivity.
  - unfold bind, random in H. destruct t as [|r t0]; try discriminate.
    destruct (in_unit r); try discriminate.
    pose proof (splice1_refs (floor_mul r (len pool)) pool E) as Hs.
    destruct (splice1 (floor_mul r (len pool)) pool) as [u pool1].
    apply IH in H. etransitivity; [exact H|exact Hs].
Qed.

Lemma selectByTeam_perm g validTeam isAttacker nv : forall idxs pool (E : list Ref),
  Permutation
    (refs (snd (selectByTeam g validTeam isAttacker nv idxs pool E))
     ++ fst (selectByTeam g validTeam isAttacker nv idxs pool E))
    (refs E ++ pool).
Proof.
  induction idxs as [|i idxs IH]; intros pool E; cbn [selectByTeam fst snd].
  - reflexivity.
  - match goal with
    | |- context [splice1 ?st pool] =>
        pose proof (splice1_refs st pool E) as Hs; destruct (splice1 st pool) as [u pool1]
    end.
    etransitivity; [apply IH|exact Hs].
Qed.

Lemma PoolOk_app_r us l1 l2 : PoolOk us (l1 ++ l2) -> PoolOk us l2.
Proof.
  intros [Hnd Hall]. split.
  - eapply NoDup_app_remove_l; eauto.
  - apply Forall_app in Hall. tauto.
Qed.

Section Loop.

Variable pres : Presenter.
Variable C B : bool.
Variable opts : Options.

(** An accepted event, applied: the invariant holds again for the pool
    that is left, and at every exit on the way. *)
Lemma applyEvent_spec lo ev na nv pool :
  0 <= na -> 0 <= nv ->
  triple (on_core (Mid C B (lo + deaths ev na nv) pool))
         (applyEvent pres opts ev na nv pool)
         (fun pool' => on_core (Mid C B lo pool'))
         (on_core (Out C B lo)).
Proof.
  intros Hna Hnv. unfold applyEvent.
  assert (Hout : forall s, on_core (Mid C B (lo + deaths ev na nv) pool) s ->
                           on_core (Out C B lo) s).
  { intros s [H1 [H2 H3]]. split; auto.
    assert (0 <= deaths ev na nv).
    { unfold deaths, dies.
      destruct (String.eqb _ _); destruct (String.eqb _ _); lia. }
    lia. }
  eapply triple_bind; [apply triple_getGame|]. intros g.
  eapply triple_bind.
  - eapply triple_conseq with
      (P' := on_core (Mid C B (lo + deaths ev na nv) pool))
      (Q' := fun c s => on_core (Mid C B (lo + deaths ev na nv) pool) s /\
                        Permutation (refs (snd c) ++ fst c) pool)
      (E' := on_core (Mid C B (lo + deaths ev na nv) pool)).
    + apply triple_keeps_val.
      * destruct (teamMode opts); [|apply keeps_selectRandom].
        destruct (findValidTeam _ _ _ _ _). apply keeps_ret.
      * intros s t c s' t' H. destruct (teamMode opts).
        -- destruct (findValidTeam _ _ _ _ _) as [vt ia]. inversion H; subst.
           apply (selectByTeam_perm g vt ia nv _ pool []).
        -- destruct c as [pool' E']. apply selectRandom_perm in H. exact H.
    + intros s [H _]. exact H.
    + intros c s H. exact H.
    + exact Hout.
  - intros [pool' E]. simpl.
    eapply triple_bind.
    + eapply triple_conseq; [apply (applyEffects_spec C B opts lo ev E nv na pool' Hnv Hna)| | |].
      * intros s [[H1 [H2 H3]] Hperm]. split; [|split]; auto.
        -- eapply PoolOk_perm; [symmetry; exact Hperm|exact H2].
        -- unfold deaths in H3. lia.
      * intros u s H. exact H.
      * auto.
    + intros u.
      eapply triple_conseq with
        (P' := on_core (Mid C B lo pool'))
        (Q' := fun p => on_core (Mid C B lo p))
        (E' := on_core (Mid C B lo pool')).
      * eapply triple_bind;
          [apply triple_keeps; apply keeps_makeSingleEvent|intros made].
        eapply triple_bind; [apply triple_keeps; keeps_tac|intros u1].
        eapply triple_bind; [apply triple_keeps; keeps_tac|intros u2].
        apply triple_ret. auto.
      * intros s [H1 [H2 H3]]. split; [|split]; auto.
        eapply PoolOk_app_r; eauto.
      * auto.
      * intros s [H1 [H2 H3]]. split; auto.
Qed.

Lemma Inv_out lo pool us n : Inv C B opts lo pool us n -> InvOut C B opts lo us n.
Proof. intros [H1 [H2 H3]]. split; auto. Qed.

(** One pass of the loop body. *)
Lemma loopBody_spec fuel userEventPool lo loop pool :
  lo <= 1 ->
  triple (on_core (Inv C B opts lo pool))
         (loopBody pres fuel opts userEventPool loop pool)
         (fun c => on_core (fun us n =>
                    match c with
                    | Next _ pool' => Inv C B opts lo pool' us n
                    | Stop => InvOut C B opts lo us n
                    end))
         (on_core (InvOut C B opts lo)).
Proof.
  intros Hlo1 s t Hinv. unfold loopBody, bind at 1.
  pose proof (keeps_random s t) as Hr.
  destruct (random s t) as [r s0 t0| |]; simpl in Hr; destruct Hr as [Hu Ha];
    try (apply Inv_out in Hinv; unfold on_core; rewrite ?Hu, ?Ha; exact Hinv).
  assert (Hmid : on_core (Inv C B opts lo pool) s0).
  { unfold on_core. rewrite Hu, Ha. exact Hinv. }
  clear Hinv Hu Ha s t.
  assert (Hrej : forall o l, match (emit o ;;; ret (Next l pool)) s0 t0 with
                             | Val c s' _ => on_core (fun us n =>
                                 match c with
                                 | Next _ pool' => Inv C B opts lo pool' us n
                                 | Stop => InvOut C B opts lo us n
                                 end) s'
                             | Exn s' _ | Starved s' => on_core (InvOut C B opts lo) s'
                             end).
  { intros o l. simpl. exact Hmid. }
  match goal with |- match (if ?c then _ else _) _ _ with _ => _ end => destruct c end.
  { apply Hrej. }
  destruct (nth_error userEventPool _) as [[ev|]|]; try apply Hrej.
  unfold tryEvent, bind at 1.
  pose proof (selectEvent_core fuel opts ev (loop + 1) pool s0 t0) as [Hu1 Ha1].
  destruct (selectEvent fuel opts ev (loop + 1) pool s0 t0) as [v s1 t1| |] eqn:Hsel;
    simpl in Hu1, Ha1;
    try (apply Inv_out in Hmid; unfold on_core; rewrite ?Hu1, ?Ha1; exact Hmid).
  assert (Hmid1 : on_core (Inv C B opts lo pool) s1).
  { unfold on_core. rewrite Hu1, Ha1. exact Hmid. }
  destruct v as [| |na nv].
  - simpl. apply Inv_out in Hmid1. exact Hmid1.
  - simpl. exact Hmid1.
  - apply selectEvent_accept in Hsel. destruct Hsel as [Hna [Hnv [_ Hsafe]]].
    unfold bind.
    assert (Hpre : on_core (Mid C B (alive s1 - deaths ev na nv + deaths ev na nv) pool) s1).
    { destruct Hmid1 as [H1 [H2 H3]]. split; [|split]; auto.
      fold (alive s1). lia. }
    pose proof (applyEvent_spec (alive s1 - deaths ev na nv) ev na nv pool
                  Hna Hnv s1 t1 Hpre) as Hap.
    destruct (applyEvent pres opts ev na nv pool s1 t1) as [pool' s2 t2| |]; simpl.
    + destruct Hap as [H1 [H2 H3]]. split; [|split]; auto.
      intros Hno. specialize (Hsafe Hno). lia.
    + destruct Hap as [H1 H3]. split; auto.
      intros Hno. specialize (Hsafe Hno). lia.
    + destruct Hap as [H1 H3]. split; auto.
      intros Hno. specialize (Hsafe Hno). lia.
Qed.

(** The event loop keeps the invariant, however it ends. *)
Lemma eventLoop_spec userEventPool lo : lo <= 1 ->
  forall fuel loop pool,
  triple (on_core (Inv C B opts lo pool))
         (eventLoop pres fuel opts userEventPool loop pool)
         (fun _ => on_core (InvOut C B opts lo))
         (on_core (InvOut C B opts lo)).
Proof.
  intros Hlo1. induction fuel as [|fuel IH]; intros loop pool.
  - apply triple_starve. intros s H. apply Inv_out in H. exact H.
  - simpl. destruct (len pool >? 0).
    + eapply triple_bind; [apply (loopBody_spec fuel userEventPool lo loop pool Hlo1)|].
      intros [loop' pool'|].
      * apply IH.
      * apply triple_ret. auto.
    + apply triple_ret. intros s H. apply Inv_out in H. exact H.
Qed.

End Loop.

(** ** Resurrection and the bleed pass *)

Lemma countLiving_map g us :
  (forall q, living (g q) = living q) -> countLiving (map g us) = countLiving us.
Proof.
  intros H. induction us as [|p us IH]; auto.
  cbn [map]. rewrite !countLiving_cons, H, IH. reflexivity.
Qed.

Lemma Base_map C B us n g :
  (forall q, id (g q) = id q) -> (forall q, living (g q) = living q) ->
  (forall q, bleeding (g q) = bleeding q) ->
  Base C B us n -> Base C B (map g us) n.
Proof.
  intros Hid Hl Hb [Hnd [Hn Hdc]]. split; [|split].
  - rewrite map_map. erewrite map_ext; [exact Hnd|]. intros q. apply Hid.
  - intros HC. rewrite countLiving_map; auto.
  - intros HB q Hq Hdead. apply in_map_iff in Hq. destruct Hq as [x [<- Hx]].
    rewrite Hb. rewrite Hl in Hdead. apply Hdc; auto.
Qed.

Lemma Base_update_neutral C B us n r f :
  (forall q, id (f q) = id q) -> (forall q, living (f q) = living q) ->
  (forall q, bleeding (f q) = bleeding q) ->
  Base C B us n -> Base C B (update r f us) n.
Proof.
  intros Hid Hl Hb HB. destruct (nth_error us r) as [p|] eqn:Hp.
  - destruct HB as [Hnd [Hn Hdc]]. split; [|split].
    + rewrite map_update; auto.
    + intros HC. rewrite (countLiving_update f us r p Hp), Hl, (Hn HC). lia.
    + intros HB. eapply DeadClean_update; eauto.
      rewrite Hl, Hb. intros Hd. apply (Hdc HB); auto.
      eapply nth_error_In; eauto.
  - rewrite update_none; auto.
Qed.

Lemma triple_random_frame {S} (P E : S -> Prop) :
  (forall s, P s -> E s) -> triple P random (fun _ => P) E.
Proof.
  intros H s t Hs. unfold random. destruct t as [|r t']; auto.
  destruct (in_unit r); auto.
Qed.

Lemma triple_keeps_out {A} (I J : list Player -> Z -> Prop) (m : M Sim A) :
  keeps m -> (forall us n, I us n -> J us n) ->
  triple (on_core I) m (fun _ => on_core I) (on_core J).
Proof.
  intros Hk HIJ. eapply triple_conseq; [apply (triple_keeps I m Hk)| | |]; auto.
  intros s H. apply HIJ. exact H.
Qed.

Section Day.

Variable pres : Presenter.
Variable C B : bool.
Variable opts : Options.

Lemma resurrect_spec lo :
  triple (on_core (InvOut C B opts lo)) (resurrect pres opts)
         (fun _ => on_core (InvOut C B opts lo)) (on_core (InvOut C B opts lo)).
Proof.
  unfold resurrect.
  destruct (resurrection opts); [|apply triple_ret; auto].
  eapply triple_bind; [apply triple_keeps; apply keeps_random|]. intros r.
  destruct (lt_num r (probabilityOfResurrect opts)); [|apply triple_ret; auto].
  eapply triple_bind; [apply triple_getGame|]. intros g.
  destruct (len _ >? 0); [|apply triple_ret; intros s [H _]; exact H].
  eapply triple_bind;
    [apply triple_random_frame; intros s [H _]; exact H|].
  intros r'.
  set (deadPool := positions (fun obj => negb (living obj)) 0 (includedUsers g)).
  destruct (nth_error deadPool _) as [R|] eqn:HR;
    [|apply triple_throw; intros s [H _]; exact H].
  destruct (nth_error (includedUsers g) R) as [res|] eqn:Hres;
    [|apply triple_throw; intros s [H _]; exact H].
  assert (Hdead : living res = false).
  { apply nth_error_In in HR. unfold deadPool in HR. apply positions_spec in HR.
    destruct HR as [x [_ [Hx Hp]]]. rewrite Nat.sub_0_r, Hres in Hx.
    inversion Hx; subst. apply negb_true_iff in Hp. exact Hp. }
  intros s t [[HB Hsafe] Hg]. subst g.
  unfold bind at 1. cbn [modifyGame modify].
  unfold bind at 1. cbn [modifyGame modify].
  unfold bind at 1. cbn [modifyGame modify].
  match goal with |- match ?m ?s1 t with _ => _ end =>
    assert (Hk : keeps m) by (keeps_tac; auto with keeps);
    pose proof (triple_keeps (InvOut C B opts lo) m Hk s1 t) as Ht
  end.
  match type of Ht with ?P -> _ => assert (Hpre : P) end.
  { unfold on_core, users, alive, on_users. cbn. unfold users, alive in *.
    split.
    - pose proof (Base_update C B _ _ R res
                    (fun u => set_state "zombie" (set_living true u))
                    (fun _ => eq_refl) Hres (fun H => ltac:(discriminate H)) HB) as H1.
      rewrite Hdead in H1. cbn in H1.
      eapply (Base_map C B _ _
                (fun obj => if negb (living obj) && (rank obj <? rank res)
                            then set_rank (rank obj + 1) obj else obj)) in H1;
        try (intros q; destruct (negb (living q) && (rank q <? rank res)); reflexivity).
      eapply (Base_update_neutral C B _ _ R (set_rank 1)) in H1;
        try (intros q; reflexivity).
      replace (numAlive (game s) + 1) with (numAlive (game s) - 0 + 1) by lia.
      exact H1.
    - intros Hno. specialize (Hsafe Hno). lia. }
  specialize (Ht Hpre).
  match goal with |- match ?m ?s1 t with _ => _ end => destruct (m s1 t) end; auto.
Qed.


Lemma CalmBelow_update k us f p :
  nth_error us k = Some p ->
  (living (f p) = true -> bleeding (f p) = false) ->
  CalmBelow k us -> CalmBelow (S k) (update k f us).
Proof.
  intros Hp Hf Hc j q Hj Hq Hl.
  destruct (Nat.eq_dec k j) as [<-|Hne].
  - rewrite (nth_error_update_eq f us k p Hp) in Hq. inversion Hq; subst. auto.
  - rewrite nth_error_update_neq in Hq by auto. apply (Hc j q); auto. lia.
Qed.

Lemma CalmBelow_step k us :
  (forall p, nth_error us k = Some p -> living p = true -> bleeding p = false) ->
  CalmBelow k us -> CalmBelow (S k) us.
Proof.
  intros Hk Hc j q Hj Hq Hl. destruct (Nat.eq_dec k j) as [<-|Hne]; auto.
  apply (Hc j q); auto. lia.
Qed.

Lemma bleedPass_spec lo L : lo <= 1 -> forall m k ub ur,
  triple (on_core (BleedInv C B opts lo L k))
         (bleedPass opts (seq k m) ub ur)
         (fun _ => on_core (BleedInv C B opts lo L (k + m)))
         (on_core (InvOut C B opts lo)).
Proof.
  intros Hlo1. induction m as [|m IH]; intros k ub ur.
  - cbn [seq bleedPass]. apply triple_ret. intros s H. rewrite Nat.add_0_r. exact H.
  - cbn [seq bleedPass]. replace (k + S m)%nat with (S k + m)%nat by lia.
    eapply triple_bind; [apply triple_getGame|]. intros g.
    destruct (nth_error (includedUsers g) k) as [obj|] eqn:Hobj.
    2:{ eapply triple_conseq; [apply (IH (S k))| | |]; auto.
        intros s [[[H1 H2] HL] Hg]. subst g. split; auto. split; auto.
        apply CalmBelow_step; auto. intros p Hp. unfold users in Hp.
        rewrite Hobj in Hp. discriminate. }
    destruct (bleeding obj && living obj) eqn:Hbl.
    2:{ eapply triple_conseq; [apply (IH (S k))| | |]; auto.
        intros s [[[H1 H2] HL] Hg]. subst g. split; auto. split; auto.
        apply CalmBelow_step; auto. intros p Hp Hl. unfold users in Hp.
        rewrite Hobj in Hp. inversion Hp; subst.
        rewrite Hl, andb_true_r in Hbl. exact Hbl. }
    apply andb_true_iff in Hbl. destruct Hbl as [Hb Hl].
    eapply triple_bind;
      [apply triple_random_frame; intros s [[[H _] _] _]; exact H|].
    intros r.
    match goal with |- triple _ (if ?c then _ else _) _ _ => destruct c eqn:Hc end.
    + (* the player dies *)
      eapply triple_bind with (R := fun _ => on_core (BleedInv C B opts lo L (S k))).
      * apply triple_modify. intros s [[[[HB Hsafe] Hcalm] HL] Hg]. subst g.
        unfold on_core, users, alive, on_users in *. cbn.
        split; [|rewrite update_length; exact HL].
        split; [split|].
        -- pose proof (Base_update C B _ _ k obj (slay (numAlive (game s)))
                         (fun _ => eq_refl) Hobj (fun _ => eq_refl) HB) as H1.
           rewrite Hl in H1. cbn in H1.
           replace (numAlive (game s) - 1) with (numAlive (game s) - 1 + 0) by lia.
           exact H1.
        -- intros Hno. rewrite Hno in Hc. apply andb_true_iff in Hc.
           destruct Hc as [_ Hc]. cbn in Hc. lia.
        -- eapply CalmBelow_update; eauto; cbn; discriminate.
      * intros u. destruct (findTeam (id obj) (teams g)) as [ti|].
        -- eapply triple_bind; [|intros u1; apply (IH (S k))].
           apply triple_keeps_out; [keeps_tac|]. intros us n [[H _] _]. exact H.
        -- apply triple_throw. intros s [[H _] _]. exact H.
    + (* the player recovers *)
      eapply triple_bind with (R := fun _ => on_core (BleedInv C B opts lo L (S k)));
        [|intros u; apply (IH (S k))].
      apply triple_modify. intros s [[[[HB Hsafe] Hcalm] HL] Hg]. subst g.
      unfold on_core, users, alive, on_users in *. cbn.
      split; [|rewrite update_length; exact HL].
      split; [split|]; auto.
      * pose proof (Base_update C B _ _ k obj
                      (fun u => set_state "normal" (set_bleeding false u))
                      (fun _ => eq_refl) Hobj (fun _ => eq_refl) HB) as H1.
        cbn in H1. rewrite Hl in H1.
        assert (Heq : numAlive (game s) - b2z true + b2z true = numAlive (game s))
          by (cbn; lia).
        rewrite Heq in H1. exact H1.
      * eapply CalmBelow_update; eauto.
Qed.


Lemma positions_PoolOk us : PoolOk us (positions living 0 us).
Proof.
  split; [apply positions_NoDup|]. apply Forall_forall. intros r Hr.
  apply positions_spec in Hr. destruct Hr as [p [_ [Hp Hl]]].
  rewrite Nat.sub_0_r in Hp. exists p. auto.
Qed.

Lemma dayStart_spec lo tpl custom :
  triple (on_core (InvOut C B opts lo))
         (dayStart pres tpl custom opts)
         (fun start => on_core (Inv C B opts lo (fst start)))
         (on_core (InvOut C B opts lo)).
Proof.
  unfold dayStart.
  eapply triple_bind; [apply triple_keeps; keeps_tac|]. intros u0.
  eapply triple_bind; [apply resurrect_spec|]. intros u1.
  eapply triple_bind; [apply triple_getGame|]. intros g.
  eapply triple_bind with
    (R := fun _ => on_core (Inv C B opts lo (positions living 0 (includedUsers g)))).
  { eapply triple_conseq;
      [apply (triple_keeps_out (Inv C B opts lo (positions living 0 (includedUsers g)))
                               (InvOut C B opts lo)); [apply keeps_chooseEventPool|]| | |];
      auto.
    - intros us n H. eapply Inv_out. exact H.
    - intros s [[H1 H2] Hg]. subst g. split; [|split]; auto.
      apply positions_PoolOk. }
  intros userEventPool. apply triple_ret. auto.
Qed.

Lemma dayEnd_spec lo : lo <= 1 ->
  triple (on_core (InvOut C B opts lo))
         (dayEnd pres opts)
         (fun _ => on_core (fun us n => InvOut C B opts lo us n /\ Calm us))
         (on_core (InvOut C B opts lo)).
Proof.
  intros Hlo1. unfold dayEnd.
  eapply triple_bind; [apply triple_getGame|]. intros g2.
  eapply triple_bind with
    (R := fun _ => on_core (BleedInv C B opts lo (List.length (includedUsers g2))
                                     (List.length (includedUsers g2)))).
  { eapply triple_conseq;
      [apply (bleedPass_spec lo (List.length (includedUsers g2)) Hlo1
                (List.length (includedUsers g2)) 0%nat [] [])| | |]; auto.
    intros s [H Hg]. subst g2. split; [split|]; auto.
    intros j p Hj. lia. }
  intros [ub ur].
  assert (Hfin : forall us n,
             BleedInv C B opts lo (List.length (includedUsers g2))
                      (List.length (includedUsers g2)) us n ->
             InvOut C B opts lo us n /\ Calm us).
  { intros us n [[H1 H2] H3]. split; auto. intros p Hp Hl.
    apply In_nth_error in Hp. destruct Hp as [j Hj].
    apply (H2 j p); auto. rewrite <- H3. apply nth_error_Some. congruence. }
  eapply triple_conseq with
    (P' := on_core (BleedInv C B opts lo (List.length (includedUsers g2))
                             (List.length (includedUsers g2))))
    (Q' := fun _ => on_core (BleedInv C B opts lo (List.length (includedUsers g2))
                                      (List.length (includedUsers g2))))
    (E' := on_core (BleedInv C B opts lo (List.length (includedUsers g2))
                             (List.length (includedUsers g2)))); auto.
  - eapply triple_bind; [apply triple_keeps; keeps_tac; auto with keeps|intros u2].
    eapply triple_bind; [apply triple_keeps; keeps_tac; auto with keeps|intros u3].
    eapply triple_bind; [apply triple_keeps; keeps_tac|intros u4].
    eapply triple_bind; [apply triple_keeps; keeps_tac|intros g3].
    eapply triple_bind; [apply triple_keeps; keeps_tac|intros u5].
    apply triple_ret. auto.
  - intros e s H. apply Hfin in H. exact H.
  - intros s H. apply Hfin in H. tauto.
Qed.

(** The whole day from [day.state = 1] on. *)
Lemma simulateDay_spec lo fuel tpl custom : lo <= 1 ->
  triple (on_core (InvOut C B opts lo))
         (simulateDay pres fuel tpl custom opts)
         (fun e => on_core (fun us n => InvOut C B opts lo us n /\
                                        (e = DayReady -> Calm us)))
         (on_core (InvOut C B opts lo)).
Proof.
  intros Hlo1. unfold simulateDay.
  eapply triple_bind; [apply dayStart_spec|]. intros start.
  eapply triple_bind; [apply eventLoop_spec; exact Hlo1|]. intros finished.
  destruct finished.
  - eapply triple_conseq; [apply (dayEnd_spec lo Hlo1)| | |]; auto.
    intros e s [H1 H2]. split; auto.
  - apply triple_ret. intros s H. split; auto. discriminate.
Qed.

End Day.

(** ** The reveal step *)

Lemma keeps_modify (f : Sim -> Sim) :
  (forall s, users (f s) = users s /\ alive (f s) = alive s) -> keeps (modify f).
Proof. intros H s t. apply H. Qed.

Ltac keeps_step' :=
  match goal with
  | |- keeps (modify _) => apply keeps_modify; intro; split; reflexivity
  | _ => keeps_step
  end.

Ltac keeps_tac' := repeat keeps_step'; auto.

Lemma countLiving_perm us us' : Permutation us us' -> countLiving us = countLiving us'.
Proof.
  intros H. unfold countLiving, len. f_equal. apply Permutation_length.
  induction H; simpl; auto.
  - destruct (living x); auto.
  - destruct (living x); destruct (living y); auto. apply perm_swap.
  - etransitivity; eauto.
Qed.

Lemma Sound_perm us us' n : Permutation us' us -> Sound us n -> Sound us' n.
Proof.
  intros Hp [H1 H2]. split.
  - eapply Permutation_NoDup; [|exact H1]. apply Permutation_map. symmetry. exact Hp.
  - rewrite H2. symmetry. apply countLiving_perm. exact Hp.
Qed.

Section RevealProofs.

Variable sortBy : forall A : Type, (A -> A -> Z) -> list A -> list A.
Hypothesis sortBy_perm : forall A cmp (l : list A), Permutation (sortBy A cmp l) l.

Lemma triple_sortUsers (cmpOf : Game -> Player -> Player -> Z) E :
  triple (on_core Sound)
         (modifyGame (fun g =>
            set_includedUsers (sortBy Player (cmpOf g) (includedUsers g)) g))
         (fun _ => on_core Sound) E.
Proof.
  apply triple_modify. intros s H. unfold on_core, users, alive in *. cbn.
  eapply Sound_perm; [apply sortBy_perm|exact H].
Qed.

Lemma printDay_spec opts :
  triple (on_core Sound) (printDay sortBy opts)
         (fun _ => on_core Sound) (on_core Sound).
Proof.
  unfold printDay.
  eapply triple_bind; [apply triple_keeps; apply keeps_getGame|]. intros g.
  eapply triple_bind; [apply triple_keeps; keeps_tac'|]. intros u.
  eapply triple_bind with (R := fun _ => on_core Sound).
  - destruct (_ =? 1); [apply triple_keeps; keeps_tac'|].
    destruct (_ =? 1); [apply triple_keeps; keeps_tac'|].
    destruct (_ <? 1); [apply triple_keeps; keeps_tac'|].
    eapply triple_bind with (R := fun _ => on_core Sound).
    + destruct (gt_zero (teamSize opts)).
      * apply (triple_sortUsers
                 (fun g a b =>
                    let aTeam := teamIndex g (id a) in
                    let bTeam := teamIndex g (id b) in
                    if aTeam =? bTeam then Z.of_N (id a) - Z.of_N (id b)
                    else aTeam - bTeam)).
      * apply triple_ret. auto.
    + intros u1. apply triple_keeps. keeps_tac'.
  - intros u2.
    eapply triple_bind; [apply triple_keeps; apply keeps_getGame|]. intros g'.
    eapply triple_bind; [apply triple_keeps; keeps_tac'|]. intros u3.
    eapply triple_bind; [apply triple_keeps; keeps_tac'|]. intros u4.
    eapply triple_bind with (R := fun _ => on_core Sound).
    + destruct (ended g'); [|apply triple_ret; auto].
      eapply triple_bind with (R := fun _ => on_core Sound).
      * apply (triple_sortUsers (fun _ a b => rank a - rank b)).
      * intros u5. apply triple_keeps. keeps_tac'.
    + intros u6. apply triple_keeps. keeps_tac'.
Qed.

End RevealProofs.

(** ** From the store of a command to the guild slot *)

Lemma theGame_lift {A} w gd (iv : A -> bool) (o : Outcome Sim A) :
  theGame (final (lift w gd iv o)) = Some (game (final o)).
Proof. destruct o; reflexivity. Qed.

Lemma lift_val {A} w gd (iv : A -> bool) (o : Outcome Sim A) a w' t' :
  lift w gd iv o = Val a w' t' ->
  exists s', o = Val a s' t' /\ theGame w' = Some (game s').
Proof.
  destruct o as [a0 s0 t0| |]; simpl; intros H; inversion H; subst.
  exists s0. split; reflexivity.
Qed.

(** [nextDay] either returns at once, the game untouched, or simulates. *)
Lemma nextDayWith_cases pres fuel w t gd g :
  games_id w = Some gd -> currentGame gd = Some g ->
  (exists e w', nextDayWith pres fuel w t = Val e w' t /\ theGame w' = Some g /\
                e <> DayReady /\ e <> NoValidEvent) \/
  (inProgress g = true /\ day_state (day g) = 0 /\
   nextDayWith pres fuel w t =
   lift w gd (fun e => match e with DayReady => true | _ => intervals_id w end)
        (simulateDay pres fuel (store w) (customEvents gd) (options gd)
                     (mkSim g (autoPlay gd) []) t)).
Proof.
  intros Hgd Hg. unfold nextDayWith. rewrite Hgd, Hg.
  assert (Hsame : forall o, theGame (say o w) = Some g).
  { intros o. unfold theGame, say. simpl. rewrite Hgd. exact Hg. }
  destruct (inProgress g); simpl.
  2:{ left. eexists _, _. repeat split; eauto; discriminate. }
  destruct (day_state (day g) =? 0) eqn:Hst; simpl.
  - right. apply Z.eqb_eq in Hst. auto.
  - left. destruct (intervals_id w).
    + eexists _, _. repeat split; eauto; discriminate.
    + destruct (day_state (day g) =? 1).
      * eexists _, _. repeat split; eauto; discriminate.
      * eexists _, _. repeat split; eauto; try discriminate.
        unfold theGame, set_interval. simpl. rewrite Hgd. exact Hg.
Qed.

(** An invariant of the simulated day is an invariant of [nextDay]. *)
Lemma nextDayWith_inv pres fuel (I : list Player -> Z -> Prop) w t gd g :
  games_id w = Some gd -> currentGame gd = Some g ->
  triple (on_core I)
         (simulateDay pres fuel (store w) (customEvents gd) (options gd))
         (fun _ => on_core I) (on_core I) ->
  I (includedUsers g) (numAlive g) ->
  forall g', theGame (final (nextDayWith pres fuel w t)) = Some g' ->
             I (includedUsers g') (numAlive g').
Proof.
  intros Hgd Hg Htr HI g' Hg'.
  destruct (nextDayWith_cases pres fuel w t gd g Hgd Hg)
    as [(e & w' & Heq & Hw' & _) | (_ & _ & Heq)]; rewrite Heq in Hg'.
  - simpl in Hg'. rewrite Hw' in Hg'. inversion Hg'; subst. exact HI.
  - rewrite theGame_lift in Hg'. inversion Hg'; subst.
    specialize (Htr (mkSim g (autoPlay gd) []) t HI).
    destruct (simulateDay _ _ _ _ _ _ _); exact Htr.
Qed.

Lemma theGame_none_nextDay pres fuel w t :
  theGame w = None -> theGame (final (nextDayWith pres fuel w t)) = None.
Proof.
  unfold theGame, nextDayWith. destruct (games_id w) as [gd|] eqn:Hgd.
  - intros H. rewrite H. simpl. rewrite Hgd. exact H.
  - intros _. simpl. rewrite Hgd. reflexivity.
Qed.

(** [nextDay] keeps the ids distinct and the counter exact, at every exit. *)
Lemma nextDay_Sound pres w t gd g :
  games_id w = Some gd -> currentGame gd = Some g ->
  Sound (includedUsers g) (numAlive g) ->
  forall g', theGame (final (nextDay pres w t)) = Some g' ->
             Sound (includedUsers g') (numAlive g').
Proof.
  intros Hgd Hg HS g' Hg'. unfold nextDay in Hg'.
  set (lo := Z.min 1 (numAlive g)).
  assert (HI : InvOut true false (options gd) lo (includedUsers g) (numAlive g)).
  { destruct HS as [H1 H2]. split; [split; [|split]|]; auto; try discriminate.
    intros _. unfold lo. lia. }
  pose proof (nextDayWith_inv pres (S (List.length t))
                (InvOut true false (options gd) lo) w t gd g Hgd Hg) as H.
  assert (Htr : triple (on_core (InvOut true false (options gd) lo))
                  (simulateDay pres (S (List.length t)) (store w) (customEvents gd)
                               (options gd))
                  (fun _ => on_core (InvOut true false (options gd) lo))
                  (on_core (InvOut true false (options gd) lo))).
  { eapply triple_conseq;
      [apply (simulateDay_spec pres true false (options gd) lo (S (List.length t))
                (store w) (customEvents gd)); unfold lo; lia| | |];
      auto.
    intros e s [H1 _]. exact H1. }
  specialize (H Htr HI g' Hg'). destruct H as [[H1 [H2 _]] _]. split; auto.
Qed.

Lemma printEvent_Sound sortBy w t gd g :
  (forall A cmp (l : list A), Permutation (sortBy A cmp l) l) ->
  games_id w = Some gd -> currentGame gd = Some g ->
  Sound (includedUsers g) (numAlive g) ->
  forall g', theGame (final (printEvent sortBy w t)) = Some g' ->
             Sound (includedUsers g') (numAlive g').
Proof.
  intros Hperm Hgd Hg HS g' Hg'. unfold printEvent in Hg'. rewrite Hgd, Hg in Hg'.
  destruct (day_state (day g) - 2 =? len (events (day g))).
  - rewrite theGame_lift in Hg'. inversion Hg'; subst.
    assert (Htr : triple (on_core Sound)
                    (bind (printDay sortBy (options gd)) (fun _ => ret DayOver))
                    (fun _ => on_core Sound) (on_core Sound)).
    { eapply triple_bind; [apply printDay_spec; exact Hperm|].
      intros u. apply triple_ret. auto. }
    specialize (Htr (mkSim g (autoPlay gd) []) t HS).
    destruct (bind _ _ _ _); exact Htr.
  - destruct (if day_state (day g) - 2 <? 0 then None
              else nth_error (events (day g)) (Z.to_nat (day_state (day g) - 2)))
      as [ev|].
    + rewrite theGame_lift in Hg'. inversion Hg'; subst. exact HS.
    + simpl in Hg'. unfold theGame in Hg'. rewrite Hgd, Hg in Hg'.
      inversion Hg'; subst. exact HS.
Qed.

(** ** The fuel of the loops is never what runs out *)

Lemma mono_ret {A} (a : A) : tapeMono (ret a).
Proof. intros s t a' s' t' H. inversion H; subst. lia. Qed.

Lemma mono_throw {A} : tapeMono (@throw Sim A).
Proof. intros s t a' s' t' H. discriminate. Qed.

Lemma mono_starve {A} : tapeMono (@starve Sim A).
Proof. intros s t a' s' t' H. discriminate. Qed.

Lemma random_takes (s : Sim) t r s' t' :
  random s t = Val r s' t' -> s' = s /\ t = r :: t'.
Proof.
  unfold random. destruct t as [|r0 t0]; [discriminate|].
  destruct (in_unit r0); [|discriminate]. intros H. inversion H; subst. auto.
Qed.

Lemma mono_random : tapeMono (@random Sim).
Proof.
  intros s t r s' t' H. apply random_takes in H. destruct H as [_ ->]. simpl. lia.
Qed.

Lemma mono_get : tapeMono (@get Sim).
Proof. intros s t a' s' t' H. inversion H; subst. lia. Qed.

Lemma mono_getGame : tapeMono getGame.
Proof. intros s t a' s' t' H. inversion H; subst. lia. Qed.

Lemma mono_modify f : tapeMono (modify f).
Proof. intros s t a' s' t' H. inversion H; subst. lia. Qed.

Lemma mono_emit o : tapeMono (emit o).
Proof. apply mono_modify. Qed.

Lemma mono_modifyGame f : tapeMono (modifyGame f).
Proof. apply mono_modify. Qed.

Lemma mono_bind {A B} (m : M Sim A) (k : A -> M Sim B) :
  tapeMono m -> (forall a, tapeMono (k a)) -> tapeMono (bind m k).
Proof.
  intros Hm Hk s t b s' t' H. unfold bind in H.
  destruct (m s t) as [a s1 t1| |] eqn:Hmt; try discriminate.
  apply Hm in Hmt. apply Hk in H. lia.
Qed.

Ltac mono_step :=
  match goal with
  | |- tapeMono (bind _ _) => apply mono_bind; [|intro]
  | |- tapeMono (ret _) => apply mono_ret
  | |- tapeMono throw => apply mono_throw
  | |- tapeMono starve => apply mono_starve
  | |- tapeMono random => apply mono_random
  | |- tapeMono get => apply mono_get
  | |- tapeMono getGame => apply mono_getGame
  | |- tapeMono (emit _) => apply mono_emit
  | |- tapeMono (modifyGame _) => apply mono_modifyGame
  | |- tapeMono (modify _) => apply mono_modify
  | |- tapeMono (if ?b then _ else _) => destruct b
  | |- tapeMono (match ?x with _ => _ end) => destruct x
  end.

Ltac mono_tac := repeat mono_step; auto.

Lemma mono_weightedRand : tapeMono (@weightedRand Sim).
Proof. unfold weightedRand. mono_tac. Qed.

Lemma mono_forEach {A} (body : A -> M Sim unit) l :
  (forall x, tapeMono (body x)) -> tapeMono (forEach l body).
Proof. intros H. induction l; simpl; mono_tac. Qed.

Lemma mono_makeSingleEvent pres msg E nv na mention :
  tapeMono (makeSingleEvent pres msg E nv na mention).
Proof. unfold makeSingleEvent. mono_tac; apply mono_weightedRand. Qed.

Lemma mono_effectUser E i k : tapeMono (effectUser E i k).
Proof. unfold effectUser. mono_tac. Qed.

Lemma mono_applyOutcome opts E what i k : tapeMono (applyOutcome opts E what i k).
Proof.
  unfold applyOutcome, killUser, woundUser, restoreUser.
  mono_tac; apply mono_effectUser.
Qed.

Lemma mono_applyEffects opts ev E nv na : tapeMono (applyEffects opts ev E nv na).
Proof.
  unfold applyEffects. apply mono_bind; [|intro];
    apply mono_forEach; intro; apply mono_applyOutcome.
Qed.

Lemma mono_resolveCounts fuel : forall ma mv amin vmin na nv size,
  tapeMono (resolveCounts fuel ma mv amin vmin na nv size).
Proof.
  induction fuel as [|fuel IH]; intros; simpl; mono_tac; apply mono_weightedRand.
Qed.

Lemma mono_teamCheck ev na nv up : tapeMono (teamCheck ev na nv up).
Proof.
  unfold teamCheck. apply mono_bind; [apply mono_getGame|]. intros g.
  destruct (scanTeams _ _ _ _ _ _) as [[ts l] n]. mono_tac.
Qed.

Lemma mono_selectRandom n : forall up E, tapeMono (selectRandom n up E).
Proof. induction n as [|n IH]; intros; simpl; mono_tac. Qed.

Lemma mono_selectEvent fuel opts ev loop up :
  tapeMono (selectEvent fuel opts ev loop up).
Proof.
  unfold selectEvent. mono_tac;
    auto using mono_resolveCounts, mono_teamCheck.
Qed.

Lemma mono_applyEvent pres opts ev na nv up :
  tapeMono (applyEvent pres opts ev na nv up).
Proof.
  unfold applyEvent. mono_tac;
    auto using mono_selectRandom, mono_applyEffects, mono_makeSingleEvent.
Qed.

Lemma mono_tryEvent pres fuel opts ev loop up :
  tapeMono (tryEvent pres fuel opts ev loop up).
Proof.
  unfold tryEvent. mono_tac; auto using mono_selectEvent, mono_applyEvent.
Qed.

(** A pass of the loop body takes at least one draw. *)
Lemma loopBody_takes pres fuel opts pool loop up s t c s' t' :
  loopBody pres fuel opts pool loop up s t = Val c s' t' ->
  (List.length t' < List.length t)%nat.
Proof.
  unfold loopBody, bind at 1. intros H.
  destruct (random s t) as [r s0 t0| |] eqn:Hr; try discriminate.
  apply random_takes in Hr. destruct Hr as [-> ->].
  revert H.
  match goal with
  | |- ?m s t0 = _ -> _ => assert (Hm : tapeMono m)
  end.
  { mono_tac. apply mono_tryEvent. }
  intros H. apply Hm in H. simpl. lia.
Qed.

Lemma bind_congr {S A B} (m : M S A) (k k' : A -> M S B) s t :
  (forall a s' t', m s t = Val a s' t' -> k a s' t' = k' a s' t') ->
  bind m k s t = bind m k' s t.
Proof.
  intros H. unfold bind. destruct (m s t) as [a s' t'| |]; auto.
Qed.

Lemma weightedRand_takes (s : Sim) t w s' t' :
  weightedRand s t = Val w s' t' -> (List.length t' < List.length t)%nat.
Proof.
  unfold weightedRand, bind. intros H.
  destruct (random s t) as [r s0 t0| |] eqn:Hr; try discriminate.
  apply random_takes in Hr. destruct Hr as [-> ->].
  destruct (weightedRandOf r); try discriminate. inversion H; subst. simpl. lia.
Qed.

(** With more fuel than draws, more fuel changes nothing: first for the
    redraw loop, which takes a draw on every round. *)
Lemma resolveCounts_fuel fuel : forall fuel' ma mv amin vmin na nv size s t,
  ma || mv = true ->
  (List.length t < fuel)%nat -> (List.length t < fuel')%nat ->
  resolveCounts fuel ma mv amin vmin na nv size s t
  = resolveCounts fuel' ma mv amin vmin na nv size s t.
Proof.
  induction fuel as [|fuel IH]; intros fuel' ma mv amin vmin na nv size s t Hm Hf Hf';
    [lia|].
  destruct fuel' as [|fuel']; [lia|]. cbn [resolveCounts].
  apply bind_congr. intros a1 s1 t1 Ha.
  apply bind_congr. intros v1 s2 t2 Hv.
  destruct (a1 + v1 >? size); [|reflexivity].
  assert (H3 : (List.length t2 < List.length t)%nat).
  { destruct ma.
    - unfold bind in Ha. destruct (weightedRand s t) as [w s3 t3| |] eqn:Hw;
        try discriminate. inversion Ha; subst.
      apply weightedRand_takes in Hw.
      assert ((List.length t2 <= List.length t1)%nat); [|lia].
      revert Hv. destruct mv;
        [apply mono_bind; [apply mono_weightedRand|intro; apply mono_ret]|apply mono_ret].
    - simpl in Hm. subst mv. inversion Ha; subst.
      unfold bind in Hv. destruct (weightedRand s1 t1) as [w s3 t3| |] eqn:Hw;
        try discriminate. inversion Hv; subst.
      apply weightedRand_takes in Hw. exact Hw. }
  apply IH; auto; lia.
Qed.

Lemma selectEvent_fuel fuel fuel' opts ev loop up s t :
  (List.length t < fuel)%nat -> (List.length t < fuel')%nat ->
  selectEvent fuel opts ev loop up s t = selectEvent fuel' opts ev loop up s t.
Proof.
  intros Hf Hf'. unfold selectEvent.
  destruct (loop >? 100); [reflexivity|].
  match goal with |- (if ?c then _ else _) _ _ = _ => destruct c; [reflexivity|] end.
  unfold bind at 1 3.
  destruct (_ || _) eqn:Hm; [|reflexivity].
  rewrite (resolveCounts_fuel fuel fuel'); auto.
Qed.

Lemma loopBody_fuel pres fuel fuel' opts pool loop up s t :
  (List.length t <= fuel)%nat -> (List.length t <= fuel')%nat ->
  loopBody pres fuel opts pool loop up s t = loopBody pres fuel' opts pool loop up s t.
Proof.
  intros Hf Hf'. unfold loopBody. apply bind_congr. intros r s0 t0 Hr.
  apply random_takes in Hr. destruct Hr as [-> ->]. simpl in Hf, Hf'.
  match goal with |- (if ?c then _ else _) _ _ = _ => destruct c; [reflexivity|] end.
  destruct (nth_error pool _) as [[ev|]|]; try reflexivity.
  unfold tryEvent, bind. rewrite (selectEvent_fuel fuel fuel'); auto; lia.
Qed.

(** The event loop with more fuel than draws on the tape does not depend
    on the fuel: it never ends for lack of fuel. *)
Lemma eventLoop_fuel pres opts pool fuel : forall fuel' loop up s t,
  (List.length t < fuel)%nat -> (List.length t < fuel')%nat ->
  eventLoop pres fuel opts pool loop up s t
  = eventLoop pres fuel' opts pool loop up s t.
Proof.
  induction fuel as [|fuel IH]; intros fuel' loop up s t Hf Hf'; [lia|].
  destruct fuel' as [|fuel']; [lia|]. cbn [eventLoop].
  destruct (len up >? 0); [|reflexivity].
  unfold bind. rewrite (loopBody_fuel pres fuel fuel') by lia.
  destruct (loopBody pres fuel' opts pool loop up s t) as [c s1 t1| |] eqn:Hb;
    try reflexivity.
  apply loopBody_takes in Hb. destruct c as [loop1 up1|]; [|reflexivity].
  apply IH; lia.
Qed.

Lemma mono_resurrect pres opts : tapeMono (resurrect pres opts).
Proof. unfold resurrect. mono_tac; auto using mono_makeSingleEvent. Qed.

Lemma mono_chooseEventPool pres tpl custom opts :
  tapeMono (chooseEventPool pres tpl custom opts).
Proof. unfold chooseEventPool. mono_tac; auto using mono_makeSingleEvent. Qed.

Lemma mono_dayStart pres tpl custom opts : tapeMono (dayStart pres tpl custom opts).
Proof.
  unfold dayStart. mono_tac; auto using mono_resurrect, mono_chooseEventPool.
Qed.

(** [nextDay] is what any larger amount of fuel gives: the outcome
    [Starved] always means that the tape itself ran out. *)
Lemma nextDay_fuel pres extra w t :
  nextDayWith pres (S (List.length t) + extra) w t = nextDay pres w t.
Proof.
  unfold nextDay, nextDayWith.
  destruct (games_id w) as [gd|]; [|reflexivity].
  destruct (currentGame gd) as [g|]; [|reflexivity].
  destruct (negb (inProgress g)); [reflexivity|].
  destruct (negb (day_state (day g) =? 0)); [reflexivity|].
  f_equal. unfold simulateDay. apply bind_congr. intros start s0 t0 Hs.
  apply mono_dayStart in Hs. unfold bind.
  rewrite (eventLoop_fuel pres (options gd) (snd start)
             (S (List.length t) + extra) (S (List.length t))) by lia.
  reflexivity.
Qed.

(** ** Sample instances *)

Lemma insertBy_perm {A} (cmp : A -> A -> Z) x l : Permutation (insertBy cmp x l) (x :: l).
Proof.
  induction l as [|y l IH]; simpl; auto.
  destruct (cmp x y <? 0); auto.
  etransitivity; [apply perm_skip; exact IH|apply perm_swap].
Qed.

Lemma insertionSort_perm A cmp (l : list A) : Permutation (insertionSort A cmp l) l.
Proof.
  induction l as [|x l IH]; simpl; auto.
  etransitivity; [apply insertBy_perm|]. apply perm_skip. exact IH.
Qed.

(** * C1 *)

(** C1. The alive counter equals the number of living players before and
    after every day simulation ([nextDay]) and every reveal step
    ([printEvent]): from a game whose ids are distinct and whose counter is
    exact, both operations end, however they exit, in a game whose ids are
    distinct and whose counter is exact. The sort of [printDay] is any
    function that returns a permutation of its input. *)
Theorem alive_counter_invariant pres sortBy w t :
  (forall A cmp (l : list A), Permutation (sortBy A cmp l) l) ->
  distinctIds w -> aliveCounted w ->
  (distinctIds (final (nextDay pres w t)) /\
   aliveCounted (final (nextDay pres w t))) /\
  (distinctIds (final (printEvent sortBy w t)) /\
   aliveCounted (final (printEvent sortBy w t))).
Proof.
  intros Hperm Hd Ha.
  destruct (theGame w) as [g|] eqn:Hw.
  - assert (HS : Sound (includedUsers g) (numAlive g)) by (split; auto).
    unfold theGame in Hw. destruct (games_id w) as [gd|] eqn:Hgd; [|discriminate].
    split; split; intros g' Hg'.
    + apply (nextDay_Sound pres w t gd g Hgd Hw HS g' Hg').
    + apply (nextDay_Sound pres w t gd g Hgd Hw HS g' Hg').
    + apply (printEvent_Sound sortBy w t gd g Hperm Hgd Hw HS g' Hg').
    + apply (printEvent_Sound sortBy w t gd g Hperm Hgd Hw HS g' Hg').
  - assert (H1 : theGame (final (nextDay pres w t)) = None)
      by (unfold nextDay; apply theGame_none_nextDay; exact Hw).
    assert (H2 : theGame (final (printEvent sortBy w t)) = None).
    { unfold printEvent, theGame in *. destruct (games_id w) as [gd|] eqn:Hgd.
      - rewrite Hw. simpl. rewrite Hgd. exact Hw.
      - simpl. rewrite Hgd. reflexivity. }
    split; split; intros g' Hg'; congruence.
Qed.

Lemma fresh_distinct o : distinctIds (freshWorld o).
Proof.
  intros g Hg. inversion Hg; subst. simpl.
  repeat constructor; simpl; intuition discriminate.
Defined.

Lemma fresh_counted o : aliveCounted (freshWorld o).
Proof. intros g Hg. inversion Hg; subst. reflexivity. Defined.

Lemma alive_counter_invariant_witness :
  (distinctIds (final (nextDay plainPresenter (freshWorld defaultOptions) (zeros 9))) /\
   aliveCounted (final (nextDay plainPresenter (freshWorld defaultOptions) (zeros 9)))) /\
  (distinctIds (final (printEvent insertionSort (freshWorld defaultOptions) (zeros 9))) /\
   aliveCounted (final (printEvent insertionSort (freshWorld defaultOptions) (zeros 9)))).
Proof.
  apply (alive_counter_invariant plainPresenter insertionSort
           (freshWorld defaultOptions) (zeros 9)
           insertionSort_perm (fresh_distinct defaultOptions)
           (fresh_counted defaultOptions)).
Defined.

(** * C3 *)

(** C3. With allowNoVictors off and at least one living player when the
    day starts, no exit of the day simulation leaves a game without a
    living player: not its completion, not the NoValidEvent return, not an
    error that propagates, and not the point where the next random draw is
    awaited. Since only the resurrection pass, which runs first, ever sets
    a living flag, the number of living players never rises afterwards, so
    the bound at every such point is a bound at every moment of the day. *)
Theorem survivors_never_zero pres w t gd g :
  games_id w = Some gd -> currentGame gd = Some g ->
  allowNoVictors (options gd) = false ->
  NoDup (map id (includedUsers g)) ->
  numAlive g = countLiving (includedUsers g) ->
  1 <= countLiving (includedUsers g) ->
  forall g', theGame (final (nextDay pres w t)) = Some g' ->
             1 <= countLiving (includedUsers g').
Proof.
  intros Hgd Hg Hno Hnd Hn H1 g' Hg'. unfold nextDay in Hg'.
  assert (HI : InvOut true false (options gd) 1 (includedUsers g) (numAlive g)).
  { split; [split; [|split]|]; auto; try discriminate. intros _. lia. }
  assert (Htr : triple (on_core (InvOut true false (options gd) 1))
                  (simulateDay pres (S (List.length t)) (store w) (customEvents gd)
                               (options gd))
                  (fun _ => on_core (InvOut true false (options gd) 1))
                  (on_core (InvOut true false (options gd) 1))).
  { eapply triple_conseq;
      [apply (simulateDay_spec pres true false (options gd) 1 (S (List.length t))
                (store w) (customEvents gd)); lia| | |]; auto.
    intros e s [H _]. exact H. }
  pose proof (nextDayWith_inv pres (S (List.length t))
                (InvOut true false (options gd) 1) w t gd g Hgd Hg Htr HI g' Hg')
    as [[_ [Hc _]] Hsafe].
  rewrite <- (Hc eq_refl). apply Hsafe. exact Hno.
Qed.

Lemma survivors_never_zero_witness :
  exists g',
    theGame (final (nextDay plainPresenter (freshWorld noVictorsOff) (zeros 200)))
    = Some g' /\
    1 <= countLiving (includedUsers g').
Proof.
  eexists. split; [vm_compute; reflexivity|].
  apply (survivors_never_zero plainPresenter (freshWorld noVictorsOff) (zeros 200)
           (freshGuild noVictorsOff) freshGame eq_refl eq_refl eq_refl).
  - repeat constructor; simpl; intuition discriminate.
  - reflexivity.
  - vm_compute. discriminate.
  - vm_compute. reflexivity.
Defined.

(** * C10 *)

(** C10. After a day simulation that completes (returns with the day ready
    to be revealed), no player carries the bleeding flag, provided the ids
    are distinct and no dead player carried it when the day started. *)
Theorem bleeding_cleared_after_day pres w t gd g w' t' :
  games_id w = Some gd -> currentGame gd = Some g ->
  NoDup (map id (includedUsers g)) ->
  (forall p, In p (includedUsers g) -> living p = false -> bleeding p = false) ->
  nextDay pres w t = Val DayReady w' t' ->
  forall g' p, theGame w' = Some g' -> In p (includedUsers g') -> bleeding p = false.
Proof.
  intros Hgd Hg Hnd Hdc Hrun g' p Hg' Hp. unfold nextDay in Hrun.
  destruct (nextDayWith_cases pres (S (List.length t)) w t gd g Hgd Hg)
    as [(e & w1 & Heq & _ & Hne & _) | (_ & _ & Heq)]; rewrite Heq in Hrun.
  - inversion Hrun; subst. congruence.
  - apply lift_val in Hrun. destruct Hrun as [s' [Hsim Hw']].
    rewrite Hw' in Hg'. inversion Hg'; subst g'.
    set (lo := Z.min 1 (numAlive g)).
    pose proof (simulateDay_spec pres false true (options gd) lo (S (List.length t))
                  (store w) (customEvents gd) ltac:(unfold lo; lia)
                  (mkSim g (autoPlay gd) []) t) as Htr.
    rewrite Hsim in Htr.
    assert (HI : on_core (InvOut false true (options gd) lo) (mkSim g (autoPlay gd) [])).
    { split; [split; [|split]|]; auto; try discriminate.
      intros _. unfold lo, alive. simpl. lia. }
    destruct (Htr HI) as [[[_ [_ Hclean]] _] Hcalm].
    destruct (living p) eqn:Hl.
    + apply (Hcalm eq_refl p Hp Hl).
    + apply (Hclean eq_refl p Hp Hl).
Qed.

Lemma bleeding_cleared_after_day_witness :
  nextDay plainPresenter woundedWorld woundedTape
  = Val DayReady (final (nextDay plainPresenter woundedWorld woundedTape))
        (rest (nextDay plainPresenter woundedWorld woundedTape)) /\
  exists g',
    theGame (final (nextDay plainPresenter woundedWorld woundedTape)) = Some g' /\
    Forall (fun p => bleeding p = false) (includedUsers g').
Proof.
  split; [vm_compute; reflexivity|].
  eexists. split; [vm_compute; reflexivity|].
  apply Forall_forall. intros p Hp.
  eapply (bleeding_cleared_after_day plainPresenter woundedWorld woundedTape
            woundedGuild woundedGame
            (final (nextDay plainPresenter woundedWorld woundedTape))
            (rest (nextDay plainPresenter woundedWorld woundedTape))
            eq_refl eq_refl).
  - repeat constructor; simpl; intuition discriminate.
  - intros q Hq Hl. simpl in Hq. intuition (subst; reflexivity).
  - vm_compute. reflexivity.
  - vm_compute. reflexivity.
  - exact Hp.
Defined.

(** * C5 *)

(** C5. Every event the selector accepts has resolved counts, neither
    negative, with numVictim + numAttacker at most the size of the pool at
    that moment; and a template whose minimum number of participants
    exceeds the pool is rejected (once past the retry check). *)
Theorem accepted_counts_fit fuel opts ev loop pool s t :
  (forall na nv s' t',
     selectEvent fuel opts ev loop pool s t = Val (Accepted na nv) s' t' ->
     0 <= nv /\ 0 <= na /\ nv + na <= len pool) /\
  (loop <= 100 ->
   Z.abs (count (victim ev)) + Z.abs (count (attacker ev)) > len pool ->
   selectEvent fuel opts ev loop pool s t = Val Rejected s t).
Proof.
  split.
  - intros na nv s' t' H. apply selectEvent_accept in H. lia.
  - intros Hloop Hmin. unfold selectEvent.
    destruct (loop >? 100) eqn:Hl; [lia|].
    match goal with
    | |- (if ?c then _ else _) _ _ = _ => destruct c eqn:Hc; [reflexivity|]
    end.
    destruct (count (victim ev) <? 0) eqn:Hv;
      destruct (count (attacker ev) <? 0) eqn:Ha; lia.
Qed.

Lemma accepted_counts_fit_witness :
  selectEvent 5 defaultOptions ambush 1 [0; 1; 2; 3]%nat
              (mkSim freshGame false []) [95 # 100; 0]%Q
  = Val (Accepted 1 3) (mkSim freshGame false []) [0]%Q /\
  (0 <= 3 /\ 0 <= 1 /\ 3 + 1 <= len [0; 1; 2; 3]%nat) /\
  selectEvent 5 defaultOptions ambush 1 [0]%nat
              (mkSim freshGame false []) [95 # 100; 0]%Q
  = Val Rejected (mkSim freshGame false []) [95 # 100; 0]%Q.
Proof.
  split; [vm_compute; reflexivity|]. split.
  - apply (proj1 (accepted_counts_fit 5 defaultOptions ambush 1 [0; 1; 2; 3]%nat
                    (mkSim freshGame false []) [95 # 100; 0]%Q)
             1 3 (mkSim freshGame false []) [0]%Q).
    vm_compute. reflexivity.
  - apply (proj2 (accepted_counts_fit 5 defaultOptions ambush 1 [0]%nat
                    (mkSim freshGame false []) [95 # 100; 0]%Q)).
    + lia.
    + vm_compute. reflexivity.
Defined.

(** * C2 *)

Lemma floor_mul_range r n : in_unit r = true -> 0 < n -> 0 <= floor_mul r n < n.
Proof.
  unfold in_unit, floor_mul. intros H Hn. apply andb_true_iff in H.
  destruct H as [H0 H1]. apply Qle_bool_iff in H0. apply negb_true_iff in H1.
  assert (Hlt : (r < 1)%Q).
  { destruct (Qlt_le_dec r 1) as [Hl|Hl]; auto.
    apply Qle_bool_iff in Hl. congruence. }
  assert (Hn' : (inject_Z 0 < inject_Z n)%Q) by (rewrite <- Zlt_Qlt; exact Hn).
  split.
  - replace 0 with (Qfloor (inject_Z 0)) by apply Qfloor_Z.
    apply Qfloor_resp_le. simpl.
    apply Qmult_le_0_compat; auto. apply Qlt_le_weak. exact Hn'.
  - rewrite Zlt_Qlt. eapply Qle_lt_trans; [apply Qfloor_le|].
    setoid_replace (inject_Z n) with (1 * inject_Z n)%Q at 2 by ring.
    apply Qmult_lt_compat_r; auto.
Qed.

Lemma keepsG_ret {X A} (p : Game -> X) (a : A) : keepsG p (ret a).
Proof. intros s t. reflexivity. Qed.

Lemma keepsG_starve {X A} (p : Game -> X) : keepsG p (@starve Sim A).
Proof. intros s t. reflexivity. Qed.

Lemma keepsG_random {X} (p : Game -> X) : keepsG p (@random Sim).
Proof.
  intros s t. unfold random. destruct t as [|r t']; auto. destruct (in_unit r); auto.
Qed.

Lemma keepsG_getGame {X} (p : Game -> X) : keepsG p getGame.
Proof. intros s t. reflexivity. Qed.

Lemma keepsG_emit {X} (p : Game -> X) o : keepsG p (emit o).
Proof. intros s t. reflexivity. Qed.

Lemma keepsG_modifyGame {X} (p : Game -> X) f :
  (forall g, p (f g) = p g) -> keepsG p (modifyGame f).
Proof. intros H s t. apply H. Qed.

Lemma keepsG_bind {X A B} (p : Game -> X) (m : M Sim A) (k : A -> M Sim B) :
  keepsG p m -> (forall a, keepsG p (k a)) -> keepsG p (bind m k).
Proof.
  intros Hm Hk s t. unfold bind. specialize (Hm s t).
  destruct (m s t) as [a s' t'| |]; simpl in *; auto.
  rewrite (Hk a s' t'). exact Hm.
Qed.

Ltac keepsG_step :=
  match goal with
  | |- keepsG _ (bind _ _) => apply keepsG_bind; [|intro]
  | |- keepsG _ (ret _) => apply keepsG_ret
  | |- keepsG _ starve => apply keepsG_starve
  | |- keepsG _ random => apply keepsG_random
  | |- keepsG _ getGame => apply keepsG_getGame
  | |- keepsG _ (emit _) => apply keepsG_emit
  | |- keepsG _ (modifyGame _) => apply keepsG_modifyGame; intro; reflexivity
  | |- keepsG _ (if ?b then _ else _) => destruct b
  | |- keepsG _ (match ?x with _ => _ end) => destruct x
  end.

Ltac keepsG_tac := repeat keepsG_step; auto.

Lemma keepsG_weightedRand {X} (p : Game -> X) : keepsG p (@weightedRand Sim).
Proof. unfold weightedRand. keepsG_tac. Qed.

Lemma keepsG_resolveCounts {X} (p : Game -> X) fuel :
  forall ma mv amin vmin na nv size,
  keepsG p (resolveCounts fuel ma mv amin vmin na nv size).
Proof.
  induction fuel as [|fuel IH]; intros; simpl; keepsG_tac;
    auto using keepsG_weightedRand.
Qed.

(** The team checks write nothing but [numPool]. *)
Lemma keepsG_teamCheck {X} (p : Game -> X) ev na nv up :
  (forall ts g, p (set_teams ts g) = p g) -> keepsG p (teamCheck ev na nv up).
Proof.
  intros Hp. unfold teamCheck. apply keepsG_bind; [apply keepsG_getGame|]. intros g.
  destruct (scanTeams _ _ _ _ _ _) as [[ts l] n].
  apply keepsG_bind; [apply keepsG_modifyGame; intro; apply Hp|]. intros u.
  keepsG_tac.
Qed.

Section Retry.

Variable pres : Presenter.
Variable opts : Options.
Variable pool : list (option Event).

Lemma eventLoop_pass f loop up s t loop1 up1 s1 t1 :
  0 < len up ->
  loopBody pres f opts pool loop up s t = Val (Next loop1 up1) s1 t1 ->
  eventLoop pres (S f) opts pool loop up s t
  = eventLoop pres f opts pool loop1 up1 s1 t1.
Proof.
  intros Hup Hbody. cbn [eventLoop].
  destruct (len up >? 0) eqn:Hgt; [|lia].
  unfold bind. rewrite Hbody. reflexivity.
Qed.

Lemma eventLoop_passes f loop up s t f' loop' up' s' t' :
  passes pres opts pool f loop up s t f' loop' up' s' t' ->
  eventLoop pres f opts pool loop up s t
  = eventLoop pres f' opts pool loop' up' s' t'.
Proof.
  induction 1 as [|f loop up s t loop1 up1 s1 t1 f' loop' up' s' t' Hup Hbody _ IH].
  - reflexivity.
  - rewrite (eventLoop_pass f loop up s t loop1 up1 s1 t1 Hup Hbody). exact IH.
Qed.

Lemma rejections_passes n f loop up s t f' s' t' :
  rejections pres opts pool n f loop up s t f' s' t' ->
  passes pres opts pool f loop up s t f' (loop + Z.of_nat n) up s' t'.
Proof.
  induction 1 as [f loop up s t|n f loop up s t s1 t1 f' s' t' Hup Hbody _ IH].
  - replace (loop + Z.of_nat 0) with loop by lia. constructor.
  - econstructor; eauto.
    replace (loop + Z.of_nat (S n)) with (loop + 1 + Z.of_nat n) by lia. exact IH.
Qed.

(** Past 100 failed passes, the first pass that draws a template returns
    from [nextDay]. *)
Lemma loopBody_abort f loop up s r t ev :
  100 <= loop -> in_unit r = true ->
  nth_error pool (Z.to_nat (floor_mul r (len pool))) = Some (Some ev) ->
  loopBody pres f opts pool loop up s (r :: t) = Val Stop (abort s) t.
Proof.
  intros Hloop Hr Hev. unfold loopBody, bind at 1, random. rewrite Hr.
  assert (Hlen : 0 < len pool).
  { unfold len. destruct pool; simpl in *; [|lia].
    destruct (Z.to_nat _); discriminate. }
  pose proof (floor_mul_range r (len pool) Hr Hlen) as Hrange.
  destruct (floor_mul r (len pool) <? 0) eqn:H1; [lia|].
  destruct (floor_mul r (len pool) >=? len pool) eqn:H2; [lia|].
  cbn [orb]. rewrite Hev. unfold tryEvent, selectEvent, bind.
  destruct (loop + 1 >? 100) eqn:H3; [|lia].
  unfold abort, emit, modifyGame, modify, ret. simpl.
  rewrite <- app_assoc. reflexivity.
Qed.

End Retry.

(** A rejected template leaves the game as it was, apart from the
    [numPool] the team checks store on the teams. *)
Lemma selectEvent_rejected f opts ev loop up s t s' t' :
  selectEvent f opts ev loop up s t = Val Rejected s' t' ->
  apartFromTeams (game s') = apartFromTeams (game s).
Proof.
  unfold selectEvent. destruct (loop >? 100).
  - unfold bind, emit, modifyGame, modify, ret. discriminate.
  - match goal with
    | |- ?m s t = _ -> _ =>
        assert (Hk : keepsG apartFromTeams m)
    end.
    { keepsG_tac; auto using keepsG_resolveCounts.
      all: try (apply keepsG_teamCheck; intros; reflexivity). }
    intros H. specialize (Hk s t). rewrite H in Hk. exact Hk.
Qed.

Section Rejected.

Variable pres : Presenter.
Variable opts : Options.
Variable pool : list (option Event).

(** A pass that only counts leaves the game as it was, apart from the
    teams' [numPool]. *)
Lemma loopBody_reject f loop up s t s1 t1 :
  0 <= loop ->
  loopBody pres f opts pool loop up s t = Val (Next (loop + 1) up) s1 t1 ->
  apartFromTeams (game s1) = apartFromTeams (game s).
Proof.
  intros Hloop H. unfold loopBody, bind at 1 in H.
  unfold random in H. destruct t as [|r t0]; [discriminate|].
  destruct (in_unit r); [|discriminate].
  match type of H with
  | (if ?c then _ else _) _ _ = _ => destruct c
  end.
  { inversion H; subst. reflexivity. }
  destruct (nth_error pool _) as [[ev|]|]; try (inversion H; subst; reflexivity).
  unfold tryEvent, bind at 1 in H.
  destruct (selectEvent f opts ev (loop + 1) up s t0) as [v s2 t2| |] eqn:Hsel;
    try discriminate.
  destruct v as [| |na nv].
  - discriminate.
  - inversion H; subst. eapply selectEvent_rejected; eauto.
  - unfold bind in H. destruct (applyEvent _ _ _ _ _ _ _ _); try discriminate.
    inversion H. lia.
Qed.

Lemma rejections_frame n f loop up s t f' s' t' :
  0 <= loop ->
  rejections pres opts pool n f loop up s t f' s' t' ->
  apartFromTeams (game s') = apartFromTeams (game s).
Proof.
  intros Hloop H. induction H as [|n f loop up s t s1 t1 f' s' t' Hup Hbody _ IH].
  - reflexivity.
  - rewrite IH by lia. eapply loopBody_reject; eauto.
Qed.

End Rejected.

(** C2. When, in a day that [nextDay] simulates, the event loop has run any
    number of passes up to a point where its retry counter is 0 (the start,
    or just after an accepted event) and then rejects 100 draws in a row,
    the next pass that draws a template makes [nextDay] return with
    NoValidEvent: the loop stops, the reply "A stupid error happened :(" is
    sent, the day's state is 0 again, and the players, the alive counter and
    the events recorded so far are those the earlier accepted events left
    (nothing is rolled back). *)
Theorem day_fails_after_100_rejections
    pres w tInit gd g up0 pool s0 t0 f1 up s1 t1 f2 s2 r t2 ev :
  games_id w = Some gd -> currentGame gd = Some g ->
  inProgress g = true -> day_state (day g) = 0 ->
  dayStart pres (store w) (customEvents gd) (options gd)
           (mkSim g (autoPlay gd) []) tInit = Val (up0, pool) s0 t0 ->
  passes pres (options gd) pool (S (List.length tInit)) 0 up0 s0 t0 f1 0 up s1 t1 ->
  rejections pres (options gd) pool 100 f1 0 up s1 t1 (S f2) s2 (r :: t2) ->
  in_unit r = true ->
  nth_error pool (Z.to_nat (floor_mul r (len pool))) = Some (Some ev) ->
  exists w' g',
    nextDay pres w tInit = Val NoValidEvent w' t2 /\
    theGame w' = Some g' /\
    day_state (day g') = 0 /\
    In ReplyStupidError (outbox w') /\
    includedUsers g' = includedUsers (game s1) /\
    numAlive g' = numAlive (game s1) /\
    events (day g') = events (day (game s1)) /\
    num (day g') = num (day (game s1)).
Proof.
  intros Hgd Hg Hin Hst Hstart Hpasses Hrej Hr Hev.
  assert (Hup : 0 < len up) by (inversion Hrej; assumption).
  pose proof (rejections_frame pres (options gd) pool _ _ _ _ _ _ _ _ _
                (Z.le_refl 0) Hrej) as Hframe.
  pose proof (eventLoop_passes pres (options gd) pool _ _ _ _ _ _ _ _ _ _ Hpasses)
    as Hloop1.
  pose proof (eventLoop_passes pres (options gd) pool _ _ _ _ _ _ _ _ _ _
                (rejections_passes pres (options gd) pool _ _ _ _ _ _ _ _ _ Hrej))
    as Hloop2.
  assert (Hend : eventLoop pres (S f2) (options gd) pool (0 + Z.of_nat 100) up s2
                           (r :: t2) = Val false (abort s2) t2).
  { cbn [eventLoop]. destruct (len up >? 0) eqn:Hgt; [|lia].
    unfold bind.
    rewrite (loopBody_abort pres (options gd) pool f2 (0 + Z.of_nat 100) up s2 r t2 ev
               ltac:(lia) Hr Hev).
    reflexivity. }
  assert (Hsim : simulateDay pres (S (List.length tInit)) (store w) (customEvents gd)
                             (options gd) (mkSim g (autoPlay gd) []) tInit
                 = Val NoValidEvent (abort s2) t2).
  { unfold simulateDay, bind at 1. rewrite Hstart. cbn [fst snd].
    unfold bind. rewrite Hloop1, Hloop2, Hend. reflexivity. }
  exists (install w gd (intervals_id w) (abort s2)), (game (abort s2)).
  unfold apartFromTeams in Hframe. injection Hframe as _ _ Hu _ Hd Hn.
  split; [|repeat split].
  - unfold nextDay, nextDayWith. rewrite Hgd, Hg, Hin, Hst. cbn [negb Z.eqb].
    unfold lift. rewrite Hsim. reflexivity.
  - unfold install, outbox. apply in_or_app. right. unfold abort, sent.
    apply in_or_app. right. right. left. reflexivity.
  - exact Hu.
  - exact Hn.
  - unfold abort. cbn. rewrite Hd. reflexivity.
  - unfold abort. cbn. rewrite Hd. reflexivity.
Qed.

Lemma day_fails_after_100_rejections_witness :
  exists w' g',
    nextDay plainPresenter (freshWorld noVictorsOff) (zeros 200)
    = Val NoValidEvent w' (zeros 93) /\
    theGame w' = Some g' /\
    day_state (day g') = 0 /\
    In ReplyStupidError (outbox w') /\
    List.length (events (day g')) = 3%nat.
Proof.
  edestruct (day_fails_after_100_rejections plainPresenter
               (freshWorld noVictorsOff) (zeros 200)
               (freshGuild noVictorsOff) freshGame)
    as (w' & g' & H1 & H2 & H3 & H4 & _ & _ & H5 & _).
  - reflexivity.
  - reflexivity.
  - reflexivity.
  - reflexivity.
  - lazy. reflexivity.
  - do 3 (eapply passes_next; [lazy; reflexivity | lazy; reflexivity |]).
    apply passes_none.
  - do 100 (eapply rejections_next; [lazy; reflexivity | lazy; reflexivity |]).
    apply rejections_none.
  - reflexivity.
  - lazy. reflexivity.
  - exists w', g'. rewrite H5. repeat split; auto.
Defined.

(** * C4 *)

(** C4, as stated, fails: with the day's state at 2 and no reveal timer
    running, [nextDay] returns without any reply; it restarts the timer. *)
Lemma nextDay_resumes_reveal_silently :
  day_state (day revealingGame) <> 0 /\
  nextDay plainPresenter revealingWorld (zeros 9)
  = Val RevealResumed (set_interval true revealingWorld) (zeros 9) /\
  outbox revealingWorld = [] /\
  outbox (set_interval true revealingWorld) = [] /\
  intervals_id (set_interval true revealingWorld) = true.
Proof. repeat split. discriminate. Qed.

(** C4, amended. Called while the day's state is nonzero, [nextDay] never
    runs the event loop: it returns at once, takes no draw, and leaves the
    guild's record (the day number, the event list, every player) as it
    was. It replies with an error when no game is in progress, when a
    reveal timer is running, or when the state is 1; otherwise (state 2 or
    more, no timer) it sends nothing and restarts the reveal timer. *)
Theorem nextDay_not_reentrant pres w t gd g :
  games_id w = Some gd -> currentGame gd = Some g ->
  day_state (day g) <> 0 ->
  exists e w',
    nextDay pres w t = Val e w' t /\
    e <> DayReady /\ e <> NoValidEvent /\
    games_id w' = games_id w /\
    ((inProgress g = false \/ intervals_id w = true \/ day_state (day g) = 1 ->
      (exists o, errorReply o /\ outbox w' = outbox w ++ [o]) /\
      intervals_id w' = intervals_id w) /\
     (inProgress g = true -> intervals_id w = false -> day_state (day g) <> 1 ->
      e = RevealResumed /\ outbox w' = outbox w /\ intervals_id w' = true)).
Proof.
  intros Hgd Hg Hst. unfold nextDay, nextDayWith. rewrite Hgd, Hg.
  destruct (day_state (day g) =? 0) eqn:H0; [apply Z.eqb_eq in H0; contradiction|].
  assert (Hsay : forall e o, errorReply o ->
            e <> DayReady -> e <> NoValidEvent ->
            (inProgress g = true -> intervals_id w = false ->
             day_state (day g) <> 1 -> False) ->
            exists e' w',
              Val e (say o w) t = Val e' w' t /\
              e' <> DayReady /\ e' <> NoValidEvent /\
              games_id w' = Some gd /\
              ((inProgress g = false \/ intervals_id w = true \/
                day_state (day g) = 1 ->
                (exists o', errorReply o' /\ outbox w' = outbox w ++ [o']) /\
                intervals_id w' = intervals_id w) /\
               (inProgress g = true -> intervals_id w = false ->
                day_state (day g) <> 1 ->
                e' = RevealResumed /\ outbox w' = outbox w /\
                intervals_id w' = true))).
  { intros e o Ho He1 He2 Hno. exists e, (say o w).
    split; [reflexivity|]. split; [exact He1|]. split; [exact He2|].
    split; [exact Hgd|]. split.
    - intros _. split; [exists o; split; auto|reflexivity].
    - intros H1 H2 H3. destruct (Hno H1 H2 H3). }
  destruct (inProgress g) eqn:Hin; cbn [negb].
  - destruct (intervals_id w) eqn:Hiv; [|destruct (day_state (day g) =? 1) eqn:H1].
    + apply Hsay; try discriminate. unfold errorReply. auto.
    + apply Hsay; try discriminate.
      * unfold errorReply. auto.
      * intros _ _ H. apply Z.eqb_eq in H1. contradiction.
    + apply Z.eqb_neq in H1. exists RevealResumed, (set_interval true w).
      split; [reflexivity|]. split; [discriminate|]. split; [discriminate|].
      split; [exact Hgd|]. split.
      * intros [H|[H|H]]; try discriminate. contradiction.
      * intros _ _ _. repeat split.
  - apply Hsay; try discriminate. unfold errorReply. auto.
Qed.

Lemma nextDay_not_reentrant_witness :
  exists e w',
    nextDay plainPresenter revealingWorld (zeros 9) = Val e w' (zeros 9) /\
    e <> DayReady /\ e <> NoValidEvent /\
    games_id w' = games_id revealingWorld.
Proof.
  destruct (nextDay_not_reentrant plainPresenter revealingWorld (zeros 9)
              _ revealingGame eq_refl eq_refl)
    as (e & w' & H1 & H2 & H3 & H4 & _).
  - discriminate.
  - exists e, w'. auto.
Defined.

(** * C6 *)

(** C6 fails on the code for a wounded player: [restoreUser] runs
    [effectUser] first, which marks every wounded player as bleeding, and
    then only resets the state. The player ends "normal" and bleeding. *)
Theorem thrives_leaves_wounded_player_bleeding :
  match applyOutcome defaultOptions [Some 0%nat] "thrives" 0 0
                     (mkSim woundedGame false []) [] with
  | Val _ s' _ =>
      option_map (fun p => (state p, bleeding p, living p)) (nth_error (users s') 0)
  | _ => None
  end = Some ("normal", true, true).
Proof. reflexivity. Qed.

(** The same for every wounded player an event with outcome "thrives"
    reaches. *)
Lemma restoreUser_wounded (E : list Ref) i k s t r p :
  NoDup (map id (users s)) ->
  nth_error E i = Some (Some r) -> nth_error (users s) r = Some p ->
  state p = "wounded" ->
  exists s', restoreUser E i k s t = Val tt s' t /\
             exists p', nth_error (users s') r = Some p' /\
                        state p' = "normal" /\ bleeding p' = true.
Proof.
  intros Hnd HE Hp Hw.
  destruct (effectUser_cases E i k s t Hnd) as [(r' & p' & HE' & Hp' & Heq)|[Hbad _]].
  - rewrite HE in HE'. inversion HE'; subst r'. rewrite Hp in Hp'. inversion Hp'; subst p'.
    unfold restoreUser, bind. rewrite Heq. cbn [modifyGame modify].
    eexists. split; [reflexivity|].
    unfold users, with_game, on_users. cbn. rewrite update_update.
    exists (set_state "normal" (touch k p)). split.
    + apply (nth_error_update_eq (fun x => set_state "normal" (touch k x))
               (includedUsers (game s)) r p Hp).
    + unfold touch. rewrite Hw. split; reflexivity.
  - rewrite (Hbad r HE) in Hp. discriminate.
Qed.

(** * C7 *)

Lemma keepsG_throw {X A} (p : Game -> X) : keepsG p (@throw Sim A).
Proof. intros s t. reflexivity. Qed.

Ltac keepsG_step' :=
  match goal with
  | |- keepsG _ throw => apply keepsG_throw
  | _ => keepsG_step
  end.

Ltac keepsG_tac' := repeat keepsG_step'; auto.

Lemma keepsG_makeSingleEvent {X} (p : Game -> X) pres msg E nv na mention :
  keepsG p (makeSingleEvent pres msg E nv na mention).
Proof. unfold makeSingleEvent. keepsG_tac'; auto using keepsG_weightedRand. Qed.

Lemma keepsG_resurrect pres opts : keepsG dayNum (resurrect pres opts).
Proof. unfold resurrect. keepsG_tac'; auto using keepsG_makeSingleEvent. Qed.

(** The template set [chooseEventPool] returns, by the day number it
    reads. *)
Lemma chooseEventPool_set pres tpl custom opts s t pool s' t' :
  chooseEventPool pres tpl custom opts s t = Val pool s' t' ->
  dayNum (game s') = dayNum (game s) /\
  (dayNum (game s) = 1 ->
   pool = defaultBloodbathEvents tpl ++ custom_bloodbath custom) /\
  (dayNum (game s) <> 1 ->
   pool = defaultPlayerEvents tpl ++ custom_player custom \/
   (arenaEvents opts = true /\
    exists arenaEvent,
      In (Some arenaEvent) (defaultArenaEvents tpl ++ custom_arena custom) /\
      pool = outcomes arenaEvent)).
Proof.
  unfold chooseEventPool, bind at 1, getGame, dayNum.
  destruct (num (day (game s)) =? 1) eqn:H1.
  - intros H. inversion H; subst. apply Z.eqb_eq in H1.
    split; [reflexivity|]. split; [reflexivity|]. intros Hne. contradiction.
  - apply Z.eqb_neq in H1. unfold bind at 1.
    destruct (arenaEvents opts) eqn:Ha.
    + unfold bind at 1, random. destruct t as [|r t0]; [discriminate|].
      destruct (in_unit r); [|discriminate]. cbn [ret].
      destruct (lt_num r (probabilityOfArenaEvent opts)).
      * unfold bind at 1, random. destruct t0 as [|r0 t1]; [discriminate|].
        destruct (in_unit r0); [|discriminate].
        destruct (nth_error _ _) as [[ae|]|] eqn:Hae; try discriminate.
        unfold bind at 1.
        pose proof (keepsG_makeSingleEvent dayNum pres
                      ("**___" ++ arena_message ae ++ "___**") [] 0 0 false s t1) as Hk.
        destruct (makeSingleEvent _ _ _ _ _ _ _ _) as [made s1 t2| |]; try discriminate.
        unfold bind, modifyGame, modify, ret. intros H. inversion H; subst.
        split; [exact Hk|]. split; [intros; contradiction|]. intros _. right.
        split; [reflexivity|]. exists ae. split; [|reflexivity].
        eapply nth_error_In; eauto.
      * intros H. inversion H; subst.
        split; [reflexivity|]. split; [intros; contradiction|]. auto.
    + cbn [ret]. intros H. inversion H; subst.
      split; [reflexivity|]. split; [intros; contradiction|]. auto.
Qed.

(** C7, as stated, fails: the day the bloodbath templates are used on has
    the number 1, not 0 ([nextDay] increments the number before it chooses
    the template set, and announces "Day 1"); a day whose number is 0 gets
    the ordinary templates. *)
Lemma bloodbath_day_is_day_one :
  (exists w' t',
     nextDay plainPresenter firstDayWorld (zeros 8) = Val DayReady w' t' /\
     option_map (fun g => (num (day g), map final_message (events (day g))))
                (theGame w')
     = Some (1, repeat (message bloodbathOnly) 4) /\
     outbox w' = [SendDayBegun 1]) /\
  chooseEventPool plainPresenter twoSets (mkCustom [] [] []) noArena (atDay 0) []
  = Val [Some ordinaryOnly] (atDay 0) [] /\
  chooseEventPool plainPresenter twoSets (mkCustom [] [] []) noArena (atDay 1) []
  = Val [Some bloodbathOnly] (atDay 1) [].
Proof.
  split; [|split; reflexivity].
  eexists _, _. split; [vm_compute; reflexivity|]. split; reflexivity.
Qed.

(** C7, amended. The bloodbath template set is used exactly on the first
    day: the day [nextDay] starts from the stored number 0, which it raises
    to 1 before choosing, so that the bloodbath day's number is 1. On every
    other day the ordinary player set is used, unless an arena event was
    drawn, in which case the set is that arena event's outcomes. *)
Theorem bloodbath_on_first_day pres tpl custom opts s t start s' t' :
  dayStart pres tpl custom opts s t = Val start s' t' ->
  num (day (game s')) = num (day (game s)) + 1 /\
  (num (day (game s)) = 0 ->
   snd start = defaultBloodbathEvents tpl ++ custom_bloodbath custom) /\
  (num (day (game s)) <> 0 ->
   snd start = defaultPlayerEvents tpl ++ custom_player custom \/
   (arenaEvents opts = true /\
    exists arenaEvent,
      In (Some arenaEvent) (defaultArenaEvents tpl ++ custom_arena custom) /\
      snd start = outcomes arenaEvent)).
Proof.
  unfold dayStart, bind at 1. cbn [modifyGame modify].
  set (s1 := mkSim _ _ _).
  assert (Hn1 : dayNum (game s1) = num (day (game s)) + 1) by reflexivity.
  unfold bind at 1.
  pose proof (keepsG_resurrect pres opts s1 t) as Hk.
  destruct (resurrect pres opts s1 t) as [u s2 t2| |]; try discriminate.
  cbn [final] in Hk. unfold bind at 1, getGame. unfold bind.
  destruct (chooseEventPool pres tpl custom opts s2 t2) as [pool s3 t3| |] eqn:Hc;
    try discriminate.
  intros H. inversion H; subst. cbn [snd].
  apply chooseEventPool_set in Hc. destruct Hc as [H1 [H2 H3]].
  rewrite Hk, Hn1 in H1, H2, H3. unfold dayNum in H1. split; [exact H1|]. split.
  - intros H0. apply H2. lia.
  - intros H0. apply H3. lia.
Qed.

Lemma bloodbath_on_first_day_witness :
  snd (fst (match dayStart plainPresenter twoSets (mkCustom [] [] []) noArena
                           (mkSim freshGame false []) [] with
            | Val start s' _ => (start, num (day (game s')))
            | _ => (([], []), 0)
            end))
  = defaultBloodbathEvents twoSets ++ custom_bloodbath (mkCustom [] [] []).
Proof.
  apply (proj1 (proj2 (bloodbath_on_first_day plainPresenter twoSets
                         (mkCustom [] [] []) noArena (mkSim freshGame false []) []
                         _ _ _ eq_refl))).
  reflexivity.
Defined.

(** * C8 *)

(** C8 fails on the code for the numeric options: [Number(value)] is a
    number for every input (NaN included), so the check of its type never
    fires. A word that is no number is stored as NaN and reported as set. *)
Theorem toggleOpt_stores_NaN :
  option_map (fun gd => teamSize (options gd))
             (games_id (toggleOpt decimalNumber "teamSize" (Some "abc") idleWorld))
  = Some NaN /\
  outbox (toggleOpt decimalNumber "teamSize" (Some "abc") idleWorld)
  = [ReplySet "teamSize"; ReplyTeamsHint].
Proof. split; reflexivity. Qed.

(** Whatever [Number] is: a numeric option never gets the "requires a
    number" reply. *)
Lemma toggleOpt_number_never_refused Number opt value w :
  optionType opt = "number" ->
  ~ In (ReplyNeedsNumber opt) (outbox w) ->
  ~ In (ReplyNeedsNumber opt) (outbox (toggleOpt Number opt value w)).
Proof.
  intros Hty Hnot. unfold toggleOpt.
  destruct (games_id w) as [gd|]; [destruct (currentGame gd) as [g|]|].
  2,3: unfold say; simpl; intros H; apply in_app_or in H;
       destruct H as [H|[H|[]]]; [contradiction|discriminate].
  destruct (Nat.eqb (String.length opt) 0);
    [|destruct (inProgress g)]; [| |rewrite Hty; cbn].
  1,2: unfold say; simpl; intros H; apply in_app_or in H;
       destruct H as [H|[H|[]]]; [contradiction|discriminate].
  destruct (String.eqb opt "teamSize"); unfold say; simpl; intros H;
    repeat (apply in_app_or in H; destruct H as [H|H]);
    try contradiction; simpl in H; intuition discriminate.
Qed.

(** The boolean options do refuse a word that is neither true nor false,
    and leave the guild's record as it was. *)
Lemma toggleOpt_boolean_refused Number opt value w gd g :
  games_id w = Some gd -> currentGame gd = Some g -> inProgress g = false ->
  String.length opt <> 0%nat -> optionType opt = "boolean" ->
  value <> Some "true" -> value <> Some "false" ->
  toggleOpt Number opt value w = say (ReplyNeedsBoolean opt) w.
Proof.
  intros Hgd Hg Hin Hlen Hty Ht Hf. unfold toggleOpt. rewrite Hgd, Hg, Hin, Hty.
  destruct (Nat.eqb (String.length opt) 0) eqn:Hl;
    [apply Nat.eqb_eq in Hl; contradiction|]. cbn.
  destruct value as [v|]; [|reflexivity].
  destruct (String.eqb v "true") eqn:H1.
  { apply String.eqb_eq in H1. subst. contradiction. }
  destruct (String.eqb v "false") eqn:H2.
  { apply String.eqb_eq in H2. subst. contradiction. }
  reflexivity.
Qed.

(** * C9 *)

Lemma triple_trivial {S A} (P : S -> Prop) (m : M S A) :
  triple P m (fun _ _ => True) (fun _ => True).
Proof. intros s t _. destruct (m s t); exact I. Qed.

(** When [printDay] returns, the day's state is 0. *)
Lemma printDay_resets sortBy opts :
  triple (fun _ => True) (printDay sortBy opts)
         (fun _ s => day_state (day (game s)) = 0) (fun _ => True).
Proof.
  unfold printDay.
  eapply triple_bind; [apply triple_trivial|]. intros g.
  eapply triple_bind; [apply triple_trivial|]. intros u1.
  eapply triple_bind; [apply triple_trivial|]. intros u2.
  eapply triple_bind; [apply triple_trivial|]. intros g'.
  eapply triple_bind; [apply triple_trivial|]. intros u3.
  eapply triple_bind; [apply triple_trivial|]. intros u4.
  eapply triple_bind; [apply triple_trivial|]. intros u5.
  eapply triple_bind with (R := fun _ s => day_state (day (game s)) = 0).
  - apply triple_modify. intros s _. reflexivity.
  - intros u6. eapply triple_bind with (R := fun _ s => day_state (day (game s)) = 0).
    + intros s t H. exact H.
    + intros s0. destruct (auto s0).
      * apply triple_modify. intros s H. exact H.
      * apply triple_ret. auto.
Qed.

(** With the day's state at 0 the reveal step fails on [events[-2]]. *)
Lemma printEvent_at_zero sortBy w t gd g :
  games_id w = Some gd -> currentGame gd = Some g -> day_state (day g) = 0 ->
  printEvent sortBy w t = Exn w t.
Proof.
  intros Hgd Hg Hst. unfold printEvent. rewrite Hgd, Hg, Hst.
  destruct (0 - 2 =? len (events (day g))) eqn:Hneg.
  - apply Z.eqb_eq in Hneg. unfold len in Hneg. lia.
  - reflexivity.
Qed.

(** C9, as stated, fails: the call made once every event is revealed is no
    idle "no more events" answer, it runs the end of the day and changes
    the game (the state goes back to 0, the timer is cleared); and the call
    after that returns nothing at all: it fails on [events[-2].icons]. *)
Lemma reveal_not_idempotent :
  exists w1,
    printEvent insertionSort exhaustedWorld [] = Val DayOver w1 [] /\
    option_map (fun g => day_state (day g)) (theGame exhaustedWorld) = Some 3 /\
    option_map (fun g => day_state (day g)) (theGame w1) = Some 0 /\
    intervals_id exhaustedWorld = true /\ intervals_id w1 = false /\
    printEvent insertionSort w1 [] = Exn w1 [].
Proof. eexists. repeat split; vm_compute; reflexivity. Qed.

(** C9, amended. The reveal step that finds no event left ends the day: it
    clears the timer and sets the day's state to 0. Every call after that
    changes nothing, and it does not return a result: it fails with an
    error, each time the same. *)
Theorem reveal_after_exhaustion sortBy w t w' t' :
  printEvent sortBy w t = Val DayOver w' t' ->
  intervals_id w' = false /\
  (exists g', theGame w' = Some g' /\ day_state (day g') = 0) /\
  forall t'', printEvent sortBy w' t'' = Exn w' t''.
Proof.
  unfold printEvent.
  destruct (games_id w) as [gd|] eqn:Hgd; [|discriminate].
  destruct (currentGame gd) as [g|] eqn:Hg; [|discriminate].
  destruct (day_state (day g) - 2 =? len (events (day g))).
  2:{ destruct (if day_state (day g) - 2 <? 0 then None else _); [|discriminate].
      unfold lift, bind, emit, modifyGame, modify, ret. discriminate. }
  pose proof (printDay_resets sortBy (options gd) (mkSim g (autoPlay gd) []) t I) as Hp.
  unfold bind. destruct (printDay sortBy (options gd) _ t) as [u s1 t1| |];
    try discriminate.
  unfold ret, lift. intros H. inversion H; subst. clear H.
  split; [reflexivity|]. split.
  - exists (game s1). split; [reflexivity|exact Hp].
  - intros t''. eapply printEvent_at_zero; [reflexivity|reflexivity|exact Hp].
Qed.

Lemma reveal_after_exhaustion_witness :
  printEvent insertionSort exhaustedWorld []
  = Val DayOver (final (printEvent insertionSort exhaustedWorld [])) [] /\
  intervals_id (final (printEvent insertionSort exhaustedWorld [])) = false /\
  printEvent insertionSort (final (printEvent insertionSort exhaustedWorld [])) []
  = Exn (final (printEvent insertionSort exhaustedWorld [])) [].
Proof.
  assert (H : printEvent insertionSort exhaustedWorld []
              = Val DayOver (final (printEvent insertionSort exhaustedWorld [])) [])
    by (vm_compute; reflexivity).
  split; [exact H|].
  destruct (reveal_after_exhaustion insertionSort exhaustedWorld []
              (final (printEvent insertionSort exhaustedWorld [])) [] H)
    as [H1 [_ H3]].
  split; [exact H1|apply H3].
Defined.

(** * The commands around the simulator: verification *)

(** ** getAllPlayers *)

Lemma filter_nil_iff {A} (p : A -> bool) l :
  filter p l = [] <-> forall x, In x l -> p x = false.
Proof.
  induction l as [|y l IH]; simpl.
  - split; auto. intros _ x [].
  - destruct (p y) eqn:Hy.
    + split; [discriminate|]. intros H. specialize (H y (or_introl eq_refl)). congruence.
    + rewrite IH. split.
      * intros H x [Hx|Hx]; subst; auto.
      * intros H x Hx. apply H. auto.
Qed.

Lemma len_zero_iff {A} (l : list A) : (len l =? 0) = true <-> l = [].
Proof.
  unfold len. rewrite Z.eqb_eq. destruct l; simpl; split; auto; try discriminate; lia.
Qed.

Lemma existsb_eqb_In x l : existsb (N.eqb x) l = true <-> In x l.
Proof.
  rewrite existsb_exists. split.
  - intros [y [Hy Heq]]. apply N.eqb_eq in Heq. subst. exact Hy.
  - intros H. exists x. split; auto. apply N.eqb_refl.
Qed.

Lemma mayPlay_iff (excluded : list UserId) bots (m : Member) :
  negb ((negb bots && bot m) || existsb (N.eqb (user_id m)) excluded) = true <->
  ~ In (user_id m) excluded /\ (bots = false -> bot m = false).
Proof.
  rewrite negb_true_iff, orb_false_iff, andb_false_iff.
  rewrite negb_false_iff. split.
  - intros [H1 H2]. split.
    + intros H. apply existsb_eqb_In in H. congruence.
    + intros Hb. destruct H1 as [H1|H1]; congruence.
  - intros [H1 H2]. split.
    + destruct bots; auto.
    + destruct (existsb _ _) eqn:He; auto. apply existsb_eqb_In in He. contradiction.
Qed.

Lemma getAllPlayers_filtered members excluded bots m0 :
  In m0 members -> ~ In (user_id m0) excluded -> (bots = false -> bot m0 = false) ->
  getAllPlayers members (Some excluded) bots =
  map playerOf
    (filter (fun obj => negb ((negb bots && bot obj) ||
                              existsb (N.eqb (user_id obj)) excluded)) members).
Proof.
  intros Hin Hex Hbot. unfold getAllPlayers. rewrite orb_true_r.
  match goal with |- context [filter ?f members] => set (keep := f) end.
  destruct (len (filter keep members) =? 0) eqn:Hz; [|reflexivity].
  apply len_zero_iff in Hz. rewrite filter_nil_iff in Hz.
  specialize (Hz m0 Hin).
  assert (keep m0 = true) by (apply mayPlay_iff; auto). congruence.
Qed.

(** X1. Excluded users, and bots unless they are allowed, are left out of
    the players, as long as that leaves somebody: the players are made of
    exactly the members who are neither. *)
Theorem getAllPlayers_leaves_out members excluded bots :
  (exists m, In m members /\ ~ In (user_id m) excluded /\
             (bots = false -> bot m = false)) ->
  exists chosen,
    getAllPlayers members (Some excluded) bots = map playerOf chosen /\
    (forall m, In m chosen <->
               In m members /\ ~ In (user_id m) excluded /\
               (bots = false -> bot m = false)).
Proof.
  intros [m0 [Hin [Hex Hbot]]].
  eexists. split.
  - apply (getAllPlayers_filtered members excluded bots m0 Hin Hex Hbot).
  - intros m. rewrite filter_In, mayPlay_iff. tauto.
Qed.


Lemma map_id_filter_NoDup {A B} (f : A -> B) (p : A -> bool) l :
  NoDup (map f l) -> NoDup (map f (filter p l)).
Proof.
  induction l as [|x l IH]; simpl; intros H; [constructor|].
  inversion H as [|? ? Hnotin Hnd]; subst.
  destruct (p x); simpl; auto.
  constructor; auto. intros Hin. apply Hnotin.
  apply in_map_iff in Hin. destruct Hin as [y [Hy1 Hy2]].
  apply filter_In in Hy2. apply in_map_iff. exists y. tauto.
Qed.

(** Members with distinct ids give players with distinct ids. *)
Lemma getAllPlayers_NoDup members excluded bots :
  NoDup (map member_id members) ->
  NoDup (map id (getAllPlayers members excluded bots)).
Proof.
  intros H. unfold getAllPlayers. rewrite map_map. cbn [id newPlayer].
  match goal with |- context [if ?c then members else ?l] =>
    destruct c; [exact H|] end.
  destruct (negb bots || _); [|constructor].
  apply map_id_filter_NoDup. exact H.
Qed.

(** Every player [getAllPlayers] returns is alive and unharmed. *)
Lemma getAllPlayers_fresh members excluded bots p :
  In p (getAllPlayers members excluded bots) ->
  living p = true /\ bleeding p = false /\ rank p = 1 /\
  state p = "normal" /\ kills p = 0.
Proof.
  unfold getAllPlayers. intros H. apply in_map_iff in H.
  destruct H as [m [Hm _]]. subst p. repeat split.
Qed.

Lemma countLiving_all us :
  (forall p, In p us -> living p = true) -> countLiving us = len us.
Proof.
  intros H. unfold countLiving. f_equal.
  induction us as [|p us IH]; simpl; auto.
  rewrite (H p (or_introl eq_refl)). simpl. f_equal. apply IH.
  intros q Hq. apply H. right. exact Hq.
Qed.

(** ** formTeams: new teams *)

Lemma Qceiling_div (a k : Z) : 0 < k ->
  Qceiling (inject_Z a / inject_Z k) = (a + k - 1) / k.
Proof.
  intros Hk. unfold Qceiling.
  assert (Heq : (- (inject_Z a / inject_Z k) == inject_Z (- a) / inject_Z k)%Q).
  { rewrite inject_Z_opp. field. intros H.
    assert (inject_Z k == inject_Z 0)%Q as H' by exact H.
    rewrite inject_Z_injective in H'. lia. }
  rewrite (Qfloor_comp _ _ Heq). rewrite <- Zdiv_Qdiv.
  assert (Hdiv : a + k - 1 = k * ((a + k - 1) / k) + (a + k - 1) mod k)
    by (apply Z.div_mod; lia).
  pose proof (Z.mod_pos_bound (a + k - 1) k Hk) as Hm.
  set (c := (a + k - 1) / k) in *.
  symmetry. apply Z.opp_inj. rewrite Z.opp_involutive.
  apply (Z.div_unique_pos (- a) k (- c) (k - 1 - (a + k - 1) mod k)); lia.
Qed.

Lemma Qfloor_mul_int (i k : Z) : Qfloor (inject_Z i * inject_Z k) = i * k.
Proof. rewrite <- inject_Z_mult. apply Qfloor_Z. Qed.

Lemma Qfloor_mul_add_int (i k : Z) :
  Qfloor (inject_Z i * inject_Z k + inject_Z k) = i * k + k.
Proof. rewrite <- inject_Z_mult, <- inject_Z_plus. apply Qfloor_Z. Qed.

(** The chunks of a list, [k] elements each. *)
Lemma chunks_concat {A} (k : nat) : forall m (l : list A),
  (List.length l <= m * k)%nat ->
  List.concat (map (fun i => firstn k (skipn (i * k) l)) (seq 0 m)) = l.
Proof.
  induction m as [|m IH]; intros l Hl.
  - simpl in *. destruct l; simpl in *; auto; lia.
  - cbn [seq map List.concat]. rewrite <- seq_shift, map_map.
    rewrite (map_ext (fun i => firstn k (skipn (S i * k) l))
                     (fun i => firstn k (skipn (i * k) (skipn k l)))).
    + rewrite IH.
      * simpl. apply firstn_skipn.
      * rewrite length_skipn. simpl in Hl. lia.
    + intros i. rewrite skipn_skipn. f_equal. f_equal. simpl. lia.
Qed.

Lemma freshTeams_int k us : 0 < k ->
  freshTeams (Num (inject_Z k)) us =
  map (fun i : nat =>
         newTeam (Z.of_nat i) (String.append "Team " (showZ (Z.of_nat i + 1)))
                 (map id (firstn (Z.to_nat k) (skipn (i * Z.to_nat k) us))))
      (seq 0 (Z.to_nat ((len us + k - 1) / k))).
Proof.
  intros Hk. unfold freshTeams. rewrite (Qceiling_div _ _ Hk).
  apply map_ext. intros i. f_equal. f_equal. unfold slice.
  rewrite Qfloor_mul_int, Qfloor_mul_add_int.
  replace (Z.of_nat i * k + k - Z.of_nat i * k) with k by lia.
  f_equal. f_equal. rewrite Z2Nat.inj_mul by lia. rewrite Nat2Z.id. reflexivity.
Qed.

(** For a whole, positive team size the new teams are the players cut
    into consecutive groups of that size. *)
Lemma freshTeams_partition k us : 0 < k ->
  let ts := freshTeams (Num (inject_Z k)) us in
  List.concat (map players ts) = map id us /\
  len ts = (len us + k - 1) / k /\
  (forall i t, nth_error ts i = Some t ->
     team_id t = Z.of_nat i /\
     team_name t = String.append "Team " (showZ (Z.of_nat i + 1)) /\
     team_rank t = 1 /\ team_numAlive t = len (players t) /\
     0 < len (players t) <= k /\
     (Z.of_nat i + 1 < len ts -> len (players t) = k)).
Proof.
  intros Hk ts. unfold ts. rewrite (freshTeams_int k us Hk).
  set (k' := Z.to_nat k). set (m := Z.to_nat ((len us + k - 1) / k)).
  assert (Hk' : (0 < k')%nat) by (unfold k'; lia).
  assert (Hceil : 0 <= (len us + k - 1) / k) by (apply Z.div_pos; unfold len; lia).
  assert (Hdm : len us + k - 1 = k * ((len us + k - 1) / k) + (len us + k - 1) mod k)
    by (apply Z.div_mod; lia).
  pose proof (Z.mod_pos_bound (len us + k - 1) k Hk) as Hmod.
  assert (Hm1 : (List.length us <= m * k')%nat).
  { unfold m, k', len in *. nia. }
  assert (Hm2 : forall i, (i < m)%nat -> (i * k' < List.length us)%nat).
  { intros i Hi. unfold m, k', len in *. nia. }
  split; [|split].
  - rewrite map_map. cbn [players newTeam].
    transitivity (map id (List.concat
                            (map (fun i => firstn k' (skipn (i * k') us)) (seq 0 m)))).
    + rewrite concat_map, map_map. reflexivity.
    + rewrite (chunks_concat k' m us Hm1). reflexivity.
  - unfold len at 1. rewrite length_map, length_seq. unfold m.
    rewrite Z2Nat.id by exact Hceil. reflexivity.
  - intros i t Hi.
    rewrite nth_error_map, nth_error_seq in Hi.
    destruct (Nat.ltb i m) eqn:Hlt'; [|discriminate].
    assert (Hlt : (i < m)%nat) by (apply Nat.ltb_lt; exact Hlt').
    simpl in Hi. inversion Hi; subst t. clear Hi.
    cbn [team_id team_name team_rank team_numAlive players newTeam].
    repeat split; auto.
    + unfold len. rewrite length_map, length_firstn, length_skipn.
      specialize (Hm2 i Hlt). lia.
    + unfold len. rewrite length_map, length_firstn, length_skipn. unfold k'. lia.
    + intros Hnotlast. unfold len in *.
      rewrite length_map, length_seq in Hnotlast.
      rewrite length_map, length_firstn, length_skipn.
      specialize (Hm2 (S i) ltac:(lia)). unfold k' in *. simpl in Hm2. lia.
Qed.

(** ** formTeams: teams that exist *)

Lemma findIndex_none {A} (p : A -> bool) l :
  findIndex p l = None <-> forall x, In x l -> p x = false.
Proof.
  induction l as [|y l IH]; simpl.
  - split; auto. intros _ x [].
  - destruct (p y) eqn:Hy.
    + split; [discriminate|]. intros H. specialize (H y (or_introl eq_refl)). congruence.
    + destruct (findIndex p l) as [i|]; simpl.
      * split; [discriminate|]. intros H.
        assert (Hn : @None nat = None) by reflexivity.
        destruct IH as [_ IH]. discriminate IH. intros x Hx. apply H. auto.
      * split; auto. intros _ x [Hx|Hx]; subst; auto. apply IH; auto.
Qed.

Lemma has_id_In us p :
  has (fun obj => N.eqb (id obj) p) us = true <-> In p (map id us).
Proof.
  unfold has. destruct (findIndex _ us) as [i|] eqn:Hf.
  - split; auto. intros _. apply findIndex_some in Hf.
    destruct Hf as [x [Hx Hp]]. apply N.eqb_eq in Hp. subst p.
    apply in_map. eapply nth_error_In; eauto.
  - split; [discriminate|]. intros Hin. apply in_map_iff in Hin.
    destruct Hin as [x [Hx Hin]]. rewrite findIndex_none in Hf.
    specialize (Hf x Hin). simpl in Hf. rewrite Hx, N.eqb_refl in Hf. discriminate.
Qed.



Lemma pruneTeam_kept included : forall ps notIncluded,
  fst (pruneTeam included ps notIncluded) =
  filter (fun p => has (fun obj => N.eqb (id obj) p) included) ps.
Proof.
  induction ps as [|p ps IH]; intros ni; simpl; auto.
  unfold has at 1. destruct (findIndex _ included) as [i|] eqn:Hf.
  - specialize (IH (snd (splice1 (indexOrMinus (fun obj => N.eqb (id obj) p) ni) ni))).
    destruct (pruneTeam included ps _) as [kept others]. simpl in *. f_equal. exact IH.
  - apply IH.
Qed.



Lemma pruneTeams_teams included : forall ts notIncluded,
  fst (pruneTeams included ts notIncluded) = map (stillIncluded included) ts.
Proof.
  induction ts as [|t ts IH]; intros ni; cbn [pruneTeams]; auto.
  pose proof (pruneTeam_kept included (players t) ni) as Hk.
  destruct (pruneTeam included (players t) ni) as [kept others]. cbn [fst] in Hk.
  specialize (IH others).
  destruct (pruneTeams included ts others) as [ts' others']. cbn [fst] in *.
  subst. reflexivity.
Qed.

Lemma grownFrom_refl t : grownFrom t t.
Proof. repeat split. exists []. symmetry. apply app_nil_r. Qed.

Lemma grownFrom_trans a b c : grownFrom a b -> grownFrom b c -> grownFrom a c.
Proof.
  intros [H1 [H2 [x Hx]]] [H3 [H4 [y Hy]]]. repeat split; try congruence.
  exists (x ++ y). rewrite Hy, Hx. symmetry. apply app_assoc.
Qed.

Lemma Forall2_refl_grown ts : Forall2 grownFrom ts ts.
Proof. induction ts; constructor; auto. apply grownFrom_refl. Qed.

Lemma Forall2_trans_grown : forall a b c,
  Forall2 grownFrom a b -> Forall2 grownFrom b c -> Forall2 grownFrom a c.
Proof.
  induction a as [|x a IH]; intros b c Hab Hbc; inversion Hab; subst;
    inversion Hbc; subst; constructor.
  - eapply grownFrom_trans; eauto.
  - eapply IH; eauto.
Qed.

Lemma seat_spec teamSize p : forall ts ts',
  seat teamSize p ts = Some ts' ->
  Permutation (rosters ts') (p :: rosters ts) /\ Forall2 grownFrom ts ts'.
Proof.
  induction ts as [|t ts IH]; intros ts' H; simpl in H; [discriminate|].
  destruct (lt_num _ teamSize).
  - inversion H; subst. split.
    + unfold rosters. cbn [map List.concat players set_players].
      rewrite <- app_assoc. cbn [app]. symmetry. apply Permutation_middle.
    + constructor; [|apply Forall2_refl_grown].
      repeat split. exists [p]. reflexivity.
  - destruct (seat teamSize p ts) as [ts0|] eqn:Hs; [|discriminate].
    simpl in H. inversion H; subst. destruct (IH ts0 eq_refl) as [IH1 IH2]. split.
    + unfold rosters in *. cbn [map List.concat]. rewrite IH1.
      symmetry. apply Permutation_middle.
    + constructor; auto. apply grownFrom_refl.
Qed.

Lemma rosters_app a b : rosters (a ++ b) = rosters a ++ rosters b.
Proof. unfold rosters. rewrite map_app, concat_app. reflexivity. Qed.

Lemma seatAll_spec teamSize : forall notIncluded ts,
  Permutation (rosters (seatAll teamSize notIncluded ts))
              (rosters ts ++ map id notIncluded) /\
  exists grown extra,
    seatAll teamSize notIncluded ts = grown ++ extra /\ Forall2 grownFrom ts grown.
Proof.
  induction notIncluded as [|u ni IH]; intros ts; cbn [seatAll].
  - split.
    + simpl. rewrite app_nil_r. reflexivity.
    + exists ts, []. split; [symmetry; apply app_nil_r|apply Forall2_refl_grown].
  - destruct (seat teamSize (id u) ts) as [ts'|] eqn:Hs.
    + destruct (seat_spec _ _ _ _ Hs) as [Hp Hg].
      destruct (IH ts') as [IH1 [grown [extra [IH2 IH3]]]]. split.
      * rewrite IH1, Hp. cbn [map app]. apply Permutation_middle.
      * exists grown, extra. split; auto. eapply Forall2_trans_grown; eauto.
    + set (t0 := newTeam _ _ _).
      destruct (IH (ts ++ [t0])) as [IH1 [grown [extra [IH2 IH3]]]]. split.
      * rewrite IH1, rosters_app. unfold rosters at 2. cbn [map List.concat players t0 newTeam].
        rewrite <- app_assoc. reflexivity.
      * apply Forall2_app_inv_l in IH3.
        destruct IH3 as [g1 [g2 [Hg1 [Hg2 Heq]]]]. subst grown.
        exists g1, (g2 ++ extra). split; auto. rewrite IH2. symmetry. apply app_assoc.
Qed.

Lemma rosters_recount ts : rosters (map recount ts) = rosters ts.
Proof. unfold rosters. rewrite map_map. reflexivity. Qed.


(** ** formTeams on the host *)

Ltac host_unfold :=
  unfold gameNow, changeGame, changeGuild, assignOptions, notify, guildNow,
         modify, get, throw, bind, ret in *.

Lemma splice1_sub {A} (start : Z) (l : list A) u :
  In u (snd (splice1 start l)) -> In u l.
Proof.
  intros H. pose proof (splice1_perm start l) as Hp.
  destruct (fst (splice1 start l)) as [x|].
  - eapply Permutation_in; [exact Hp|]. right. exact H.
  - rewrite Hp in H. exact H.
Qed.

Lemma pruneTeam_sub included : forall ps notIncluded u,
  In u (snd (pruneTeam included ps notIncluded)) -> In u notIncluded.
Proof.
  induction ps as [|p ps IH]; intros ni u H; cbn [pruneTeam] in H; auto.
  destruct (findIndex _ included).
  - specialize (IH (snd (splice1 (indexOrMinus (fun obj => N.eqb (id obj) p) ni) ni)) u).
    destruct (pruneTeam included ps _) as [kept others]. cbn [snd] in *.
    eapply splice1_sub. apply IH. exact H.
  - apply IH. exact H.
Qed.

Lemma pruneTeams_sub included : forall ts notIncluded u,
  In u (snd (pruneTeams included ts notIncluded)) -> In u notIncluded.
Proof.
  induction ts as [|t ts IH]; intros ni u H; cbn [pruneTeams] in H; auto.
  pose proof (pruneTeam_sub included (players t) ni) as H1.
  destruct (pruneTeam included (players t) ni) as [kept others]. cbn [snd] in *.
  specialize (IH others u).
  destruct (pruneTeams included ts others) as [ts' others']. cbn [snd] in *.
  auto.
Qed.

Lemma rosters_stillIncluded us ts p :
  In p (rosters (map (stillIncluded us) ts)) -> In p (map id us).
Proof.
  unfold rosters. rewrite map_map. intros H. apply in_concat in H.
  destruct H as [l [Hl Hp]]. apply in_map_iff in Hl. destruct Hl as [t [Ht _]].
  subst l. cbn [players stillIncluded set_players] in Hp.
  apply filter_In in Hp. destruct Hp as [_ Hp]. apply has_id_In. exact Hp.
Qed.

Lemma In_firstn {A} (l : list A) n x : In x (firstn n l) -> In x l.
Proof. intros H. rewrite <- (firstn_skipn n l). apply in_or_app. auto. Qed.

Lemma In_skipn {A} (l : list A) n x : In x (skipn n l) -> In x l.
Proof. intros H. rewrite <- (firstn_skipn n l). apply in_or_app. auto. Qed.

Lemma rosters_freshTeams teamSize us p :
  In p (rosters (freshTeams teamSize us)) -> In p (map id us).
Proof.
  unfold freshTeams, rosters. destruct teamSize as [q|]; [|intros []].
  rewrite map_map. cbn [players newTeam]. intros H. apply in_concat in H.
  destruct H as [l [Hl Hp]]. apply in_map_iff in Hl. destruct Hl as [i [Hi _]].
  subst l. apply in_map_iff in Hp. destruct Hp as [u [Hu Hin]]. subst p.
  apply in_map. unfold slice in Hin.
  apply In_firstn in Hin. eapply In_skipn; eauto.
Qed.

(** Whatever the team size, the teams [formTeams] leaves list included
    players only. *)
Lemma rosters_formedTeams teamSize g p :
  In p (rosters (formedTeams teamSize g)) -> In p (map id (includedUsers g)).
Proof.
  unfold formedTeams. rewrite rosters_recount.
  destruct (len (teams g) >? 0).
  - pose proof (pruneTeams_teams (includedUsers g) (teams g) (includedUsers g)) as H1.
    pose proof (pruneTeams_sub (includedUsers g) (teams g) (includedUsers g)) as H2.
    destruct (pruneTeams _ _ _) as [pruned notIncluded]. cbn [fst snd] in *.
    destruct (seatAll_spec teamSize notIncluded pruned) as [H3 _].
    intros H. eapply Permutation_in in H; [|exact H3].
    apply in_app_or in H. destruct H as [H|H].
    + subst pruned. eapply rosters_stillIncluded; eauto.
    + apply in_map_iff in H. destruct H as [u [Hu Hin]]. subst p.
      apply in_map. apply H2. exact Hin.
  - apply rosters_freshTeams.
Qed.

Lemma formedTeams_counts teamSize g t :
  In t (formedTeams teamSize g) ->
  team_numAlive t = len (players t) /\ team_rank t = 1.
Proof.
  unfold formedTeams. intros H. apply in_map_iff in H.
  destruct H as [t0 [Ht0 _]]. subst t. split; reflexivity.
Qed.

(** What [formTeams] can change: the teams, and a negative team size. *)
Lemma formTeams_frame h t gd g :
  slot h = Some gd -> currentGame gd = Some g ->
  exists o ts dn,
    formTeams h t =
    Val tt (mkHost (Some (mkGuild (excludedUsers gd) o (customEvents gd)
                                  (Some (set_teams ts g)) (autoPlay gd)))
                   (ticking h) (eventFile h) dn (sharesDefaults h) (notices h)) t /\
    (forall p, In p (rosters ts) -> In p (map id (includedUsers g))) /\
    (forall x, In x ts -> team_numAlive x = len (players x) /\ team_rank x = 1) /\
    ((lt_zero (teamSize (options gd)) = false /\ o = options gd /\ dn = defaultsNow h /\
      ts = (if is_zero (teamSize (options gd)) then []
            else formedTeams (teamSize (options gd)) g)) \/
     (lt_zero (teamSize (options gd)) = true /\
      o = setNumber "teamSize" (Num 0) (options gd) /\
      dn = (if sharesDefaults h then o else defaultsNow h) /\ ts = [])).
Proof.
  intros Hgd Hg. unfold formTeams. host_unfold.
  destruct (lt_zero (teamSize (options gd))) eqn:Hlt.
  - exists (setNumber "teamSize" (Num 0) (options gd)), [],
      (if sharesDefaults h then setNumber "teamSize" (Num 0) (options gd)
       else defaultsNow h).
    repeat first [rewrite Hgd | rewrite Hg | rewrite Hlt | progress cbn].
    split; [reflexivity|]. split; [intros p []|]. split; [intros x []|].
    right. auto.
  - destruct (is_zero (teamSize (options gd))) eqn:Hz.
    + exists (options gd), [], (defaultsNow h).
      repeat first [rewrite Hgd | rewrite Hg | rewrite Hlt | rewrite Hz | progress cbn].
      split; [destruct gd; reflexivity|]. split; [intros p []|]. split; [intros x []|].
      left. auto.
    + exists (options gd), (formedTeams (teamSize (options gd)) g), (defaultsNow h).
      repeat first [rewrite Hgd | rewrite Hg | rewrite Hlt | rewrite Hz | progress cbn].
      split; [destruct gd; reflexivity|].
      split; [apply rosters_formedTeams|]. split; [apply formedTeams_counts|].
      left. auto.
Qed.

Lemma formTeams_positive h t gd g :
  slot h = Some gd -> currentGame gd = Some g ->
  lt_zero (teamSize (options gd)) = false ->
  is_zero (teamSize (options gd)) = false ->
  formTeams h t = Val tt (with_teams (formedTeams (teamSize (options gd)) g) h) t.
Proof.
  intros Hgd Hg Hlt Hz. unfold formTeams, with_teams. host_unfold.
  repeat first [rewrite Hgd | rewrite Hg | rewrite Hlt | rewrite Hz | progress cbn].
  reflexivity.
Qed.

(** ** createGame *)

Lemma bind_val {S A B} (m : M S A) (k : A -> M S B) s t a s' t' :
  m s t = Val a s' t' -> bind m k s t = k a s' t'.
Proof. intros H. unfold bind. rewrite H. reflexivity. Qed.

(** The excluded users and the bots switch [createGame] passes on. *)
Lemma createGame_result msg silent h t :
  Idle h ->
  let exs := match slot h with Some gd => excludedUsers gd | None => [] end in
  let bots := match slot h with Some gd => includeBots (options gd) | None => false end in
  exists gd' g' dn sd nt,
    createGame msg silent h t =
    Val tt (mkHost (Some gd') (ticking h) (eventFile h) dn sd nt) t /\
    currentGame gd' = Some g' /\
    includedUsers g' = getAllPlayers (guild_members msg) (Some exs) bots /\
    numAlive g' = len (includedUsers g') /\
    inProgress g' = false /\ ended g' = false /\ day g' = mkDay 0 0 [] /\
    excludedUsers gd' = exs /\
    autoPlay gd' = match slot h with Some gd => autoPlay gd | None => false end /\
    (forall p, In p (rosters (teams g')) -> In p (map id (includedUsers g'))) /\
    (forall x, In x (teams g') -> team_numAlive x = len (players x) /\ team_rank x = 1) /\
    (silent = true -> nt = notices h).
Proof.
  intros Hidle exs bots. unfold createGame.
  rewrite (bind_val get _ h t h h t eq_refl).
  destruct (slot h) as [gd|] eqn:Hgd.
  - destruct (currentGame gd) as [g|] eqn:Hg.
    + assert (Hip : inProgress g = false).
      { apply Hidle. unfold current. rewrite Hgd. exact Hg. }
      rewrite Hip.
      set (us := getAllPlayers (guild_members msg) (Some (excludedUsers gd))
                               (includeBots (options gd))).
      set (g1 := set_numAlive (len us)
                   (set_includedUsers us (set_day (mkDay 0 0 []) (set_ended false g)))).
      set (nt := if silent then notices h else notices h ++ [ReplyCreatingFromLast]).
      set (h1 := mkHost (Some (set_currentGame (Some g1) gd)) (ticking h) (eventFile h)
                        (defaultsNow h) (sharesDefaults h) nt).
      destruct (formTeams_frame h1 t (set_currentGame (Some g1) gd) g1 eq_refl eq_refl)
        as (o & ts & dn & Hrun & Hros & Hcnt & _).
      exists (mkGuild (excludedUsers gd) o (customEvents gd) (Some (set_teams ts g1))
                      (autoPlay gd)), (set_teams ts g1), dn, (sharesDefaults h), nt.
      split.
      * unfold bind at 1. unfold bind at 1.
        assert (Hstep : bind (if silent then ret tt else notify ReplyCreatingFromLast)
                  (fun _ => changeGame (fun g0 => set_numAlive (len us)
                     (set_includedUsers us (set_day (mkDay 0 0 []) (set_ended false g0)))))
                  h t = Val tt h1 t).
        { unfold h1, nt. destruct silent; host_unfold; cbn; rewrite Hgd; cbn;
            rewrite Hg; reflexivity. }
        unfold bind at 1 in Hstep.
        destruct silent; host_unfold; cbn in *; rewrite Hgd in *; cbn in *;
          rewrite Hg in *; cbn in *; exact Hrun.
      * cbn. repeat split; auto; try (apply Hcnt; assumption); intros ->; reflexivity.
    + set (us := getAllPlayers (guild_members msg) (Some (excludedUsers gd))
                               (includeBots (options gd))).
      set (g1 := mkGame (String.append (guild_name msg) "'s Hungry Games") false us []
                        false (mkDay 0 0 []) (len us)).
      set (nt := if silent then notices h else notices h ++ [ReplyCreatingDefault]).
      set (h1 := mkHost (Some (set_currentGame (Some g1) gd)) (ticking h) (eventFile h)
                        (defaultsNow h) (sharesDefaults h) nt).
      destruct (formTeams_frame h1 t (set_currentGame (Some g1) gd) g1 eq_refl eq_refl)
        as (o & ts & dn & Hrun & Hros & Hcnt & _).
      exists (mkGuild (excludedUsers gd) o (customEvents gd) (Some (set_teams ts g1))
                      (autoPlay gd)), (set_teams ts g1), dn, (sharesDefaults h), nt.
      split.
      * destruct silent; host_unfold; cbn in *; rewrite Hgd in *; cbn in *; exact Hrun.
      * cbn. repeat split; auto; try (apply Hcnt; assumption); intros ->; reflexivity.
  - set (us := getAllPlayers (guild_members msg) (Some []) false).
    set (g1 := mkGame (String.append (guild_name msg) "'s Hungry Games") false us []
                      false (mkDay 0 0 []) (len us)).
    set (gd1 := mkGuild [] (defaultsNow h) (mkCustom [] [] []) (Some g1) false).
    set (nt := if silent then notices h else notices h ++ [ReplyCreatedDefault]).
    set (h1 := mkHost (Some gd1) (ticking h) (eventFile h) (defaultsNow h) true nt).
    destruct (formTeams_frame h1 t gd1 g1 eq_refl eq_refl)
      as (o & ts & dn & Hrun & Hros & Hcnt & _).
    exists (mkGuild [] o (mkCustom [] [] []) (Some (set_teams ts g1)) false),
      (set_teams ts g1), dn, true, nt.
    split.
    + destruct silent; host_unfold; cbn in *; exact Hrun.
    + cbn. repeat split; auto; try (apply Hcnt; assumption); intros ->; reflexivity.
Qed.

(** ** What a game in progress keeps, whatever is called *)

Lemma Steady_core h h' : core h' = core h -> Steady h -> Steady h'.
Proof.
  unfold Steady, core. intros Hc Hs g' Hg' Hip. rewrite Hg' in Hc. simpl in Hc.
  destruct (current h) as [g|]; [|discriminate]. simpl in Hc.
  inversion Hc as [[H1 H2 H3 H4 H5 H6]].
  rewrite H3, H6. apply Hs; auto. congruence.
Qed.

Lemma Steady_idle h : Idle h -> Steady h.
Proof. intros H g Hg Hip. rewrite (H g Hg) in Hip. discriminate. Qed.

Lemma keepsCore_ret {A} (a : A) : keepsCore (ret a).
Proof. intros h t. reflexivity. Qed.

Lemma keepsCore_throw {A} : keepsCore (@throw Host A).
Proof. intros h t. reflexivity. Qed.

Lemma keepsCore_get : keepsCore (@get Host).
Proof. intros h t. reflexivity. Qed.

Lemma keepsCore_guildNow : keepsCore guildNow.
Proof. intros h t. unfold guildNow. destruct (slot h); reflexivity. Qed.

Lemma keepsCore_bind {A B} (m : M Host A) (k : A -> M Host B) :
  keepsCore m -> (forall a, keepsCore (k a)) -> keepsCore (bind m k).
Proof.
  intros Hm Hk h t. unfold bind. specialize (Hm h t).
  destruct (m h t) as [a h' t'| |]; auto.
  rewrite <- Hm. apply Hk.
Qed.

Lemma keepsCore_gameNow : keepsCore gameNow.
Proof.
  unfold gameNow. apply keepsCore_bind; [apply keepsCore_guildNow|].
  intros gd. destruct (currentGame gd); [apply keepsCore_ret|apply keepsCore_throw].
Qed.

Lemma keepsCore_notify n : keepsCore (notify n).
Proof. intros h t. reflexivity. Qed.

Lemma keepsCore_modify (f : Host -> Host) :
  (forall h, core (f h) = core h) -> keepsCore (modify f).
Proof. intros H h t. apply H. Qed.

Lemma keepsCore_changeGuild (f : Guild -> Guild) :
  (forall gd, currentGame (f gd) = currentGame gd) -> keepsCore (changeGuild f).
Proof.
  intros H. apply keepsCore_modify. intros h. unfold core, current, set_slot. cbn.
  destruct (slot h) as [gd|]; cbn; auto. rewrite H. reflexivity.
Qed.

Lemma keepsCore_changeGame (f : Game -> Game) :
  (forall g, apartFromTeams (f g) = apartFromTeams g) -> keepsCore (changeGame f).
Proof.
  intros H. apply keepsCore_modify. intros h. unfold core, current, set_slot. cbn.
  destruct (slot h) as [gd|]; cbn; auto.
  destruct (currentGame gd) as [g|]; cbn; auto. rewrite H. reflexivity.
Qed.

Lemma keepsCore_assignOptions o : keepsCore (assignOptions o).
Proof.
  apply keepsCore_modify. intros h. unfold core, current. cbn.
  destruct (slot h); reflexivity.
Qed.

Ltac core_step :=
  match goal with
  | |- keepsCore (bind _ _) => apply keepsCore_bind; [|intro]
  | |- keepsCore (ret _) => apply keepsCore_ret
  | |- keepsCore throw => apply keepsCore_throw
  | |- keepsCore get => apply keepsCore_get
  | |- keepsCore guildNow => apply keepsCore_guildNow
  | |- keepsCore gameNow => apply keepsCore_gameNow
  | |- keepsCore (notify _) => apply keepsCore_notify
  | |- keepsCore (assignOptions _) => apply keepsCore_assignOptions
  | |- keepsCore (changeGame _) => apply keepsCore_changeGame; intro; reflexivity
  | |- keepsCore (changeGuild _) => apply keepsCore_changeGuild; intro; reflexivity
  | |- keepsCore (if ?c then _ else _) => destruct c
  | |- keepsCore (match ?x with _ => _ end) => destruct x
  end.

Ltac core_tac := repeat core_step; auto.

Lemma keepsCore_formTeams : keepsCore formTeams.
Proof. unfold formTeams. core_tac. Qed.

Lemma keepsCore_listPlayers : keepsCore listPlayers.
Proof. unfold listPlayers. core_tac. Qed.

Lemma keepsCore_swapTeamUsers msg : keepsCore (swapTeamUsers msg).
Proof. unfold swapTeamUsers. core_tac. Qed.

Lemma keepsCore_renameTeam Number msg : keepsCore (renameTeam Number msg).
Proof. unfold renameTeam. core_tac. Qed.

Lemma keepsCore_editTeam Number msg : keepsCore (editTeam Number msg).
Proof.
  unfold editTeam. core_tac;
    first [apply keepsCore_swapTeamUsers | apply keepsCore_renameTeam
          | apply keepsCore_formTeams | apply keepsCore_listPlayers].
Qed.

Lemma keepsCore_pauseAutoplay : keepsCore pauseAutoplay.
Proof. unfold pauseAutoplay. core_tac. Qed.

Lemma triple_final {S A} (P : S -> Prop) (m : M S A) :
  (forall s t, P s -> P (final (m s t))) -> triple P m (fun _ => P) P.
Proof. intros H s t Hs. specialize (H s t Hs). destruct (m s t); exact H. Qed.

Lemma final_triple {S A} (P : S -> Prop) (m : M S A) :
  triple P m (fun _ => P) P -> forall s t, P s -> P (final (m s t)).
Proof. intros H s t Hs. specialize (H s t Hs). destruct (m s t); exact H. Qed.

Lemma keepsCore_Steady {A} (m : M Host A) :
  keepsCore m -> triple Steady m (fun _ => Steady) Steady.
Proof.
  intros Hk. apply triple_final. intros h t Hs.
  eapply Steady_core; [apply Hk|exact Hs].
Qed.

Lemma Idle_core h h' : core h' = core h -> Idle h -> Idle h'.
Proof.
  unfold core, Idle. intros Hc Hi g' Hg'. rewrite Hg' in Hc. simpl in Hc.
  destruct (current h) as [g|]; [|discriminate]. simpl in Hc.
  inversion Hc as [[H1 H2 H3 H4 H5 H6]]. rewrite H2. apply Hi. reflexivity.
Qed.

Lemma theGame_toggleOpt Number opt value w :
  theGame (toggleOpt Number opt value w) = theGame w.
Proof.
  unfold toggleOpt, theGame.
  destruct (games_id w) as [gd|] eqn:Hgd; cbn; [|rewrite Hgd; reflexivity].
  destruct (currentGame gd) as [g|] eqn:Hg; cbn; [|rewrite Hgd; exact Hg].
  repeat match goal with
         | |- context [if ?c then _ else _] => destruct c; cbn
         | |- context [match value with _ => _ end] => destruct value; cbn
         end; rewrite ?Hgd; auto.
Qed.

Lemma keepsCore_toggleOptShared Number msg : keepsCore (toggleOptShared Number msg).
Proof.
  intros h t. unfold toggleOptShared, core, current. cbn.
  pose proof (theGame_toggleOpt Number (hd EmptyString (split_space (msg_text msg)))
                (nth_error (split_space (msg_text msg)) 1) (view h)) as H.
  unfold theGame in H. cbn in H. rewrite H. reflexivity.
Qed.

Lemma current_absorb h w : current (absorb h w) = theGame w.
Proof. reflexivity. Qed.

Lemma final_engine {A} (m : M World A) h t :
  final (engine m h t) = absorb h (final (m (view h) t)).
Proof. unfold engine. destruct (m (view h) t); reflexivity. Qed.

Lemma engine_nextDay_Steady pres h t :
  Steady h -> Steady (final (engine (nextDay pres) h t)).
Proof.
  intros Hs. rewrite final_engine. intros g' Hg' Hip. rewrite current_absorb in Hg'.
  destruct (slot h) as [gd|] eqn:Hgd.
  - destruct (currentGame gd) as [g|] eqn:Hg.
    + destruct (inProgress g) eqn:Hp.
      * eapply (nextDay_Sound pres (view h) t gd g); eauto.
        apply Hs; auto. unfold current. rewrite Hgd. exact Hg.
      * exfalso. unfold nextDay in Hg'.
        destruct (nextDayWith_cases pres (S (List.length t)) (view h) t gd g Hgd Hg)
          as [(e & w' & Heq & Hw' & _) | (Hp' & _)]; [|congruence].
        rewrite Heq in Hg'. simpl in Hg'. congruence.
    + unfold nextDay in Hg'.
      rewrite (theGame_none_nextDay pres (S (List.length t)) (view h) t) in Hg';
        [discriminate|]. unfold theGame. cbn. rewrite Hgd. exact Hg.
  - unfold nextDay in Hg'.
    rewrite (theGame_none_nextDay pres (S (List.length t)) (view h) t) in Hg';
      [discriminate|]. unfold theGame. cbn. rewrite Hgd. reflexivity.
Qed.

(** Steps of the reveal that cannot put a game in progress. *)
Ltac idle_tac :=
  repeat match goal with
         | |- triple _ (bind _ _) _ _ =>
             eapply triple_bind with
               (R := fun _ s => inProgress (game s) = false); [|intro]
         | |- triple _ (ret _) _ _ => apply triple_ret; auto
         | |- triple _ throw _ _ => apply triple_throw; auto
         | |- triple _ (modify _) _ _ => apply triple_modify; intros; cbn; auto
         | |- triple _ (modifyGame _) _ _ => apply triple_modify; intros; cbn; auto
         | |- triple _ (emit _) _ _ => apply triple_modify; intros; cbn; auto
         | |- triple _ getGame _ _ => intros ? ? ?; cbn; auto
         | |- triple _ get _ _ => intros ? ? ?; cbn; auto
         | |- triple _ (if ?c then _ else _) _ _ => destruct c
         | |- triple _ (match ?x with _ => _ end) _ _ => destruct x
         end.

Lemma printDay_idle sortBy opts :
  triple (fun s => inProgress (game s) = false) (printDay sortBy opts)
         (fun _ s => inProgress (game s) = false)
         (fun s => inProgress (game s) = false).
Proof. unfold printDay. idle_tac. Qed.

Lemma engine_printEvent_Steady sortBy h t :
  (forall A cmp (l : list A), Permutation (sortBy A cmp l) l) ->
  Steady h -> Steady (final (engine (printEvent sortBy) h t)).
Proof.
  intros Hperm Hs. rewrite final_engine. intros g' Hg' Hip. rewrite current_absorb in Hg'.
  destruct (slot h) as [gd|] eqn:Hgd.
  - destruct (currentGame gd) as [g|] eqn:Hg.
    + destruct (inProgress g) eqn:Hp.
      * eapply (printEvent_Sound sortBy (view h) t gd g); eauto.
        apply Hs; auto. unfold current. rewrite Hgd. exact Hg.
      * exfalso. unfold printEvent in Hg'. cbn in Hg'. rewrite Hgd, Hg in Hg'.
        destruct (day_state (day g) - 2 =? len (events (day g))).
        -- rewrite theGame_lift in Hg'. inversion Hg'; subst g'.
           assert (Htr : triple (fun s => inProgress (game s) = false)
                           (bind (printDay sortBy (options gd)) (fun _ => ret DayOver))
                           (fun _ s => inProgress (game s) = false)
                           (fun s => inProgress (game s) = false)).
           { eapply triple_bind; [apply printDay_idle|]. intros u.
             apply triple_ret. auto. }
           specialize (Htr (mkSim g (autoPlay gd) []) t Hp).
           destruct (bind _ _ _ _); simpl in *; congruence.
        -- destruct (if day_state (day g) - 2 <? 0 then None
                     else nth_error (events (day g)) (Z.to_nat (day_state (day g) - 2)))
             as [ev|].
           ++ cbn in Hg'. inversion Hg'; subst g'. cbn in Hip. congruence.
           ++ simpl in Hg'. unfold theGame in Hg'. simpl in Hg'. rewrite Hgd in Hg'.
              congruence.
    + unfold printEvent in Hg'. cbn in Hg'. rewrite Hgd, Hg in Hg'. simpl in Hg'.
      unfold theGame in Hg'. simpl in Hg'. rewrite Hgd in Hg'. congruence.
  - unfold printEvent in Hg'. cbn in Hg'. rewrite Hgd in Hg'. simpl in Hg'.
    unfold theGame in Hg'. simpl in Hg'. rewrite Hgd in Hg'. congruence.
Qed.

Lemma keepsCore_Idle {A} (m : M Host A) :
  keepsCore m -> triple Idle m (fun _ => Idle) Idle.
Proof.
  intros Hk. apply triple_final. intros h t Hs.
  eapply Idle_core; [apply Hk|exact Hs].
Qed.

Lemma triple_gameNow (P : Host -> Prop) :
  triple P gameNow (fun g h => P h /\ current h = Some g) P.
Proof.
  intros h t Hp. unfold gameNow, bind, guildNow, current.
  destruct (slot h) as [gd|] eqn:Hgd; auto.
  destruct (currentGame gd) as [g|] eqn:Hg; cbn; auto.
  rewrite Hgd. auto.
Qed.

Lemma createGame_busy msg silent h t g :
  current h = Some g -> inProgress g = true ->
  createGame msg silent h t =
  Val tt (if silent then h
          else mkHost (slot h) (ticking h) (eventFile h) (defaultsNow h)
                      (sharesDefaults h) (notices h ++ [ReplyHasGameInProgress])) t.
Proof.
  unfold current, createGame. intros Hg Hip.
  rewrite (bind_val get _ h t h h t eq_refl).
  destruct (slot h) as [gd|] eqn:Hgd; [|discriminate]. rewrite Hg, Hip.
  destruct silent; [reflexivity|]. unfold notify, modify. rewrite Hgd. reflexivity.
Qed.

Lemma createGame_Steady msg silent h t :
  Steady h -> Steady (final (createGame msg silent h t)).
Proof.
  intros Hs. destruct (current h) as [g|] eqn:Hg.
  - destruct (inProgress g) eqn:Hip.
    + rewrite (createGame_busy msg silent h t g Hg Hip). cbn.
      destruct silent; exact Hs.
    + destruct (createGame_result msg silent h t) as
        (gd' & g' & dn & sd & nt & Hrun & Hg' & _ & _ & Hip' & _).
      { intros g0 Hg0. congruence. }
      rewrite Hrun. cbn. apply Steady_idle. intros g0 Hg0.
      unfold current in Hg0. cbn in Hg0. congruence.
  - destruct (createGame_result msg silent h t) as
      (gd' & g' & dn & sd & nt & Hrun & Hg' & _ & _ & Hip' & _).
    { intros g0 Hg0. congruence. }
    rewrite Hrun. cbn. apply Steady_idle. intros g0 Hg0.
    unfold current in Hg0. cbn in Hg0. congruence.
Qed.

Lemma find_none_all {A} (f : A -> bool) l :
  (forall x, In x l -> f x = false) -> find f l = None.
Proof.
  induction l as [|y l IH]; simpl; intros H; auto.
  rewrite (H y (or_introl eq_refl)). apply IH. intros x Hx. apply H. auto.
Qed.

Lemma missingPlayer_none g :
  (forall p, In p (rosters (teams g)) -> In p (map id (includedUsers g))) ->
  missingPlayer g = None.
Proof.
  intros H. unfold missingPlayer. apply find_none_all. intros p Hp.
  apply negb_false_iff. apply has_id_In. apply H. exact Hp.
Qed.

(** What [startGame] does when no game is in progress: the game
    [createGame] made is set in progress, and with autoplay on the first
    day is simulated. *)
Lemma startGame_result pres msg h t :
  Idle h ->
  exists gd' g' dn sd nt,
    createGame msg true h t =
    Val tt (mkHost (Some gd') (ticking h) (eventFile h) dn sd nt) t /\
    currentGame gd' = Some g' /\
    startGame pres msg h t =
    (if autoPlay gd' then (_ <- engine (nextDay pres) ;; ret tt) else ret tt)
      (mkHost (Some (set_currentGame (Some (set_inProgress true g')) gd'))
              (ticking h) (eventFile h) dn sd
              (nt ++ [ReplyLetTheGamesBegin (len (includedUsers g'))
                                            (len (excludedUsers gd'))]))
      t.
Proof.
  intros Hidle.
  destruct (createGame_result msg true h t Hidle) as
    (gd' & g' & dn & sd & nt & Hrun & Hg' & _ & _ & _ & _ & _ & _ & _ & Hros & _).
  exists gd', g', dn, sd, nt. split; [exact Hrun|]. split; [exact Hg'|].
  unfold startGame. rewrite (bind_val get _ h t h h t eq_refl).
  assert (Hc : match slot h with
               | Some gd => match currentGame gd with
                            | Some g => inProgress g
                            | None => false
                            end
               | None => false
               end = false).
  { unfold Idle, current in Hidle. destruct (slot h) as [gd|]; auto.
    destruct (currentGame gd) as [g|]; auto. }
  rewrite Hc. rewrite (bind_val _ _ _ _ _ _ _ Hrun).
  pose proof (missingPlayer_none g' Hros) as Hmiss.
  host_unfold. cbn. rewrite Hg'. cbn. rewrite Hmiss.
  destruct (gt_zero (teamSize (options gd'))); cbn; rewrite Hg'; cbn;
    destruct (autoPlay gd'); reflexivity.
Qed.

Lemma startGame_Steady pres msg h t :
  membersDistinct msg -> Steady h -> Steady (final (startGame pres msg h t)).
Proof.
  intros Hmem Hs. destruct (current h) as [g|] eqn:Hg.
  - destruct (inProgress g) eqn:Hip.
    + unfold startGame. rewrite (bind_val get _ h t h h t eq_refl).
      unfold current in Hg. destruct (slot h) as [gd|]; [|discriminate].
      rewrite Hg, Hip. cbn. eapply Steady_core; [|exact Hs].
      unfold core, current. cbn. reflexivity.
    + assert (Hidle : Idle h) by (intros g0 Hg0; congruence).
      destruct (createGame_result msg true h t Hidle) as
        (gd1 & g1 & dn1 & sd1 & nt1 & Hrun1 & Hg1 & Hus & Hn & _).
      destruct (startGame_result pres msg h t Hidle) as
        (gd' & g' & dn & sd & nt & Hrun & Hg' & Heq).
      rewrite Hrun in Hrun1. inversion Hrun1; subst. rewrite Hg' in Hg1.
      inversion Hg1; subst g1. rewrite Heq.
      set (h2 := mkHost _ _ _ _ _ _).
      assert (Hs2 : Steady h2).
      { intros g2 Hg2 _. unfold h2, current in Hg2. cbn in Hg2.
        inversion Hg2; subst g2. cbn. split.
        - rewrite Hus. apply getAllPlayers_NoDup. exact Hmem.
        - rewrite Hn. symmetry. apply countLiving_all. intros p Hp.
          rewrite Hus in Hp. apply getAllPlayers_fresh in Hp. tauto. }
      destruct (autoPlay gd1).
      * pose proof (engine_nextDay_Steady pres h2 t Hs2) as H.
        unfold bind. destruct (engine (nextDay pres) h2 t); exact H.
      * exact Hs2.
  - assert (Hidle : Idle h) by (intros g0 Hg0; congruence).
    destruct (createGame_result msg true h t Hidle) as
      (gd1 & g1 & dn1 & sd1 & nt1 & Hrun1 & Hg1 & Hus & Hn & _).
    destruct (startGame_result pres msg h t Hidle) as
      (gd' & g' & dn & sd & nt & Hrun & Hg' & Heq).
    rewrite Hrun in Hrun1. inversion Hrun1; subst. rewrite Hg' in Hg1.
    inversion Hg1; subst g1. rewrite Heq.
    set (h2 := mkHost _ _ _ _ _ _).
    assert (Hs2 : Steady h2).
    { intros g2 Hg2 _. unfold h2, current in Hg2. cbn in Hg2.
      inversion Hg2; subst g2. cbn. split.
      - rewrite Hus. apply getAllPlayers_NoDup. exact Hmem.
      - rewrite Hn. symmetry. apply countLiving_all. intros p Hp.
        rewrite Hus in Hp. apply getAllPlayers_fresh in Hp. tauto. }
    destruct (autoPlay gd1).
    + pose proof (engine_nextDay_Steady pres h2 t Hs2) as H.
      unfold bind. destruct (engine (nextDay pres) h2 t); exact H.
    + exact Hs2.
Qed.

Lemma Steady_none h : current h = None -> Steady h.
Proof. intros H g Hg. congruence. Qed.

Lemma resetGame_Steady msg : triple Steady (resetGame msg) (fun _ => Steady) Steady.
Proof.
  unfold resetGame.
  eapply triple_bind with (R := fun _ => Steady);
    [apply keepsCore_Steady; apply keepsCore_get|]. intros h0.
  destruct (slot h0) as [gd0|]; [|apply keepsCore_Steady; apply keepsCore_notify].
  destruct (String.eqb _ "all").
  { eapply triple_bind with (R := fun _ => Steady);
      [apply keepsCore_Steady; apply keepsCore_notify|]. intros _.
    apply triple_modify. intros h _. apply Steady_none. reflexivity. }
  destruct (String.eqb _ "events"); [apply keepsCore_Steady; core_tac|].
  destruct (String.eqb _ "current").
  { eapply triple_bind with (R := fun _ => Steady);
      [apply keepsCore_Steady; apply keepsCore_notify|]. intros _.
    apply triple_modify. intros h _. apply Steady_none.
    unfold current. cbn. destruct (slot h); reflexivity. }
  destruct (String.eqb _ "options").
  { apply keepsCore_Steady. core_tac. apply keepsCore_modify. intros h.
    unfold core, current. cbn. destruct (slot h); reflexivity. }
  destruct (String.eqb _ "teams").
  { apply keepsCore_Steady. core_tac. apply keepsCore_formTeams. }
  apply keepsCore_Steady. apply keepsCore_notify.
Qed.

Lemma endGame_Steady : triple Steady endGame (fun _ => Steady) Steady.
Proof.
  unfold endGame.
  eapply triple_bind with (R := fun _ => Steady);
    [apply keepsCore_Steady; apply keepsCore_get|]. intros h0.
  destruct (slot h0) as [gd0|]; [|apply keepsCore_Steady; apply keepsCore_notify].
  eapply triple_bind with (R := fun _ => Steady);
    [apply keepsCore_Steady; apply keepsCore_gameNow|]. intros g.
  destruct (negb (inProgress g)); [apply keepsCore_Steady; apply keepsCore_notify|].
  eapply triple_bind with (R := fun _ => Steady);
    [apply keepsCore_Steady; apply keepsCore_notify|]. intros _.
  eapply triple_bind with (R := fun _ => Steady).
  - apply triple_modify. intros h _. apply Steady_idle. intros g0 Hg0.
    unfold current in Hg0. cbn in Hg0. destruct (slot h) as [gd|]; [|discriminate].
    cbn in Hg0. destruct (currentGame gd); [|discriminate].
    cbn in Hg0. inversion Hg0. reflexivity.
  - intros _. apply keepsCore_Steady. apply keepsCore_modify. intros h. reflexivity.
Qed.

Lemma startAutoplay_Steady pres msg :
  membersDistinct msg ->
  triple Steady (startAutoplay pres msg) (fun _ => Steady) Steady.
Proof.
  intros Hmem. unfold startAutoplay.
  eapply triple_bind with (R := fun _ => Steady);
    [apply keepsCore_Steady; apply keepsCore_get|]. intros h0.
  destruct (slot h0) as [gd|]; [|apply keepsCore_Steady; apply keepsCore_notify].
  destruct (autoPlay gd); [apply keepsCore_Steady; apply keepsCore_notify|].
  eapply triple_bind with (R := fun _ => Steady);
    [apply keepsCore_Steady; core_tac|]. intros _.
  eapply triple_bind with (R := fun _ => Steady);
    [apply keepsCore_Steady; apply keepsCore_gameNow|]. intros g.
  destruct (inProgress g && (day_state (day g) =? 0)).
  - eapply triple_bind with (R := fun _ => Steady);
      [apply keepsCore_Steady; apply keepsCore_notify|]. intros _.
    eapply triple_bind with (R := fun _ => Steady).
    + apply triple_final. intros h t. apply engine_nextDay_Steady.
    + intros e. apply triple_ret. auto.
  - destruct (negb (inProgress g)).
    + eapply triple_bind with (R := fun _ => Steady);
        [apply keepsCore_Steady; apply keepsCore_notify|]. intros _.
      apply triple_final. intros h t. apply startGame_Steady. exact Hmem.
    + apply keepsCore_Steady. apply keepsCore_notify.
Qed.

Lemma forEachLine_triple {A} (P : Host -> Prop)
    (body : A -> list Line -> M Host (list Line)) :
  (forall x r, triple P (body x r) (fun _ => P) P) ->
  forall l r, triple P (forEachLine l body r) (fun _ => P) P.
Proof.
  intros Hb. induction l as [|x l IH]; intros r; cbn [forEachLine].
  - apply triple_ret. auto.
  - eapply triple_bind; [apply Hb|]. intros r'. apply IH.
Qed.

Lemma Idle_changeGame (f : Game -> Game) h g :
  current h = Some g -> inProgress (f g) = false ->
  Idle (set_slot (option_map (fun gd =>
          set_currentGame (option_map f (currentGame gd)) gd) (slot h)) h).
Proof.
  unfold current, Idle. intros Hg Hf g0 Hg0. cbn in Hg0.
  destruct (slot h) as [gd|]; [|discriminate]. cbn in Hg0. rewrite Hg in Hg0.
  cbn in Hg0. inversion Hg0; subst. exact Hf.
Qed.

Lemma excludeOne_Steady obj r :
  triple Steady (excludeOne obj r) (fun _ => Steady) Steady.
Proof.
  unfold excludeOne.
  eapply triple_bind with (R := fun _ => Steady);
    [apply keepsCore_Steady; apply keepsCore_guildNow|]. intros gd.
  destruct (existsb _ _); [apply triple_ret; auto|].
  eapply triple_bind with (R := fun _ => Steady);
    [apply keepsCore_Steady; core_tac|]. intros _.
  eapply triple_bind; [apply triple_gameNow|]. intros g.
  destruct (inProgress g) eqn:Hip; cbn [negb andb].
  { apply triple_ret. tauto. }
  destruct (negb (ended g)); [|apply triple_ret; tauto].
  destruct (findIndex _ _) as [index|]; [|apply triple_ret; tauto].
  eapply triple_bind with (R := fun _ => Idle) (E := Steady).
  - apply triple_modify. intros h [_ Hg]. apply Idle_changeGame with (g := g); auto.
  - intros _. eapply triple_bind with (R := fun _ => Idle).
    + eapply triple_conseq; [apply (keepsCore_Idle formTeams keepsCore_formTeams)| | |];
        auto. intros h Hh. apply Steady_idle. exact Hh.
    + intros _. apply triple_ret. intros h Hh. apply Steady_idle. exact Hh.
Qed.

Lemma excludeUser_Steady msg : triple Steady (excludeUser msg) (fun _ => Steady) Steady.
Proof.
  unfold excludeUser.
  destruct (len (mentioned msg) =? 0); [apply keepsCore_Steady; apply keepsCore_notify|].
  eapply triple_bind with (R := fun _ => Steady).
  - apply forEachLine_triple. apply excludeOne_Steady.
  - intros r. apply keepsCore_Steady. apply keepsCore_notify.
Qed.

Lemma includeOne_Steady obj r :
  triple Steady (includeOne obj r) (fun _ => Steady) Steady.
Proof.
  unfold includeOne.
  eapply triple_bind with (R := fun _ => Steady);
    [apply keepsCore_Steady; apply keepsCore_guildNow|]. intros gd.
  eapply triple_bind with (R := fun _ => Steady);
    [apply keepsCore_Steady; core_tac|]. intros isBot.
  destruct isBot; [apply triple_ret; auto|].
  eapply triple_bind with (R := fun _ => Steady);
    [apply keepsCore_Steady; core_tac|]. intros r'.
  eapply triple_bind; [apply triple_gameNow|]. intros g.
  destruct (inProgress g) eqn:Hip.
  { apply triple_ret. tauto. }
  destruct (is_zero _).
  - destruct (mention_user obj) as [u|]; [|apply triple_throw; tauto].
    eapply triple_bind with (R := fun _ => Idle) (E := Steady).
    + apply triple_modify. intros h [_ Hg]. apply Idle_changeGame with (g := g); auto.
    + intros _. apply triple_ret. intros h Hh. apply Steady_idle. exact Hh.
  - eapply triple_bind with (R := fun _ => Steady).
    + eapply triple_conseq; [apply (keepsCore_Steady formTeams keepsCore_formTeams)| | |];
        auto. tauto.
    + intros _. apply triple_ret. auto.
Qed.

Lemma includeUser_Steady msg : triple Steady (includeUser msg) (fun _ => Steady) Steady.
Proof.
  unfold includeUser.
  destruct (len (mentioned msg) =? 0); [apply keepsCore_Steady; apply keepsCore_notify|].
  eapply triple_bind with (R := fun _ => Steady).
  - apply forEachLine_triple. apply includeOne_Steady.
  - intros r. apply keepsCore_Steady. core_tac.
Qed.

(** Every call keeps a game in progress sound. *)
Lemma perform_Steady pres sortBy Number c h t :
  (forall A cmp (l : list A), Permutation (sortBy A cmp l) l) ->
  callOk c -> Steady h -> Steady (final (perform pres sortBy Number c h t)).
Proof.
  intros Hperm Hok Hs. destruct c; cbn [perform callOk] in *.
  - apply createGame_Steady. exact Hs.
  - apply (final_triple _ _ (resetGame_Steady msg)). exact Hs.
  - apply (final_triple _ _ (excludeUser_Steady msg)). exact Hs.
  - apply (final_triple _ _ (includeUser_Steady msg)). exact Hs.
  - eapply Steady_core; [apply keepsCore_toggleOptShared|exact Hs].
  - apply startGame_Steady; auto.
  - eapply Steady_core; [apply keepsCore_pauseAutoplay|exact Hs].
  - apply (final_triple _ _ (startAutoplay_Steady pres msg Hok)). exact Hs.
  - pose proof (engine_nextDay_Steady pres h t Hs) as H.
    unfold bind. destruct (engine (nextDay pres) h t); exact H.
  - pose proof (engine_printEvent_Steady sortBy h t Hperm Hs) as H.
    unfold bind. destruct (engine (printEvent sortBy) h t); exact H.
  - apply (final_triple _ _ endGame_Steady). exact Hs.
  - eapply Steady_core; [apply keepsCore_editTeam|exact Hs].
Qed.

(** X3. Whatever is called, in whatever order, a game in progress has
    distinct player ids and an alive counter equal to the number of living
    players: [startGame] sets a game in progress only after [createGame]
    has rebuilt the players from the guild's members, and no call changes
    the players of a game in progress except the simulator, which keeps
    both. The members read by the calls that start a game are assumed to
    have distinct ids, and the sort to return a permutation. *)
Theorem game_in_progress_stays_sound pres sortBy Number cs : forall h t,
  (forall A cmp (l : list A), Permutation (sortBy A cmp l) l) ->
  Forall callOk cs ->
  Steady h ->
  Steady (final (performAll pres sortBy Number cs h t)).
Proof.
  induction cs as [|c cs IH]; intros h t Hperm Hok Hs; cbn [performAll].
  - exact Hs.
  - inversion Hok as [|? ? Hc Hcs]; subst.
    pose proof (perform_Steady pres sortBy Number c h t Hperm Hc Hs) as H.
    destruct (perform pres sortBy Number c h t) as [u h' t'|h' t'|h']; cbn in H.
    + apply IH; auto.
    + apply IH; auto.
    + exact H.
Qed.

(** ** createGame and startGame *)

(** X4. Unless a game is in progress, [createGame] leaves a game that is
    not in progress and not ended, on day 0 with nothing to reveal, whose
    players are made from the guild's members, all unharmed, with the alive
    counter at their number; the players' ids are distinct when the
    members' are, and every team lists included players only and counts
    all its members alive. *)
Theorem createGame_rebuilds_game msg silent h t :
  Idle h ->
  exists h' g',
    createGame msg silent h t = Val tt h' t /\ current h' = Some g' /\
    inProgress g' = false /\ ended g' = false /\ day g' = mkDay 0 0 [] /\
    includedUsers g' =
      getAllPlayers (guild_members msg)
        (Some (match slot h with Some gd => excludedUsers gd | None => [] end))
        (match slot h with Some gd => includeBots (options gd) | None => false end) /\
    (forall p, In p (includedUsers g') -> unharmed p) /\
    numAlive g' = len (includedUsers g') /\
    numAlive g' = countLiving (includedUsers g') /\
    (membersDistinct msg -> NoDup (map id (includedUsers g'))) /\
    (forall x, In x (teams g') ->
       fullyAlive x /\ forall p, In p (players x) -> In p (map id (includedUsers g'))).
Proof.
  intros Hidle.
  destruct (createGame_result msg silent h t Hidle) as
    (gd' & g' & dn & sd & nt & Hrun & Hg' & Hus & Hn & Hip & Hen & Hday & _ & _ &
     Hros & Hcnt & _).
  eexists _, g'. split; [exact Hrun|]. split; [exact Hg'|].
  assert (Hfresh : forall p, In p (includedUsers g') -> unharmed p).
  { intros p Hp. rewrite Hus in Hp. eapply getAllPlayers_fresh. exact Hp. }
  repeat split; auto; try (apply Hcnt; assumption).
  - apply Hfresh. assumption.
  - apply Hfresh. assumption.
  - apply Hfresh. assumption.
  - apply Hfresh. assumption.
  - apply Hfresh. assumption.
  - rewrite Hn. symmetry. apply countLiving_all. intros p Hp. apply Hfresh. exact Hp.
  - intros Hmem. rewrite Hus. apply getAllPlayers_NoDup. exact Hmem.
  - intros p Hp. apply Hros. unfold rosters. apply in_concat.
    exists (players x). split; auto. apply in_map. assumption.
Qed.

Lemma createGame_rebuilds_game_witness :
  exists h' g',
    createGame (plainMsg "") false (emptyHost twoSets) [] = Val tt h' [] /\
    current h' = Some g' /\ map id (includedUsers g') = [1%N; 2%N] /\
    numAlive g' = 2.
Proof.
  destruct (createGame_rebuilds_game (plainMsg "") false (emptyHost twoSets) [])
    as (h' & g' & H1 & H2 & _ & _ & _ & H3 & _ & H4 & _).
  - intros g Hg. discriminate.
  - exists h', g'. split; [exact H1|]. split; [exact H2|].
    rewrite H4, H3. split; reflexivity.
Defined.

(** X5. [createGame] does not touch a game in progress: the whole record
    stays as it is, and the one thing sent is the refusal, unless the call
    is silent. *)
Theorem createGame_refuses_game_in_progress msg silent h t g :
  current h = Some g -> inProgress g = true ->
  exists h',
    createGame msg silent h t = Val tt h' t /\
    slot h' = slot h /\ ticking h' = ticking h /\ defaultsNow h' = defaultsNow h /\
    notices h' = (if silent then notices h
                  else notices h ++ [ReplyHasGameInProgress]).
Proof.
  intros Hg Hip. rewrite (createGame_busy msg silent h t g Hg Hip).
  eexists. split; [reflexivity|]. destruct silent; repeat split.
Qed.

Lemma createGame_refuses_game_in_progress_witness :
  exists h',
    createGame (plainMsg "") false
      (mkHost (Some (freshGuild defaultOptions)) false twoSets defaultOptions false [])
      [] = Val tt h' [] /\
    slot h' = Some (freshGuild defaultOptions) /\
    notices h' = [ReplyHasGameInProgress].
Proof.
  destruct (createGame_refuses_game_in_progress (plainMsg "") false
              (mkHost (Some (freshGuild defaultOptions)) false twoSets defaultOptions
                      false [])
              [] freshGame eq_refl eq_refl)
    as (h' & H1 & H2 & _ & _ & H3).
  exists h'. split; [exact H1|]. split; [exact H2|exact H3].
Defined.

(** X6. With no game in progress and autoplay off, [startGame] always
    completes: listing the teams cannot fail, because [formTeams] has just
    dropped every team member who is not a player. It leaves a game in
    progress on day 0, its players made from the guild's members and all
    unharmed, the alive counter at their number, and sends one reply; the
    reveal timer is not touched. *)
Theorem startGame_starts_game pres msg h t :
  Idle h ->
  (forall gd, slot h = Some gd -> autoPlay gd = false) ->
  exists h' g',
    startGame pres msg h t = Val tt h' t /\ current h' = Some g' /\
    inProgress g' = true /\ ended g' = false /\ day g' = mkDay 0 0 [] /\
    includedUsers g' =
      getAllPlayers (guild_members msg)
        (Some (match slot h with Some gd => excludedUsers gd | None => [] end))
        (match slot h with Some gd => includeBots (options gd) | None => false end) /\
    (forall p, In p (includedUsers g') -> unharmed p) /\
    numAlive g' = len (includedUsers g') /\
    notices h' = notices h ++
      [ReplyLetTheGamesBegin (len (includedUsers g'))
         (len (match slot h with Some gd => excludedUsers gd | None => [] end))] /\
    ticking h' = ticking h.
Proof.
  intros Hidle Hauto.
  destruct (createGame_result msg true h t Hidle) as
    (gd1 & g1 & dn1 & sd1 & nt1 & Hrun1 & Hg1 & Hus & Hn & _ & Hen & Hday & Hex & Hap &
     _ & _ & Hsil).
  destruct (startGame_result pres msg h t Hidle) as
    (gd' & g' & dn & sd & nt & Hrun & Hg' & Heq).
  rewrite Hrun in Hrun1. inversion Hrun1; subst. rewrite Hg' in Hg1.
  inversion Hg1; subst g1. clear Hrun1 Hg1.
  assert (Hoff : autoPlay gd1 = false).
  { rewrite Hap. destruct (slot h) as [gd|] eqn:Hgd; auto. }
  assert (Hnt : nt1 = notices h) by (apply Hsil; reflexivity).
  eexists _, (set_inProgress true g').
  rewrite Heq, Hoff. cbn. split; [reflexivity|]. split; [reflexivity|].
  split; [reflexivity|]. split; [exact Hen|]. split; [exact Hday|].
  split; [exact Hus|]. split.
  { intros p Hp. rewrite Hus in Hp. eapply getAllPlayers_fresh. exact Hp. }
  split; [exact Hn|]. split; [|reflexivity].
  rewrite Hnt, Hex. reflexivity.
Qed.

Lemma startGame_starts_game_witness :
  exists h' g',
    startGame plainPresenter (plainMsg "") (emptyHost twoSets) [] = Val tt h' [] /\
    current h' = Some g' /\ inProgress g' = true /\
    map id (includedUsers g') = [1%N; 2%N] /\
    notices h' = [ReplyLetTheGamesBegin 2 0].
Proof.
  destruct (startGame_starts_game plainPresenter (plainMsg "") (emptyHost twoSets) [])
    as (h' & g' & H1 & H2 & H3 & _ & _ & H4 & _ & _ & H5 & _).
  - intros g Hg. discriminate.
  - intros gd Hgd. discriminate.
  - exists h', g'. split; [exact H1|]. split; [exact H2|]. split; [exact H3|].
    rewrite H5, H4. split; reflexivity.
Defined.

(** ** formTeams *)

Lemma lt_zero_int k : 0 <= k -> lt_zero (Num (inject_Z k)) = false.
Proof.
  intros Hk. unfold lt_zero. apply negb_false_iff. apply Qle_bool_iff.
  unfold Qle. simpl. lia.
Qed.

Lemma is_zero_int k : 0 < k -> is_zero (Num (inject_Z k)) = false.
Proof.
  intros Hk. unfold is_zero. destruct (Qeq_bool (inject_Z k) 0) eqn:H; auto.
  apply Qeq_bool_iff in H. assert (H' : (inject_Z k == inject_Z 0)%Q) by exact H.
  rewrite inject_Z_injective in H'. lia.
Qed.

Lemma recount_freshTeams teamSize us :
  map recount (freshTeams teamSize us) = freshTeams teamSize us.
Proof.
  unfold freshTeams. destruct teamSize as [q|]; [|reflexivity].
  rewrite map_map. apply map_ext. intros i. reflexivity.
Qed.

(** X7. With a whole, positive team size and no teams yet, [formTeams]
    cuts the players into consecutive groups of that size: in order nobody
    is left out or listed twice, there are as many teams as that takes,
    every team but the last is full, no team is empty, and team [i] has id
    [i], name "Team i+1", rank 1 and all its members counted alive. *)
Theorem formTeams_cuts_players_into_teams h t gd g k :
  slot h = Some gd -> currentGame gd = Some g -> teams g = [] ->
  teamSize (options gd) = Num (inject_Z k) -> 0 < k ->
  exists ts,
    formTeams h t = Val tt (with_teams ts h) t /\
    rosters ts = map id (includedUsers g) /\
    len ts = (len (includedUsers g) + k - 1) / k /\
    (forall i x, nth_error ts i = Some x ->
       team_id x = Z.of_nat i /\
       team_name x = String.append "Team " (showZ (Z.of_nat i + 1)) /\
       team_rank x = 1 /\ team_numAlive x = len (players x) /\
       0 < len (players x) <= k /\
       (Z.of_nat i + 1 < len ts -> len (players x) = k)).
Proof.
  intros Hgd Hg Hts Hsz Hk.
  exists (freshTeams (Num (inject_Z k)) (includedUsers g)). split.
  - rewrite (formTeams_positive h t gd g Hgd Hg); rewrite Hsz.
    + unfold formedTeams. rewrite Hts. cbn [len List.length Z.of_nat Z.gtb Z.compare].
      rewrite recount_freshTeams. reflexivity.
    + apply lt_zero_int. lia.
    + apply is_zero_int. exact Hk.
  - apply (freshTeams_partition k (includedUsers g) Hk).
Qed.

Lemma formTeams_cuts_players_into_teams_witness :
  exists ts,
    formTeams (hostWith (teamOptions (Num (inject_Z 3))) idleGame) [] =
    Val tt (with_teams ts (hostWith (teamOptions (Num (inject_Z 3))) idleGame)) [] /\
    rosters ts = [1%N; 2%N; 3%N; 4%N] /\ len ts = 2.
Proof.
  destruct (formTeams_cuts_players_into_teams
              (hostWith (teamOptions (Num (inject_Z 3))) idleGame) [] _ idleGame 3
              eq_refl eq_refl eq_refl eq_refl ltac:(lia))
    as (ts & H1 & H2 & H3 & _).
  exists ts. split; [exact H1|]. split; [exact H2|exact H3].
Defined.



(** X9. A team size of zero, a negative one, or without teams yet one that
    is not a number, gives no teams at all; a negative team size is
    replaced by 0 in the options on the way. *)
Theorem formTeams_without_team_size h t gd g :
  slot h = Some gd -> currentGame gd = Some g ->
  lt_zero (teamSize (options gd)) = true \/
  is_zero (teamSize (options gd)) = true \/
  (teamSize (options gd) = NaN /\ teams g = []) ->
  exists h',
    formTeams h t = Val tt h' t /\ current h' = Some (set_teams [] g) /\
    optionsOf h' =
      Some (if lt_zero (teamSize (options gd))
            then setNumber "teamSize" (Num 0) (options gd) else options gd).
Proof.
  intros Hgd Hg Hcase.
  destruct (formTeams_frame h t gd g Hgd Hg) as (o & ts & dn & Hrun & _ & _ & Hwhat).
  eexists. split; [exact Hrun|]. unfold current, optionsOf. cbn.
  destruct Hwhat as [(Hlt & Ho & _ & Hts)|(Hlt & Ho & _ & Hts)].
  - rewrite Hlt, Ho. split; [|reflexivity]. f_equal. f_equal. rewrite Hts.
    destruct Hcase as [H|[H|[H1 H2]]].
    + congruence.
    + rewrite H. reflexivity.
    + rewrite H1. cbn. unfold formedTeams. rewrite H2. reflexivity.
  - rewrite Hlt, Ho, Hts. split; reflexivity.
Qed.

Lemma formTeams_without_team_size_witness :
  exists h',
    formTeams (hostWith (teamOptions (Num (-2 # 1))) staleGame) [] = Val tt h' [] /\
    current h' = Some (set_teams [] staleGame) /\
    option_map teamSize (optionsOf h') = Some (Num 0).
Proof.
  destruct (formTeams_without_team_size
              (hostWith (teamOptions (Num (-2 # 1))) staleGame) [] _ staleGame
              eq_refl eq_refl (or_introl eq_refl))
    as (h' & H1 & H2 & H3).
  exists h'. split; [exact H1|]. split; [exact H2|]. rewrite H3. reflexivity.
Defined.

(** ** The shared defaults *)

Lemma toggleOpt_guild Number opt value w gd :
  games_id w = Some gd ->
  exists o, games_id (toggleOpt Number opt value w) = Some (set_options o gd).
Proof.
  intros Hgd. unfold toggleOpt. rewrite Hgd.
  assert (Hsame : forall x, games_id (say x w) = Some (set_options (options gd) gd)).
  { intros x. cbn. rewrite Hgd. destruct gd; reflexivity. }
  destruct (currentGame gd) as [g|]; [|eauto].
  repeat match goal with
         | |- context [if ?c then _ else _] => destruct c
         | |- context [match value with _ => _ end] => destruct value
         end;
    first [ solve [eexists; apply Hsame]
          | solve [cbn; eexists; reflexivity]
          | solve [cbn; rewrite Hgd; exists (options gd); destruct gd; reflexivity] ].
Qed.

Lemma Shared_toggleOptShared Number msg h t :
  Shared h -> Shared (final (toggleOptShared Number msg h t)).
Proof.
  intros [Hs Ho]. unfold optionsOf in Ho.
  destruct (slot h) as [gd|] eqn:Hgd; [|discriminate].
  destruct (toggleOpt_guild Number (hd EmptyString (split_space (msg_text msg)))
              (nth_error (split_space (msg_text msg)) 1) (view h) gd Hgd) as [o Hw].
  unfold toggleOptShared, final, Shared, optionsOf.
  cbn [slot sharesDefaults defaultsNow]. rewrite Hw, Hs. split; reflexivity.
Qed.

Lemma toggleOptShared_val Number msg h t :
  exists h', toggleOptShared Number msg h t = Val tt h' t.
Proof. eexists. reflexivity. Qed.

Lemma createGame_on_empty msg silent tpl t :
  exists h', createGame msg silent (emptyHost tpl) t = Val tt h' t /\ Shared h' /\
             optionsOf h' = Some defaultOptions.
Proof.
  destruct silent; (eexists; split; [vm_compute; reflexivity|]);
    (split; [split|]; reflexivity).
Qed.

Lemma performAll_options pres sortBy Number ms : forall h t,
  Shared h ->
  exists h', performAll pres sortBy Number (map CallOption ms) h t = Val tt h' t /\
             Shared h'.
Proof.
  induction ms as [|m ms IH]; intros h t Hs; cbn [map performAll perform].
  - exists h. split; [reflexivity|exact Hs].
  - destruct (toggleOptShared_val Number m h t) as [h1 H1].
    pose proof (Shared_toggleOptShared Number m h t Hs) as Hs1.
    rewrite H1 in *. cbn in Hs1. apply IH. exact Hs1.
Qed.

(** X10. [createGame] gives a guild without a record the [defaultOptions]
    object itself, so what [toggleOpt] then sets is set in the defaults
    too: for such a guild, whatever options were changed since, "reset
    options" changes nothing at all but the reply. *)
Theorem reset_options_restores_nothing pres sortBy Number tpl mC ms mR t :
  hd EmptyString (split_space (msg_text mR)) = "options" ->
  exists h2 h3,
    performAll pres sortBy Number (CallCreate mC :: map CallOption ms)
               (emptyHost tpl) t = Val tt h2 t /\
    resetGame mR h2 t = Val tt h3 t /\
    slot h3 = slot h2 /\ defaultsNow h3 = defaultsNow h2 /\
    optionsOf h2 = Some (defaultsNow h2) /\
    notices h3 = notices h2 ++ [ReplyResettingOptions].
Proof.
  intros Hcmd.
  destruct (createGame_on_empty mC false tpl t) as (h1 & H1 & Hs1 & _).
  destruct (performAll_options pres sortBy Number ms h1 t Hs1) as (h2 & H2 & Hs2).
  exists h2. eexists. split.
  { cbn [performAll perform]. rewrite H1. exact H2. }
  destruct Hs2 as [Hsd Ho]. unfold optionsOf in Ho.
  destruct (slot h2) as [gd|] eqn:Hgd; [|discriminate]. cbn in Ho.
  inversion Ho as [Ho']. split.
  { unfold resetGame. rewrite Hcmd. rewrite (bind_val get _ h2 t h2 h2 t eq_refl).
    rewrite Hgd. cbn [String.eqb Ascii.eqb Bool.eqb]. host_unfold. cbn. reflexivity. }
  cbn. rewrite Hgd. cbn. rewrite <- Ho'. repeat split.
  - destruct gd; reflexivity.
  - unfold optionsOf. rewrite Hgd. reflexivity.
Qed.

(** ** Resetting the teams, ending the game *)

(** X11. During a game "teams reset" is refused by [editTeam], which
    leaves the record alone; "reset teams" goes through [resetGame], which
    has no such check: it throws the teams away and forms new ones, every
    one of them counting all its members alive and ranked 1 whoever has
    died, while the players and the game's own counter stay as they are. *)
Theorem teams_reset_refused_by_editTeam_only Number mE mR h t gd g :
  slot h = Some gd -> currentGame gd = Some g -> inProgress g = true ->
  hd EmptyString (split_space (msg_text mE)) = "reset" ->
  hd EmptyString (split_space (msg_text mR)) = "teams" ->
  (exists h', editTeam Number mE h t = Val tt h' t /\ slot h' = slot h /\
              notices h' = notices h ++ [SendEndBeforeTeams]) /\
  (exists h' ts, resetGame mR h t = Val tt h' t /\
                 current h' = Some (set_teams ts g) /\
                 (forall x, In x ts -> fullyAlive x) /\
                 (forall k, 0 < k -> teamSize (options gd) = Num (inject_Z k) ->
                            rosters ts = map id (includedUsers g))).
Proof.
  intros Hgd Hg Hip HmE HmR. split.
  - eexists. split.
    + unfold editTeam. rewrite HmE. host_unfold.
      repeat first [rewrite Hgd | rewrite Hg | rewrite Hip | progress cbn].
      reflexivity.
    + cbn. rewrite Hgd. split; reflexivity.
  - set (h1 := mkHost (Some (set_currentGame (Some (set_teams [] g)) gd)) (ticking h)
                      (eventFile h) (defaultsNow h) (sharesDefaults h)
                      (notices h ++ [ReplyResettingTeams])).
    destruct (formTeams_frame h1 t _ (set_teams [] g) eq_refl eq_refl)
      as (o & ts & dn & Hrun & _ & Hcnt & Hwhat).
    eexists. exists ts. split.
    { unfold resetGame. rewrite HmR. rewrite (bind_val get _ h t h h t eq_refl).
      rewrite Hgd. cbn [String.eqb Ascii.eqb Bool.eqb].
      host_unfold.
      repeat first [rewrite Hgd | rewrite Hg | rewrite Hip | progress cbn].
      exact Hrun. }
    split; [reflexivity|]. split; [exact Hcnt|].
    intros k Hk Hsz. cbn in Hwhat. rewrite Hsz in Hwhat.
    rewrite (lt_zero_int k) in Hwhat by lia. rewrite (is_zero_int k Hk) in Hwhat.
    destruct Hwhat as [(_ & _ & _ & Hts)|(Hf & _)]; [|discriminate].
    rewrite Hts. unfold formedTeams. cbn [teams set_teams len List.length Z.of_nat Z.gtb
                                          Z.compare includedUsers].
    rewrite rosters_recount.
    apply (freshTeams_partition k (includedUsers g) Hk).
Qed.

(** X12. [endGame] ends a game in progress without touching its players:
    the game is marked ended and not in progress and the reveal timer is
    cleared. After that neither [nextDay] nor a second [endGame] changes
    the record; each only replies. *)
Theorem endGame_stops_the_game pres h t gd g :
  slot h = Some gd -> currentGame gd = Some g -> inProgress g = true ->
  exists h1,
    endGame h t = Val tt h1 t /\
    current h1 = Some (set_ended true (set_inProgress false g)) /\
    ticking h1 = false /\ notices h1 = notices h ++ [ReplyGameEnded] /\
    (exists h2, engine (nextDay pres) h1 t = Val MustStart h2 t /\
                slot h2 = slot h1 /\ ticking h2 = false /\
                notices h2 = notices h1 ++ [FromEngine ReplyMustStart]) /\
    (exists h3, endGame h1 t = Val tt h3 t /\ slot h3 = slot h1 /\
                notices h3 = notices h1 ++ [ReplyNoGameInProgress]).
Proof.
  intros Hgd Hg Hip. eexists. split.
  { unfold endGame. host_unfold.
    repeat first [rewrite Hgd | rewrite Hg | rewrite Hip | progress cbn].
    reflexivity. }
  cbn. repeat split.
  - eexists. split; [unfold engine, nextDay, nextDayWith; cbn; reflexivity|].
    repeat split.
  - eexists. split; [unfold endGame; host_unfold; cbn; reflexivity|].
    repeat split.
Qed.

Lemma endGame_stops_the_game_witness :
  exists h1,
    endGame (mkHost (Some (freshGuild defaultOptions)) true twoSets defaultOptions
                    false []) [] = Val tt h1 [] /\
    option_map inProgress (current h1) = Some false /\
    option_map includedUsers (current h1) = Some fourPlayers /\
    ticking h1 = false.
Proof.
  destruct (endGame_stops_the_game plainPresenter
              (mkHost (Some (freshGuild defaultOptions)) true twoSets defaultOptions
                      false []) [] _ freshGame eq_refl eq_refl eq_refl)
    as (h1 & H1 & H2 & H3 & _).
  exists h1. split; [exact H1|]. rewrite H2. repeat split. exact H3.
Defined.

(** ** Excluding and including users *)

Lemma excludeOne_idle obj r h t gd g :
  slot h = Some gd -> currentGame gd = Some g -> inProgress g = false ->
  exists r' h1 gd1 g1,
    excludeOne obj r h t = Val r' h1 t /\ slot h1 = Some gd1 /\
    excludedUsers gd1 =
      (if existsb (N.eqb (mention_id obj)) (excludedUsers gd) then excludedUsers gd
       else excludedUsers gd ++ [mention_id obj]) /\
    includeBots (options gd1) = includeBots (options gd) /\
    autoPlay gd1 = autoPlay gd /\
    currentGame gd1 = Some g1 /\ inProgress g1 = false /\
    notices h1 = notices h /\ ticking h1 = ticking h.
Proof.
  intros Hgd Hg Hip. unfold excludeOne.
  rewrite (bind_val guildNow _ h t gd h t) by (unfold guildNow; rewrite Hgd; reflexivity).
  destruct (existsb _ _) eqn:Hex.
  { exists (r ++ [AlreadyExcluded (mention_username obj)]), h, gd, g.
    repeat split; auto. }
  set (gd0 := set_excludedUsers (excludedUsers gd ++ [mention_id obj]) gd).
  set (h0 := set_slot (Some gd0) h).
  assert (Hstep : changeGuild (fun gd => set_excludedUsers
                     (excludedUsers gd ++ [mention_id obj]) gd) h t = Val tt h0 t).
  { unfold changeGuild, modify, h0, gd0. rewrite Hgd. reflexivity. }
  rewrite (bind_val _ _ _ _ _ _ _ Hstep).
  rewrite (bind_val gameNow _ h0 t g h0 t)
    by (unfold gameNow, bind, guildNow; cbn; rewrite Hg; reflexivity).
  rewrite Hip. cbn [negb andb].
  destruct (negb (ended g)).
  2:{ exists (r ++ [AddedToBlacklist (mention_username obj)]), h0, gd0, g.
      repeat split; auto. }
  destruct (findIndex _ _) as [index|].
  2:{ exists (r ++ [AddedToBlacklist (mention_username obj)]), h0, gd0, g.
      repeat split; auto. }
  set (g0 := set_includedUsers (snd (splice1 (Z.of_nat index) (includedUsers g))) g).
  set (h1 := set_slot (Some (set_currentGame (Some g0) gd0)) h).
  assert (Hstep2 : changeGame (fun g => set_includedUsers
                      (snd (splice1 (Z.of_nat index) (includedUsers g))) g) h0 t
                   = Val tt h1 t).
  { unfold changeGame, changeGuild, modify, h1, h0, g0. cbn. rewrite Hg. reflexivity. }
  rewrite (bind_val _ _ _ _ _ _ _ Hstep2).
  destruct (formTeams_frame h1 t (set_currentGame (Some g0) gd0) g0 eq_refl eq_refl)
    as (o & ts & dn & Hrun & _ & _ & Hwhat).
  rewrite (bind_val _ _ _ _ _ _ _ Hrun).
  eexists _, _, _, (set_teams ts g0). split; [reflexivity|].
  cbn. repeat split; auto.
  destruct Hwhat as [(_ & Ho & _)|(_ & Ho & _)]; rewrite Ho; reflexivity.
Qed.

Lemma startGame_players pres msg h t :
  Idle h ->
  (forall gd, slot h = Some gd -> autoPlay gd = false) ->
  exists h' g',
    startGame pres msg h t = Val tt h' t /\ current h' = Some g' /\
    inProgress g' = true /\
    includedUsers g' =
      getAllPlayers (guild_members msg)
        (Some (match slot h with Some gd => excludedUsers gd | None => [] end))
        (match slot h with Some gd => includeBots (options gd) | None => false end).
Proof.
  intros Hidle Hauto.
  destruct (createGame_result msg true h t Hidle) as
    (gd1 & g1 & dn1 & sd1 & nt1 & Hrun1 & Hg1 & Hus & _ & _ & _ & _ & _ & Hap & _).
  destruct (startGame_result pres msg h t Hidle) as
    (gd' & g' & dn & sd & nt & Hrun & Hg' & Heq).
  rewrite Hrun in Hrun1. inversion Hrun1; subst. rewrite Hg' in Hg1.
  inversion Hg1; subst g1. clear Hrun1 Hg1.
  assert (Hoff : autoPlay gd1 = false).
  { rewrite Hap. destruct (slot h) as [gd|] eqn:Hgd; auto. }
  eexists _, (set_inProgress true g').
  rewrite Heq, Hoff. cbn. repeat split. exact Hus.
Qed.

(** X13. Whoever has been excluded is not a player of the next game that
    is started, as long as somebody who may play remains: [excludeUser]
    puts the user on the list, and [startGame] rebuilds the players from
    the members without those on it. *)
Theorem excluded_user_sits_out pres mX mS obj h t gd g :
  mentioned mX = [obj] ->
  slot h = Some gd -> currentGame gd = Some g -> inProgress g = false ->
  autoPlay gd = false ->
  (forall m, In m (guild_members mS) -> member_id m = user_id m) ->
  (exists m, In m (guild_members mS) /\ ~ In (user_id m) (excludedUsers gd) /\
             user_id m <> mention_id obj /\
             (includeBots (options gd) = false -> bot m = false)) ->
  exists h1 h2 g2,
    excludeUser mX h t = Val tt h1 t /\
    startGame pres mS h1 t = Val tt h2 t /\
    current h2 = Some g2 /\ inProgress g2 = true /\
    ~ In (mention_id obj) (map id (includedUsers g2)).
Proof.
  intros Hm Hgd Hg Hip Hauto Hids [m0 [Hm0 [Hm1 [Hm2 Hm3]]]].
  destruct (excludeOne_idle obj [] h t gd g Hgd Hg Hip)
    as (r' & h1 & gd1 & g1 & Hrun & Hgd1 & Hex & Hbots & Hap & Hg1 & Hip1 & _).
  assert (Hidle1 : Idle (mkHost (slot h1) (ticking h1) (eventFile h1) (defaultsNow h1)
                                (sharesDefaults h1) (notices h1 ++ [ReplyLines r']))).
  { intros g0 Hg0. unfold current in Hg0. cbn in Hg0. rewrite Hgd1, Hg1 in Hg0.
    inversion Hg0; subst. exact Hip1. }
  destruct (startGame_players pres mS _ t Hidle1)
    as (h2 & g2 & H2 & Hc2 & Hip2 & Hus).
  { intros gd0 Hgd0. cbn in Hgd0. rewrite Hgd1 in Hgd0. inversion Hgd0; subst.
    congruence. }
  eexists _, h2, g2. split.
  { unfold excludeUser. rewrite Hm. cbn [len List.length Z.of_nat Z.eqb Pos.eqb].
    cbn [forEachLine].
    rewrite (bind_val _ _ _ _ _ _ _
               (bind_val _ (fun r0 => ret r0) _ _ _ _ _ Hrun)).
    unfold notify, modify. reflexivity. }
  split; [exact H2|]. split; [exact Hc2|]. split; [exact Hip2|].
  cbn [slot] in Hus. rewrite Hgd1 in Hus.
  assert (Hin : In (mention_id obj) (excludedUsers gd1)).
  { rewrite Hex. destruct (existsb _ _) eqn:He.
    - apply existsb_eqb_In in He. exact He.
    - apply in_or_app. right. left. reflexivity. }
  assert (Hel : ~ In (user_id m0) (excludedUsers gd1)).
  { rewrite Hex. destruct (existsb _ _); auto. intros H.
    apply in_app_or in H. destruct H as [H|[H|[]]]; auto. }
  rewrite Hus, (getAllPlayers_filtered (guild_members mS) (excludedUsers gd1)
                  (includeBots (options gd1)) m0 Hm0 Hel), map_map.
  2:{ rewrite Hbots. exact Hm3. }
  intros Hin'. apply in_map_iff in Hin'.
  destruct Hin' as [m [Hmid Hmin]]. apply filter_In in Hmin.
  destruct Hmin as [Hmem Hkeep]. apply mayPlay_iff in Hkeep.
  destruct Hkeep as [Hnot _]. cbn in Hmid.
  apply Hnot. rewrite <- (Hids m Hmem), Hmid. exact Hin.
Qed.

Lemma triple_guildNow (P : Host -> Prop) :
  triple P guildNow (fun gd h => P h /\ slot h = Some gd) P.
Proof.
  intros h t Hp. unfold guildNow. destruct (slot h) as [gd|] eqn:Hgd; auto.
Qed.

Lemma formTeams_TeamsAt sz c :
  lt_zero sz = false ->
  triple (TeamsAt sz c) formTeams (fun _ => TeamsAt sz c) (TeamsAt sz c).
Proof.
  intros Hlt. apply triple_final. intros h t [Ho Hc]. split.
  - unfold optionsOf in *. destruct (slot h) as [gd|] eqn:Hgd; [|discriminate].
    cbn in Ho. inversion Ho as [Hsz].
    destruct (currentGame gd) as [g|] eqn:Hg.
    + destruct (formTeams_frame h t gd g Hgd Hg) as (o & ts & dn & Hrun & _ & _ & Hw).
      rewrite Hrun. cbn. destruct Hw as [(_ & Ho' & _)|(Hf & _)]; [|congruence].
      rewrite Ho'. congruence.
    + unfold formTeams. host_unfold.
      repeat first [rewrite Hgd | rewrite Hg | rewrite Hsz | rewrite Hlt | progress cbn].
      congruence.
  - rewrite keepsCore_formTeams. exact Hc.
Qed.

Lemma TeamsAt_core sz c h h' :
  optionsOf h' = optionsOf h -> core h' = core h -> TeamsAt sz c h -> TeamsAt sz c h'.
Proof. unfold TeamsAt. intros H1 H2 [H3 H4]. rewrite H1, H2. auto. Qed.

Lemma includeOne_TeamsAt sz c obj r :
  lt_zero sz = false -> is_zero sz = false ->
  triple (TeamsAt sz c) (includeOne obj r) (fun _ => TeamsAt sz c) (TeamsAt sz c).
Proof.
  intros Hlt Hz. unfold includeOne.
  eapply triple_bind; [apply triple_guildNow|]. intros gd. cbn beta.
  eapply triple_bind with (R := fun _ h => TeamsAt sz c h /\ slot h = Some gd).
  { destruct (includeBots (options gd)); [apply triple_ret; auto|].
    destruct (mention_user obj); [apply triple_ret; auto|apply triple_throw; tauto]. }
  intros isBot. destruct isBot; [apply triple_ret; tauto|].
  eapply triple_bind with (R := fun _ h => TeamsAt sz c h /\
                                            optionsOf h = Some (options gd)).
  { destruct (indexOfId _ _).
    - eapply triple_bind with (R := fun _ h => TeamsAt sz c h /\
                                               optionsOf h = Some (options gd)).
      + apply triple_modify. intros h [Ht Hgd]. unfold optionsOf. cbn. rewrite Hgd. cbn.
        split; [|reflexivity]. eapply TeamsAt_core; [| |exact Ht].
        * unfold optionsOf. cbn. rewrite Hgd. reflexivity.
        * unfold core, current. cbn. rewrite Hgd. reflexivity.
      + intros _. apply triple_ret. auto.
    - apply triple_ret. intros h [Ht Hgd]. split; auto. unfold optionsOf.
      rewrite Hgd. reflexivity. }
  intros r'.
  eapply triple_bind with (R := fun _ h => TeamsAt sz c h /\
                                            optionsOf h = Some (options gd)).
  { intros h t [Ht Ho]. pose proof (keepsCore_gameNow h t) as Hk.
    pose proof (triple_gameNow (fun h => TeamsAt sz c h /\ optionsOf h = Some (options gd))
                  h t (conj Ht Ho)) as H.
    destruct (gameNow h t); tauto. }
  intros g. destruct (inProgress g); [apply triple_ret; tauto|].
  assert (Hnz : forall h, TeamsAt sz c h /\ optionsOf h = Some (options gd) ->
                          is_zero (teamSize (options gd)) = false).
  { intros h [[Ht _] Ho]. rewrite Ho in Ht. cbn in Ht. inversion Ht. congruence. }
  destruct (is_zero (teamSize (options gd))) eqn:Hzz.
  - intros h t Hh. specialize (Hnz h Hh). congruence.
  - eapply triple_bind with (R := fun _ => TeamsAt sz c).
    + eapply triple_conseq; [apply (formTeams_TeamsAt sz c Hlt)| | |]; auto; tauto.
    + intros _. apply triple_ret. auto.
Qed.

(** X14. With a team size that is neither zero nor negative, [includeUser]
    adds nobody to the game: at most it takes the mentioned users off the
    excluded list and regroups the teams. The players, the alive counter
    and the team size are the same at every exit. *)
Theorem includeUser_with_teams_adds_nobody msg h t gd :
  slot h = Some gd ->
  lt_zero (teamSize (options gd)) = false ->
  is_zero (teamSize (options gd)) = false ->
  core (final (includeUser msg h t)) = core h /\
  option_map teamSize (optionsOf (final (includeUser msg h t))) =
    Some (teamSize (options gd)).
Proof.
  intros Hgd Hlt Hz.
  assert (Htr : triple (TeamsAt (teamSize (options gd)) (core h)) (includeUser msg)
                  (fun _ => TeamsAt (teamSize (options gd)) (core h))
                  (TeamsAt (teamSize (options gd)) (core h))).
  { unfold includeUser. destruct (len (mentioned msg) =? 0).
    - apply triple_modify. intros h0 H0. eapply TeamsAt_core; [| |exact H0]; reflexivity.
    - eapply triple_bind.
      + apply forEachLine_triple. intros x r. apply includeOne_TeamsAt; auto.
      + intros r. cbn beta.
        eapply triple_bind with (R := fun _ => TeamsAt (teamSize (options gd)) (core h)).
        * intros h0 t0 H0. pose proof (triple_gameNow _ h0 t0 H0) as H.
          destruct (gameNow h0 t0); tauto.
        * intros g. apply triple_modify. intros h0 H0.
          eapply TeamsAt_core; [| |exact H0]; reflexivity. }
  pose proof (final_triple _ _ Htr h t) as H.
  destruct H as [H1 H2].
  - split; [|reflexivity]. unfold optionsOf. rewrite Hgd. reflexivity.
  - split; auto.
Qed.

Lemma includeUser_with_teams_adds_nobody_witness :
  option_map includedUsers
    (current (final (includeUser
       (mkMsg "" threeMembers "Arena" [mkMention 7%N "gus" (Some (mkUserInfo false "g"))])
       (hostWith (teamOptions (Num (inject_Z 2))) idleGame) []))) = Some fourPlayers.
Proof.
  destruct (includeUser_with_teams_adds_nobody
              (mkMsg "" threeMembers "Arena"
                     [mkMention 7%N "gus" (Some (mkUserInfo false "g"))])
              (hostWith (teamOptions (Num (inject_Z 2))) idleGame) [] _
              eq_refl eq_refl eq_refl) as [H _].
  unfold core in H.
  destruct (current (final _)) as [g|]; [|discriminate].
  cbn in H. inversion H. reflexivity.
Defined.



(** ** The reveal *)





(** ** weightedRand and formatMultiNames *)

(** X17. For every draw [Math.random] can return, [weightedRand] returns,
    and what it returns is one of the listed group sizes 1, 2, 3, 4, 6 and
    7: the fall-through past the last weight is never reached, and 5 is
    never drawn. It takes exactly one draw. *)
Theorem weightedRand_draws_a_listed_size (s : Sim) r t :
  in_unit r = true ->
  exists i, weightedRand s (r :: t) = Val i s t /\ In i [1; 2; 3; 4; 6; 7].
Proof.
  intros Hr. unfold weightedRand, bind, random. rewrite Hr.
  destruct (weightedRandOf r) as [i|] eqn:Hw.
  - exists i. split; [reflexivity|].
    apply (weightedWalk_range multiEventUserDistribution 0%Q r i Hw).
  - exfalso. exact (weightedRandOf_total r Hr Hw).
Qed.

Lemma weightedRand_draws_a_listed_size_witness :
  exists i, weightedRand (atDay 1) [97 # 100]%Q = Val i (atDay 1) [] /\
            In i [1; 2; 3; 4; 6; 7].
Proof. apply (weightedRand_draws_a_listed_size (atDay 1) (97 # 100)%Q []). reflexivity. Defined.

Lemma append_nil_right (s : string) : String.append s EmptyString = s.
Proof. induction s; simpl; congruence. Qed.

Lemma append_assoc3 (a b c : string) :
  String.append (String.append a b) c = String.append a (String.append b c).
Proof. induction a; simpl; congruence. Qed.

Lemma formatLoop_listing mention n : forall names i output,
  i = n - len names ->
  formatLoop mention n i names output =
  String.append output (listing (map (formatName mention) names)).
Proof.
  induction names as [|p names IH]; intros i output Hi; cbn [formatLoop map listing].
  - symmetry. apply append_nil_right.
  - assert (Hlen : len (p :: names) = len names + 1).
    { unfold len. cbn [List.length]. lia. }
    rewrite Hlen in Hi.
    destruct names as [|q names].
    + assert (H1 : (i =? n - 2) = false) by (apply Z.eqb_neq; unfold len in Hi; simpl in Hi; lia).
      assert (H2 : (i =? n - 1) = true) by (apply Z.eqb_eq; unfold len in Hi; simpl in Hi; lia).
      rewrite H1, H2. reflexivity.
    + destruct names as [|q' names].
      * assert (H1 : (i =? n - 2) = true)
          by (apply Z.eqb_eq; unfold len in Hi; simpl in Hi; lia).
        rewrite H1. rewrite IH by (unfold len in *; cbn [List.length] in *; lia).
        cbn [map listing]. rewrite !append_assoc3. reflexivity.
      * assert (H1 : (i =? n - 2) = false).
        { apply Z.eqb_neq. unfold len in Hi. cbn [List.length] in Hi. lia. }
        assert (H2 : (i =? n - 1) = false).
        { apply Z.eqb_neq. unfold len in Hi. cbn [List.length] in Hi. lia. }
        rewrite H1, H2. cbn [negb].
        rewrite IH by (unfold len in *; cbn [List.length] in *; lia).
        rewrite !append_assoc3. reflexivity.
Qed.

(** X18. [formatMultiNames] writes the names in order, a mention or the
    quoted name each, with ", " between them except before the last one,
    which is preceded by ", and " (also when there are only two); one
    name stands alone and no names give the empty text. *)
Theorem formatMultiNames_punctuates names mention :
  formatMultiNames names mention = listing (map (formatName mention) names).
Proof.
  unfold formatMultiNames.
  rewrite (formatLoop_listing mention (len names) names 0 EmptyString) by lia.
  reflexivity.
Qed.

(** ** Swapping and renaming *)

Lemma findIndex_first (u : UserId) l : forall j,
  findIndex (fun player => N.eqb player u) l = Some j ->
  nth_error l j = Some u.
Proof.
  intros j H. apply findIndex_some in H. destruct H as [x [Hx Heq]].
  apply N.eqb_eq in Heq. subst. exact Hx.
Qed.

Lemma findIndex_unique (u : UserId) l j :
  nth_error l j = Some u ->
  (forall j', nth_error l j' = Some u -> j' = j) ->
  findIndex (fun player => N.eqb player u) l = Some j.
Proof.
  intros Hj Huniq.
  destruct (findIndex (fun player => N.eqb player u) l) as [j'|] eqn:Hf.
  - f_equal. apply Huniq. apply findIndex_first. exact Hf.
  - rewrite findIndex_none in Hf. apply nth_error_In in Hj.
    specialize (Hf u Hj). rewrite N.eqb_refl in Hf. discriminate.
Qed.

Lemma locate_member u : forall ts i j,
  locate u ts = Some (i, j) -> member_at i j ts = Some u.
Proof.
  induction ts as [|x ts IH]; intros i j H; cbn [locate] in H; [discriminate|].
  destruct (findIndex (fun player => N.eqb player u) (players x)) as [index|] eqn:Hf.
  - inversion H; subst. unfold member_at. cbn. apply findIndex_first. exact Hf.
  - destruct (locate u ts) as [[i' j']|] eqn:Hl; [|discriminate].
    cbn in H. inversion H; subst. unfold member_at. cbn.
    apply (IH i' j eq_refl).
Qed.

(** A user listed in one place only is located there. *)
Lemma locate_unique u : forall ts i j,
  member_at i j ts = Some u ->
  (forall i' j', member_at i' j' ts = Some u -> i' = i /\ j' = j) ->
  locate u ts = Some (i, j).
Proof.
  induction ts as [|x ts IH]; intros i j Hm Huniq.
  - unfold member_at in Hm. destruct i; discriminate.
  - cbn [locate]. destruct i as [|i].
    + unfold member_at in Hm. cbn in Hm.
      rewrite (findIndex_unique u (players x) j Hm); [reflexivity|].
      intros j' Hj'. apply (Huniq O j'). exact Hj'.
    + destruct (findIndex (fun player => N.eqb player u) (players x))
        as [index|] eqn:Hf.
      * apply findIndex_first in Hf. destruct (Huniq O index Hf). discriminate.
      * rewrite (IH i j); [reflexivity|exact Hm|].
        intros i' j' H'. destruct (Huniq (S i') j' H'). split; congruence.
Qed.

Lemma member_at_rosters i j ts u : member_at i j ts = Some u -> In u (rosters ts).
Proof.
  unfold member_at, rosters. destruct (nth_error ts i) as [x|] eqn:Hx; [|discriminate].
  intros H. apply in_concat. exists (players x). split.
  - apply in_map. eapply nth_error_In; eauto.
  - eapply nth_error_In; eauto.
Qed.

Lemma rosters_member_at : forall ts u,
  In u (rosters ts) -> exists i j, member_at i j ts = Some u.
Proof.
  induction ts as [|x ts IH]; intros u H; [destruct H|].
  unfold rosters in H. cbn [map List.concat] in H. apply in_app_or in H.
  destruct H as [H|H].
  - apply In_nth_error in H. destruct H as [j Hj]. exists O, j. exact Hj.
  - destruct (IH u H) as [i [j Hij]]. exists (S i), j. exact Hij.
Qed.

Lemma NoDup_app_apart {A} (l1 l2 : list A) a :
  NoDup (l1 ++ l2) -> In a l1 -> In a l2 -> False.
Proof.
  induction l1 as [|x l1 IH]; intros Hnd H1 H2; [destruct H1|].
  cbn in Hnd. inversion Hnd as [|? ? Hnotin Hnd']; subst.
  destruct H1 as [H1|H1].
  - subst. apply Hnotin. apply in_or_app. auto.
  - apply IH; auto.
Qed.

Lemma NoDup_occurs_once : forall ts i j i' j' u,
  NoDup (rosters ts) ->
  member_at i j ts = Some u -> member_at i' j' ts = Some u -> i' = i /\ j' = j.
Proof.
  induction ts as [|x ts IH]; intros i j i' j' u Hnd H1 H2.
  - unfold member_at in H1. destruct i; discriminate.
  - unfold rosters in Hnd. cbn [map List.concat] in Hnd.
    destruct i as [|i], i' as [|i'].
    + unfold member_at in *. cbn in *. split; auto.
      apply NoDup_app_remove_r in Hnd. rewrite NoDup_nth_error in Hnd.
      symmetry. apply Hnd; [|congruence].
      apply nth_error_Some. congruence.
    + exfalso. apply (NoDup_app_apart _ _ u Hnd).
      * unfold member_at in H1. cbn in H1. eapply nth_error_In; eauto.
      * apply (member_at_rosters i' j'). exact H2.
    + exfalso. apply (NoDup_app_apart _ _ u Hnd).
      * unfold member_at in H2. cbn in H2. eapply nth_error_In; eauto.
      * apply (member_at_rosters i j). exact H1.
    + destruct (IH i j i' j' u) as [A B]; auto.
      apply NoDup_app_remove_l in Hnd. exact Hnd.
Qed.

Lemma nth_error_update {A} (f : A -> A) l i j :
  nth_error (update i f l) j =
  if Nat.eqb j i then option_map f (nth_error l j) else nth_error l j.
Proof.
  destruct (Nat.eqb j i) eqn:He.
  - apply Nat.eqb_eq in He. subst j.
    destruct (nth_error l i) as [x|] eqn:Hx.
    + cbn. apply nth_error_update_eq. exact Hx.
    + cbn. rewrite update_none by exact Hx. exact Hx.
  - apply Nat.eqb_neq in He. apply nth_error_update_neq. congruence.
Qed.

Lemma member_at_set_member t p v ts i j :
  member_at i j (set_member t p v ts) =
  if Nat.eqb i t && Nat.eqb j p
  then option_map (fun _ => v) (member_at t p ts)
  else member_at i j ts.
Proof.
  unfold member_at, set_member. rewrite nth_error_update.
  destruct (Nat.eqb i t) eqn:Hi; cbn [andb].
  - apply Nat.eqb_eq in Hi. subst i.
    destruct (nth_error ts t) as [x|]; cbn; [|destruct (Nat.eqb j p); reflexivity].
    rewrite nth_error_update. destruct (Nat.eqb j p) eqn:Hj; [|reflexivity].
    apply Nat.eqb_eq in Hj. subst j. reflexivity.
  - reflexivity.
Qed.

(** Two lists of teams with the same members in the same places, and the
    same teams apart from their members, are the same. *)
Lemma teams_ext : forall ts ts',
  map (set_players []) ts = map (set_players []) ts' ->
  (forall i j, member_at i j ts = member_at i j ts') ->
  map (fun x => List.length (players x)) ts = map (fun x => List.length (players x)) ts' ->
  ts = ts'.
Proof.
  induction ts as [|x ts IH]; intros [|y ts'] Hs Hm Hl; try discriminate; auto.
  cbn in Hs, Hl. inversion Hs as [[H1 H2 H3 H4 H5 H6]]. inversion Hl as [[H7 H8]].
  f_equal.
  - assert (Hp : players x = players y).
    { apply nth_error_ext. intros n. apply (Hm O n). }
    destruct x, y. cbn in *. congruence.
  - apply IH; auto. intros i j. apply (Hm (S i) j).
Qed.

Lemma set_member_skeleton t p v ts :
  map (set_players []) (set_member t p v ts) = map (set_players []) ts /\
  map (fun x => List.length (players x)) (set_member t p v ts) =
  map (fun x => List.length (players x)) ts.
Proof.
  unfold set_member. split.
  - apply map_update. intros x. reflexivity.
  - apply map_update. intros x. cbn. apply update_length.
Qed.

Lemma samePlace_true i j t p : samePlace i j t p = true <-> i = t /\ j = p.
Proof.
  unfold samePlace. rewrite andb_true_iff, !Nat.eqb_eq. tauto.
Qed.

Lemma swapped_spec ts t1 p1 t2 p2 a b :
  member_at t1 p1 ts = Some a -> member_at t2 p2 ts = Some b ->
  swapped t1 p1 t2 p2 ts = Some (set_member t2 p2 a (set_member t1 p1 b ts)) /\
  (forall i j,
     member_at i j (set_member t2 p2 a (set_member t1 p1 b ts)) =
     if samePlace i j t2 p2 then Some a
     else if samePlace i j t1 p1 then Some b
     else member_at i j ts).
Proof.
  intros Ha Hb. split.
  - unfold swapped. rewrite Ha, Hb. reflexivity.
  - intros i j. rewrite member_at_set_member. fold (samePlace i j t2 p2).
    destruct (samePlace i j t2 p2) eqn:H2.
    + rewrite member_at_set_member. fold (samePlace t2 p2 t1 p1).
      destruct (samePlace t2 p2 t1 p1); [rewrite Ha|rewrite Hb]; reflexivity.
    + rewrite member_at_set_member. fold (samePlace i j t1 p1).
      destruct (samePlace i j t1 p1); [rewrite Ha|]; reflexivity.
Qed.

Lemma locate_none u ts : ~ In u (rosters ts) -> locate u ts = None.
Proof.
  intros H. destruct (locate u ts) as [[i j]|] eqn:Hl; auto.
  exfalso. apply H. apply locate_member in Hl. eapply member_at_rosters; eauto.
Qed.

Lemma locate_same_places u ts ts' :
  (forall i j, member_at i j ts' = Some u <-> member_at i j ts = Some u) ->
  NoDup (rosters ts) ->
  locate u ts' = locate u ts.
Proof.
  intros Hiff Hnd.
  destruct (locate u ts) as [[i j]|] eqn:Hl.
  - apply locate_member in Hl. apply locate_unique.
    + apply Hiff. exact Hl.
    + intros i' j' H'. apply Hiff in H'.
      apply (NoDup_occurs_once ts i j i' j' u Hnd Hl H').
  - destruct (locate u ts') as [[i j]|] eqn:Hl'; auto.
    apply locate_member in Hl'. apply Hiff in Hl'.
    assert (Hin : In u (rosters ts)) by (eapply member_at_rosters; eauto).
    destruct (rosters_member_at ts u Hin) as [i0 [j0 H0]].
    rewrite (locate_unique u ts i0 j0 H0) in Hl; [discriminate|].
    intros i' j' H'. apply (NoDup_occurs_once ts i0 j0 i' j' u Hnd H0 H').
Qed.

(** X19. Provided no id is listed twice on the teams, [swapTeamUsers] puts
    each of two team members in the other's place and moves nobody else;
    the teams keep their ids, names, sizes and counters. Swapping the same
    two users again restores the teams. *)
Theorem swapTeamUsers_exchanges_places msg a b h t g :
  mentioned msg = [a; b] -> current h = Some g ->
  NoDup (rosters (teams g)) ->
  In (mention_id a) (rosters (teams g)) -> In (mention_id b) (rosters (teams g)) ->
  exists h1 ts1 h2,
    swapTeamUsers msg h t = Val tt h1 t /\ current h1 = Some (set_teams ts1 g) /\
    locate (mention_id a) ts1 = locate (mention_id b) (teams g) /\
    locate (mention_id b) ts1 = locate (mention_id a) (teams g) /\
    (forall u, u <> mention_id a -> u <> mention_id b ->
               locate u ts1 = locate u (teams g)) /\
    map (set_players []) ts1 = map (set_players []) (teams g) /\
    map (fun x => len (players x)) ts1 = map (fun x => len (players x)) (teams g) /\
    swapTeamUsers msg h1 t = Val tt h2 t /\ current h2 = Some g.
Proof.
  intros Hm Hg Hnd Ha Hb.
  destruct (rosters_member_at _ _ Ha) as [t1 [p1 Ha1]].
  destruct (rosters_member_at _ _ Hb) as [t2 [p2 Hb1]].
  set (ts := teams g) in *.
  assert (Hua : forall i j, member_at i j ts = Some (mention_id a) -> i = t1 /\ j = p1).
  { intros i j H. apply (NoDup_occurs_once ts t1 p1 i j _ Hnd Ha1 H). }
  assert (Hub : forall i j, member_at i j ts = Some (mention_id b) -> i = t2 /\ j = p2).
  { intros i j H. apply (NoDup_occurs_once ts t2 p2 i j _ Hnd Hb1 H). }
  pose proof (locate_unique _ ts t1 p1 Ha1 Hua) as Hla.
  pose proof (locate_unique _ ts t2 p2 Hb1 Hub) as Hlb.
  destruct (swapped_spec ts t1 p1 t2 p2 _ _ Ha1 Hb1) as [Hsw Hat].
  set (ts1 := set_member t2 p2 (mention_id a) (set_member t1 p1 (mention_id b) ts)) in *.
  assert (Hua1 : forall i j, member_at i j ts1 = Some (mention_id a) -> i = t2 /\ j = p2).
  { intros i j H. rewrite Hat in H.
    destruct (samePlace i j t2 p2) eqn:H2; [apply samePlace_true; exact H2|].
    destruct (samePlace i j t1 p1) eqn:H1.
    - inversion H as [Heq]. rewrite Heq in Hb1. destruct (Hua _ _ Hb1). subst.
      apply samePlace_true in H1. destruct H1. subst.
      unfold samePlace in H2. rewrite !Nat.eqb_refl in H2. discriminate.
    - destruct (Hua _ _ H). subst. unfold samePlace in H1.
      rewrite !Nat.eqb_refl in H1. discriminate. }
  assert (Hub1 : forall i j, member_at i j ts1 = Some (mention_id b) -> i = t1 /\ j = p1).
  { intros i j H. rewrite Hat in H.
    destruct (samePlace i j t2 p2) eqn:H2.
    - inversion H as [Heq]. rewrite Heq in Ha1. destruct (Hub _ _ Ha1). subst.
      apply samePlace_true in H2. tauto.
    - destruct (samePlace i j t1 p1) eqn:H1; [apply samePlace_true; exact H1|].
      destruct (Hub _ _ H). subst. unfold samePlace in H2.
      rewrite !Nat.eqb_refl in H2. discriminate. }
  assert (Ha2 : member_at t2 p2 ts1 = Some (mention_id a)).
  { rewrite Hat. unfold samePlace. rewrite !Nat.eqb_refl. reflexivity. }
  assert (Hb2 : member_at t1 p1 ts1 = Some (mention_id b)).
  { rewrite Hat. destruct (samePlace t1 p1 t2 p2) eqn:H2.
    - apply samePlace_true in H2. destruct H2. subst. congruence.
    - unfold samePlace. rewrite !Nat.eqb_refl. reflexivity. }
  pose proof (locate_unique _ ts1 t2 p2 Ha2 Hua1) as Hla1.
  pose proof (locate_unique _ ts1 t1 p1 Hb2 Hub1) as Hlb1.
  destruct (swapped_spec ts1 t2 p2 t1 p1 _ _ Ha2 Hb2) as [Hsw2 Hat2].
  set (ts2 := set_member t1 p1 (mention_id a) (set_member t2 p2 (mention_id b) ts1)) in *.
  destruct (set_member_skeleton t2 p2 (mention_id a) (set_member t1 p1 (mention_id b) ts))
    as [Hk1 Hk2].
  destruct (set_member_skeleton t1 p1 (mention_id b) ts) as [Hk3 Hk4].
  destruct (set_member_skeleton t1 p1 (mention_id a) (set_member t2 p2 (mention_id b) ts1))
    as [Hk5 Hk6].
  destruct (set_member_skeleton t2 p2 (mention_id b) ts1) as [Hk7 Hk8].
  fold ts1 in Hk1, Hk2. fold ts2 in Hk5, Hk6.
  assert (Hback : ts2 = ts).
  { apply teams_ext.
    - congruence.
    - intros i j. rewrite Hat2.
      destruct (samePlace i j t1 p1) eqn:H1.
      + apply samePlace_true in H1. destruct H1. subst. symmetry. exact Ha1.
      + destruct (samePlace i j t2 p2) eqn:H2.
        * apply samePlace_true in H2. destruct H2. subst. symmetry. exact Hb1.
        * rewrite Hat, H2, H1. reflexivity.
    - congruence. }
  unfold current in Hg. destruct (slot h) as [gd|] eqn:Hgd; [|discriminate].
  eexists _, ts1, _. split.
  { unfold swapTeamUsers. rewrite Hm. host_unfold.
    repeat first [rewrite Hgd | rewrite Hg | progress cbn].
    fold ts. rewrite Hla, Hlb, Hsw. cbn. rewrite Hgd. cbn. rewrite Hg. reflexivity. }
  split; [reflexivity|]. split; [congruence|]. split; [congruence|].
  split.
  { intros u Hna Hnb. apply locate_same_places; auto.
    intros i j. rewrite Hat.
    destruct (samePlace i j t2 p2) eqn:H2.
    - apply samePlace_true in H2. destruct H2. subst. rewrite Hb1.
      split; intros H; inversion H; congruence.
    - destruct (samePlace i j t1 p1) eqn:H1; [|tauto].
      apply samePlace_true in H1. destruct H1. subst. rewrite Ha1.
      split; intros H; inversion H; congruence. }
  split; [congruence|]. split.
  { unfold len. rewrite <- (map_map (fun x => List.length (players x)) Z.of_nat).
    rewrite <- (map_map (fun x => List.length (players x)) Z.of_nat ts).
    f_equal. congruence. }
  split.
  { unfold swapTeamUsers. rewrite Hm. host_unfold. cbn.
    rewrite Hla1, Hlb1, Hsw2. cbn. reflexivity. }
  cbn. fold ts2. rewrite Hback. unfold ts. destruct g; reflexivity.
Qed.

Lemma teamId_int k :
  Qle_bool 0 (inject_Z k - 1) = (1 <=? k) /\
  (forall n, Qle_bool (inject_Z n) (inject_Z k - 1) = (n + 1 <=? k)) /\
  Qfloor (inject_Z k - 1) = k - 1 /\
  Qeq_bool (inject_Z (Qfloor (inject_Z k - 1))) (inject_Z k - 1) = true.
Proof.
  assert (Heq : (inject_Z k - 1 == inject_Z (k - 1))%Q).
  { unfold Qeq. simpl. lia. }
  assert (Hfl : Qfloor (inject_Z k - 1) = k - 1).
  { rewrite (Qfloor_comp _ _ Heq). apply Qfloor_Z. }
  split; [|split; [|split]].
  - apply eq_true_iff_eq. rewrite Qle_bool_iff, Z.leb_le, Heq.
    change 0%Q with (inject_Z 0). rewrite <- Zle_Qle. lia.
  - intros n. apply eq_true_iff_eq. rewrite Qle_bool_iff, Z.leb_le, Heq.
    rewrite <- Zle_Qle. lia.
  - exact Hfl.
  - rewrite Hfl. apply Qeq_bool_iff. symmetry. exact Heq.
Qed.

(** X20. [renameTeam] with a whole team number: a number from 1 to the
    number of teams renames that team, to the rest of the message, and
    touches nothing else; any other whole number is refused and nothing
    changes. *)
Theorem renameTeam_renames_numbered_team Number msg h t gd g w rest k :
  tl (split_space (msg_text msg)) = w :: rest ->
  Number (Some w) = Num (inject_Z k) ->
  slot h = Some gd -> currentGame gd = Some g ->
  (1 <= k <= len (teams g) ->
   exists h' team,
     nth_error (teams g) (Z.to_nat (k - 1)) = Some team /\
     renameTeam Number msg h t = Val tt h' t /\
     current h' =
       Some (set_teams (update (Z.to_nat (k - 1)) (set_team_name (join_space rest))
                               (teams g)) g) /\
     notices h' = notices h ++ [ReplyRenaming (team_name team) (join_space rest)]) /\
  (k < 1 \/ len (teams g) < k ->
   exists h',
     renameTeam Number msg h t = Val tt h' t /\ slot h' = slot h /\
     notices h' = notices h ++ [ReplyValidTeamId (len (teams g) - 1)]).
Proof.
  intros Hw Hn Hgd Hg.
  destruct (teamId_int k) as (H0 & Hlen & Hfl & Hwhole).
  split.
  - intros [Hk1 Hk2].
    destruct (nth_error (teams g) (Z.to_nat (k - 1))) as [team|] eqn:Hteam.
    2:{ apply nth_error_None in Hteam. unfold len in Hk2. lia. }
    eexists _, team. split; [reflexivity|].
    assert (Hrun : renameTeam Number msg h t =
              Val tt (mkHost (Some (set_currentGame
                                      (Some (set_teams
                                         (update (Z.to_nat (k - 1))
                                                 (set_team_name (join_space rest))
                                                 (teams g)) g)) gd))
                             (ticking h) (eventFile h) (defaultsNow h) (sharesDefaults h)
                             (notices h ++ [ReplyRenaming (team_name team)
                                                          (join_space rest)])) t).
    { unfold renameTeam. rewrite Hw. cbn [hd_error tl]. rewrite Hn. cbn [isNaN andb].
      rewrite (bind_val gameNow _ h t g h t)
        by (unfold gameNow, bind, guildNow; rewrite Hgd, Hg; reflexivity).
      rewrite H0, Hlen.
      replace (1 <=? k) with true by (symmetry; apply Z.leb_le; lia).
      replace (len (teams g) + 1 <=? k) with false by (symmetry; apply Z.leb_gt; lia).
      cbn [negb orb]. unfold at_number. rewrite Hwhole, Hfl.
      replace (0 <=? k - 1) with true by (symmetry; apply Z.leb_le; lia).
      cbn [andb]. rewrite Hteam. host_unfold. cbn. rewrite Hgd. cbn. rewrite Hg.
      reflexivity. }
    rewrite Hrun. split; [reflexivity|]. split; reflexivity.
  - intros Hout. eexists. split.
    + unfold renameTeam. rewrite Hw. cbn [hd_error tl]. rewrite Hn. cbn [isNaN andb].
      rewrite (bind_val gameNow _ h t g h t)
        by (unfold gameNow, bind, guildNow; rewrite Hgd, Hg; reflexivity).
      rewrite H0, Hlen.
      assert (Hc : negb (1 <=? k) || (len (teams g) + 1 <=? k) = true).
      { destruct Hout as [Hout|Hout].
        - replace (1 <=? k) with false by (symmetry; apply Z.leb_gt; lia). reflexivity.
        - replace (len (teams g) + 1 <=? k) with true by (symmetry; apply Z.leb_le; lia).
          apply orb_true_r. }
      rewrite Hc. unfold notify, modify. reflexivity.
    + cbn. split; reflexivity.
Qed.

(** X21. A team number that is not whole is not refused: if it lies
    between 1 and the number of teams, [renameTeam] passes the range check
    and then fails reading the name of a team that does not exist; nothing
    is sent and nothing changes. *)
Theorem renameTeam_fails_on_fraction Number msg h t gd g w rest q :
  tl (split_space (msg_text msg)) = w :: rest ->
  Number (Some w) = Num q ->
  slot h = Some gd -> currentGame gd = Some g ->
  (1 <= q)%Q -> (q - 1 < inject_Z (len (teams g)))%Q ->
  ~ (inject_Z (Qfloor (q - 1)) == q - 1)%Q ->
  renameTeam Number msg h t = Exn h t.
Proof.
  intros Hw Hn Hgd Hg H1 H2 Hfrac.
  unfold renameTeam. rewrite Hw. cbn [hd_error tl]. rewrite Hn. cbn [isNaN andb].
  rewrite (bind_val gameNow _ h t g h t)
    by (unfold gameNow, bind, guildNow; rewrite Hgd, Hg; reflexivity).
  assert (Ha : Qle_bool 0 (q - 1) = true).
  { apply Qle_bool_iff. unfold Qminus. rewrite <- (Qplus_opp_r 1).
    apply Qplus_le_compat; [exact H1|apply Qle_refl]. }
  assert (Hb : Qle_bool (inject_Z (len (teams g))) (q - 1) = false).
  { destruct (Qle_bool (inject_Z (len (teams g))) (q - 1)) eqn:He; auto.
    apply Qle_bool_iff in He.
    exfalso. apply (Qlt_not_le _ _ H2). exact He. }
  rewrite Ha, Hb. cbn [negb orb]. unfold at_number.
  destruct (Qeq_bool (inject_Z (Qfloor (q - 1))) (q - 1)) eqn:He.
  - apply Qeq_bool_iff in He. contradiction.
  - reflexivity.
Qed.

Lemma renameTeam_fails_on_fraction_witness :
  renameTeam (fun _ => Num (3 # 2)) (plainMsg "rename 1.5 Reds")
             (hostWith (teamOptions (Num (inject_Z 2))) staleGame) [] =
  Exn (hostWith (teamOptions (Num (inject_Z 2))) staleGame) [].
Proof.
  apply (renameTeam_fails_on_fraction (fun _ => Num (3 # 2)) (plainMsg "rename 1.5 Reds")
           (hostWith (teamOptions (Num (inject_Z 2))) staleGame) [] _ staleGame
           "1.5" ["Reds"] (3 # 2)%Q eq_refl eq_refl eq_refl eq_refl).
  - unfold Qle. simpl. lia.
  - unfold Qlt. simpl. lia.
  - intros H. unfold Qeq in H. simpl in H. lia.
Defined.

(** ** Instances *)

Lemma getAllPlayers_leaves_out_witness :
  exists chosen,
    getAllPlayers threeMembers (Some [2%N]) false = map playerOf chosen /\
    map member_id chosen = [1%N].
Proof.
  destruct (getAllPlayers_leaves_out threeMembers [2%N] false) as (chosen & H1 & H2).
  - exists (mkMember 1%N 1%N "ann" false "a"). split; [left; reflexivity|].
    split; [|reflexivity]. simpl. intuition discriminate.
  - exists chosen. split; [exact H1|].
    assert (H : map id (map playerOf chosen) = [1%N]) by (rewrite <- H1; reflexivity).
    rewrite map_map in H. exact H.
Defined.


Lemma game_in_progress_stays_sound_witness :
  Steady (final (performAll plainPresenter insertionSort decimalNumber
                   [CallStart (plainMsg ""); CallNext; CallReveal; CallEnd]
                   (emptyHost (mkTemplates [Some oneDies] [Some oneDies] []))
                   (zeros 40))).
Proof.
  apply game_in_progress_stays_sound.
  - apply insertionSort_perm.
  - repeat constructor; simpl; intuition discriminate.
  - intros g Hg. discriminate.
Defined.

Lemma reset_options_restores_nothing_witness :
  exists h2 h3,
    performAll plainPresenter insertionSort decimalNumber
      [CallCreate (plainMsg ""); CallOption (plainMsg "delayDays 9")]
      (emptyHost twoSets) [] = Val tt h2 [] /\
    resetGame (plainMsg "options") h2 [] = Val tt h3 [] /\
    option_map delayDays (optionsOf h3) = Some (Num (inject_Z 9)).
Proof.
  destruct (reset_options_restores_nothing plainPresenter insertionSort decimalNumber
              twoSets (plainMsg "") [plainMsg "delayDays 9"] (plainMsg "options") []
              eq_refl) as (h2 & h3 & H1 & H2 & H3 & _).
  exists h2, h3. split; [exact H1|]. split; [exact H2|].
  unfold optionsOf. rewrite H3.
  assert (H : Val tt h2 ([] : Tape) =
              performAll plainPresenter insertionSort decimalNumber
                [CallCreate (plainMsg ""); CallOption (plainMsg "delayDays 9")]
                (emptyHost twoSets) []) by (symmetry; exact H1).
  vm_compute in H. inversion H. reflexivity.
Defined.

Lemma teams_reset_refused_by_editTeam_only_witness :
  (exists h', editTeam decimalNumber (plainMsg "reset")
                (hostWith (teamOptions (Num (inject_Z 2))) teamGame) [] = Val tt h' [] /\
              slot h' = slot (hostWith (teamOptions (Num (inject_Z 2))) teamGame)) /\
  (exists h' ts, resetGame (plainMsg "teams")
                   (hostWith (teamOptions (Num (inject_Z 2))) teamGame) [] = Val tt h' [] /\
                 current h' = Some (set_teams ts teamGame) /\
                 rosters ts = [1%N; 2%N; 3%N; 4%N]).
Proof.
  destruct (teams_reset_refused_by_editTeam_only decimalNumber (plainMsg "reset")
              (plainMsg "teams") (hostWith (teamOptions (Num (inject_Z 2))) teamGame) []
              _ teamGame eq_refl eq_refl eq_refl eq_refl eq_refl)
    as [(h1 & H1 & H2 & _) (h2 & ts & H3 & H4 & _ & H5)].
  split.
  - exists h1. split; [exact H1|exact H2].
  - exists h2, ts. split; [exact H3|]. split; [exact H4|].
    apply (H5 2); [lia|reflexivity].
Defined.

Lemma excluded_user_sits_out_witness :
  exists h1 h2 g2,
    excludeUser (mkMsg "" threeMembers "Arena" [mkMention 2%N "bob" None])
                (hostWith defaultOptions idleGame) [] = Val tt h1 [] /\
    startGame plainPresenter (plainMsg "") h1 [] = Val tt h2 [] /\
    current h2 = Some g2 /\ inProgress g2 = true /\
    ~ In 2%N (map id (includedUsers g2)).
Proof.
  apply (excluded_user_sits_out plainPresenter
           (mkMsg "" threeMembers "Arena" [mkMention 2%N "bob" None]) (plainMsg "")
           (mkMention 2%N "bob" None) (hostWith defaultOptions idleGame) [] _ idleGame
           eq_refl eq_refl eq_refl eq_refl eq_refl).
  - intros m [H|[H|[H|[]]]]; subst; reflexivity.
  - exists (mkMember 1%N 1%N "ann" false "a"). split; [left; reflexivity|].
    split; [intros []|]. split; [discriminate|reflexivity].
Defined.

Lemma swapTeamUsers_exchanges_places_witness :
  exists h1 ts1 h2,
    swapTeamUsers (mkMsg "swap" threeMembers "Arena"
                         [mkMention 1%N "ann" None; mkMention 4%N "dan" None])
                  (hostWith (teamOptions (Num (inject_Z 2))) teamGame) [] = Val tt h1 [] /\
    current h1 = Some (set_teams ts1 teamGame) /\
    map players ts1 = [[4%N; 2%N]; [3%N; 1%N]] /\
    swapTeamUsers (mkMsg "swap" threeMembers "Arena"
                         [mkMention 1%N "ann" None; mkMention 4%N "dan" None])
                  h1 [] = Val tt h2 [] /\
    current h2 = Some teamGame.
Proof.
  destruct (swapTeamUsers_exchanges_places
              (mkMsg "swap" threeMembers "Arena"
                     [mkMention 1%N "ann" None; mkMention 4%N "dan" None])
              (mkMention 1%N "ann" None) (mkMention 4%N "dan" None)
              (hostWith (teamOptions (Num (inject_Z 2))) teamGame) [] teamGame
              eq_refl eq_refl)
    as (h1 & ts1 & h2 & H1 & H2 & _ & _ & _ & _ & _ & H3 & H4).
  - repeat constructor; simpl; intuition discriminate.
  - simpl. auto.
  - simpl. auto.
  - exists h1, ts1, h2. split; [exact H1|]. split; [exact H2|].
    split; [|split; [exact H3|exact H4]].
    assert (H : Val tt h1 ([] : Tape) =
                swapTeamUsers (mkMsg "swap" threeMembers "Arena"
                                 [mkMention 1%N "ann" None; mkMention 4%N "dan" None])
                  (hostWith (teamOptions (Num (inject_Z 2))) teamGame) [])
      by (symmetry; exact H1).
    vm_compute in H. inversion H as [Hh]. rewrite Hh in H2.
    vm_compute in H2. inversion H2. reflexivity.
Defined.

Lemma renameTeam_renames_numbered_team_witness :
  exists h',
    renameTeam decimalNumber (plainMsg "rename 2 The Blues")
               (hostWith (teamOptions (Num (inject_Z 2))) teamGame) [] = Val tt h' [] /\
    option_map (fun g => map team_name (teams g)) (current h') =
      Some ["Team 1"; "The Blues"].
Proof.
  destruct (renameTeam_renames_numbered_team decimalNumber
              (plainMsg "rename 2 The Blues")
              (hostWith (teamOptions (Num (inject_Z 2))) teamGame) [] _ teamGame
              "2" ["The"; "Blues"] 2 eq_refl eq_refl eq_refl eq_refl) as [H _].
  destruct H as (h' & team & _ & H1 & H2 & _).
  - simpl. unfold len. simpl. lia.
  - exists h'. split; [exact H1|]. rewrite H2. reflexivity.
Defined.

(** ** printDay *)

Lemma positions_last {A} (p : A -> bool) l :
  filter p l <> [] ->
  exists x, nth_error l (last (positions p 0 l) O) = Some x /\ p x = true.
Proof.
  intros Hne.
  assert (Hpos : positions p 0 l <> []).
  { intros Hnil. apply Hne. apply filter_nil_iff. intros x Hx.
    destruct (p x) eqn:Hpx; auto. exfalso.
    apply In_nth_error in Hx. destruct Hx as [n Hn].
    assert (Hin : In n (positions p 0 l)).
    { apply positions_spec. exists x. repeat split; [lia| |exact Hpx].
      rewrite Nat.sub_0_r. exact Hn. }
    rewrite Hnil in Hin. exact Hin. }
  assert (Hin : In (last (positions p 0 l) O) (positions p 0 l)).
  { destruct (exists_last Hpos) as [l' [a Heq]]. rewrite Heq, last_last.
    apply in_or_app. right. left. reflexivity. }
  apply positions_spec in Hin. destruct Hin as [x [_ [Hx Hpx]]].
  rewrite Nat.sub_0_r in Hx. eauto.
Qed.

Lemma findTeam_listed p ts :
  In p (rosters ts) -> exists i, findTeam p ts = Some i /\ (i < List.length ts)%nat.
Proof.
  intros Hin. unfold findTeam.
  destruct (findIndex (onTeam p) ts) as [i|] eqn:Hf.
  - exists i. split; [reflexivity|]. apply findIndex_some in Hf.
    destruct Hf as [x [Hx _]]. apply nth_error_Some. congruence.
  - exfalso. rewrite findIndex_none in Hf. unfold rosters in Hin.
    apply in_concat in Hin. destruct Hin as [l [Hl Hp]].
    apply in_map_iff in Hl. destruct Hl as [x [Hx Hxin]]. subst l.
    specialize (Hf x Hxin). unfold onTeam, has in Hf.
    destruct (findIndex (fun p0 => N.eqb p p0) (players x)) eqn:Hg; [discriminate|].
    rewrite findIndex_none in Hg. specialize (Hg p Hp). rewrite N.eqb_refl in Hg.
    discriminate.
Qed.

Lemma statusWalk_covered g us : forall prev,
  (forall u, In u us -> In (id u) (rosters (teams g))) ->
  statusWalk true g prev us = true.
Proof.
  induction us as [|u us IH]; intros prev Hc; simpl; [reflexivity|].
  destruct (findTeam_listed (id u) (teams g) (Hc u (or_introl eq_refl))) as [i [Hi Hlt]].
  unfold teamIndex. rewrite Hi.
  assert (Hrange : (Z.of_nat i <? 0) || (Z.of_nat i >=? len (teams g)) = false).
  { unfold len. apply orb_false_iff. split; [apply Z.ltb_ge; lia|].
    rewrite Z.geb_leb. apply Z.leb_gt. lia. }
  destruct (negb (Z.of_nat i =? prev)).
  - rewrite Hrange. apply IH. intros v Hv. apply Hc. right. exact Hv.
  - apply IH. intros v Hv. apply Hc. right. exact Hv.
Qed.

Lemma statusWalk_plain g us : statusWalk false g (-1) us = true.
Proof. induction us as [|u us IH]; simpl; auto. Qed.

Lemma positions_none {A} (p : A -> bool) l :
  filter p l = [] -> forall k, positions p k l = [].
Proof.
  induction l as [|x l IH]; intros H k; simpl in *; [reflexivity|].
  destruct (p x); [discriminate|]. apply IH. exact H.
Qed.

Lemma lastTeam_exists g u :
  In u (includedUsers g) -> Covered g ->
  exists team, nth_error (teams g) (lastTeamAlive (teams g)) = Some team.
Proof.
  intros Hu [Hc _]. unfold lastTeamAlive.
  destruct (filter (fun t => team_numAlive t >? 0) (teams g)) eqn:Hf.
  - rewrite (positions_none _ _ Hf). simpl.
    specialize (Hc u Hu). destruct (teams g) as [|x ts]; [contradiction|].
    exists x. reflexivity.
  - destruct (positions_last (fun t => team_numAlive t >? 0) (teams g)) as [x [Hx _]].
    + rewrite Hf. discriminate.
    + exists x. exact Hx.
Qed.

Lemma team_members_included g team :
  Covered g -> In team (teams g) ->
  forallb (fun player => has (fun user => N.eqb (id user) player) (includedUsers g))
          (players team) = true.
Proof.
  intros [_ Hc] Hin. apply forallb_forall. intros p Hp.
  apply has_id_In. apply Hc. unfold rosters. apply in_concat.
  exists (players team). split; [apply in_map; exact Hin|exact Hp].
Qed.

Ltac day_run :=
  unfold bind, getGame, emit, ret, modify, modifyGame, get, throw;
  cbn [game auto sent].

Ltac day_close Hperm :=
  cbn;
  repeat match goal with
         | |- _ /\ _ => split
         | |- _ <-> _ => split
         end;
  rewrite ?orb_true_r, ?andb_false_r, ?orb_false_r, ?andb_true_r;
  try reflexivity;
  try (repeat rewrite <- app_assoc; reflexivity);
  try (eapply perm_trans; apply Hperm);
  try apply Hperm;
  try (cbn; intuition (auto; discriminate)).

(** X22. [printDay] ends the game exactly when one team still counts a
    member alive or at most one player is living: then the game is marked
    ended and no longer in progress and autoplay is switched off, and
    otherwise all three stay as they were. Either way the day state goes
    back to 0, the players are at most reordered, and the next day is
    scheduled exactly when autoplay is still on. With teams off [printDay]
    always completes; with teams on it does when the teams list exactly the
    players. *)
Theorem printDay_decides_the_game sortBy opts s t :
  (forall A cmp (l : list A), Permutation (sortBy A cmp l) l) ->
  (gt_zero (teamSize opts) = true -> Covered (game s)) ->
  exists s' out,
    printDay sortBy opts s t = Val tt s' t /\
    ended (game s') = ended (game s) || decided opts (game s) /\
    inProgress (game s') = inProgress (game s) && negb (decided opts (game s)) /\
    auto s' = auto s && negb (decided opts (game s)) /\
    day_state (day (game s')) = 0 /\
    Permutation (includedUsers (game s')) (includedUsers (game s)) /\
    sent s' = sent s ++ out /\
    (In ScheduleNextDay out <-> auto s' = true).
Proof.
  intros Hperm Hcov. destruct s as [g a o].
  unfold printDay, decided, teamsAlive, countLiving.
  unfold bind at 1. unfold getGame at 1. cbn [game auto sent] in *.
  destruct (gt_zero (teamSize opts)) eqn:Hon.
  - specialize (Hcov eq_refl).
    destruct (len (filter (fun t0 => team_numAlive t0 >? 0) (teams g)) =? 1) eqn:HT.
    + destruct (positions_last (fun t0 => team_numAlive t0 >? 0) (teams g))
        as [team [Hteam _]].
      { intros Hnil. rewrite Hnil in HT. discriminate. }
      fold (lastTeamAlive (teams g)) in Hteam.
      cbn [orb]. day_run. rewrite Hteam.
      rewrite (team_members_included g team Hcov (nth_error_In _ _ Hteam)).
      destruct (negb (numAlive g =? len (filter living (includedUsers g))));
        cbn; (eexists _, _; split; [reflexivity|]); day_close Hperm.
    + cbn [orb].
      destruct (len (filter living (includedUsers g)) =? 1) eqn:H1.
      * destruct (positions_last living (includedUsers g)) as [x [Hx _]].
        { intros Hnil. rewrite Hnil in H1. discriminate. }
        fold (lastLiving (includedUsers g)) in Hx.
        destruct (lastTeam_exists g x (nth_error_In _ _ Hx) Hcov) as [team Hteam].
        assert (Hle : (len (filter living (includedUsers g)) <=? 1) = true).
        { apply Z.eqb_eq in H1. rewrite H1. reflexivity. }
        rewrite Hle. day_run. rewrite Hx, Hteam.
        destruct (negb (numAlive g =? len (filter living (includedUsers g))));
          cbn; (eexists _, _; split; [reflexivity|]); day_close Hperm.
      * destruct (len (filter living (includedUsers g)) <? 1) eqn:H0.
        -- assert (Hle : (len (filter living (includedUsers g)) <=? 1) = true).
           { apply Z.ltb_lt in H0. apply Z.leb_le. lia. }
           rewrite Hle. day_run.
           destruct (negb (numAlive g =? len (filter living (includedUsers g))));
             cbn; (eexists _, _; split; [reflexivity|]); day_close Hperm.
        -- assert (Hle : (len (filter living (includedUsers g)) <=? 1) = false).
           { apply Z.ltb_ge in H0. apply Z.eqb_neq in H1. apply Z.leb_gt. lia. }
           assert (Hwalk : forall g1,
                     teams g1 = teams g ->
                     Permutation (includedUsers g1) (includedUsers g) ->
                     statusWalk true g1 (-1) (includedUsers g1) = true).
           { intros g1 Ht Hp. apply statusWalk_covered. intros u Hu. rewrite Ht.
             apply Hcov. eapply Permutation_in; [exact Hp|exact Hu]. }
           rewrite Hle. day_run.
           destruct (negb (numAlive g =? len (filter living (includedUsers g))));
             cbn; (rewrite Hwalk by (try reflexivity; apply Hperm)); cbn;
             destruct (ended g) eqn:He; destruct a;
             cbn; (eexists _, _; split; [reflexivity|]); day_close Hperm.
  - cbn [Z.eqb orb].
    destruct (len (filter living (includedUsers g)) =? 1) eqn:H1.
    + destruct (positions_last living (includedUsers g)) as [x [Hx _]].
      { intros Hnil. rewrite Hnil in H1. discriminate. }
      fold (lastLiving (includedUsers g)) in Hx.
      assert (Hle : (len (filter living (includedUsers g)) <=? 1) = true).
      { apply Z.eqb_eq in H1. rewrite H1. reflexivity. }
      rewrite Hle. day_run. rewrite Hx.
      destruct (negb (numAlive g =? len (filter living (includedUsers g))));
        cbn; (eexists _, _; split; [reflexivity|]); day_close Hperm.
    + destruct (len (filter living (includedUsers g)) <? 1) eqn:H0.
      * assert (Hle : (len (filter living (includedUsers g)) <=? 1) = true).
        { apply Z.ltb_lt in H0. apply Z.leb_le. lia. }
        rewrite Hle. day_run.
        destruct (negb (numAlive g =? len (filter living (includedUsers g))));
          cbn; (eexists _, _; split; [reflexivity|]); day_close Hperm.
      * assert (Hle : (len (filter living (includedUsers g)) <=? 1) = false).
        { apply Z.ltb_ge in H0. apply Z.eqb_neq in H1. apply Z.leb_gt. lia. }
        rewrite Hle. day_run.
        destruct (negb (numAlive g =? len (filter living (includedUsers g))));
          cbn; rewrite statusWalk_plain; cbn; destruct (ended g) eqn:He; destruct a;
          cbn; (eexists _, _; split; [reflexivity|]); day_close Hperm.
Qed.

Lemma printDay_decides_the_game_witness :
  exists s' out,
    printDay insertionSort (teamOptions (Num 2)) (mkSim lastTeamStanding true []) []
      = Val tt s' [] /\
    ended (game s') = true /\ inProgress (game s') = false /\ auto s' = false /\
    sent s' = out /\ ~ In ScheduleNextDay out.
Proof.
  destruct (printDay_decides_the_game insertionSort (teamOptions (Num 2))
              (mkSim lastTeamStanding true []) [] insertionSort_perm)
    as (s' & out & H1 & H2 & H3 & H4 & _ & _ & H5 & H6).
  - intros _. split.
    + intros u Hu. simpl in Hu. simpl.
      repeat (destruct Hu as [Hu|Hu]; [subst u; simpl; tauto|]). contradiction.
    + intros p Hp. simpl in Hp. simpl. tauto.
  - exists s', out. split; [exact H1|]. split; [exact H2|]. split; [exact H3|].
    split; [exact H4|]. split; [exact H5|].
    intros Hin. apply H6 in Hin. rewrite H4 in Hin. discriminate.
Defined.
(** ** What a day leaves alone *)

Lemma outline_users f g :
  map persona (f (includedUsers g)) = map persona (includedUsers g) ->
  outline (on_users f g) = outline g.
Proof. intros H. unfold outline, cast, on_users. cbn. rewrite H. reflexivity. Qed.

Lemma outline_teams ts g :
  map lineup ts = map lineup (teams g) -> outline (set_teams ts g) = outline g.
Proof. intros H. unfold outline, cast. cbn. rewrite H. reflexivity. Qed.

Lemma persona_touch k u : persona (touch k u) = persona u.
Proof. unfold touch. destruct (String.eqb (state u) "wounded"); reflexivity. Qed.

Lemma lineup_teamLosesMember i ts : map lineup (teamLosesMember i ts) = map lineup ts.
Proof.
  unfold teamLosesMember.
  set (ts1 := update i (fun t => set_team_numAlive (team_numAlive t - 1) t) ts).
  assert (H1 : map lineup ts1 = map lineup ts)
    by (apply map_update; intro; reflexivity).
  destruct (nth_error ts1 i) as [x|]; [|exact H1].
  destruct (team_numAlive x =? 0); [|exact H1].
  rewrite map_update by (intro; reflexivity). exact H1.
Qed.

Lemma lineup_scanTeams us up : forall ts i l n,
  map lineup (fst (fst (scanTeams us up i ts l n))) = map lineup ts.
Proof.
  induction ts as [|x ts IH]; intros i l n; simpl; [reflexivity|].
  specialize (IH (S i)
                 (if numPoolOf us up x >? snd l then (i, numPoolOf us up x) else l)
                 (if numPoolOf us up x >? 0 then n + 1 else n)).
  destruct (scanTeams us up (S i) ts _ _) as [[ts' l'] n']. simpl in *.
  rewrite IH. reflexivity.
Qed.

Lemma keepsG_forEach {X A} (p : Game -> X) (body : A -> M Sim unit) l :
  (forall x, keepsG p (body x)) -> keepsG p (forEach l body).
Proof.
  intros H. induction l as [|x l IH]; simpl.
  - apply keepsG_ret.
  - apply keepsG_bind; [apply H|]. intros _. exact IH.
Qed.

Ltac outline_mod :=
  intro;
  first
    [ reflexivity
    | apply outline_users; apply map_update; intro;
      first [reflexivity | apply persona_touch]
    | apply outline_teams;
      first [apply lineup_teamLosesMember
            | apply map_update; intro; reflexivity] ].

Ltac outline_step :=
  match goal with
  | |- keepsG _ (bind _ _) => apply keepsG_bind; [|intro]
  | |- keepsG _ (ret _) => apply keepsG_ret
  | |- keepsG _ throw => apply keepsG_throw
  | |- keepsG _ starve => apply keepsG_starve
  | |- keepsG _ random => apply keepsG_random
  | |- keepsG _ weightedRand => apply keepsG_weightedRand
  | |- keepsG _ getGame => apply keepsG_getGame
  | |- keepsG _ (emit _) => apply keepsG_emit
  | |- keepsG _ (makeSingleEvent _ _ _ _ _ _) => apply keepsG_makeSingleEvent
  | |- keepsG _ (modifyGame _) => apply keepsG_modifyGame; outline_mod
  | |- keepsG _ (if ?b then _ else _) => destruct b
  | |- keepsG _ (match ?x with _ => _ end) => destruct x
  end.

Ltac outline_tac := repeat outline_step; auto.

Lemma outline_effectUser E i k : keepsG outline (effectUser E i k).
Proof. unfold effectUser. outline_tac. Qed.

Lemma outline_killUser opts E i k : keepsG outline (killUser opts E i k).
Proof.
  unfold killUser. apply keepsG_bind; [apply outline_effectUser|]. intros index.
  apply keepsG_bind.
  - apply keepsG_modifyGame. intro g.
    apply (outline_users (update index (slay (numAlive g))) g).
    apply map_update. intro. reflexivity.
  - intros _. outline_tac.
Qed.

Lemma outline_applyOutcome opts E what i k : keepsG outline (applyOutcome opts E what i k).
Proof.
  unfold applyOutcome, woundUser, restoreUser.
  destruct (String.eqb what "dies"); [apply outline_killUser|].
  destruct (String.eqb what "wounded");
    [apply keepsG_bind; [apply outline_effectUser|intro; outline_tac]|].
  destruct (String.eqb what "thrives");
    [apply keepsG_bind; [apply outline_effectUser|intro; outline_tac]|].
  apply keepsG_bind; [apply outline_effectUser|intro; outline_tac].
Qed.

Lemma outline_applyEffects opts ev E nv na : keepsG outline (applyEffects opts ev E nv na).
Proof.
  unfold applyEffects. apply keepsG_bind.
  - apply keepsG_forEach. intro. apply outline_applyOutcome.
  - intros _. apply keepsG_forEach. intro. apply outline_applyOutcome.
Qed.

Lemma outline_teamCheck ev na nv up : keepsG outline (teamCheck ev na nv up).
Proof.
  intros s t. unfold teamCheck, bind at 1, getGame.
  pose proof (lineup_scanTeams (includedUsers (game s)) up (teams (game s))
                               O (O, 0) 0) as Hl.
  destruct (scanTeams _ _ _ _ _ _) as [[ts l] n]. simpl in Hl.
  unfold bind, modifyGame, modify.
  transitivity (outline (set_teams ts (game s))); [|apply outline_teams; exact Hl].
  destruct ((n <? 2) && _); [reflexivity|].
  destruct (negb _); reflexivity.
Qed.

Lemma outline_selectRandom n : forall up E, keepsG outline (selectRandom n up E).
Proof.
  induction n as [|n IH]; intros up E; simpl; [apply keepsG_ret|].
  apply keepsG_bind; [apply keepsG_random|]. intros r.
  destruct (splice1 (floor_mul r (len up)) up) as [u up']. apply IH.
Qed.

Lemma outline_applyEvent pres opts ev na nv up :
  keepsG outline (applyEvent pres opts ev na nv up).
Proof.
  unfold applyEvent. apply keepsG_bind; [apply keepsG_getGame|]. intros g.
  apply keepsG_bind.
  - destruct (teamMode opts).
    + destruct (findValidTeam _ _ _ _ _). apply keepsG_ret.
    + apply outline_selectRandom.
  - intros [up' E]. apply keepsG_bind; [apply outline_applyEffects|]. intros _.
    outline_tac.
Qed.

Lemma bind_never {S A B} (m : M S A) (k : A -> M S B) (bad : B) :
  (forall a s t s' t', k a s t <> Val bad s' t') ->
  forall s t s' t', bind m k s t <> Val bad s' t'.
Proof.
  intros H s t s' t'. unfold bind. destruct (m s t); try discriminate. apply H.
Qed.

(** The selector leaves the outline alone unless it gives up, and then it
    only sets the day state back to 0. *)
Lemma outline_selectEvent fuel opts ev loop up s t :
  match selectEvent fuel opts ev loop up s t with
  | Val Abort s' _ => outline (game s') = outline (set_day_state 0 (game s))
  | o => outline (game (final o)) = outline (game s)
  end.
Proof.
  unfold selectEvent. destruct (loop >? 100); [reflexivity|].
  destruct (_ >? len up); [reflexivity|].
  set (m := bind _ _).
  assert (Hm : keepsG outline m /\
               forall s t s' t', m s t <> Val Abort s' t').
  { unfold m. split.
    - apply keepsG_bind.
      + destruct (_ || _); [apply keepsG_resolveCounts|apply keepsG_ret].
      + intros [na' nv']. apply keepsG_bind.
        * destruct (teamMode opts); [apply outline_teamCheck|apply keepsG_ret].
        * intros fits. outline_tac.
    - apply bind_never. intros [na' nv']. apply bind_never. intros fits.
      destruct (negb fits); [unfold ret; discriminate|].
      apply bind_never. intros g. destruct (_ && _); unfold ret; discriminate. }
  destruct Hm as [Hk Hna]. specialize (Hk s t). specialize (Hna s t).
  destruct (m s t) as [[| |a b] s' t'| |]; simpl in *; auto.
  exfalso. eapply Hna. reflexivity.
Qed.

Lemma outline_state n g g' :
  outline g = outline g' -> outline (set_day_state n g) = outline (set_day_state n g').
Proof.
  unfold outline, cast. cbn. intros H. inversion H. reflexivity.
Qed.

Lemma outline_tryEvent pres fuel opts ev loop up s t :
  match tryEvent pres fuel opts ev loop up s t with
  | Val Stop s' _ => outline (game s') = outline (set_day_state 0 (game s))
  | o => outline (game (final o)) = outline (game s)
  end.
Proof.
  unfold tryEvent, bind at 1.
  pose proof (outline_selectEvent fuel opts ev loop up s t) as Hsel.
  destruct (selectEvent fuel opts ev loop up s t) as [[| |na nv] s1 t1| |];
    simpl in *; auto.
  pose proof (outline_applyEvent pres opts ev na nv up s1 t1) as Happ.
  unfold bind. destruct (applyEvent pres opts ev na nv up s1 t1) as [up' s2 t2| |];
    simpl in *; congruence.
Qed.

Lemma outline_loopBody pres fuel opts pool loop up s t :
  match loopBody pres fuel opts pool loop up s t with
  | Val Stop s' _ => outline (game s') = outline (set_day_state 0 (game s))
  | o => outline (game (final o)) = outline (game s)
  end.
Proof.
  unfold loopBody, bind at 1.
  pose proof (keepsG_random outline s t) as Hr.
  destruct (random s t) as [r s1 t1| |]; simpl in *; auto.
  assert (Hs1 : outline (set_day_state 0 (game s1)) = outline (set_day_state 0 (game s)))
    by (apply outline_state; exact Hr).
  destruct (_ || _); [simpl; exact Hr|].
  destruct (nth_error pool _) as [[ev|]|]; try (simpl; exact Hr).
  pose proof (outline_tryEvent pres fuel opts ev (loop + 1) up s1 t1) as Ht.
  destruct (tryEvent pres fuel opts ev (loop + 1) up s1 t1) as [[l' u'|] s2 t2| |];
    simpl in *; congruence.
Qed.

Lemma outline_eventLoop pres opts pool fuel : forall loop up s t,
  match eventLoop pres fuel opts pool loop up s t with
  | Val false s' _ => outline (game s') = outline (set_day_state 0 (game s))
  | o => outline (game (final o)) = outline (game s)
  end.
Proof.
  induction fuel as [|fuel IH]; intros loop up s t; simpl; [reflexivity|].
  destruct (len up >? 0); [|reflexivity].
  unfold bind.
  pose proof (outline_loopBody pres fuel opts pool loop up s t) as Hb.
  destruct (loopBody pres fuel opts pool loop up s t) as [[l' u'|] s1 t1| |];
    simpl in *; auto.
  specialize (IH l' u' s1 t1).
  destruct (eventLoop pres fuel opts pool l' u' s1 t1) as [[|] s2 t2| |];
    simpl in *; try congruence.
  rewrite IH. apply outline_state. exact Hb.
Qed.

Lemma outline_resurrect pres opts : keepsG outline (resurrect pres opts).
Proof.
  unfold resurrect. outline_tac.
  - apply keepsG_modifyGame. intro g0. apply outline_users.
    rewrite map_map. apply map_ext. intro obj. destruct (_ && _); reflexivity.
  - apply keepsG_modifyGame. intro g0. apply outline_teams.
    rewrite map_map. apply map_ext. intro obj. destruct (_ && _); reflexivity.
Qed.

Lemma outline_bleedPass opts : forall js ub ur, keepsG outline (bleedPass opts js ub ur).
Proof.
  induction js as [|j js IH]; intros ub ur; simpl; [apply keepsG_ret|].
  apply keepsG_bind; [apply keepsG_getGame|]. intros g.
  destruct (nth_error (includedUsers g) j) as [obj|]; [|apply IH].
  destruct (bleeding obj && living obj); [|apply IH].
  apply keepsG_bind; [apply keepsG_random|]. intros r.
  destruct (_ && _).
  - apply keepsG_bind.
    + apply keepsG_modifyGame. intro g0.
      apply (outline_users (update j (slay (numAlive g0))) g0).
      apply map_update. intro. reflexivity.
    + intros _. destruct (findTeam (id obj) (teams g)); [|apply keepsG_throw].
      apply keepsG_bind; [|intros _; apply IH].
      apply keepsG_modifyGame. intro g0. apply outline_teams.
      apply lineup_teamLosesMember.
  - apply keepsG_bind; [|intros _; apply IH].
    apply keepsG_modifyGame. intro g0. apply outline_users.
    apply map_update. intro. reflexivity.
Qed.

Lemma outline_chooseEventPool pres tpl custom opts :
  keepsG outline (chooseEventPool pres tpl custom opts).
Proof. unfold chooseEventPool. outline_tac. Qed.

(** The end of the day leaves the outline alone but for the day state,
    which it sets to 2 once nothing can fail any more. *)
Lemma outline_dayEnd pres opts s t :
  match dayEnd pres opts s t with
  | Val _ s' _ => outline (game s') = outline (set_day_state 2 (game s))
  | o => outline (game (final o)) = outline (game s)
  end.
Proof.
  unfold dayEnd.
  match goal with
  | |- context [bind getGame ?k] =>
      change (bind getGame k s t) with (k (game s) s t)
  end.
  cbv beta.
  set (pass := bleedPass opts (seq 0 (List.length (includedUsers (game s)))) [] []).
  unfold bind at 1.
  pose proof (outline_bleedPass opts (seq 0 (List.length (includedUsers (game s))))
                                [] [] s t) as Hp.
  fold pass in Hp. destruct (pass s t) as [[ub ur] s1 t1| |]; simpl in Hp |- *; auto.
  set (m1 := if len ur >? 0 then _ else ret tt).
  assert (H1 : keepsG outline m1) by (unfold m1; outline_tac).
  unfold bind at 1. specialize (H1 s1 t1).
  destruct (m1 s1 t1) as [u1 s2 t2| |]; simpl in H1 |- *; try congruence.
  set (m2 := if len ub >? 0 then _ else ret tt).
  assert (H2 : keepsG outline m2) by (unfold m2; outline_tac).
  unfold bind at 1. specialize (H2 s2 t2).
  destruct (m2 s2 t2) as [u2 s3 t3| |]; simpl in H2 |- *; try congruence.
  unfold bind, modifyGame, modify, getGame, emit, ret. cbn.
  apply (outline_state 2). congruence.
Qed.


(** A simulated day: the day is counted and its state set to 1 first; the
    state is 2 when the day is ready, 0 when the selector gave up, and
    still 1 at every other exit. *)
Lemma outline_simulateDay pres fuel tpl custom opts s t :
  let g0 := set_day (mkDay (num (day (game s)) + 1) 1 []) (game s) in
  match simulateDay pres fuel tpl custom opts s t with
  | Val DayReady s' _ => outline (game s') = outline (set_day_state 2 g0)
  | Val NoValidEvent s' _ => outline (game s') = outline (set_day_state 0 g0)
  | Val _ _ _ => False
  | o => outline (game (final o)) = outline g0
  end.
Proof.
  intros g0. unfold simulateDay, bind at 1.
  assert (Hstart : match dayStart pres tpl custom opts s t with
                   | o => outline (game (final o)) = outline g0
                   end).
  { unfold dayStart, bind at 1, modifyGame at 1, modify.
    set (s0 := mkSim _ (auto s) (sent s)).
    change (outline g0) with (outline (game s0)).
    set (m := bind _ _).
    assert (Hm : keepsG outline m).
    { unfold m. apply keepsG_bind; [apply outline_resurrect|]. intros _.
      apply keepsG_bind; [apply keepsG_getGame|]. intros g.
      apply keepsG_bind; [apply outline_chooseEventPool|]. intros pool.
      apply keepsG_ret. }
    apply Hm. }
  destruct (dayStart pres tpl custom opts s t) as [[up pool] s1 t1| |];
    simpl in Hstart |- *; auto.
  unfold bind at 1.
  pose proof (outline_eventLoop pres opts pool fuel 0 up s1 t1) as Hloop.
  destruct (eventLoop pres fuel opts pool 0 up s1 t1) as [[|] s2 t2| |];
    simpl in Hloop |- *; try congruence.
  - pose proof (outline_dayEnd pres opts s2 t2) as Hend.
    assert (H2 : outline (set_day_state 2 (game s2)) = outline (set_day_state 2 g0))
      by (apply outline_state; congruence).
    assert (Hret : forall e s' t', dayEnd pres opts s2 t2 = Val e s' t' -> e = DayReady).
    { unfold dayEnd. intros e s' t'. unfold bind at 1, getGame at 1.
      unfold bind at 1. destruct (bleedPass _ _ _ _ _ _) as [[ub ur] s3 t3| |];
        try discriminate.
      unfold bind at 1.
      destruct ((if len ur >? 0 then _ else ret tt) s3 t3) as [u3 s4 t4| |];
        try discriminate.
      unfold bind at 1.
      destruct ((if len ub >? 0 then _ else ret tt) s4 t4) as [u4 s5 t5| |];
        try discriminate.
      unfold bind, modifyGame, modify, getGame, emit, ret. intros H.
      inversion H. reflexivity. }
    destruct (dayEnd pres opts s2 t2) as [e s3 t3| |]; simpl in Hend |- *;
      try congruence.
    rewrite (Hret e s3 t3 eq_refl). congruence.
  - rewrite Hloop. apply outline_state. exact Hstart.
Qed.

Lemma outline_inv a b :
  outline a = outline b ->
  cast a = cast b /\ num (day a) = num (day b) /\
  day_state (day a) = day_state (day b).
Proof.
  unfold outline. intros H. split; [exact (f_equal (fun x => fst (fst x)) H)|].
  split; [exact (f_equal (fun x => snd (fst x)) H)|exact (f_equal snd H)].
Qed.

(** [nextDay] as the guild slot shows it: either nothing of the game
    changes, or a day was simulated. *)
Lemma nextDay_outline pres w t gd g :
  games_id w = Some gd -> currentGame gd = Some g ->
  (exists e w', nextDay pres w t = Val e w' t /\ theGame w' = Some g /\
                e <> DayReady /\ e <> NoValidEvent /\
                (inProgress g = false \/ day_state (day g) <> 0)) \/
  (inProgress g = true /\ day_state (day g) = 0 /\
   exists g', theGame (final (nextDay pres w t)) = Some g' /\
     cast g' = cast g /\ num (day g') = num (day g) + 1 /\
     match nextDay pres w t with
     | Val DayReady w' _ => day_state (day g') = 2 /\ intervals_id w' = true
     | Val NoValidEvent w' _ =>
         day_state (day g') = 0 /\ intervals_id w' = intervals_id w
     | Val _ _ _ => False
     | o => day_state (day g') = 1 /\ intervals_id (final o) = intervals_id w
     end).
Proof.
  intros Hgd Hg. unfold nextDay.
  set (fuel := S (List.length t)).
  assert (Hcases :
    (inProgress g = false \/ day_state (day g) <> 0) \/
    (inProgress g = true /\ day_state (day g) = 0)).
  { destruct (inProgress g); [|left; left; reflexivity].
    destruct (Z.eq_dec (day_state (day g)) 0); [right; auto|left; right; auto]. }
  destruct Hcases as [Hno|[Hip Hst]].
  - left.
    destruct (nextDayWith_cases pres fuel w t gd g Hgd Hg)
      as [(e & w' & Heq & Hw' & H1 & H2) | (Hip & Hst & _)].
    + exists e, w'. repeat split; auto.
    + destruct Hno as [Hno|Hno]; congruence.
  - right. split; [exact Hip|]. split; [exact Hst|].
    destruct (nextDayWith_cases pres fuel w t gd g Hgd Hg)
      as [(e & w' & Heq & Hw' & H1 & H2) | (_ & _ & Heq)].
    { exfalso. unfold nextDayWith in Heq. rewrite Hgd, Hg, Hip, Hst in Heq.
      simpl in Heq.
      destruct (simulateDay _ _ _ _ _ _ _) as [e0 s0 t0| |] eqn:Hsim;
        simpl in Heq; try discriminate.
      pose proof (outline_simulateDay pres fuel (store w) (customEvents gd)
                    (options gd) (mkSim g (autoPlay gd) []) t) as Ho.
      rewrite Hsim in Ho. inversion Heq; subst.
      destruct e; try contradiction; congruence. }
    rewrite Heq.
    pose proof (outline_simulateDay pres fuel (store w) (customEvents gd)
                  (options gd) (mkSim g (autoPlay gd) []) t) as Ho.
    cbv zeta in Ho. cbn [game] in Ho.
    exists (game (final (simulateDay pres fuel (store w) (customEvents gd)
                           (options gd) (mkSim g (autoPlay gd) []) t))).
    split; [apply theGame_lift|].
    destruct (simulateDay _ _ _ _ _ _ _) as [e s' t'| |]; simpl in Ho |- *.
    + destruct e; try contradiction; apply outline_inv in Ho;
        destruct Ho as (Hc & Hn & Hs); repeat split; auto.
    + apply outline_inv in Ho. destruct Ho as (Hc & Hn & Hs). repeat split; auto.
    + apply outline_inv in Ho. destruct Ho as (Hc & Hn & Hs). repeat split; auto.
Qed.

(** X23. Every attempt at a day is counted. When [nextDay] starts to
    simulate, the day number goes up by exactly one at every exit: when the
    day is ready (state 2, the reveal timer set), when it is given up
    because no event fits (state back to 0, so the next attempt is a later
    day), and when the simulation fails midway (state left at 1). *)
Theorem nextDay_counts_every_attempt pres w t gd g :
  games_id w = Some gd -> currentGame gd = Some g ->
  inProgress g = true -> day_state (day g) = 0 ->
  exists g',
    theGame (final (nextDay pres w t)) = Some g' /\
    num (day g') = num (day g) + 1 /\
    match nextDay pres w t with
    | Val DayReady w' _ => day_state (day g') = 2 /\ intervals_id w' = true
    | Val NoValidEvent w' _ => day_state (day g') = 0 /\ intervals_id w' = intervals_id w
    | Val _ _ _ => False
    | o => day_state (day g') = 1 /\ intervals_id (final o) = intervals_id w
    end.
Proof.
  intros Hgd Hg Hip Hst.
  destruct (nextDay_outline pres w t gd g Hgd Hg)
    as [(e & w' & _ & _ & _ & _ & [Hno|Hno]) | (_ & _ & g' & Hg' & _ & Hn & Hm)].
  - congruence.
  - contradiction.
  - exists g'. split; [exact Hg'|]. split; [exact Hn|exact Hm].
Qed.

Lemma nextDay_counts_every_attempt_witness :
  exists g',
    theGame (final (nextDay plainPresenter (freshWorld defaultOptions) [])) = Some g' /\
    num (day g') = 1.
Proof.
  destruct (nextDay_counts_every_attempt plainPresenter (freshWorld defaultOptions) []
              (freshGuild defaultOptions) freshGame eq_refl eq_refl eq_refl eq_refl)
    as (g' & H1 & H2 & _).
  exists g'. split; [exact H1|exact H2].
Defined.

(** X24. [nextDay] changes the fortunes of the players and nothing else
    about who plays: at every exit the game has the same name, the same
    players in the same order (id, name and avatar), the same teams with
    the same members, and is in progress and ended as before. *)
Theorem nextDay_keeps_the_cast pres w t g :
  theGame w = Some g ->
  exists g', theGame (final (nextDay pres w t)) = Some g' /\ cast g' = cast g.
Proof.
  unfold theGame at 1. destruct (games_id w) as [gd|] eqn:Hgd; [|discriminate].
  intros Hg.
  destruct (nextDay_outline pres w t gd g Hgd Hg)
    as [(e & w' & Heq & Hw' & _) | (_ & _ & g' & Hg' & Hc & _)].
  - exists g. rewrite Heq. split; [exact Hw'|reflexivity].
  - exists g'. split; [exact Hg'|exact Hc].
Qed.

Lemma nextDay_keeps_the_cast_witness :
  exists g',
    theGame (final (nextDay plainPresenter woundedWorld woundedTape)) = Some g' /\
    map persona (includedUsers g') = map persona fourPlayers.
Proof.
  destruct (nextDay_keeps_the_cast plainPresenter woundedWorld woundedTape woundedGame
              eq_refl) as (g' & H1 & H2).
  exists g'. split; [exact H1|].
  exact (f_equal (fun c => snd (fst c)) H2).
Defined.

(** X25. A day that fails midway wedges the game. If [nextDay] ends in an
    exception, the day state is left at 1 with no reveal timer, so every
    later [nextDay] only replies that it thinks it is already simulating,
    and changes nothing. *)
Theorem nextDay_failure_wedges_the_game pres w t g w' t' :
  theGame w = Some g -> intervals_id w = false ->
  nextDay pres w t = Exn w' t' ->
  forall t2,
    nextDay pres w' t2 = Val ThinkSimulating (say ReplyThinkSimulating w') t2.
Proof.
  unfold theGame at 1. destruct (games_id w) as [gd|] eqn:Hgd; [|discriminate].
  intros Hg Hiv Hexn t2.
  destruct (nextDay_outline pres w t gd g Hgd Hg)
    as [(e & w1 & Heq & _) | (Hip & _ & g' & Hg' & Hc & _ & Hm)].
  - rewrite Heq in Hexn. discriminate.
  - rewrite Hexn in Hg', Hm. simpl in Hg', Hm. destruct Hm as [Hst Hiv'].
    unfold theGame in Hg'. destruct (games_id w') as [gd'|] eqn:Hgd'; [|discriminate].
    unfold nextDay, nextDayWith. rewrite Hgd', Hg'.
    assert (Hip' : inProgress g' = true).
    { pose proof (f_equal (fun c => snd (fst (fst (fst c)))) Hc) as H.
      simpl in H. congruence. }
    rewrite Hip', Hst, Hiv', Hiv. reflexivity.
Qed.

Lemma nextDay_failure_wedges_the_game_witness :
  nextDay plainPresenter woundedWorld (zeros 9) =
    Exn (final crashedDay) (rest crashedDay) /\
  nextDay plainPresenter (final crashedDay) [] =
    Val ThinkSimulating (say ReplyThinkSimulating (final crashedDay)) [].
Proof.
  assert (H : nextDay plainPresenter woundedWorld (zeros 9) =
              Exn (final crashedDay) (rest crashedDay)) by (vm_compute; reflexivity).
  split; [exact H|].
  exact (nextDay_failure_wedges_the_game plainPresenter woundedWorld (zeros 9)
           woundedGame (final crashedDay) (rest crashedDay) eq_refl eq_refl H []).
Defined.

(** ** Bleeding to death *)

Lemma bleedPass_skips opts s t : forall js rest ub ur,
  (forall i o, In i js -> nth_error (includedUsers (game s)) i = Some o ->
               bleeding o && living o = false) ->
  bleedPass opts (js ++ rest) ub ur s t = bleedPass opts rest ub ur s t.
Proof.
  induction js as [|j js IH]; intros rest ub ur Hcalm; [reflexivity|].
  cbn [app bleedPass]. unfold bind at 1, getGame at 1.
  destruct (nth_error (includedUsers (game s)) j) as [obj|] eqn:Hj.
  - rewrite (Hcalm j obj (or_introl eq_refl) Hj).
    apply IH. intros i o Hi. apply Hcalm. right. exact Hi.
  - apply IH. intros i o Hi. apply Hcalm. right. exact Hi.
Qed.

(** X26. Bleeding to death takes a team. When the first living, bleeding
    player is on no team (as every player is while teams are off) and the
    draw says the player dies, the end of the day fails: the player has
    been marked dead and the alive counter lowered, but no event is
    recorded and the day state stays as it is. *)
Theorem bleed_out_without_team_fails pres opts s r t j obj :
  nth_error (includedUsers (game s)) j = Some obj ->
  bleeding obj = true -> living obj = true ->
  (forall i o, (i < j)%nat -> nth_error (includedUsers (game s)) i = Some o ->
               bleeding o && living o = false) ->
  findTeam (id obj) (teams (game s)) = None ->
  in_unit r = true -> lt_num r (probabilityOfBleedToDeath opts) = true ->
  allowNoVictors opts = true \/ 1 < numAlive (game s) ->
  dayEnd pres opts s (r :: t) =
    Exn (mkSim (set_numAlive (numAlive (game s) - 1)
                  (on_users (update j (slay (numAlive (game s)))) (game s)))
               (auto s) (sent s)) t.
Proof.
  intros Hj Hb Hl Hfirst Hteam Hunit Hr Hmay.
  assert (Hlt : (j < List.length (includedUsers (game s)))%nat)
    by (apply nth_error_Some; congruence).
  unfold dayEnd, bind at 1, getGame at 1.
  replace (seq 0 (List.length (includedUsers (game s))))
    with (seq 0 j ++ j :: seq (S j) (List.length (includedUsers (game s)) - S j)).
  2:{ change (j :: seq (S j) (List.length (includedUsers (game s)) - S j))
        with (seq j (S (List.length (includedUsers (game s)) - S j))).
      rewrite <- seq_app. f_equal. lia. }
  unfold bind at 1. rewrite bleedPass_skips.
  2:{ intros i o Hi. apply in_seq in Hi. apply Hfirst. lia. }
  cbn [bleedPass]. unfold bind at 1, getGame at 1. rewrite Hj, Hb, Hl.
  cbn [andb]. unfold bind at 1, random. rewrite Hunit, Hr.
  assert (Hok : allowNoVictors opts || (numAlive (game s) >? 1) = true).
  { destruct Hmay as [Ha|Hn]; [rewrite Ha; reflexivity|].
    apply orb_true_iff. right. apply Z.gtb_lt. exact Hn. }
  rewrite Hok. cbn [andb]. unfold bind at 1, modifyGame, modify. rewrite Hteam.
  reflexivity.
Qed.

Lemma bleed_out_without_team_fails_witness :
  exists s',
    dayEnd plainPresenter defaultOptions
      (mkSim (mkGame "Games" true
                [set_bleeding true (set_state "wounded" (newPlayer 1%N "ann" "a"));
                 newPlayer 2%N "bob" "b"]
                [] false (mkDay 1 1 []) 2) false [])
      [0%Q] = Exn s' [] /\
    numAlive (game s') = 1 /\ events (day (game s')) = [].
Proof.
  eexists. split.
  - apply (bleed_out_without_team_fails plainPresenter defaultOptions
             (mkSim (mkGame "Games" true
                [set_bleeding true (set_state "wounded" (newPlayer 1%N "ann" "a"));
                 newPlayer 2%N "bob" "b"]
                [] false (mkDay 1 1 []) 2) false [])
             0%Q [] O _ eq_refl eq_refl eq_refl).
    + intros i o Hi. inversion Hi.
    + reflexivity.
    + reflexivity.
    + reflexivity.
    + right. reflexivity.
  - split; reflexivity.
Defined.

(** ** Resurrection *)

Lemma positions_length {A} (p : A -> bool) l : forall k,
  List.length (positions p k l) = List.length (filter p l).
Proof.
  induction l as [|x l IH]; intros k; simpl; [reflexivity|].
  destruct (p x); simpl; rewrite IH; reflexivity.
Qed.

Lemma living_or_dead us :
  countLiving us + len (filter (fun obj => negb (living obj)) us) = len us.
Proof.
  induction us as [|u us IH]; [reflexivity|].
  rewrite countLiving_cons. unfold len in *. cbn [filter]. cbv beta.
  destruct (living u); cbn [negb b2z]; rewrite ?length_cons; lia.
Qed.

Lemma resurrect_no_team pres opts s r r' t :
  resurrection opts = true ->
  in_unit r = true -> lt_num r (probabilityOfResurrect opts) = true ->
  in_unit r' = true ->
  countLiving (includedUsers (game s)) < len (includedUsers (game s)) ->
  teams (game s) = [] ->
  match resurrect pres opts s (r :: r' :: t) with
  | Val _ _ _ => False
  | o => numAlive (game (final o)) = numAlive (game s) + 1 /\
         countLiving (includedUsers (game (final o)))
           = countLiving (includedUsers (game s)) + 1
  end.
Proof.
  intros Hon Hr Hp Hr' Hdead Hteams.
  unfold resurrect. rewrite Hon. unfold bind at 1, random. rewrite Hr, Hp.
  unfold bind at 1, getGame at 1.
  set (deadPool := positions (fun obj => negb (living obj)) 0 (includedUsers (game s))).
  assert (Hlen : 0 < len deadPool).
  { unfold deadPool, len. rewrite positions_length.
    pose proof (living_or_dead (includedUsers (game s))) as H.
    unfold len in H, Hdead |- *. clearbody deadPool. lia. }
  assert (Hgt : (len deadPool >? 0) = true) by (apply Z.gtb_lt; exact Hlen).
  rewrite Hgt. unfold bind at 1. rewrite Hr'.
  pose proof (floor_mul_range r' (len deadPool) Hr' Hlen) as Hidx.
  destruct (nth_error deadPool (Z.to_nat (floor_mul r' (len deadPool))))
    as [resurrected|] eqn:Hnth.
  2:{ exfalso. apply nth_error_None in Hnth. unfold len in Hidx, Hnth. lia. }
  assert (Hin : In resurrected deadPool) by (eapply nth_error_In; exact Hnth).
  apply positions_spec in Hin. destruct Hin as [res [_ [Hres Hnot]]].
  rewrite Nat.sub_0_r in Hres. rewrite Hres.
  unfold bind at 1, modifyGame at 1, modify.
  unfold bind at 1, modifyGame at 1, modify.
  unfold bind at 1, modifyGame at 1, modify.
  cbn [game auto sent].
  match goal with
  | |- context [bind ?m ?k ?s0 t] =>
      set (tail := bind m k); set (s3 := s0)
  end.
  assert (Hteams3 : teams (game s3) = []) by exact Hteams.
  assert (Halive3 : numAlive (game s3) = numAlive (game s) + 1) by reflexivity.
  assert (Hcount3 : countLiving (includedUsers (game s3))
                    = countLiving (includedUsers (game s)) + 1).
  { unfold s3. cbn [game includedUsers on_users set_includedUsers set_numAlive].
    assert (Hup : forall l, nth_error (update resurrected (set_rank 1) l) resurrected
                            = option_map (set_rank 1) (nth_error l resurrected)).
    { intros l. destruct (nth_error l resurrected) as [x|] eqn:Hx.
      - apply nth_error_update_eq. exact Hx.
      - rewrite update_none by exact Hx. rewrite Hx. reflexivity. }
    set (l1 := update resurrected (fun u => set_state "zombie" (set_living true u))
                      (includedUsers (game s))).
    set (l2 := map (fun obj => if negb (living obj) && (rank obj <? rank res)
                               then set_rank (rank obj + 1) obj else obj) l1).
    assert (H1 : countLiving l1 = countLiving (includedUsers (game s)) + 1).
    { unfold l1. rewrite (countLiving_update _ _ _ _ Hres).
      apply negb_true_iff in Hnot. rewrite Hnot. simpl. lia. }
    assert (H2 : countLiving l2 = countLiving l1).
    { unfold l2. apply countLiving_map. intro q. destruct (_ && _); reflexivity. }
    destruct (nth_error l2 resurrected) as [x|] eqn:Hx.
    - rewrite (countLiving_update _ _ _ _ Hx). simpl.
      rewrite H2, H1. lia.
    - rewrite update_none by exact Hx. rewrite H2, H1. reflexivity. }
  assert (Htail : forall s0 t0,
            teams (game s0) = [] ->
            match tail s0 t0 with
            | Val _ _ _ => False
            | o => numAlive (game (final o)) = numAlive (game s0) /\
                   includedUsers (game (final o)) = includedUsers (game s0)
            end).
  { intros s0 t0 Ht0. unfold tail, bind at 1.
    pose proof (keeps_makeSingleEvent pres
                  "{victim} has returned from the dead and was put back into the arena!"
                  [Some resurrected] 1 0 (mentionAll opts) s0 t0) as [Hk1 Hk2].
    pose proof (keepsG_makeSingleEvent teams pres
                  "{victim} has returned from the dead and was put back into the arena!"
                  [Some resurrected] 1 0 (mentionAll opts) s0 t0) as Hk3.
    unfold users, alive in Hk1, Hk2.
    destruct (makeSingleEvent pres _ _ _ _ _ s0 t0) as [made s4 t4| |];
      simpl in Hk1, Hk2, Hk3 |- *; auto.
    unfold bind, modifyGame, modify, getGame. cbn [game teams push_event set_day].
    rewrite Hk3, Ht0. cbn. auto. }
  specialize (Htail s3 t Hteams3).
  destruct (tail s3 t) as [x s' t'| |]; [contradiction| |];
    unfold final in Htail |- *; destruct Htail as [H2 H3];
    (split; [rewrite H2; exact Halive3|rewrite H3; exact Hcount3]).
Qed.

(** X27. Resurrection takes a team as well. With resurrection on, a draw
    below its probability and somebody dead, [resurrect] brings a dead
    player back (the alive counter and the number of living players both go
    up by one) and then, when there are no teams, never completes: it fails
    raising the alive count of a team that does not exist. *)
Theorem resurrection_without_team_fails pres opts s r r' t :
  resurrection opts = true ->
  in_unit r = true -> lt_num r (probabilityOfResurrect opts) = true ->
  in_unit r' = true ->
  countLiving (includedUsers (game s)) < len (includedUsers (game s)) ->
  teams (game s) = [] ->
  (forall x s' t', resurrect pres opts s (r :: r' :: t) <> Val x s' t') /\
  numAlive (game (final (resurrect pres opts s (r :: r' :: t)))) = numAlive (game s) + 1 /\
  countLiving (includedUsers (game (final (resurrect pres opts s (r :: r' :: t)))))
    = countLiving (includedUsers (game s)) + 1.
Proof.
  intros Hon Hr Hp Hr' Hdead Hteams.
  pose proof (resurrect_no_team pres opts s r r' t Hon Hr Hp Hr' Hdead Hteams) as H.
  destruct (resurrect pres opts s (r :: r' :: t)) as [x s' t'| |];
    [contradiction| |]; destruct H as [H1 H2];
    (split; [discriminate|]); split; assumption.
Qed.


Lemma resurrection_without_team_fails_witness :
  numAlive (game (final (resurrect plainPresenter
       (mkOptions true true false true (Num 0) true true false false
                  (Num 3500) (Num 7000) (Num 1) (Num (1 # 4)) (Num (1 # 2)))
       (mkSim (set_teams [] lastTeamStanding) false []) [0; 0]%Q))) = 3.
Proof.
  apply (resurrection_without_team_fails plainPresenter
           (mkOptions true true false true (Num 0) true true false false
                      (Num 3500) (Num 7000) (Num 1) (Num (1 # 4)) (Num (1 # 2)))
           (mkSim (set_teams [] lastTeamStanding) false []) 0%Q 0%Q []);
    reflexivity.
Defined.

(** ** Autoplay *)

Lemma printEvent_ends_day sortBy h t gd g :
  (forall A cmp (l : list A), Permutation (sortBy A cmp l) l) ->
  slot h = Some gd -> currentGame gd = Some g ->
  day_state (day g) - 2 = len (events (day g)) ->
  (gt_zero (teamSize (options gd)) = true -> Covered g) ->
  exists h' out,
    engine (printEvent sortBy) h t = Val DayOver h' t /\
    notices h' = notices h ++ map FromEngine out /\
    ticking h' = false /\
    (In ScheduleNextDay out <-> autoPlay gd && negb (decided (options gd) g) = true).
Proof.
  intros Hperm Hgd Hg Hend Hcov.
  destruct (printDay_decides_the_game sortBy (options gd) (mkSim g (autoPlay gd) []) t
              Hperm Hcov) as (s' & out & Hrun & _ & _ & Hauto & _ & _ & Hsent & Hsched).
  cbn [game auto sent] in *.
  unfold engine, printEvent, view. cbn [games_id]. rewrite Hgd, Hg.
  apply Z.eqb_eq in Hend. rewrite Hend.
  unfold bind at 1. rewrite Hrun. cbn.
  eexists _, out. split; [reflexivity|]. cbn. rewrite Hsent. cbn.
  split; [reflexivity|]. split; [reflexivity|]. rewrite Hsched, Hauto. reflexivity.
Qed.

(** X28. Pausing keeps its promise. At the end of a day's reveal
    [printEvent] schedules the next day exactly when autoplay is on and the
    game is not over; after [pauseAutoplay] the same firing ends the day
    without scheduling anything. *)
Theorem pauseAutoplay_stops_after_the_day sortBy h t gd g :
  (forall A cmp (l : list A), Permutation (sortBy A cmp l) l) ->
  slot h = Some gd -> currentGame gd = Some g -> autoPlay gd = true ->
  day_state (day g) - 2 = len (events (day g)) ->
  (gt_zero (teamSize (options gd)) = true -> Covered g) ->
  (exists h' out,
     engine (printEvent sortBy) h t = Val DayOver h' t /\
     notices h' = notices h ++ map FromEngine out /\
     (In ScheduleNextDay out <-> decided (options gd) g = false)) /\
  (exists h1 h2 out,
     pauseAutoplay h t = Val tt h1 t /\
     notices h1 = notices h ++ [SendAutoplayWillStop] /\
     engine (printEvent sortBy) h1 t = Val DayOver h2 t /\
     notices h2 = notices h1 ++ map FromEngine out /\
     ~ In ScheduleNextDay out).
Proof.
  intros Hperm Hgd Hg Hauto Hend Hcov. split.
  - destruct (printEvent_ends_day sortBy h t gd g Hperm Hgd Hg Hend Hcov)
      as (h' & out & H1 & H2 & _ & H3).
    exists h', out. split; [exact H1|]. split; [exact H2|].
    rewrite H3, Hauto. cbn [andb]. apply negb_true_iff.
  - set (h1 := mkHost (Some (set_autoPlay false gd)) (ticking h) (eventFile h)
                      (defaultsNow h) (sharesDefaults h)
                      (notices h ++ [SendAutoplayWillStop])).
    assert (Hp : pauseAutoplay h t = Val tt h1 t).
    { unfold pauseAutoplay. host_unfold. rewrite Hgd, Hauto. cbn. rewrite Hgd.
      reflexivity. }
    destruct (printEvent_ends_day sortBy h1 t (set_autoPlay false gd) g Hperm
                eq_refl Hg Hend Hcov) as (h2 & out & H1 & H2 & _ & H3).
    exists h1, h2, out. split; [exact Hp|]. split; [reflexivity|].
    split; [exact H1|]. split; [exact H2|].
    rewrite H3. cbn. discriminate.
Qed.

Lemma pauseAutoplay_stops_after_the_day_witness :
  exists h1 h2 out,
    pauseAutoplay dayEndHost [] = Val tt h1 [] /\
    engine (printEvent insertionSort) h1 [] = Val DayOver h2 [] /\
    notices h2 = notices h1 ++ map FromEngine out /\
    ~ In ScheduleNextDay out.
Proof.
  destruct (pauseAutoplay_stops_after_the_day insertionSort dayEndHost [] _ _
              insertionSort_perm eq_refl eq_refl eq_refl eq_refl)
    as [_ (h1 & h2 & out & H1 & _ & H2 & H3 & H4)].
  - intros H. discriminate H.
  - exists h1, h2, out. split; [exact H1|]. split; [exact H2|].
    split; [exact H3|exact H4].
Defined.

Lemma final_then_ret {S A} (m : M S A) s t :
  final (bind m (fun _ => ret tt) s t) = final (m s t).
Proof. unfold bind. destruct (m s t); reflexivity. Qed.

(** X29. Turning autoplay on while no game is in progress starts one and
    plays its first day in the same call: at every exit the game is in
    progress on day 1, with the players [createGame] made of the guild's
    members. *)
Theorem startAutoplay_starts_and_plays pres msg h t gd g :
  slot h = Some gd -> currentGame gd = Some g ->
  inProgress g = false -> autoPlay gd = false ->
  exists g',
    current (final (startAutoplay pres msg h t)) = Some g' /\
    inProgress g' = true /\ num (day g') = 1 /\
    map persona (includedUsers g') =
      map persona (getAllPlayers (guild_members msg) (Some (excludedUsers gd))
                                 (includeBots (options gd))).
Proof.
  intros Hgd Hg Hip Hauto.
  set (h1 := mkHost (Some (set_autoPlay true gd)) (ticking h) (eventFile h)
                    (defaultsNow h) (sharesDefaults h)
                    (notices h ++ [SendAutoplayStarting])).
  assert (Hrun : startAutoplay pres msg h t = startGame pres msg h1 t).
  { unfold startAutoplay. rewrite (bind_val get _ h t h h t eq_refl).
    rewrite Hgd, Hauto.
    set (h0 := set_slot (Some (set_autoPlay true gd)) h).
    rewrite (bind_val (changeGuild (set_autoPlay true)) _ h t tt h0 t)
      by (unfold changeGuild, modify, h0; rewrite Hgd; reflexivity).
    rewrite (bind_val gameNow _ h0 t g h0 t)
      by (unfold gameNow, bind, guildNow; cbn; rewrite Hg; reflexivity).
    rewrite Hip. cbn [andb negb].
    rewrite (bind_val (notify SendAutoplayStarting) _ h0 t tt h1 t) by reflexivity.
    reflexivity. }
  assert (Hidle : Idle h1).
  { intros g0 Hg0. unfold current in Hg0. cbn in Hg0. congruence. }
  destruct (createGame_result msg true h1 t Hidle) as
    (gd1 & g1 & dn1 & sd1 & nt1 & Hrun1 & Hg1 & Hus & _ & Hip1 & _ & Hday & _ & Hap & _).
  destruct (startGame_result pres msg h1 t Hidle) as
    (gd' & g' & dn & sd & nt & Hrun' & Hg' & Heq).
  rewrite Hrun' in Hrun1. inversion Hrun1; subst. rewrite Hg' in Hg1.
  inversion Hg1; subst g1. clear Hrun1 Hg1.
  cbn in Hap, Hus. rewrite Hrun, Heq, Hap, final_then_ret, final_engine, current_absorb.
  match goal with
  | |- context [nextDay pres (view ?H) t] => set (h2 := H)
  end.
  destruct (nextDay_outline pres (view h2) t
              (set_currentGame (Some (set_inProgress true g')) gd1)
              (set_inProgress true g') eq_refl eq_refl)
    as [(e & w' & _ & _ & _ & _ & [Hno|Hno]) | (_ & _ & g2 & Hg2 & Hc & Hn & _)].
  - discriminate.
  - exfalso. apply Hno. cbn. rewrite Hday. reflexivity.
  - exists g2. split; [exact Hg2|].
    split; [exact (f_equal (fun c => snd (fst (fst (fst c)))) Hc)|].
    split; [rewrite Hn; cbn; rewrite Hday; reflexivity|].
    pose proof (f_equal (fun c => snd (fst c)) Hc) as Hp. cbn in Hp.
    rewrite Hp, Hus. reflexivity.
Qed.

Lemma startAutoplay_starts_and_plays_witness :
  exists g',
    current (final (startAutoplay plainPresenter (plainMsg "")
                      (hostWith defaultOptions staleGame) [])) = Some g' /\
    inProgress g' = true /\ num (day g') = 1.
Proof.
  destruct (startAutoplay_starts_and_plays plainPresenter (plainMsg "")
              (hostWith defaultOptions staleGame) [] _ staleGame
              eq_refl eq_refl eq_refl eq_refl) as (g' & H1 & H2 & H3 & _).
  exists g'. split; [exact H1|]. split; [exact H2|exact H3].
Defined.

(** ** The teams' alive counters *)

Lemma ids_index us i j p q :
  NoDup (map id us) -> nth_error us i = Some p -> nth_error us j = Some q ->
  id p = id q -> i = j.
Proof.
  intros Hnd Hi Hj Heq.
  apply (proj1 (NoDup_nth_error (map id us)) Hnd).
  - rewrite length_map. apply nth_error_Some. congruence.
  - rewrite !nth_error_map, Hi, Hj. simpl. congruence.
Qed.

Lemma livingId_true us p :
  livingId us p = true <->
  exists j q, nth_error us j = Some q /\ id q = p /\ living q = true.
Proof.
  unfold livingId. rewrite existsb_exists. split.
  - intros [q [Hq Hc]]. apply andb_true_iff in Hc. destruct Hc as [H1 H2].
    apply N.eqb_eq in H1. apply In_nth_error in Hq. destruct Hq as [j Hj]. eauto.
  - intros [j [q [Hj [H1 H2]]]]. exists q. split; [eapply nth_error_In; eauto|].
    rewrite H2, andb_true_r. apply N.eqb_eq. exact H1.
Qed.

(** A player who was alive is no longer: only that id stops living. *)
Lemma livingId_kill us r u f p :
  NoDup (map id us) -> nth_error us r = Some u ->
  id (f u) = id u -> living (f u) = false ->
  livingId (update r f us) p = livingId us p && negb (N.eqb (id u) p).
Proof.
  intros Hnd Hr Hid Hdead.
  apply eq_true_iff_eq. rewrite andb_true_iff, negb_true_iff, N.eqb_neq.
  rewrite !livingId_true. split.
  - intros [j [q [Hj [H1 H2]]]].
    destruct (Nat.eq_dec r j) as [<-|Hne].
    + rewrite (nth_error_update_eq f us r u Hr) in Hj. inversion Hj; subst. congruence.
    + rewrite nth_error_update_neq in Hj by exact Hne. split; [eauto|].
      intros Heq. apply Hne. eapply ids_index; eauto. congruence.
  - intros [[j [q [Hj [H1 H2]]]] Hne]. exists j, q.
    rewrite nth_error_update_neq; [auto|]. intros <-. rewrite Hr in Hj.
    inversion Hj; subst. apply Hne. reflexivity.
Qed.

(** A dead player lives again: only that id starts living. *)
Lemma livingId_revive us r u f p :
  nth_error us r = Some u -> id (f u) = id u -> living (f u) = true ->
  living u = false ->
  livingId (update r f us) p = livingId us p || N.eqb (id u) p.
Proof.
  intros Hr Hid Hlive Hdead.
  apply eq_true_iff_eq. rewrite orb_true_iff, N.eqb_eq.
  rewrite !livingId_true. split.
  - intros [j [q [Hj [H1 H2]]]].
    destruct (Nat.eq_dec r j) as [<-|Hne].
    + rewrite (nth_error_update_eq f us r u Hr) in Hj. inversion Hj; subst.
      right. symmetry. exact Hid.
    + rewrite nth_error_update_neq in Hj by exact Hne. left. eauto.
  - intros [[j [q [Hj [H1 H2]]]]|Heq].
    + exists j, q. rewrite nth_error_update_neq; [auto|]. intros <-.
      rewrite Hr in Hj. inversion Hj; subst. congruence.
    + exists r, (f u). rewrite (nth_error_update_eq f us r u Hr).
      repeat split; congruence.
Qed.

(** Whether an id lives depends on the ids and the living flags only. *)
Lemma livingId_ext us us' p :
  map (fun u => (id u, living u)) us' = map (fun u => (id u, living u)) us ->
  livingId us' p = livingId us p.
Proof.
  revert us'. induction us as [|u us IH]; intros [|u' us'] H; try discriminate;
    [reflexivity|].
  simpl in H. inversion H. simpl. rewrite (IH us') by assumption.
  congruence.
Qed.

Lemma livingMembers_ext us us' t :
  map (fun u => (id u, living u)) us' = map (fun u => (id u, living u)) us ->
  livingMembers us' t = livingMembers us t.
Proof.
  intros H. unfold livingMembers. f_equal. apply filter_ext. intro p.
  apply livingId_ext. exact H.
Qed.

Lemma filter_without (P : UserId -> bool) x l :
  NoDup l ->
  len (filter (fun p => P p && negb (N.eqb x p)) l) =
  len (filter P l) - (if existsb (N.eqb x) l && P x then 1 else 0).
Proof.
  induction l as [|y l IH]; intros Hnd; [reflexivity|].
  inversion Hnd as [|? ? Hnin Hnd']; subst. specialize (IH Hnd').
  cbn [filter existsb]. destruct (N.eqb x y) eqn:Hxy.
  - apply N.eqb_eq in Hxy. subst y. cbn [negb orb andb]. rewrite andb_false_r.
    assert (Hno : existsb (N.eqb x) l = false).
    { destruct (existsb (N.eqb x) l) eqn:He; auto. exfalso. apply Hnin.
      apply existsb_exists in He. destruct He as [z [Hz Heq]].
      apply N.eqb_eq in Heq. subst. exact Hz. }
    rewrite Hno in IH. cbn [andb] in IH.
    destruct (P x); unfold len in *; cbn [List.length]; lia.
  - cbn [negb orb]. rewrite andb_true_r.
    destruct (P y); unfold len in *; cbn [List.length]; lia.
Qed.

Lemma filter_with (P : UserId -> bool) x l :
  NoDup l -> P x = false ->
  len (filter (fun p => P p || N.eqb x p) l) =
  len (filter P l) + (if existsb (N.eqb x) l then 1 else 0).
Proof.
  induction l as [|y l IH]; intros Hnd HP; [reflexivity|].
  inversion Hnd as [|? ? Hnin Hnd']; subst. specialize (IH Hnd' HP).
  cbn [filter existsb]. destruct (N.eqb x y) eqn:Hxy.
  - apply N.eqb_eq in Hxy. subst y. rewrite orb_true_r, HP. cbn [orb].
    assert (Hno : existsb (N.eqb x) l = false).
    { destruct (existsb (N.eqb x) l) eqn:He; auto. exfalso. apply Hnin.
      apply existsb_exists in He. destruct He as [z [Hz Heq]].
      apply N.eqb_eq in Heq. subst. exact Hz. }
    rewrite Hno in IH. unfold len in *; cbn [List.length]; lia.
  - rewrite orb_false_r. cbn [orb].
    destruct (P y); unfold len in *; cbn [List.length]; lia.
Qed.

Lemma onTeam_existsb x t : onTeam x t = existsb (N.eqb x) (players t).
Proof.
  unfold onTeam, has.
  destruct (findIndex (fun p => N.eqb x p) (players t)) as [i|] eqn:Hf.
  - symmetry. apply existsb_exists. apply findIndex_some in Hf.
    destruct Hf as [y [Hy Heq]]. exists y. split; [eapply nth_error_In; eauto|exact Heq].
  - symmetry. rewrite findIndex_none in Hf.
    destruct (existsb (N.eqb x) (players t)) eqn:He; auto.
    apply existsb_exists in He. destruct He as [y [Hy Heq]].
    rewrite (Hf y Hy) in Heq. discriminate.
Qed.

Lemma rosters_cons t ts : rosters (t :: ts) = players t ++ rosters ts.
Proof. reflexivity. Qed.

Lemma rosters_team_NoDup ts : NoDup (rosters ts) ->
  forall t, In t ts -> NoDup (players t).
Proof.
  induction ts as [|x ts IH]; intros Hnd t Hin; [contradiction|].
  rewrite rosters_cons in Hnd. destruct Hin as [<-|Hin].
  - eapply NoDup_app_remove_r. exact Hnd.
  - apply IH; auto. eapply NoDup_app_remove_l. exact Hnd.
Qed.

(** With no id on the teams twice, the team [findTeam] finds is the only
    one the id is on. *)
Lemma findTeam_only x ts : NoDup (rosters ts) ->
  forall j t, nth_error ts j = Some t ->
  onTeam x t = match findTeam x ts with
               | Some ti => Nat.eqb j ti
               | None => false
               end.
Proof.
  unfold findTeam. induction ts as [|y ts IH]; intros Hnd j t Hj.
  - destruct j; discriminate.
  - rewrite rosters_cons in Hnd. cbn [findIndex].
    destruct j as [|j]; simpl in Hj.
    + inversion Hj; subst y. destruct (onTeam x t) eqn:Hon; [reflexivity|].
      destruct (findIndex (onTeam x) ts); reflexivity.
    + specialize (IH (NoDup_app_remove_l _ _ Hnd) j t Hj).
      destruct (onTeam x y) eqn:Hy.
      * simpl. destruct (onTeam x t) eqn:Ht; [|reflexivity]. exfalso.
        rewrite onTeam_existsb in Hy, Ht.
        apply existsb_exists in Hy. destruct Hy as [a [Ha Hxa]].
        apply existsb_exists in Ht. destruct Ht as [b [Hb Hxb]].
        apply N.eqb_eq in Hxa, Hxb. subst a b.
        apply (NoDup_app_apart _ _ x Hnd Ha).
        unfold rosters. apply in_concat. exists (players t). split; [|exact Hb].
        apply in_map. eapply nth_error_In; eauto.
      * rewrite IH. destruct (findIndex (onTeam x) ts); reflexivity.
Qed.

Lemma Forall_nth_error {A} (P : A -> Prop) l :
  Forall P l <-> forall j x, nth_error l j = Some x -> P x.
Proof.
  rewrite Forall_forall. split.
  - intros H j x Hj. apply H. eapply nth_error_In; eauto.
  - intros H x Hx. apply In_nth_error in Hx. destruct Hx as [j Hj]. eauto.
Qed.

Lemma teamLosesMember_nth ti ts j t' :
  nth_error (teamLosesMember ti ts) j = Some t' ->
  exists t, nth_error ts j = Some t /\ players t' = players t /\
            team_numAlive t' = team_numAlive t - (if Nat.eqb j ti then 1 else 0).
Proof.
  unfold teamLosesMember.
  set (ts1 := update ti (fun t => set_team_numAlive (team_numAlive t - 1) t) ts).
  assert (H1 : forall x, nth_error ts1 j = Some x ->
               exists t, nth_error ts j = Some t /\ players x = players t /\
                 team_numAlive x = team_numAlive t - (if Nat.eqb j ti then 1 else 0)).
  { intros x Hx. unfold ts1 in Hx. rewrite nth_error_update in Hx.
    destruct (Nat.eqb j ti).
    - destruct (nth_error ts j) as [t|]; [|discriminate]. inversion Hx; subst.
      exists t. repeat split.
    - exists x. repeat split; auto. lia. }
  assert (H2 : forall n x, nth_error (update ti (set_team_rank n) ts1) j = Some x ->
               exists t, nth_error ts j = Some t /\ players x = players t /\
                 team_numAlive x = team_numAlive t - (if Nat.eqb j ti then 1 else 0)).
  { intros n x Hx. rewrite nth_error_update in Hx.
    destruct (Nat.eqb j ti) eqn:He.
    - destruct (nth_error ts1 j) as [y|] eqn:Hy; [|discriminate]. inversion Hx; subst.
      destruct (H1 y eq_refl) as [t [Ht [Hp Hn]]].
      exists t. repeat split; auto.
    - destruct (H1 x Hx) as [t [Ht [Hp Hn]]]. eauto. }
  intros H. destruct (nth_error ts1 ti) as [x|].
  - destruct (team_numAlive x =? 0); eauto.
  - eauto.
Qed.

Lemma rosters_same ts ts' :
  map players ts' = map players ts -> rosters ts' = rosters ts.
Proof. unfold rosters. intros H. rewrite H. reflexivity. Qed.

Lemma map_players_nth ts ts' :
  List.length ts' = List.length ts ->
  (forall j t', nth_error ts' j = Some t' ->
     exists t, nth_error ts j = Some t /\ players t' = players t) ->
  map players ts' = map players ts.
Proof.
  revert ts'. induction ts as [|t ts IH]; intros [|t' ts'] Hlen H; try discriminate;
    [reflexivity|].
  simpl. f_equal.
  - destruct (H O t' eq_refl) as [x [Hx Hp]]. inversion Hx; subst. exact Hp.
  - apply IH; [simpl in Hlen; lia|]. intros j x Hj. apply (H (S j) x Hj).
Qed.

Lemma teamLosesMember_length ti ts :
  List.length (teamLosesMember ti ts) = List.length ts.
Proof.
  pose proof (f_equal (@List.length _) (lineup_teamLosesMember ti ts)) as H.
  rewrite !length_map in H. exact H.
Qed.

(** A living player dies and the team the player is on, if any, loses a
    member: the counters stay exact. *)
Lemma TeamsExact_kill us ts r u f :
  NoDup (map id us) -> nth_error us r = Some u -> living u = true ->
  id (f u) = id u -> living (f u) = false ->
  TeamsExact us ts ->
  TeamsExact (update r f us)
             (match findTeam (id u) ts with
              | Some ti => teamLosesMember ti ts
              | None => ts
              end).
Proof.
  intros Hnd Hr Hl Hid Hdead [Hros Hall].
  assert (Hwas : livingId us (id u) = true).
  { apply livingId_true. exists r, u. auto. }
  assert (Hcount : forall j t, nth_error ts j = Some t ->
            livingMembers (update r f us) t =
            livingMembers us t -
            match findTeam (id u) ts with
            | Some ti => if Nat.eqb j ti then 1 else 0
            | None => 0
            end).
  { intros j t Hj. unfold livingMembers.
    rewrite (filter_ext _ (fun p => livingId us p && negb (N.eqb (id u) p))).
    2:{ intro p. apply (livingId_kill us r u f p Hnd Hr Hid Hdead). }
    rewrite filter_without
      by (apply (rosters_team_NoDup ts Hros); eapply nth_error_In; eauto).
    rewrite Hwas, andb_true_r, <- onTeam_existsb, (findTeam_only (id u) ts Hros j t Hj).
    destruct (findTeam (id u) ts); reflexivity. }
  rewrite Forall_nth_error in Hall.
  destruct (findTeam (id u) ts) as [ti|] eqn:Hf.
  - split.
    + rewrite (rosters_same ts); [exact Hros|].
      apply map_players_nth; [apply teamLosesMember_length|].
      intros j t' Hj. destruct (teamLosesMember_nth ti ts j t' Hj) as [t [Ht [Hp _]]].
      eauto.
    + apply Forall_nth_error. intros j t' Hj.
      destruct (teamLosesMember_nth ti ts j t' Hj) as [t [Ht [Hp Hn]]].
      unfold livingMembers in *. rewrite Hp, Hn, (Hall j t Ht).
      apply eq_sym. apply (Hcount j t Ht).
  - split; [exact Hros|]. apply Forall_nth_error. intros j t Hj.
    rewrite (Hall j t Hj). rewrite (Hcount j t Hj). lia.
Qed.

(** The counters stay exact when the ids and living flags of the players
    and the counters and members of the teams are the same. *)
Lemma TeamsExact_ext us us' ts ts' :
  map (fun u => (id u, living u)) us' = map (fun u => (id u, living u)) us ->
  map (fun t => (team_numAlive t, players t)) ts' =
    map (fun t => (team_numAlive t, players t)) ts ->
  TeamsExact us ts -> TeamsExact us' ts'.
Proof.
  intros Hus Hts [Hros Hall]. split.
  - rewrite (rosters_same ts ts'); [exact Hros|].
    pose proof (f_equal (map snd) Hts) as H. rewrite !map_map in H. exact H.
  - revert ts' Hts. clear Hros. induction Hall as [|t ts Ht Hall IH];
      intros [|t' ts'] Hts; try discriminate; constructor.
    + simpl in Hts. inversion Hts as [[Hn Hp Hrest]].
      unfold livingMembers in *. rewrite Hn, Hp, Ht. f_equal. apply filter_ext.
      intro p. symmetry. apply livingId_ext. exact Hus.
    + apply IH. simpl in Hts. injection Hts as _ _ Hrest. exact Hrest.
Qed.

(** A dead player lives again and the team the player is on, if any,
    gains a member: the counters stay exact. *)
Lemma TeamsExact_revive us ts ts' r u f :
  NoDup (map id us) -> nth_error us r = Some u -> living u = false ->
  id (f u) = id u -> living (f u) = true ->
  TeamsExact us ts ->
  List.length ts' = List.length ts ->
  (forall j t', nth_error ts' j = Some t' ->
     exists t, nth_error ts j = Some t /\ players t' = players t /\
       team_numAlive t' = team_numAlive t +
         match findTeam (id u) ts with
         | Some ti => if Nat.eqb j ti then 1 else 0
         | None => 0
         end) ->
  TeamsExact (update r f us) ts'.
Proof.
  intros Hnd Hr Hdead Hid Hlive [Hros Hall] Hlen Hnth.
  assert (Hwas : livingId us (id u) = false).
  { destruct (livingId us (id u)) eqn:Hw; auto. apply livingId_true in Hw.
    destruct Hw as [j [q [Hj [H1 H2]]]].
    assert (j = r) by (eapply ids_index; eauto). subst j.
    rewrite Hr in Hj. inversion Hj; subst. congruence. }
  rewrite Forall_nth_error in Hall. split.
  - rewrite (rosters_same ts ts'); [exact Hros|].
    apply map_players_nth; [exact Hlen|]. intros j t' Hj.
    destruct (Hnth j t' Hj) as [t [Ht [Hp _]]]. eauto.
  - apply Forall_nth_error. intros j t' Hj.
    destruct (Hnth j t' Hj) as [t [Ht [Hp Hn]]].
    assert (Hcount : livingMembers (update r f us) t =
                     livingMembers us t +
                     match findTeam (id u) ts with
                     | Some ti => if Nat.eqb j ti then 1 else 0
                     | None => 0
                     end).
    { unfold livingMembers.
      rewrite (filter_ext _ (fun p => livingId us p || N.eqb (id u) p)).
      2:{ intro p. apply (livingId_revive us r u f p Hr Hid Hlive Hdead). }
      rewrite filter_with
        by (auto; apply (rosters_team_NoDup ts Hros); eapply nth_error_In; eauto).
      rewrite <- onTeam_existsb, (findTeam_only (id u) ts Hros j t Ht).
      destruct (findTeam (id u) ts); reflexivity. }
    unfold livingMembers in *. rewrite Hp, Hn, (Hall j t Ht). symmetry. exact Hcount.
Qed.

Lemma PoolOk_nil us : PoolOk us [].
Proof. split; constructor. Qed.

Lemma Tallied_out pend s : Tallied pend s -> Tallied [] s.
Proof. intros [H1 [_ H3]]. split; [exact H1|]. split; [apply PoolOk_nil|exact H3]. Qed.

Section TeamCounters.

Variable pres : Presenter.
Variable opts : Options.
Hypothesis teams_on : gt_zero (teamSize opts) = true.

Lemma killUser_tallied (E : list Ref) i k pend :
  triple (Tallied (refs (skipn i E) ++ pend))
         (killUser opts E i k)
         (fun _ => Tallied (refs (skipn (S i) E) ++ pend))
         (Tallied []).
Proof.
  intros s t [Hnd [HP HT]].
  destruct (effectUser_cases E i k s t Hnd)
    as [(r & p & HE & Hp & Heq) | [_ Heq]];
    unfold killUser, bind at 1; rewrite Heq.
  2:{ split; [exact Hnd|]. split; [apply PoolOk_nil|exact HT]. }
  rewrite (skipn_nth_error _ _ _ HE) in HP. cbn [refs app] in HP.
  destruct (PoolOk_head _ _ _ HP) as [p' [Hp' Hl]].
  rewrite Hp in Hp'. inversion Hp'; subst p'. clear Hp'.
  unfold users in *.
  set (f := fun x => slay (numAlive (game s)) (touch k x)).
  assert (Hus : update r (slay (numAlive (game s)))
                       (update r (touch k) (includedUsers (game s)))
                = update r f (includedUsers (game s)))
    by (unfold f; apply update_update).
  assert (Hnd' : NoDup (map id (update r f (includedUsers (game s))))).
  { rewrite map_update; [exact Hnd|]. intro q. unfold f. apply touch_id. }
  assert (HP' : PoolOk (update r f (includedUsers (game s)))
                       (refs (skipn (S i) E) ++ pend))
    by (apply PoolOk_update_drop; exact HP).
  assert (HT' : TeamsExact (update r f (includedUsers (game s)))
                  (match findTeam (id p) (teams (game s)) with
                   | Some ti => teamLosesMember ti (teams (game s))
                   | None => teams (game s)
                   end)).
  { apply TeamsExact_kill; auto. unfold f. apply touch_id. }
  assert (Hf : id (f p) = id p) by (unfold f; apply touch_id).
  clearbody f.
  unfold bind, modifyGame, modify, getGame, with_game, on_users. cbn.
  rewrite teams_on. cbn. rewrite Hus, (nth_error_update_eq _ _ r p Hp), Hf.
  unfold findTeam in HT'.
  destruct (findIndex (onTeam (id p)) (teams (game s))) as [ti|];
    unfold Tallied, users; cbn;
    (split; [exact Hnd'|split; [exact HP'|exact HT']]).
Qed.

Lemma Tallied_touched r (f : Player -> Player) rest pend s :
  (forall q, id (f q) = id q) -> (forall q, living (f q) = living q) ->
  NoDup (map id (users s)) -> PoolOk (users s) (r :: rest) ->
  TeamsExact (users s) (teams (game s)) ->
  pend = rest ->
  Tallied pend (mkSim (set_includedUsers (update r f (users s)) (game s))
                      (auto s) (sent s)).
Proof.
  intros Hid Hliv Hnd HP HT ->. unfold Tallied, users in *. cbn.
  split; [rewrite map_update; auto|]. split; [apply PoolOk_update_drop; exact HP|].
  eapply TeamsExact_ext; [| reflexivity | exact HT].
  apply map_update. intro q. rewrite Hid, Hliv. reflexivity.
Qed.

Lemma touchThen_tallied (E : list Ref) i k pend (h2 : Player -> Player) :
  (forall q, id (h2 q) = id q) -> (forall q, living (h2 q) = living q) ->
  triple (Tallied (refs (skipn i E) ++ pend))
         (index <- effectUser E i k ;; modifyGame (on_users (update index h2)))
         (fun _ => Tallied (refs (skipn (S i) E) ++ pend))
         (Tallied []).
Proof.
  intros Hid Hliv s t [Hnd [HP HT]].
  destruct (effectUser_cases E i k s t Hnd)
    as [(r & p & HE & Hp & Heq) | [_ Heq]];
    unfold bind; rewrite Heq.
  2:{ split; [exact Hnd|]. split; [apply PoolOk_nil|exact HT]. }
  rewrite (skipn_nth_error _ _ _ HE) in HP. cbn [refs app] in HP.
  unfold modifyGame, modify, with_game, on_users. cbn [game auto sent includedUsers
    set_includedUsers].
  rewrite update_update.
  apply (Tallied_touched r (fun x => h2 (touch k x)) (refs (skipn (S i) E) ++ pend));
    auto.
  - intro q. rewrite Hid. apply touch_id.
  - intro q. rewrite Hliv. apply touch_living.
Qed.

Lemma effectOnly_tallied (E : list Ref) i k pend :
  triple (Tallied (refs (skipn i E) ++ pend))
         (_ <- effectUser E i k ;; ret tt)
         (fun _ => Tallied (refs (skipn (S i) E) ++ pend))
         (Tallied []).
Proof.
  intros s t [Hnd [HP HT]].
  destruct (effectUser_cases E i k s t Hnd)
    as [(r & p & HE & Hp & Heq) | [_ Heq]];
    unfold bind; rewrite Heq.
  2:{ split; [exact Hnd|]. split; [apply PoolOk_nil|exact HT]. }
  rewrite (skipn_nth_error _ _ _ HE) in HP. cbn [refs app] in HP.
  unfold ret, with_game, on_users.
  apply (Tallied_touched r (touch k) (refs (skipn (S i) E) ++ pend)); auto.
  - apply touch_id.
  - apply touch_living.
Qed.

Lemma applyOutcome_tallied (E : list Ref) what i k pend :
  triple (Tallied (refs (skipn i E) ++ pend))
         (applyOutcome opts E what i k)
         (fun _ => Tallied (refs (skipn (S i) E) ++ pend))
         (Tallied []).
Proof.
  unfold applyOutcome. destruct (String.eqb what "dies").
  - apply killUser_tallied.
  - destruct (String.eqb what "wounded"); [|destruct (String.eqb what "thrives")].
    + apply touchThen_tallied; reflexivity.
    + apply touchThen_tallied; reflexivity.
    + apply effectOnly_tallied.
Qed.

Lemma applyLoop_tallied (E : list Ref) what (kf : Z) pend : forall n a,
  triple (Tallied (refs (skipn a E) ++ pend))
         (forEach (seq a n) (fun i => applyOutcome opts E what i kf))
         (fun _ => Tallied (refs (skipn (a + n) E) ++ pend))
         (Tallied []).
Proof.
  induction n as [|n IH]; intros a.
  - cbn [seq forEach]. apply triple_ret. intros s H. rewrite Nat.add_0_r. exact H.
  - cbn [seq forEach]. eapply triple_bind; [apply applyOutcome_tallied|].
    intros u. replace (a + S n)%nat with (S a + n)%nat by lia. apply IH.
Qed.

Lemma applyEffects_tallied ev (E : list Ref) nv na pend :
  triple (Tallied (refs E ++ pend))
         (applyEffects opts ev E nv na)
         (fun _ => Tallied (refs (skipn (Z.to_nat nv + Z.to_nat na) E) ++ pend))
         (Tallied []).
Proof.
  unfold applyEffects. eapply triple_bind.
  - apply (applyLoop_tallied E (outcome (victim ev)) _ pend (Z.to_nat nv) 0%nat).
  - intros u. simpl.
    apply (applyLoop_tallied E (outcome (attacker ev)) _ pend (Z.to_nat na) (Z.to_nat nv)).
Qed.

Lemma Tallied_field pend s s' :
  field (game s') = field (game s) -> Tallied pend s -> Tallied pend s'.
Proof.
  unfold field, Tallied, users. intros H. inversion H as [[H1 H2]].
  rewrite H1. intros [Hnd [HP HT]]. split; [exact Hnd|]. split; [exact HP|].
  eapply TeamsExact_ext; [reflexivity|exact H2|exact HT].
Qed.

Lemma triple_field {A} pend (m : M Sim A) :
  keepsG field m -> triple (Tallied pend) m (fun _ => Tallied pend) (Tallied pend).
Proof.
  intros Hk s t Hs. specialize (Hk s t).
  destruct (m s t); simpl in *; eapply Tallied_field; eauto.
Qed.

Lemma triple_field_val {A} pend (R : A -> Prop) (m : M Sim A) :
  keepsG field m -> (forall s t a s' t', m s t = Val a s' t' -> R a) ->
  triple (Tallied pend) m (fun a s => Tallied pend s /\ R a) (Tallied pend).
Proof.
  intros Hk HR s t Hs. specialize (Hk s t).
  destruct (m s t) eqn:Hm; simpl in *; try (eapply Tallied_field; eauto).
  split; [eapply Tallied_field; eauto|]. eapply HR; eauto.
Qed.

Lemma keepsG_selectRandom {X} (p : Game -> X) n : forall up E,
  keepsG p (selectRandom n up E).
Proof.
  induction n as [|n IH]; intros up E; simpl; [apply keepsG_ret|].
  apply keepsG_bind; [apply keepsG_random|]. intros r.
  destruct (splice1 (floor_mul r (len up)) up) as [u up']. apply IH.
Qed.

Lemma Tallied_perm p1 p2 s : Permutation p1 p2 -> Tallied p1 s -> Tallied p2 s.
Proof.
  intros Hp [H1 [H2 H3]]. split; [exact H1|]. split; [|exact H3].
  eapply PoolOk_perm; eauto.
Qed.

Lemma Tallied_rest l1 l2 s : Tallied (l1 ++ l2) s -> Tallied l2 s.
Proof.
  intros [H1 [H2 H3]]. split; [exact H1|]. split; [|exact H3].
  eapply PoolOk_app_r; eauto.
Qed.

Lemma applyEvent_tallied ev na nv pool :
  triple (Tallied pool)
         (applyEvent pres opts ev na nv pool)
         (fun pool' => Tallied pool')
         (Tallied []).
Proof.
  unfold applyEvent.
  eapply triple_bind; [apply triple_getGame|]. intros g.
  eapply triple_bind.
  - eapply triple_conseq with
      (P' := Tallied pool)
      (Q' := fun c s => Tallied pool s /\ Permutation (refs (snd c) ++ fst c) pool)
      (E' := Tallied pool).
    + apply triple_field_val.
      * destruct (teamMode opts); [|apply keepsG_selectRandom].
        destruct (findValidTeam _ _ _ _ _). apply keepsG_ret.
      * intros s t c s' t' H. destruct (teamMode opts).
        -- destruct (findValidTeam _ _ _ _ _) as [vt ia]. inversion H; subst.
           apply (selectByTeam_perm g vt ia nv _ pool []).
        -- destruct c as [pool' E']. apply selectRandom_perm in H. exact H.
    + intros s [H _]. exact H.
    + intros c s H. exact H.
    + apply Tallied_out.
  - intros [pool' E]. simpl.
    eapply triple_bind.
    + eapply triple_conseq; [apply (applyEffects_tallied ev E nv na pool')| | |].
      * intros s [H Hperm]. eapply Tallied_perm; [symmetry; exact Hperm|exact H].
      * intros u s H. exact H.
      * auto.
    + intros u.
      eapply triple_conseq with
        (P' := Tallied pool') (Q' := fun p => Tallied p) (E' := Tallied pool').
      * eapply triple_bind;
          [apply triple_field; apply keepsG_makeSingleEvent|intros made].
        eapply triple_bind; [apply triple_field; keepsG_tac|intros u1].
        eapply triple_bind; [apply triple_field; keepsG_tac|intros u2].
        apply triple_ret. auto.
      * intros s H. eapply Tallied_rest; eauto.
      * auto.
      * apply Tallied_out.
Qed.

Lemma tally_scanTeams us up : forall ts i l n,
  map (fun t => (team_numAlive t, players t)) (fst (fst (scanTeams us up i ts l n)))
  = map (fun t => (team_numAlive t, players t)) ts.
Proof.
  induction ts as [|x ts IH]; intros i l n; simpl; [reflexivity|].
  specialize (IH (S i)
                 (if numPoolOf us up x >? snd l then (i, numPoolOf us up x) else l)
                 (if numPoolOf us up x >? 0 then n + 1 else n)).
  destruct (scanTeams us up (S i) ts _ _) as [[ts' l'] n']. simpl in *.
  rewrite IH. reflexivity.
Qed.

Lemma field_teamCheck ev na nv up : keepsG field (teamCheck ev na nv up).
Proof.
  intros s t. unfold teamCheck, bind at 1, getGame.
  pose proof (tally_scanTeams (includedUsers (game s)) up (teams (game s))
                              O (O, 0) 0) as Hl.
  destruct (scanTeams _ _ _ _ _ _) as [[ts l] n]. simpl in Hl.
  unfold bind, modifyGame, modify.
  transitivity (field (set_teams ts (game s)));
    [|unfold field; cbn; rewrite Hl; reflexivity].
  destruct ((n <? 2) && _); [reflexivity|].
  destruct (negb _); reflexivity.
Qed.

Lemma field_selectEvent fuel ev loop up :
  keepsG field (selectEvent fuel opts ev loop up).
Proof.
  unfold selectEvent. destruct (loop >? 100); [keepsG_tac|].
  destruct (_ >? len up); [apply keepsG_ret|].
  apply keepsG_bind.
  - destruct (_ || _); [apply keepsG_resolveCounts|apply keepsG_ret].
  - intros [na' nv']. apply keepsG_bind.
    + destruct (teamMode opts); [apply field_teamCheck|apply keepsG_ret].
    + intros fits. keepsG_tac.
Qed.

Lemma loopBody_tallied fuel userEventPool loop pool :
  triple (Tallied pool)
         (loopBody pres fuel opts userEventPool loop pool)
         (fun c s => match c with
                     | Next _ pool' => Tallied pool' s
                     | Stop => Tallied [] s
                     end)
         (Tallied []).
Proof.
  unfold loopBody.
  eapply triple_bind with (R := fun _ => Tallied pool).
  { eapply triple_conseq; [apply (triple_field pool); apply keepsG_random| | |]; auto.
    apply Tallied_out. }
  intros r.
  assert (Hrej : forall o l,
            triple (Tallied pool) (emit o ;;; ret (Next l pool))
                   (fun c s => match c with
                               | Next _ pool' => Tallied pool' s
                               | Stop => Tallied [] s
                               end) (Tallied [])).
  { intros o l s t H. simpl. eapply Tallied_field; [|exact H]. reflexivity. }
  destruct (_ || _); [apply Hrej|].
  destruct (nth_error userEventPool _) as [[ev|]|]; try apply Hrej.
  unfold tryEvent.
  eapply triple_bind with (R := fun _ => Tallied pool).
  { eapply triple_conseq; [apply (triple_field pool); apply field_selectEvent| | |];
      auto. apply Tallied_out. }
  intros [| |na nv].
  - apply triple_ret. apply Tallied_out.
  - apply triple_ret. auto.
  - eapply triple_bind; [apply applyEvent_tallied|]. intros pool'.
    apply triple_ret. auto.
Qed.

Lemma eventLoop_tallied userEventPool : forall fuel loop pool,
  triple (Tallied pool)
         (eventLoop pres fuel opts userEventPool loop pool)
         (fun _ => Tallied []) (Tallied []).
Proof.
  induction fuel as [|fuel IH]; intros loop pool.
  - apply triple_starve. apply Tallied_out.
  - simpl. destruct (len pool >? 0).
    + eapply triple_bind; [apply (loopBody_tallied fuel userEventPool loop pool)|].
      intros [loop' pool'|].
      * apply IH.
      * apply triple_ret. auto.
    + apply triple_ret. apply Tallied_out.
Qed.

Lemma triple_arrives {S A} (P : S -> Prop) (m : M S A) Q E :
  triple P m Q E -> arrives P m Q E.
Proof. intros H s t Hs. specialize (H s t Hs). destruct (m s t); auto. Qed.

Lemma arrives_bind {S A B} (P : S -> Prop) (m : M S A) (k : A -> M S B)
    (R : A -> S -> Prop) (Q : B -> S -> Prop) E :
  arrives P m R E -> (forall a, arrives (R a) (k a) Q E) -> arrives P (bind m k) Q E.
Proof.
  intros Hm Hk s t Hs. unfold bind. specialize (Hm s t Hs).
  destruct (m s t) as [a s' t'| |]; auto. apply Hk; auto.
Qed.

Lemma makeSingleEvent_one msg R mention s t :
  (R < List.length (includedUsers (game s)))%nat ->
  match makeSingleEvent pres msg [Some R] 1 0 mention s t with
  | Val _ s' _ => game s' = game s
  | Exn _ _ => False
  | Starved _ => True
  end.
Proof.
  intros HR. unfold makeSingleEvent, bind at 1, getGame.
  destruct (nth_error (includedUsers (game s)) R) as [x|] eqn:Hx.
  2:{ apply nth_error_None in Hx. lia. }
  change (Z.to_nat 1) with 1%nat. change (Z.to_nat 0) with 0%nat.
  cbn [firstn skipn derefAll deref]. rewrite Hx.
  unfold bind at 1.
  match goal with |- context [contains ?a ?b] => destruct (contains a b) end.
  - unfold bind, weightedRand, bind, random. destruct t as [|r t']; auto.
    destruct (in_unit r); auto. destruct (weightedRandOf r); simpl; auto.
  - reflexivity.
Qed.

(** The resurrection pass, as a change of the players and the teams. *)
Lemma TeamsExact_resurrected us ts R res (fix1 : Player -> Player)
    (fix2 : Team -> Team) ts' :
  NoDup (map id us) -> nth_error us R = Some res -> living res = false ->
  (forall q, id (fix1 q) = id q /\ living (fix1 q) = living q) ->
  (forall x, team_numAlive (fix2 x) = team_numAlive x /\ players (fix2 x) = players x) ->
  TeamsExact us ts ->
  (ts' = ts /\ findTeam (id res) ts = None) \/
  (exists ti, findTeam (id res) ts = Some ti /\
     ts' = map fix2 (update ti (fun t => set_team_numAlive (team_numAlive t + 1) t) ts)) ->
  let us3 := update R (set_rank 1)
               (map fix1 (update R (fun u => set_state "zombie" (set_living true u)) us)) in
  NoDup (map id us3) /\ TeamsExact us3 ts'.
Proof.
  intros Hnd HR Hdead Hfix1 Hfix2 HT Hts us3.
  set (us1 := update R (fun u => set_state "zombie" (set_living true u)) us).
  assert (Hsame : map (fun u => (id u, living u)) us3 = map (fun u => (id u, living u)) us1).
  { unfold us3. fold us1. rewrite map_update by (intro; reflexivity).
    rewrite map_map. apply map_ext. intro q. destruct (Hfix1 q) as [H1 H2].
    rewrite H1, H2. reflexivity. }
  assert (Hids : map id us3 = map id us).
  { unfold us3. fold us1. rewrite map_update by (intro; reflexivity).
    rewrite map_map. rewrite (map_ext _ id) by (intro q; apply (proj1 (Hfix1 q))).
    unfold us1. apply map_update. intro; reflexivity. }
  split; [rewrite Hids; exact Hnd|].
  apply (TeamsExact_ext us1 us3 ts' ts' Hsame eq_refl).
  unfold us1. apply (TeamsExact_revive us ts ts' R res); auto.
  - destruct Hts as [[-> _]|[ti [_ ->]]]; [reflexivity|].
    rewrite length_map, update_length. reflexivity.
  - intros j t' Hj. destruct Hts as [[-> Hnone]|[ti [Hsome ->]]].
    + rewrite Hnone. exists t'. repeat split; auto. lia.
    + rewrite Hsome. rewrite nth_error_map, nth_error_update in Hj.
      destruct (Nat.eqb j ti).
      * destruct (nth_error ts j) as [x|]; [|discriminate]. cbn in Hj.
        inversion Hj; subst. exists x. destruct (Hfix2 (set_team_numAlive
          (team_numAlive x + 1) x)) as [H1 H2]. rewrite H1, H2. repeat split.
      * destruct (nth_error ts j) as [x|]; [|discriminate]. cbn in Hj.
        inversion Hj; subst. exists x. destruct (Hfix2 x) as [H1 H2].
        rewrite H1, H2. repeat split. lia.
Qed.

Lemma resurrect_tallied :
  arrives (Tallied []) (resurrect pres opts) (fun _ => Tallied []) (Tallied []).
Proof.
  intros s t HS. pose proof HS as [Hnd [_ HT]]. unfold users in Hnd, HT.
  unfold resurrect. destruct (resurrection opts); [|exact HS].
  unfold bind at 1, random. destruct t as [|r t0]; [exact I|].
  destruct (in_unit r); [|exact I].
  destruct (lt_num r (probabilityOfResurrect opts)); [|exact HS].
  unfold bind at 1, getGame at 1.
  set (deadPool := positions (fun obj => negb (living obj)) 0 (includedUsers (game s))).
  destruct (len deadPool >? 0); [|exact HS].
  unfold bind at 1. destruct t0 as [|r' t1]; [exact I|].
  destruct (in_unit r'); [|exact I].
  destruct (nth_error deadPool (Z.to_nat (floor_mul r' (len deadPool))))
    as [R|] eqn:HR; [|exact HS].
  destruct (nth_error (includedUsers (game s)) R) as [res|] eqn:Hres; [|exact HS].
  assert (Hdead : living res = false).
  { apply nth_error_In in HR. unfold deadPool in HR. apply positions_spec in HR.
    destruct HR as [x [_ [Hx Hp]]]. rewrite Nat.sub_0_r, Hres in Hx.
    inversion Hx; subst. apply negb_true_iff in Hp. exact Hp. }
  set (fix1 := fun obj : Player =>
                 if negb (living obj) && (rank obj <? rank res)
                 then set_rank (rank obj + 1) obj else obj).
  assert (Hfix1 : forall q, id (fix1 q) = id q /\ living (fix1 q) = living q).
  { intro q. unfold fix1. destruct (_ && _); split; reflexivity. }
  assert (Hfix2 : forall (team : Team) x,
            team_numAlive ((fun obj : Team =>
               if (team_numAlive obj =? 0) && (team_rank obj <? team_rank team)
               then set_team_rank (team_rank obj + 1) obj else obj) x)
              = team_numAlive x /\
            players ((fun obj : Team =>
               if (team_numAlive obj =? 0) && (team_rank obj <? team_rank team)
               then set_team_rank (team_rank obj + 1) obj else obj) x) = players x).
  { intros team x. cbv beta. destruct (_ && _); split; reflexivity. }
  pose proof (fun fix2 H2 ts' => TeamsExact_resurrected (includedUsers (game s))
                (teams (game s)) R res fix1 fix2 ts' Hnd Hres Hdead Hfix1 H2 HT)
    as Hfin.
  cbv zeta in Hfin.
  unfold bind at 1, modifyGame at 1, modify.
  unfold bind at 1, modifyGame at 1, modify.
  unfold bind at 1, modifyGame at 1, modify.
  cbn [game auto sent].
  match goal with
  | |- context [bind ?m ?k ?s0 t1] => set (s3 := s0)
  end.
  assert (Hus3 : includedUsers (game s3) =
                 update R (set_rank 1)
                   (map fix1 (update R (fun u => set_state "zombie" (set_living true u))
                                     (includedUsers (game s)))))
    by reflexivity.
  assert (Hts3 : teams (game s3) = teams (game s)) by reflexivity.
  assert (HR3 : (R < List.length (includedUsers (game s3)))%nat).
  { rewrite Hus3, update_length, length_map, update_length.
    apply nth_error_Some. congruence. }
  clearbody s3.
  unfold bind at 1.
  pose proof (makeSingleEvent_one
                "{victim} has returned from the dead and was put back into the arena!"
                R (mentionAll opts) s3 t1 HR3) as Hone.
  destruct (makeSingleEvent pres _ _ _ _ _ s3 t1) as [made s4 t4| |];
    [|contradiction|exact I].
  unfold bind, modifyGame, modify, getGame. cbn [game auto sent teams push_event set_day].
  rewrite Hone, Hts3.
  destruct (findTeam (id res) (teams (game s))) as [ti|] eqn:Hteam.
  - cbn. rewrite ?Hts3.
    assert (Hti : exists team, nth_error (teams (game s)) ti = Some team).
    { unfold findTeam in Hteam. apply findIndex_some in Hteam.
      destruct Hteam as [x [Hx _]]. eauto. }
    destruct Hti as [team0 Hteam0].
    rewrite (nth_error_update_eq _ _ ti team0 Hteam0). cbn.
    rewrite ?Hts3.
    match goal with
    | |- Tallied [] (mkSim (set_teams (map ?f2 _) _) _ _) =>
        destruct (Hfin f2 (Hfix2 _) _ (or_intror (ex_intro _ ti (conj eq_refl eq_refl))))
          as [H1 H2]
    end.
    unfold Tallied, users. cbn. rewrite Hus3.
    split; [exact H1|]. split; [apply PoolOk_nil|exact H2].
  - cbn.
    destruct (Hfin (fun x => x) (fun x => conj eq_refl eq_refl) _
                   (or_introl (conj eq_refl eq_refl))) as [H1 H2].
    unfold Tallied, users. cbn. rewrite ?Hus3, ?Hts3.
    split; [exact H1|]. split; [apply PoolOk_nil|exact H2].
Qed.

Lemma bleedPass_tallied : forall js ub ur,
  triple (Tallied []) (bleedPass opts js ub ur) (fun _ => Tallied []) (Tallied []).
Proof.
  induction js as [|j js IH]; intros ub ur; [apply triple_ret; auto|].
  intros s t HS. pose proof HS as [Hnd [_ HT]]. unfold users in Hnd, HT.
  cbn [bleedPass]. unfold bind at 1, getGame at 1.
  destruct (nth_error (includedUsers (game s)) j) as [obj|] eqn:Hobj;
    [|apply IH; exact HS].
  destruct (bleeding obj && living obj) eqn:Hbl; [|apply IH; exact HS].
  apply andb_true_iff in Hbl. destruct Hbl as [_ Hl].
  unfold bind at 1, random. destruct t as [|r t0]; [exact HS|].
  destruct (in_unit r); [|exact HS].
  destruct (lt_num r (probabilityOfBleedToDeath opts) && _).
  - pose proof (TeamsExact_kill (includedUsers (game s)) (teams (game s)) j obj
                  (slay (numAlive (game s))) Hnd Hobj Hl eq_refl eq_refl HT) as HK.
    assert (Hnd' : NoDup (map id (update j (slay (numAlive (game s)))
                                         (includedUsers (game s)))))
      by (rewrite map_update; [exact Hnd|intro; reflexivity]).
    unfold bind at 1, modifyGame at 1, modify. cbn [game auto sent].
    destruct (findTeam (id obj) (teams (game s))) as [ti|].
    + unfold bind at 1, modifyGame at 1, modify. apply IH.
      unfold Tallied, users. cbn.
      split; [exact Hnd'|]. split; [apply PoolOk_nil|exact HK].
    + unfold Tallied, users. cbn.
      split; [exact Hnd'|]. split; [apply PoolOk_nil|exact HK].
  - unfold bind at 1, modifyGame at 1, modify. apply IH.
    unfold Tallied, users. cbn.
    split; [rewrite map_update; [exact Hnd|intro; reflexivity]|].
    split; [apply PoolOk_nil|].
    eapply TeamsExact_ext; [|reflexivity|exact HT].
    apply map_update. intro; reflexivity.
Qed.

Lemma dayStart_tallied tpl custom :
  arrives (Tallied [])
          (dayStart pres tpl custom opts)
          (fun start => Tallied (fst start))
          (Tallied []).
Proof.
  unfold dayStart.
  eapply arrives_bind;
    [apply triple_arrives; apply (triple_field []); keepsG_tac|]. intros u0.
  eapply arrives_bind; [apply resurrect_tallied|]. intros u1.
  eapply arrives_bind; [apply triple_arrives; apply triple_getGame|]. intros g.
  eapply arrives_bind with
    (R := fun _ => Tallied (positions living 0 (includedUsers g))).
  { apply triple_arrives.
    eapply triple_conseq;
      [apply (triple_field (positions living 0 (includedUsers g)));
       unfold chooseEventPool; keepsG_tac'; auto using keepsG_makeSingleEvent| | |];
      auto.
    - intros s [[H1 [_ H3]] Hg]. subst g. split; [exact H1|].
      split; [apply positions_PoolOk|exact H3].
    - apply Tallied_out. }
  intros userEventPool. apply triple_arrives. apply triple_ret. auto.
Qed.

Lemma dayEnd_tallied :
  triple (Tallied []) (dayEnd pres opts) (fun _ => Tallied []) (Tallied []).
Proof.
  unfold dayEnd.
  eapply triple_bind; [apply triple_getGame|]. intros g2.
  eapply triple_bind with (R := fun _ => Tallied []).
  { eapply triple_conseq; [apply bleedPass_tallied| | |]; auto.
    intros s [H _]. exact H. }
  intros [ub ur].
  eapply triple_bind;
    [apply (triple_field []); keepsG_tac'; auto using keepsG_makeSingleEvent|intros u2].
  eapply triple_bind;
    [apply (triple_field []); keepsG_tac'; auto using keepsG_makeSingleEvent|intros u3].
  eapply triple_bind; [apply (triple_field []); keepsG_tac|intros u4].
  eapply triple_bind; [apply (triple_field []); keepsG_tac|intros g3].
  eapply triple_bind; [apply (triple_field []); keepsG_tac|intros u5].
  apply triple_ret. auto.
Qed.

Lemma simulateDay_tallied fuel tpl custom :
  arrives (Tallied [])
          (simulateDay pres fuel tpl custom opts)
          (fun _ => Tallied []) (Tallied []).
Proof.
  unfold simulateDay.
  eapply arrives_bind; [apply dayStart_tallied|]. intros start.
  eapply arrives_bind; [apply triple_arrives; apply eventLoop_tallied|].
  intros finished. apply triple_arrives. destruct finished.
  - apply dayEnd_tallied.
  - apply triple_ret. auto.
Qed.

End TeamCounters.

Lemma livingId_perm us us' p :
  Permutation us' us -> livingId us' p = livingId us p.
Proof.
  intros Hp. apply eq_true_iff_eq. unfold livingId. rewrite !existsb_exists.
  split; intros [q [Hq Hc]]; exists q; split; auto.
  - eapply Permutation_in; eauto.
  - eapply Permutation_in; [symmetry; exact Hp|exact Hq].
Qed.

Lemma TeamsExact_perm us us' ts ts' :
  Permutation us' us -> Permutation ts' ts ->
  TeamsExact us ts -> TeamsExact us' ts'.
Proof.
  intros Hus Hts [Hros Hall]. split.
  - unfold rosters in *. rewrite <- flat_map_concat_map in *.
    eapply Permutation_NoDup; [|exact Hros].
    apply Permutation_flat_map. symmetry. exact Hts.
  - eapply Permutation_Forall; [symmetry; exact Hts|].
    eapply Forall_impl; [|exact Hall]. intros t Ht. cbv beta in *.
    unfold livingMembers in *. rewrite Ht. f_equal. apply filter_ext. intro p.
    symmetry. apply livingId_perm. exact Hus.
Qed.

Section RevealCounters.

Variable sortBy : forall A : Type, (A -> A -> Z) -> list A -> list A.
Hypothesis sortBy_perm : forall A cmp (l : list A), Permutation (sortBy A cmp l) l.

Lemma Tallied_sorted s (us' : list Player) (ts' : list Team) g' a o :
  Tallied [] s -> Permutation us' (includedUsers (game s)) ->
  Permutation ts' (teams (game s)) ->
  includedUsers g' = us' -> teams g' = ts' ->
  Tallied [] (mkSim g' a o).
Proof.
  intros [Hnd [_ HT]] Hus Hts Hg1 Hg2. unfold Tallied, users in *. cbn.
  rewrite Hg1, Hg2. split.
  - eapply Permutation_NoDup; [|exact Hnd]. apply Permutation_map. symmetry. exact Hus.
  - split; [apply PoolOk_nil|]. eapply TeamsExact_perm; eauto.
Qed.

Lemma printDay_tallied opts :
  triple (Tallied []) (printDay sortBy opts) (fun _ => Tallied []) (Tallied []).
Proof.
  assert (Hsort : forall cmpOf : Game -> Player -> Player -> Z,
            triple (Tallied [])
                   (modifyGame (fun g => set_includedUsers
                      (sortBy Player (cmpOf g) (includedUsers g)) g))
                   (fun _ => Tallied []) (Tallied [])).
  { intros cmpOf. apply triple_modify. intros s H.
    apply (Tallied_sorted s (sortBy Player (cmpOf (game s)) (includedUsers (game s)))
                          (teams (game s)));
      [exact H|apply sortBy_perm|reflexivity|reflexivity|reflexivity]. }
  unfold printDay.
  eapply triple_bind; [apply triple_getGame|]. intros g.
  eapply triple_conseq with (P' := Tallied []) (Q' := fun _ => Tallied [])
                            (E' := Tallied []); auto; [|intros s [H _]; exact H].
  eapply triple_bind; [apply (triple_field []); keepsG_tac'|]. intros u.
  eapply triple_bind with (R := fun _ => Tallied []).
  - assert (Hover : triple (Tallied [])
                      (modify (fun s => mkSim (set_over (game s)) false (sent s)))
                      (fun _ => Tallied []) (Tallied [])).
    { apply triple_modify. intros s H. eapply Tallied_field; [|exact H]. reflexivity. }
    destruct (_ =? 1).
    { destruct (nth_error _ _); [|apply triple_throw; auto].
      destruct (forallb _ _); [exact Hover|apply triple_throw; auto]. }
    destruct (_ =? 1).
    { destruct (nth_error _ _); [|apply triple_throw; auto].
      destruct (if gt_zero (teamSize opts) then _ else _);
        [exact Hover|apply triple_throw; auto]. }
    destruct (_ <? 1); [exact Hover|].
    eapply triple_bind with (R := fun _ => Tallied []).
    + destruct (gt_zero (teamSize opts)); [|apply triple_ret; auto].
      apply (Hsort (fun g a b =>
                      let aTeam := teamIndex g (id a) in
                      let bTeam := teamIndex g (id b) in
                      if aTeam =? bTeam then Z.of_N (id a) - Z.of_N (id b)
                      else aTeam - bTeam)).
    + intros u1. apply (triple_field []). keepsG_tac'.
  - intros u2.
    eapply triple_bind; [apply (triple_field []); keepsG_tac'|]. intros g'.
    eapply triple_bind; [apply (triple_field []); keepsG_tac'|]. intros u3.
    eapply triple_bind; [apply (triple_field []); keepsG_tac'|]. intros u4.
    eapply triple_bind with (R := fun _ => Tallied []).
    + destruct (ended g'); [|apply triple_ret; auto].
      eapply triple_bind with (R := fun _ => Tallied []).
      * apply (Hsort (fun _ a b => rank a - rank b)).
      * intros u5. destruct (gt_zero (teamSize opts)); [|apply triple_ret; auto].
        apply triple_modify. intros s H.
        apply (Tallied_sorted s (includedUsers (game s))
                 (sortBy Team (fun a b => team_id a - team_id b)
                    (sortBy Team (fun a b => team_rank a - team_rank b)
                            (teams (game s)))));
          [exact H|reflexivity| |reflexivity|reflexivity].
        etransitivity; apply sortBy_perm.
    + intros u6.
      eapply triple_bind; [apply (triple_field []); keepsG_tac'|]. intros u7.
      eapply triple_bind with (R := fun _ => Tallied []).
      * intros s t H. simpl. exact H.
      * intros s0. destruct (auto s0); [|apply triple_ret; auto].
        apply (triple_field []). keepsG_tac'.
Qed.

End RevealCounters.

Lemma exactAfter_lift {A} w gd (iv : A -> bool) (o : Outcome Sim A) :
  match o with
  | Starved _ => True
  | _ => Tallied [] (final o)
  end ->
  exactAfter (lift w gd iv o).
Proof.
  destruct o as [a s t| s t | s]; simpl; auto;
    intros [H1 [_ H3]] g' Hg'; unfold theGame in Hg'; simpl in Hg';
    inversion Hg'; subst; auto.
Qed.

(** X30. With teams on, simulating a day and revealing it keep the teams'
    alive counters exact: if no two players share an id, no id is on the
    teams twice and every team's counter is the number of its living
    members, the same holds after [nextDay] and after [printEvent], however
    they return: every kill, bleeding to death and resurrection moves the
    counter of the team the player is on by one. *)
Theorem team_counters_stay_exact pres sortBy w t gd g :
  (forall A cmp (l : list A), Permutation (sortBy A cmp l) l) ->
  games_id w = Some gd -> currentGame gd = Some g ->
  gt_zero (teamSize (options gd)) = true ->
  NoDup (map id (includedUsers g)) ->
  TeamsExact (includedUsers g) (teams g) ->
  exactAfter (nextDay pres w t) /\ exactAfter (printEvent sortBy w t).
Proof.
  intros Hperm Hgd Hg Hon Hnd HT.
  assert (Hinit : forall a o, Tallied [] (mkSim g a o)).
  { intros a o. split; [exact Hnd|]. split; [apply PoolOk_nil|exact HT]. }
  assert (Hsame : forall A (o : Outcome World A),
            theGame (final o) = Some g ->
            match o with Starved _ => True | _ => True end -> exactAfter o).
  { intros A o Ho _. destruct o; simpl in *; auto;
      intros g' Hg'; rewrite Ho in Hg'; inversion Hg'; subst; auto. }
  assert (Hw : theGame w = Some g) by (unfold theGame; rewrite Hgd; exact Hg).
  split.
  - unfold nextDay.
    destruct (nextDayWith_cases pres (S (List.length t)) w t gd g Hgd Hg)
      as [(e & w' & Heq & Hw' & _) | (_ & _ & Heq)]; rewrite Heq.
    + apply Hsame; auto.
    + apply exactAfter_lift.
      pose proof (simulateDay_tallied pres (options gd) Hon (S (List.length t))
                    (store w) (customEvents gd)
                    (mkSim g (autoPlay gd) []) t (Hinit _ _)) as H.
      destruct (simulateDay _ _ _ _ _ _ _); auto.
  - unfold printEvent. rewrite Hgd, Hg.
    destruct (_ =? len (events (day g))).
    + apply exactAfter_lift. unfold bind.
      pose proof (printDay_tallied sortBy Hperm (options gd)
                    (mkSim g (autoPlay gd) []) t (Hinit _ _)) as H.
      destruct (printDay _ _ _ _); auto.
    + destruct (if _ <? 0 then None else _) as [ev|].
      * apply exactAfter_lift. simpl. eapply Tallied_field; [|apply (Hinit (autoPlay gd) [])].
        reflexivity.
      * apply Hsame; auto.
Qed.

Lemma team_counters_stay_exact_witness :
  exactAfter (nextDay plainPresenter teamedWorld (zeros 8)) /\
  exactAfter (printEvent insertionSort teamedWorld []).
Proof.
  apply (team_counters_stay_exact plainPresenter insertionSort teamedWorld (zeros 8)
           _ _ insertionSort_perm eq_refl eq_refl eq_refl).
  - cbn. repeat constructor; cbn; intuition discriminate.
  - split.
    + cbn. repeat constructor; cbn; intuition discriminate.
    + repeat constructor.
Defined.
